(** * E-graph extraction engine: data model, result validation, greedy DAG
      extractor, redundant-node remover and partitioner.

    Shallow embedding of
      - include/egraph_serialize.hpp  (NodeId, ClassId, Node, Class, Data, EGraph)
      - include/extractor.hpp         (ExtractionResult)
      - include/faster_greedy_dag.hpp (UniqueQueue, FasterGreedyDagExtractor)
      - main.cpp                      (remove_redundant_nodes, egraph_partition)

    Conventions of the embedding.
      - [unsigned int] identifiers are [N]; the only arithmetic on them is the
        reserved pseudo-root constants [UINT_MAX - 1] and [UINT_MAX - 2 - idx].
      - [tsl::ordered_map] / [tsl::ordered_set] are association lists / lists in
        insertion order (the order the C++ iterators follow).
      - [std::unordered_map] / [std::unordered_set] are stdpp's [gmap] / [gset];
        where the C++ code iterates over one (an order the language leaves
        unspecified) the model follows [map_to_list].
      - [Cost] is [double] in the source.  The cost of a node is the rational
        value of a finite double.  Sums of costs round: [dadd] is IEEE 754
        binary64 addition, with the infinities and NaN, and module [F64] holds
        [tree_cost] and [dag_cost] with it, as [node_sum_cost] is.  The
        unrounded [tree_cost] and [dag_cost], and the extractor's totals (with
        the sentinel [+infinity] as [Inf] of [ecost]), add exactly: they are
        used for what does not depend on rounding -- which classes are
        summed and how often, which exceptions are raised, termination.
      - [literal + n] with a string literal and an [unsigned int] is pointer
        arithmetic, not concatenation: the message starts [n] characters
        into the literal, and the behaviour is undefined when [n] exceeds
        the literal's length ([literal_plus]).
      - a C++ exception is [Throw e]; loops and recursions whose termination is
        not structural take a [fuel] argument and return [NoFuel] when it runs
        out. *)

From Stdlib Require Import QArith Qround Lqa Sorted Qpower.
From Stdlib Require OrderedTypeEx.
From stdpp Require Import gmap strings list fin_maps.

(** ** Exceptions and the result monad *)

Inductive exn : Type :=
| RuntimeError (what : string)  (* std::runtime_error; the message's fixed part *)
| LogicError (what : string)    (* std::logic_error *)
| OutOfRange                    (* std::out_of_range, thrown by [at] *)
| AssertFailure                 (* a failed [assert] *)
| Undefined.                    (* behaviour the language leaves undefined *)

Inductive res (A : Type) : Type :=
| Ok (a : A)
| Throw (e : exn)
| NoFuel.
Arguments Ok {A} a.
Arguments Throw {A} e.
Arguments NoFuel {A}.

Definition rbind {A B} (m : res A) (k : A -> res B) : res B :=
  match m with
  | Ok a => k a
  | Throw e => Throw e
  | NoFuel => NoFuel
  end.

Notation "'let*' x ':=' m 'in' k" := (rbind m (fun x => k))
  (at level 10, x name, m at level 100, k at level 200).
Notation "'let*' ' p ':=' m 'in' k" :=
  (rbind m (fun x => match x with p => k end))
  (at level 10, p pattern, m at level 100, k at level 200).

Definition of_option {A} (e : exn) (o : option A) : res A :=
  match o with Some a => Ok a | None => Throw e end.


Definition throws {A} (r : res A) : Prop := exists e, r = Throw e.

(** ** Identifiers, nodes, descriptions (egraph_serialize.hpp) *)

Abbreviation ClassId := N.
Abbreviation NodeId := (N * N)%type.

Definition UINT_MAX : N := 4294967295%N.

Record Node : Type := mkNode {
  op : N;
  children : list ClassId;
  eclass : ClassId;
  cost : Q
}.

Definition is_leaf (n : Node) : bool :=
  match children n with [] => true | _ => false end.

Record Class : Type := mkClass {
  class_id : ClassId;
  class_nodes : list NodeId
}.

(** Insertion-ordered maps. *)
Abbreviation omap K V := (list (K * V)).

Section OrderedMap.
Context {K V : Type} `{EqDecision K}.

Fixpoint om_find (k : K) (m : omap K V) : option V :=
  match m with
  | [] => None
  | (k', v) :: m' => if decide (k = k') then Some v else om_find k m'
  end.

(** [insert]: keeps an existing entry. *)
Definition om_insert (k : K) (v : V) (m : omap K V) : omap K V :=
  match om_find k m with
  | Some _ => m
  | None => m ++ [(k, v)]
  end.

(** [m[k] = v]: overwrites in place, or appends. *)
Fixpoint om_set (k : K) (v : V) (m : omap K V) : omap K V :=
  match m with
  | [] => [(k, v)]
  | (k', v') :: m' =>
      if decide (k = k') then (k', v) :: m' else (k', v') :: om_set k v m'
  end.

(** [erase]: order preserving. *)
Fixpoint om_erase (k : K) (m : omap K V) : omap K V :=
  match m with
  | [] => []
  | (k', v') :: m' =>
      if decide (k = k') then m' else (k', v') :: om_erase k m'
  end.

Definition om_keys (m : omap K V) : list K := map fst m.
End OrderedMap.

Abbreviation node_map := (omap NodeId Node).
Abbreviation nodes_map := (omap ClassId node_map).

Record Data : Type := mkData {
  d_nodes : nodes_map;
  d_root_eclasses : list ClassId;
  d_op : list string
}.

Record EGraph : Type := mkEGraph {
  nodes : nodes_map;
  root_eclasses : list ClassId
}.

(** [EGraph::operator[](const NodeId&)] *)
Definition nodes_get (ns : nodes_map) (nid : NodeId) : res Node :=
  let* inner := of_option (RuntimeError "No nodes with class id")
                          (om_find (fst nid) ns) in
  of_option (RuntimeError "No node with id") (om_find nid inner).

Definition egraph_get (g : EGraph) (nid : NodeId) : res Node :=
  nodes_get (nodes g) nid.

(** [EGraph::nid_to_cid] *)
Definition nid_to_cid (g : EGraph) (nid : NodeId) : res ClassId :=
  let* n := egraph_get g nid in Ok (eclass n).

(** ** ExtractionResult (extractor.hpp) *)

Abbreviation choice_map := (omap ClassId NodeId).

(** [ExtractionResult::choose] is [choices.insert({class_id, node_id})]. *)
Definition choose (class_id : ClassId) (node_id : NodeId) (choices : choice_map)
  : choice_map :=
  om_insert class_id node_id choices.

(** *** [find_cycles] / [cycle_dfs] *)

Inductive Status : Type := Doing | Done.

Abbreviation status_map := (omap ClassId Status).

(** Runs [f] over a list, threading a state and stopping at the first
    exception (the body of a range-[for] whose body may throw). *)
Fixpoint for_each {A S : Type} (f : A -> S -> res S) (l : list A) (s : S)
  : res S :=
  match l with
  | [] => Ok s
  | a :: l' => let* s' := f a s in for_each f l' s'
  end.

(** The chosen node of a class: [egraph[choices.at(class_id)]]. *)
Definition chosen_node (g : EGraph) (choices : choice_map) (class_id : ClassId)
  : res Node :=
  let* node_id := of_option OutOfRange (om_find class_id choices) in
  egraph_get g node_id.

Fixpoint cycle_dfs (fuel : nat) (g : EGraph) (choices : choice_map)
    (class_id : ClassId) (st : status_map * list ClassId)
  : res (status_map * list ClassId) :=
  match fuel with
  | O => NoFuel
  | S fuel' =>
      let '(status, cycles) := st in
      match om_find class_id status with
      | Some Doing => Ok (status, cycles ++ [class_id])
      | Some Done => Ok (status, cycles)
      | None =>
          let status := om_set class_id Doing status in
          let* node := chosen_node g choices class_id in
          let* '(status, cycles) :=
            for_each (cycle_dfs fuel' g choices) (children node) (status, cycles) in
          Ok (om_set class_id Done status, cycles)
      end
  end.

Definition find_cycles (fuel : nat) (g : EGraph) (choices : choice_map)
    (roots : list ClassId) : res (list ClassId) :=
  let* '(_, cycles) := for_each (cycle_dfs fuel g choices) roots ([], []) in
  Ok cycles.

(** *** [check] *)

(** "All roots should be selected." *)
Definition check_roots (g : EGraph) (choices : choice_map) : res unit :=
  for_each (fun cid _ =>
              match om_find cid choices with
              | None => Throw (LogicError "Missing choice for root")
              | Some _ => Ok tt
              end) (root_eclasses g) tt.

(** "For every (ClassId, NodeId) in choices, ensure that the node's eclass
    matches." *)
Definition check_eclass_match (g : EGraph) (choices : choice_map) : res unit :=
  for_each (fun '(cid, nid) _ =>
              let* node := egraph_get g nid in
              if decide (eclass node = cid) then Ok tt
              else Throw (LogicError "Node eclass does not match its ClassId"))
           choices tt.

(** "All nodes that the roots depend upon should be selected."  [todo] is the
    C++ vector read from its back: the head of the list is [todo.back()]. *)
Fixpoint check_deps (fuel : nat) (g : EGraph) (choices : choice_map)
    (todo : list ClassId) (visited : gset ClassId) : res unit :=
  match fuel with
  | O => NoFuel
  | S fuel' =>
      match todo with
      | [] => Ok tt
      | cid :: todo' =>
          if decide (cid ∈ visited) then check_deps fuel' g choices todo' visited
          else
            let visited := {[cid]} ∪ visited in
            match om_find cid choices with
            | None => Throw (LogicError "Missing choice for root")
            | Some node_id =>
                let* node := egraph_get g node_id in
                check_deps fuel' g choices (rev (children node) ++ todo') visited
            end
      end
  end.

Definition check (fuel : nat) (g : EGraph) (choices : choice_map) : res unit :=
  match root_eclasses g with
  | [] => Throw AssertFailure
  | _ =>
      let* _ := check_roots g choices in
      let* cycles := find_cycles fuel g choices (root_eclasses g) in
      match cycles with
      | _ :: _ => Throw (LogicError "Cycle detected in extraction choices")
      | [] =>
          let* _ := check_eclass_match g choices in
          check_deps fuel g choices (rev (root_eclasses g)) ∅
      end
  end.

(** *** [tree_cost], every sum taken exactly

    The sums as the code rounds them are [F64.tree_cost] and [F64.dag_cost]
    below. *)

Abbreviation memo_map := (gmap NodeId Q).

(** The body of the loop over [roots]; [rec] is the recursive call. *)
Definition tree_step (g : EGraph) (choices : choice_map)
    (rec : list ClassId -> memo_map -> res (Q * memo_map))
    (root : ClassId) (st : Q * memo_map) : res (Q * memo_map) :=
  let '(cost_acc, memo) := st in
  let* root_node := of_option OutOfRange (om_find root choices) in
  match memo !! root_node with
  | Some c => Ok ((cost_acc + c)%Q, memo)
  | None =>
      let* node := egraph_get g root_node in
      let* '(sub, memo) := rec (children node) memo in
      let inner := (cost node + sub)%Q in
      let memo :=
        match memo !! root_node with
        | Some _ => memo
        | None => <[root_node := inner]> memo
        end in
      Ok ((cost_acc + inner)%Q, memo)
  end.

Fixpoint tree_cost_rec (fuel : nat) (g : EGraph) (choices : choice_map)
    (roots : list ClassId) (memo : memo_map) : res (Q * memo_map) :=
  match fuel with
  | O => NoFuel
  | S fuel' =>
      for_each (tree_step g choices (tree_cost_rec fuel' g choices))
               roots (0%Q, memo)
  end.

Definition tree_cost (fuel : nat) (g : EGraph) (choices : choice_map)
    (roots : list ClassId) : res Q :=
  let* '(c, _) := tree_cost_rec fuel g choices roots ∅ in Ok c.

(** *** [dag_cost], the final sum taken exactly *)

Abbreviation cost_table := (omap ClassId Q).

Fixpoint dag_cost_loop (fuel : nat) (g : EGraph) (choices : choice_map)
    (todo : list ClassId) (costs : cost_table) : res cost_table :=
  match fuel with
  | O => NoFuel
  | S fuel' =>
      match todo with
      | [] => Ok costs
      | cid :: todo' =>
          let* node := chosen_node g choices cid in
          match om_find cid costs with
          | Some _ => dag_cost_loop fuel' g choices todo' costs
          | None =>
              dag_cost_loop fuel' g choices (rev (children node) ++ todo')
                            (om_insert cid (cost node) costs)
          end
      end
  end.

Definition sum_costs (costs : cost_table) : Q :=
  fold_left (fun total kv => (total + snd kv)%Q) costs 0%Q.

Definition dag_cost (fuel : nat) (g : EGraph) (choices : choice_map)
    (roots : list ClassId) : res Q :=
  let* costs := dag_cost_loop fuel g choices (rev roots) [] in
  Ok (sum_costs costs).

(** ** [Cost = double]: rounded arithmetic

    A [double] is a finite value, one of the two infinities, or a NaN.  A
    finite value is the rational number it stands for (the two zeros are one
    value here: sums and comparisons do not tell them apart).  Addition
    follows IEEE 754 binary64 with round-to-nearest, ties to even: the exact
    sum is rounded to 53 significant bits (to a multiple of 2^-1074 in the
    subnormal range) and becomes an infinity when the rounded value reaches
    2^1024. *)

Inductive double : Type :=
| DFin (q : Q)
| DPInf
| DNInf
| DNaN.

(** [floor (log2 |q|)], for [q <> 0]. *)
Definition Qlog2 (q : Q) : Z :=
  let n := Z.abs (Qnum q) in
  let l := (Z.log2 n - Z.log2 (Zpos (Qden q)))%Z in
  if Qle_bool (2 ^ l) (n # Qden q) then l else (l - 1)%Z.

(** The nearest integer, the even one of two equally near. *)
Definition round_even (m : Q) : Z :=
  let f := Qfloor m in
  match (m - inject_Z f ?= 1 # 2)%Q with
  | Lt => f
  | Gt => (f + 1)%Z
  | Eq => if Z.even f then f else (f + 1)%Z
  end.

(** The exponent of the last place of the double nearest to [q]. *)
Definition last_place (q : Q) : Z := Z.max (Qlog2 q - 52) (-1074).

Definition round53 (q : Q) : Q :=
  if Qeq_bool q 0 then 0%Q
  else
    let e := last_place q in
    Qred (inject_Z (round_even (q / 2 ^ e)) * 2 ^ e).

(** The double a real result is delivered as. *)
Definition of_Q (q : Q) : double :=
  let r := round53 q in
  if Qle_bool (2 ^ 1024) r then DPInf
  else if Qle_bool r (- 2 ^ 1024) then DNInf
  else DFin r.

(** [a + b] *)
Definition dadd (a b : double) : double :=
  match a, b with
  | DNaN, _ | _, DNaN => DNaN
  | DPInf, DNInf | DNInf, DPInf => DNaN
  | DPInf, _ | _, DPInf => DPInf
  | DNInf, _ | _, DNInf => DNInf
  | DFin x, DFin y => of_Q (x + y)
  end.


(** ** [tree_cost] and [dag_cost] with rounded sums

    The same code as above, every [+] and [+=] on a [Cost] being [dadd].
    The cost table of [dag_cost] stores the node costs unchanged, so its
    loop is [dag_cost_loop]; only the final sum rounds. *)

Module F64.

Abbreviation memo_map := (gmap NodeId double).

Definition tree_step (g : EGraph) (choices : choice_map)
    (rec : list ClassId -> memo_map -> res (double * memo_map))
    (root : ClassId) (st : double * memo_map) : res (double * memo_map) :=
  let '(cost_acc, memo) := st in
  let* root_node := of_option OutOfRange (om_find root choices) in
  match memo !! root_node with
  | Some c => Ok (dadd cost_acc c, memo)
  | None =>
      let* node := egraph_get g root_node in
      let* '(sub, memo) := rec (children node) memo in
      let inner := dadd (DFin (cost node)) sub in
      let memo :=
        match memo !! root_node with
        | Some _ => memo
        | None => <[root_node := inner]> memo
        end in
      Ok (dadd cost_acc inner, memo)
  end.

Fixpoint tree_cost_rec (fuel : nat) (g : EGraph) (choices : choice_map)
    (roots : list ClassId) (memo : memo_map) : res (double * memo_map) :=
  match fuel with
  | O => NoFuel
  | S fuel' =>
      for_each (tree_step g choices (tree_cost_rec fuel' g choices))
               roots (DFin 0, memo)
  end.

Definition tree_cost (fuel : nat) (g : EGraph) (choices : choice_map)
    (roots : list ClassId) : res double :=
  let* '(c, _) := tree_cost_rec fuel g choices roots ∅ in Ok c.

Definition sum_costs (costs : cost_table) : double :=
  fold_left (fun total kv => dadd total (DFin (snd kv))) costs (DFin 0).

Definition dag_cost (fuel : nat) (g : EGraph) (choices : choice_map)
    (roots : list ClassId) : res double :=
  let* costs := dag_cost_loop fuel g choices (rev roots) [] in
  Ok (sum_costs costs).

End F64.

(** ** [EGraph::classes] (egraph_serialize.hpp) *)

Abbreviation classes_map := (omap ClassId Class).

Definition classes_add (cls : classes_map) (entry : NodeId * Node) : classes_map :=
  let '(node_id, node) := entry in
  let cid := eclass node in
  let cls := match om_find cid cls with
             | None => om_set cid (mkClass cid []) cls
             | Some _ => cls
             end in
  match om_find cid cls with
  | Some c => om_set cid (mkClass (class_id c) (class_nodes c ++ [node_id])) cls
  | None => cls
  end.

(** All (NodeId, Node) entries in iteration order: outer map, then inner. *)
Definition all_nodes (ns : nodes_map) : list (NodeId * Node) :=
  concat (map snd ns).

(** The grouping [EGraph::classes()] computes, and stores in its cache,
    when the cache is empty.  The accessor with its cache is
    [Cached.classes] below; what follows reads [classes g], that is, takes a
    graph whose cache is empty or up to date, as the graphs main.cpp loads
    are. *)
Definition classes (g : EGraph) : classes_map :=
  fold_left classes_add (all_nodes (nodes g)) [].

(** ** Greedy DAG extractor (faster_greedy_dag.hpp) *)

(** Costs extended with the [+infinity] sentinel. *)
Inductive ecost : Type := Fin (q : Q) | Inf.

Definition Qltb (x y : Q) : bool := negb (Qle_bool y x).

(** [a < b] on extended costs. *)
Definition ecost_ltb (a b : ecost) : bool :=
  match a, b with
  | Fin x, Fin y => Qltb x y
  | Fin _, Inf => true
  | Inf, _ => false
  end.

Definition ecost_add (a b : ecost) : ecost :=
  match a, b with
  | Fin x, Fin y => Fin (x + y)%Q
  | _, _ => Inf
  end.

(** *** [UniqueQueue] *)

Record UniqueQueue : Type := mkUQ {
  uq_set : gset NodeId;
  uq_queue : list NodeId
}.

Definition uq_empty : UniqueQueue := mkUQ ∅ [].

Definition uq_insert (t : NodeId) (q : UniqueQueue) : UniqueQueue :=
  if decide (t ∈ uq_set q) then q
  else mkUQ ({[t]} ∪ uq_set q) (uq_queue q ++ [t]).

Definition uq_extend (ts : list NodeId) (q : UniqueQueue) : UniqueQueue :=
  fold_left (fun q t => uq_insert t q) ts q.

Definition uq_pop (q : UniqueQueue) : option (NodeId * UniqueQueue) :=
  match uq_queue q with
  | [] => None
  | front :: rest => Some (front, mkUQ (uq_set q ∖ {[front]}) rest)
  end.

(** *** [CostSet] *)

Record CostSet : Type := mkCostSet {
  cs_costs : gmap ClassId Q;
  cs_total : ecost;
  cs_choice : NodeId
}.

Abbreviation cost_sets := (gmap ClassId CostSet).

(** [std::sort] followed by [std::unique] on a vector of class ids. *)
Fixpoint sorted_insert (x : ClassId) (l : list ClassId) : list ClassId :=
  match l with
  | [] => [x]
  | y :: l' => if (x <=? y)%N then x :: l else y :: sorted_insert x l'
  end.

Definition sort_ids (l : list ClassId) : list ClassId :=
  foldr sorted_insert [] l.

Fixpoint unique_adjacent (l : list ClassId) : list ClassId :=
  match l with
  | [] => []
  | x :: l' =>
      match l' with
      | y :: _ => if decide (x = y) then unique_adjacent l'
                  else x :: unique_adjacent l'
      | [] => [x]
      end
  end.

Definition sort_unique (l : list ClassId) : list ClassId :=
  unique_adjacent (sort_ids l).

(** [for (pair : m) result_map.insert(pair)]: existing entries win. *)
Definition insert_all (result_map m : gmap ClassId Q) : gmap ClassId Q :=
  fold_left (fun acc kv =>
               match acc !! fst kv with
               | Some _ => acc
               | None => <[fst kv := snd kv]> acc
               end) (map_to_list m) result_map.

(** [for (pair : m) result_cost += pair.second] *)
Definition sum_values (m : gmap ClassId Q) : Q :=
  fold_left (fun total kv => (total + snd kv)%Q) (map_to_list m) 0%Q.

(** The child whose cost set has the most entries (first one on ties). *)
Definition find_biggest (costs : cost_sets) (childrens_classes : list ClassId)
    (first : ClassId) : ClassId :=
  snd (fold_left
         (fun '(max_size, id_of_biggest) child_cid =>
            match costs !! child_cid with
            | Some cs =>
                if (max_size <? size (cs_costs cs))%nat
                then (size (cs_costs cs), child_cid)
                else (max_size, id_of_biggest)
            | None => (max_size, id_of_biggest)
            end)
         childrens_classes (0%nat, first)).

Definition calculate_cost_set (g : EGraph) (node_id : NodeId)
    (costs : cost_sets) (best_cost : ecost) : res CostSet :=
  let* node := egraph_get g node_id in
  let* cid := nid_to_cid g node_id in
  match children node with
  | [] => Ok (mkCostSet {[cid := cost node]} (Fin (cost node)) node_id)
  | _ :: _ =>
      let childrens_classes := sort_unique (children node) in
      match childrens_classes with
      | [] => Ok (mkCostSet ∅ Inf node_id)
      | first :: _ =>
          match costs !! first with
          | None => Ok (mkCostSet ∅ Inf node_id)
          | Some first_cost =>
              let contains_cid := bool_decide (cid ∈ childrens_classes) in
              if contains_cid
                 || ((length childrens_classes =? 1)%nat
                     && ecost_ltb best_cost
                          (ecost_add (Fin (cost node)) (cs_total first_cost)))
              then Ok (mkCostSet ∅ Inf node_id)
              else
                let id_of_biggest := find_biggest costs childrens_classes first in
                let result_map :=
                  match costs !! id_of_biggest with
                  | Some cs => cs_costs cs
                  | None => ∅
                  end in
                let result_map :=
                  fold_left
                    (fun acc child_cid =>
                       if decide (child_cid = id_of_biggest) then acc
                       else match costs !! child_cid with
                            | Some cs => insert_all acc (cs_costs cs)
                            | None => acc
                            end)
                    childrens_classes result_map in
                let already_contains := bool_decide (is_Some (result_map !! cid)) in
                let result_map := <[cid := cost node]> result_map in
                let result_cost :=
                  if already_contains then Inf else Fin (sum_values result_map) in
                Ok (mkCostSet result_map result_cost node_id)
          end
      end
  end.

(** *** [FasterGreedyDagExtractor::extract] *)

Abbreviation parents_map := (omap ClassId (list NodeId)).

(** [parents[child].push_back(node_id)] *)
Definition parents_push (child : ClassId) (node_id : NodeId) (parents : parents_map)
  : parents_map :=
  om_set child (default [] (om_find child parents) ++ [node_id]) parents.

(** The two set-up loops: empty parent lists for every class, then parent
    links and the initial queue of leaves. *)
Definition init_parents (cls : classes_map) : parents_map :=
  fold_left (fun parents kv => om_set (fst kv) [] parents) cls [].

Definition setup_node (g : EGraph) (node_id : NodeId)
    (st : parents_map * UniqueQueue) : res (parents_map * UniqueQueue) :=
  let '(parents, analysis_pending) := st in
  let* node := egraph_get g node_id in
  let parents :=
    fold_left (fun parents child => parents_push child node_id parents)
              (children node) parents in
  let analysis_pending :=
    if is_leaf node then uq_insert node_id analysis_pending
    else analysis_pending in
  Ok (parents, analysis_pending).

Definition extract_setup (g : EGraph) : res (parents_map * UniqueQueue) :=
  let classes_map := classes g in
  for_each (fun kv st => for_each (setup_node g) (class_nodes (snd kv)) st)
           classes_map (init_parents classes_map, uq_empty).

(** One iteration of the worklist loop on the popped [node_id]. *)
Definition extract_step (g : EGraph) (parents : parents_map) (node_id : NodeId)
    (st : UniqueQueue * cost_sets) : res (UniqueQueue * cost_sets) :=
  let '(analysis_pending, costs) := st in
  let* class_id := nid_to_cid g node_id in
  let* node := egraph_get g node_id in
  if forallb (fun child_cid => bool_decide (is_Some (costs !! child_cid)))
             (children node)
  then
    let prev_cost := match costs !! class_id with
                     | Some cs => cs_total cs
                     | None => Inf
                     end in
    let* cost_set := calculate_cost_set g node_id costs prev_cost in
    if ecost_ltb (cs_total cost_set) prev_cost then
      let costs := <[class_id := cost_set]> costs in
      let analysis_pending :=
        match om_find class_id parents with
        | Some ps => uq_extend ps analysis_pending
        | None => analysis_pending
        end in
      Ok (analysis_pending, costs)
    else Ok (analysis_pending, costs)
  else Ok (analysis_pending, costs).

Fixpoint extract_loop (fuel : nat) (g : EGraph) (parents : parents_map)
    (st : UniqueQueue * cost_sets) : res cost_sets :=
  match fuel with
  | O => NoFuel
  | S fuel' =>
      match uq_pop (fst st) with
      | None => Ok (snd st)
      | Some (node_id, analysis_pending) =>
          let* st' := extract_step g parents node_id (analysis_pending, snd st) in
          extract_loop fuel' g parents st'
      end
  end.

(** The cost sets the worklist loop ends with. *)
Definition extract_costs (fuel : nat) (g : EGraph) : res cost_sets :=
  let* '(parents, analysis_pending) := extract_setup g in
  extract_loop fuel g parents (analysis_pending, ∅).

(** [for (p : costs) result.choose(p.first, p.second.choice)] *)
Definition choices_of (costs : cost_sets) : choice_map :=
  fold_left (fun result p => choose (fst p) (cs_choice (snd p)) result)
            (map_to_list costs) [].

(** The [roots] parameter is unnamed in the source and never read. *)
Definition extract (fuel : nat) (g : EGraph) (roots : list ClassId)
  : res choice_map :=
  let* costs := extract_costs fuel g in
  Ok (choices_of costs).

(** *** The spec's end-to-end scenarios *)

Definition leaf (c : ClassId) (q : Q) : Node := mkNode 0 [] c q.

(** A: one class, one leaf of cost 3, sole root. *)
Definition scenario_A : EGraph :=
  mkEGraph [(0%N, [((0%N, 0%N), leaf 0 3)])] [0%N].

(** B: root class 0 with X (cost 1, child class 1) and Y (cost 5, leaf);
    class 1 has one leaf of cost 1. *)
Definition scenario_B : EGraph :=
  mkEGraph [(0%N, [((0%N, 0%N), mkNode 0 [1%N] 0 1); ((0%N, 1%N), leaf 0 5)]);
            (1%N, [((1%N, 0%N), leaf 1 1)])] [0%N].

(** C: class 0's only node has child 1, class 1's only node has child 0. *)
Definition scenario_C : EGraph :=
  mkEGraph [(0%N, [((0%N, 0%N), mkNode 0 [1%N] 0 1)]);
            (1%N, [((1%N, 0%N), mkNode 0 [0%N] 1 1)])] [0%N].

(** ** [std::map]: association lists kept sorted by the key order *)

Section SortedMap.
Context {K V : Type} `{EqDecision K} (ltb : K -> K -> bool).

(** [m[k] = f(m[k])], creating the entry (from [f None]) when absent. *)
Fixpoint sm_update (k : K) (f : option V -> V) (m : list (K * V))
  : list (K * V) :=
  match m with
  | [] => [(k, f None)]
  | (k', v) :: m' =>
      if decide (k = k') then (k', f (Some v)) :: m'
      else if ltb k k' then (k, f None) :: m
      else (k', v) :: sm_update k f m'
  end.
End SortedMap.

(** [operator<] of [std::pair<ClassId, size_t>] and of vectors of them. *)
Definition pair_ltb (a b : ClassId * nat) : bool :=
  (fst a <? fst b)%N || (negb (fst b <? fst a)%N && (snd a <? snd b)%nat).

Fixpoint vec_ltb (l1 l2 : list (ClassId * nat)) : bool :=
  match l1, l2 with
  | _, [] => false
  | [], _ :: _ => true
  | x :: xs, y :: ys =>
      if pair_ltb x y then true
      else if pair_ltb y x then false
      else vec_ltb xs ys
  end.

(** ** [remove_redundant_nodes] (main.cpp) *)

Abbreviation eclass_collect_map := (gmap ClassId (list NodeId)).

(** "Step 1: Group node ids by their eclass." *)
Definition collect_eclasses (ns : nodes_map) : eclass_collect_map :=
  fold_left
    (fun acc kv =>
       fold_left (fun acc kw =>
                    <[fst kv := default [] (acc !! fst kv) ++ [fst kw]]> acc)
                 (snd kv) acc)
    ns ∅.

(** The frequency vector of a child list: [(child, count)] pairs in
    increasing order of the child. *)
Definition freq_vec (children_hashes : list ClassId) : list (ClassId * nat) :=
  fold_left (fun freq_map elem =>
               sm_update N.ltb elem (fun o => S (default 0%nat o)) freq_map)
            children_hashes [].

Abbreviation group_map := (list (list (ClassId * nat) * list NodeId)).

(** "Step 2": the node lookup and the insertion into [grouped]. *)
Definition group_node (ns : nodes_map) (node_id : NodeId) (grouped : group_map)
  : res group_map :=
  let* inner := of_option (RuntimeError "Node not found for class id")
                          (om_find (fst node_id) ns) in
  let* node := of_option (RuntimeError "Node not found for id")
                         (om_find node_id inner) in
  Ok (sm_update vec_ltb (freq_vec (children node))
                (fun o => default [] o ++ [node_id]) grouped).

(** "Step 3": erase one node from the description. *)
Definition erase_node (item : NodeId) (ns : nodes_map) : res nodes_map :=
  let* inner_map := of_option OutOfRange (om_find (fst item) ns) in
  match om_find item inner_map with
  | Some _ => Ok (om_set (fst item) (om_erase item inner_map) ns)
  | None => Throw (RuntimeError "Node not found for id")
  end.

Definition prune_group (group : list (ClassId * nat) * list NodeId)
    (ns : nodes_map) : res nodes_map :=
  match snd group with
  | _ :: ((_ :: _) as others) => for_each erase_node others ns
  | _ => Ok ns
  end.

Definition dedup_class (ec_pair : ClassId * list NodeId) (ns : nodes_map)
  : res nodes_map :=
  let* grouped := for_each (group_node ns) (snd ec_pair) [] in
  for_each prune_group grouped ns.

Definition remove_redundant_nodes (data : Data) : res Data :=
  let eclass_collect := collect_eclasses (d_nodes data) in
  let* ns := for_each dedup_class (map_to_list eclass_collect) (d_nodes data) in
  Ok (mkData ns (d_root_eclasses data) (d_op data)).

(** ** [egraph_partition] (main.cpp) *)

(** The reserved class of the pseudo-root: [UINT_MAX - 1]. *)
Definition PSEUDO_ROOT : ClassId := (UINT_MAX - 1)%N.

(** [static_cast<unsigned int>(UINT_MAX - 2 - idx)]: computed in [size_t],
    truncated to 32 bits. *)
Definition sub_pseudo_root (idx : nat) : ClassId :=
  Z.to_N ((Z.of_N UINT_MAX - 2 - Z.of_nat idx) mod 2 ^ 32)%Z.

Abbreviation parent_links := (gmap ClassId (list NodeId)).

(** Parent links: every child must name a class that has a node. *)
Definition link_node (mutable_nodes : nodes_map) (entry : NodeId * Node)
    (parents : parent_links) : res parent_links :=
  for_each
    (fun child_class parents =>
       match om_find child_class mutable_nodes with
       | Some (_ :: _) =>
           Ok (<[child_class :=
                   default [] (parents !! child_class) ++ [fst entry]]> parents)
       | _ => Throw (RuntimeError "Child node not found for eclass")
       end)
    (children (snd entry)) parents.

Definition build_parents (mutable_nodes : nodes_map) : res parent_links :=
  for_each (link_node mutable_nodes) (all_nodes mutable_nodes) ∅.

(** "Determine root nodes": one entry per node whose class has no parent. *)
Definition compute_roots (mutable_nodes : nodes_map) (parents : parent_links)
  : list ClassId :=
  fold_left (fun root entry =>
               match parents !! eclass (snd entry) with
               | None => root ++ [eclass (snd entry)]
               | Some _ => root
               end)
            (all_nodes mutable_nodes) [].

(** Position of ["pseudo_root"] in the operator table, appended if absent. *)
Fixpoint index_of (s : string) (l : list string) : option nat :=
  match l with
  | [] => None
  | x :: l' => if decide (x = s) then Some 0%nat
               else S <$> index_of s l'
  end.

Definition pseudo_root_op (ops : list string) : list string * N :=
  match index_of "pseudo_root" ops with
  | None => (ops ++ ["pseudo_root"%string], N.of_nat (length ops))
  | Some i => (ops, N.of_nat i)
  end.

(** "If more than one root is found, add a pseudo-root." *)
Definition add_pseudo_root (ops : list string) (mutable_nodes : nodes_map)
    (root : list ClassId) : list string * nodes_map * list ClassId :=
  match root with
  | _ :: _ :: _ =>
      let '(ops, op_idx) := pseudo_root_op ops in
      let pseudo_root := mkNode op_idx root PSEUDO_ROOT 0 in
      let new_nodes := [((PSEUDO_ROOT, 0%N), pseudo_root)] in
      (ops, om_set PSEUDO_ROOT new_nodes mutable_nodes, [PSEUDO_ROOT])
  | _ => (ops, mutable_nodes, root)
  end.

(** [current_count >= num] with [num = float(size) / partition_num]:
    for [partition_num = 0] the quotient is [+infinity]. *)
Definition reached (current_count size partition_num : nat) : bool :=
  match partition_num with
  | O => false
  | _ => (size <=? current_count * partition_num)%nat
  end.

(** [tsl::ordered_set::insert] *)
Definition oset_insert (c : ClassId) (s : list ClassId) : list ClassId :=
  if decide (c ∈ s) then s else s ++ [c].

(** ["literal" + n], as the argument of [std::runtime_error]. *)
Definition literal_plus (literal : string) (n : N) : exn :=
  if (n <=? N.of_nat (String.length literal))%N
  then RuntimeError (String.substring (N.to_nat n)
                       (String.length literal - N.to_nat n) literal)
  else Undefined.

Definition NOT_IN_COLLECT : string := "class_id not found in eclass_collect: ".

Record bfs_state : Type := mkBfs {
  bfs_queue : list ClassId;
  bfs_visited : gset ClassId;
  bfs_subgraphs : list (list ClassId);
  bfs_current : list ClassId;
  bfs_count : nat
}.

(** The scan of one class's nodes: count them, enqueue unvisited children. *)
Definition scan_node (mutable_nodes : nodes_map) (class_node : NodeId)
    (st : bfs_state) : res bfs_state :=
  let* inner := of_option OutOfRange (om_find (fst class_node) mutable_nodes) in
  let* node := of_option OutOfRange (om_find class_node inner) in
  Ok (fold_left
        (fun st child_eclass =>
           if decide (child_eclass ∈ bfs_visited st) then st
           else mkBfs (bfs_queue st ++ [child_eclass])
                      ({[child_eclass]} ∪ bfs_visited st)
                      (bfs_subgraphs st) (bfs_current st) (bfs_count st))
        (children node)
        (mkBfs (bfs_queue st) (bfs_visited st) (bfs_subgraphs st)
               (bfs_current st) (S (bfs_count st)))).

Fixpoint bfs_loop (fuel : nat) (mutable_nodes : nodes_map)
    (eclass_collect : eclass_collect_map) (size partition_num : nat)
    (st : bfs_state) : res bfs_state :=
  match fuel with
  | O => NoFuel
  | S fuel' =>
      match bfs_queue st with
      | [] => Ok st
      | class_id :: queue =>
          let current := oset_insert class_id (bfs_current st) in
          let sealed := reached (bfs_count st) size partition_num in
          let subgraphs :=
            if sealed then bfs_subgraphs st ++ [current] else bfs_subgraphs st in
          let st1 := mkBfs queue (bfs_visited st) subgraphs
                           (if sealed then [] else current)
                           (if sealed then 0%nat else bfs_count st) in
          if sealed && bool_decide (length subgraphs = partition_num)
          then Ok st1
          else
            match eclass_collect !! class_id with
            | Some class_nodes =>
                let* st2 := for_each (scan_node mutable_nodes) class_nodes st1 in
                bfs_loop fuel' mutable_nodes eclass_collect size partition_num st2
            | None => Throw (literal_plus NOT_IN_COLLECT class_id)
            end
      end
  end.

(** *** Building the sub-description of one bucket *)

(** [subgraph_map[class_id][node_id] = node] *)
Definition sub_put (class_id : ClassId) (node_id : NodeId) (node : Node)
    (subgraph_map : nodes_map) : nodes_map :=
  om_set class_id (om_set node_id node (default [] (om_find class_id subgraph_map)))
         subgraph_map.

Definition collect_bucket (mutable_nodes : nodes_map)
    (eclass_collect : eclass_collect_map) (subgraph : list ClassId) : nodes_map :=
  fold_left
    (fun subgraph_map class_id =>
       match eclass_collect !! class_id, om_find class_id mutable_nodes with
       | Some ids, Some inner =>
           fold_left (fun subgraph_map node_id =>
                        match om_find node_id inner with
                        | Some node => sub_put class_id node_id node subgraph_map
                        | None => subgraph_map
                        end) ids subgraph_map
       | _, _ => subgraph_map
       end)
    subgraph [].

(** First pass: children outside the bucket, and in-bucket parent links. *)
Definition split_children (subgraph_map : nodes_map)
  : gmap NodeId (list ClassId) * parent_links :=
  fold_left
    (fun acc entry =>
       fold_left
         (fun '(to_remove, subgraph_parents) child_eclass =>
            match om_find child_eclass subgraph_map with
            | None =>
                (<[fst entry := default [] (to_remove !! fst entry)
                                ++ [child_eclass]]> to_remove,
                 subgraph_parents)
            | Some _ =>
                (to_remove,
                 <[child_eclass := default [] (subgraph_parents !! child_eclass)
                                   ++ [fst entry]]> subgraph_parents)
            end)
         (children (snd entry)) acc)
    (all_nodes subgraph_map) (∅, ∅).

(** Second pass: cut the child references that leave the bucket. *)
Definition prune_children (to_remove : gmap NodeId (list ClassId))
    (subgraph_map : nodes_map) : nodes_map :=
  map (fun outer =>
         (fst outer,
          map (fun inner =>
                 match to_remove !! fst inner with
                 | Some children_to_remove =>
                     (fst inner,
                      mkNode (op (snd inner))
                             (filter (fun c => c ∉ children_to_remove)
                                     (children (snd inner)))
                             (eclass (snd inner)) (cost (snd inner)))
                 | None => inner
                 end) (snd outer)))
      subgraph_map.

Definition bucket_roots (subgraph_map : nodes_map)
    (subgraph_parents : parent_links) : list ClassId :=
  fold_left (fun subgraph_root pair =>
               match subgraph_parents !! fst pair with
               | None => oset_insert (fst pair) subgraph_root
               | Some _ => subgraph_root
               end) subgraph_map [].

Definition build_subgraph (mutable_nodes : nodes_map)
    (eclass_collect : eclass_collect_map) (idx : nat) (subgraph : list ClassId)
    (ops : list string) : res (list string * Data) :=
  let subgraph_map := collect_bucket mutable_nodes eclass_collect subgraph in
  let '(to_remove, subgraph_parents) := split_children subgraph_map in
  let subgraph_map := prune_children to_remove subgraph_map in
  let subgraph_root := bucket_roots subgraph_map subgraph_parents in
  let '(ops, subgraph_map, subgraph_root) :=
    match subgraph_root with
    | _ :: _ :: _ =>
        let '(ops, op_idx) := pseudo_root_op ops in
        let pseudo_root := mkNode op_idx subgraph_root PSEUDO_ROOT 0 in
        let new_nodes := [((sub_pseudo_root idx, 0%N), pseudo_root)] in
        (ops, om_set (sub_pseudo_root idx) new_nodes subgraph_map,
         [sub_pseudo_root idx])
    | _ => (ops, subgraph_map, subgraph_root)
    end in
  if decide (length subgraph_root = 1%nat)
  then Ok (ops, mkData subgraph_map subgraph_root [])
  else Throw AssertFailure.

Fixpoint build_subgraphs (mutable_nodes : nodes_map)
    (eclass_collect : eclass_collect_map) (idx : nat)
    (subgraphs : list (list ClassId)) (ops : list string)
  : res (list string * list Data) :=
  match subgraphs with
  | [] => Ok (ops, [])
  | subgraph :: rest =>
      let* '(ops, new_data) :=
        build_subgraph mutable_nodes eclass_collect idx subgraph ops in
      let* '(ops, files) :=
        build_subgraphs mutable_nodes eclass_collect (S idx) rest ops in
      Ok (ops, new_data :: files)
  end.

(** *** The whole function

    [partition_num] is the caller's [round(1 / factor)].  The result carries
    the buckets ([subgraphs]), the sub-descriptions written to the
    [subgraph_<idx>.json] files, and the operator table left in [data]. *)

Record partition : Type := mkPartition {
  p_subgraphs : list (list ClassId);
  p_files : list Data;
  p_op : list string;
  p_partition_num : nat
}.

(** The part up to the partition-count guard: the working copy of the nodes
    (with the pseudo-root when one is added), the root list, the operator
    table. *)
Definition partition_setup (data : Data)
  : res (list string * nodes_map * list ClassId) :=
  let mutable_nodes := d_nodes data in
  let* parents := build_parents mutable_nodes in
  let root := compute_roots mutable_nodes parents in
  Ok (add_pseudo_root (d_op data) mutable_nodes root).

Definition NOT_ENOUGH : exn :=
  RuntimeError "Not enough nodes to partition (nodes.size() <= partition_num)".

Definition partition_buckets (fuel : nat) (data : Data) (partition_num : nat)
  : res (list string * nodes_map * eclass_collect_map * list (list ClassId)) :=
  let* '(ops, mutable_nodes, root) := partition_setup data in
  let eclass_collect := collect_eclasses (d_nodes data) in
  if (length mutable_nodes <=? partition_num)%nat then Throw NOT_ENOUGH
  else
    let* root0 := of_option Undefined (head root) in
    let* st := bfs_loop fuel mutable_nodes eclass_collect
                        (length mutable_nodes) partition_num
                        (mkBfs [root0] ∅ [] [] 0) in
    let subgraphs :=
      match bfs_current st with
      | [] => bfs_subgraphs st
      | _ :: _ => bfs_subgraphs st ++ [bfs_current st]
      end in
    let union_subgraphs : gset ClassId := list_to_set (concat subgraphs) in
    let eclass_keys : gset ClassId := dom eclass_collect in
    if decide (union_subgraphs = eclass_keys)
    then Ok (ops, mutable_nodes, eclass_collect, subgraphs)
    else Throw AssertFailure.

Definition egraph_partition (fuel : nat) (data : Data) (partition_num : nat)
  : res partition :=
  let* '(ops, mutable_nodes, eclass_collect, subgraphs) :=
    partition_buckets fuel data partition_num in
  let* '(ops, files) :=
    build_subgraphs mutable_nodes eclass_collect 0 subgraphs ops in
  Ok (mkPartition subgraphs files ops partition_num).

(** * Invariants and specification-level notions used by the theorems *)

(** ** Extractor *)

(** Every recorded cost set has a finite total and was computed for a node
    of the class it is recorded under. *)
Definition costs_ok (g : EGraph) (costs : cost_sets) : Prop :=
  forall c cs, costs !! c = Some cs ->
    nid_to_cid g (cs_choice cs) = Ok c /\ exists q, cs_total cs = Fin q.

(** ** Partitioner *)

(** One class, one leaf node. *)
Definition single_class : Data :=
  mkData [(0%N, [((0%N, 0%N), leaf 0 1)])] [0%N] [].

(** Two root classes, 0 and 1; class 0 has two member nodes. *)
Definition two_roots : Data :=
  mkData [(0%N, [((0%N, 0%N), mkNode 0 [2%N] 0 1); ((0%N, 1%N), leaf 0 1)]);
          (1%N, [((1%N, 0%N), mkNode 0 [2%N] 1 1)]);
          (2%N, [((2%N, 0%N), leaf 2 1)])] [] [].

(** A description that uses the reserved class [UINT_MAX - 1] as an ordinary
    class (a child of class 2), next to the two roots 0 and 1. *)
Definition reserved_clash : Data :=
  mkData [(0%N, [((0%N, 0%N), leaf 0 1)]);
          (1%N, [((1%N, 0%N), mkNode 0 [2%N] 1 1)]);
          (2%N, [((2%N, 0%N), mkNode 0 [PSEUDO_ROOT] 2 1)]);
          (PSEUDO_ROOT, [((PSEUDO_ROOT, 0%N), leaf PSEUDO_ROOT 1)])] [] [].

(** A chain 0 -> 1 -> 2 -> 3 of single-node classes. *)
Definition chain4 : Data :=
  mkData [(0%N, [((0%N, 0%N), mkNode 0 [1%N] 0 1)]);
          (1%N, [((1%N, 0%N), mkNode 0 [2%N] 1 1)]);
          (2%N, [((2%N, 0%N), mkNode 0 [3%N] 2 1)]);
          (3%N, [((3%N, 0%N), leaf 3 1)])] [] [].

(** The classes of a description: the keys that own at least one node. *)
Definition has_class (data : Data) (c : ClassId) : Prop :=
  exists inner, (c, inner) ∈ d_nodes data /\ inner <> [].

(** No class sits in two buckets. *)
Definition pairwise_disjoint (buckets : list (list ClassId)) : Prop :=
  forall i j b1 b2 c,
    i <> j -> buckets !! i = Some b1 -> buckets !! j = Some b2 ->
    c ∈ b1 -> c ∉ b2.

(** Everything the traversal has popped or still holds, in order. *)
Definition bfs_all (st : bfs_state) : list ClassId :=
  concat (bfs_subgraphs st) ++ bfs_current st ++ bfs_queue st.

Definition bfs_inv (root0 : ClassId) (st : bfs_state) : Prop :=
  NoDup (bfs_all st) /\
  forall c, c ∈ bfs_all st -> c = root0 \/ c ∈ bfs_visited st.

(** ** Redundant-node remover *)

(** Keys strictly increasing along the list. *)
Definition sm_sorted {K V : Type} (ltb : K -> K -> bool) (m : list (K * V))
  : Prop :=
  StronglySorted (fun a b => ltb (fst a) (fst b) = true) m.

(** The representation invariant of a description: class keys are unique,
    node ids are unique within a class, and the first component of a node id
    is the class it is stored under (what [from_json] builds). *)
Definition wf_nodes (ns : nodes_map) : Prop :=
  NoDup (om_keys ns) /\
  forall c inner, (c, inner) ∈ ns ->
    NoDup (om_keys inner) /\ forall nid, nid ∈ om_keys inner -> fst nid = c.

Definition wf_data (data : Data) : Prop := wf_nodes (d_nodes data).

(** The remover, following the spec's words: within a class, a node is kept
    iff no earlier node of the class references the same multiset of child
    classes. *)
Fixpoint spec_dedup_from (seen : list (list ClassId)) (ns : node_map)
  : node_map :=
  match ns with
  | [] => []
  | (nid, n) :: rest =>
      if bool_decide (Exists (fun s => s ≡ₚ children n) seen)
      then spec_dedup_from seen rest
      else (nid, n) :: spec_dedup_from (seen ++ [children n]) rest
  end.

Definition spec_dedup (ns : node_map) : node_map := spec_dedup_from [] ns.

Definition spec_remove_redundant (data : Data) : Data :=
  mkData (map (fun kv => (fst kv, spec_dedup (snd kv))) (d_nodes data))
         (d_root_eclasses data) (d_op data).

(** The description used to exercise the remover: class 0 has five nodes,
    three of which reference the multiset {1, 1, 2} and two of which are
    leaves. *)
Definition redundant_example : Data :=
  mkData
    [(0%N, [((0%N, 0%N), mkNode 0 [1%N; 2%N; 1%N] 0 1);
            ((0%N, 1%N), mkNode 1 [] 0 2);
            ((0%N, 2%N), mkNode 2 [1%N; 1%N; 2%N] 0 3);
            ((0%N, 3%N), mkNode 3 [] 0 1);
            ((0%N, 4%N), mkNode 4 [2%N; 1%N; 1%N] 0 1)]);
     (1%N, [((1%N, 0%N), leaf 1 1); ((1%N, 5%N), leaf 1 2)]);
     (2%N, [((2%N, 0%N), leaf 2 1)])] [0%N] [].

(** The grouping key of a node id, looked up the way [group_node] does. *)
Definition sig_of (ns : nodes_map) (node_id : NodeId)
  : option (list (ClassId * nat)) :=
  inner ← om_find (fst node_id) ns;
  node ← om_find node_id inner;
  Some (freq_vec (children node)).

(** The ids a class loses: every member of a group but the first. *)
Definition redundant_ids (grouped : group_map) : list NodeId :=
  concat (map (fun group => tail (snd group)) grouped).

(** The description after the classes in [S] have been processed. *)
Definition dedup_in (S : list ClassId) (kv : ClassId * node_map)
  : ClassId * node_map :=
  (fst kv, if decide (fst kv ∈ S) then spec_dedup (snd kv) else snd kv).

(** ** Result validation: the conditions [check] tests, stated on the graph *)

Section ChoiceGraph.
Context (g : EGraph) (choices : choice_map).

(** [k] is a child of the node chosen for [c]. *)
Definition child_edge (c k : ClassId) : Prop :=
  exists node, chosen_node g choices c = Ok node /\ k ∈ children node.

(** Reachable from a root through chosen nodes' children. *)
Definition reachable (roots : list ClassId) (c : ClassId) : Prop :=
  exists r, r ∈ roots /\ rtc child_edge r c.

(** (1) some root has no recorded choice *)
Definition missing_root : Prop :=
  exists r, r ∈ root_eclasses g /\ om_find r choices = None.

(** (2) the chosen-node child graph reachable from the roots has a cycle *)
Definition has_cycle : Prop :=
  exists c, reachable (root_eclasses g) c /\ tc child_edge c c.

(** (3) some reachable class has no recorded choice *)
Definition missing_dep : Prop :=
  exists c, reachable (root_eclasses g) c /\ om_find c choices = None.

(** (4) some entry names a node whose declared class differs *)
Definition eclass_mismatch : Prop :=
  exists c n node,
    (c, n) ∈ choices /\ egraph_get g n = Ok node /\ eclass node <> c.

(** (5) some entry names a node the graph does not have *)
Definition dangling_choice : Prop :=
  exists c n, (c, n) ∈ choices /\ throws (egraph_get g n).

(** A class below which every chain of chosen children is finite and every
    class has a chosen node present in the graph. *)
Inductive safe : ClassId -> Prop :=
| safe_intro c node :
    chosen_node g choices c = Ok node ->
    (forall k, k ∈ children node -> safe k) ->
    safe c.

(** Number of table entries whose class the traversal has not met yet. *)
Definition unmarked (status : status_map) : nat :=
  length (filter (fun kv => om_find (fst kv) status = None) choices).

Definition nkids (c : ClassId) : nat :=
  match chosen_node g choices c with
  | Ok node => length (children node)
  | _ => 0%nat
  end.

(** Children still to be pushed by [check_deps] / [dag_cost]. *)
Definition pending_kids (visited : ClassId -> Prop)
    `{forall c, Decision (visited c)} : nat :=
  sum_list (map (fun kv => if decide (visited (fst kv)) then 0%nat
                           else nkids (fst kv)) choices).

(** Fuel that suffices for every loop of [check]. *)
Definition check_fuel : nat :=
  (length choices + 2 + length (root_eclasses g)
   + pending_kids (fun _ => False))%nat.

Definition status_sub (st st' : status_map) : Prop :=
  forall k s, om_find k st = Some s -> om_find k st' = Some s.

Definition done_safe (st : status_map) : Prop :=
  forall k, om_find k st = Some Done -> safe k.

(** What a successful run of the depth-first search over the targets [T]
    guarantees. *)
Definition dfs_post (T : list ClassId) (st : status_map) (cyc : list ClassId)
    (st' : status_map) (cyc' : list ClassId) : Prop :=
  status_sub st st' /\
  (forall k, om_find k st' = Some Doing <-> om_find k st = Some Doing) /\
  exists new, cyc' = cyc ++ new /\
    ((forall u k, om_find u st = Some Doing -> k ∈ T -> tc child_edge u k) ->
     forall x, x ∈ new -> tc child_edge x x /\ exists k, k ∈ T /\ rtc child_edge k x) /\
    (new = [] -> done_safe st ->
     done_safe st' /\ forall k, k ∈ T -> om_find k st' = Some Done).
End ChoiceGraph.

(** Scenario A's graph with a table that has a second entry, for a class the
    roots do not reach, naming a node the graph does not have. *)
Definition dangling_table : choice_map :=
  [(0%N, (0%N, 0%N)); (5%N, (7%N, 0%N))].

(** The table the extractor produces for scenario B. *)
Definition table_B : choice_map := [(1%N, (1%N, 0%N)); (0%N, (0%N, 0%N))].

(** ** Cost accounting: the notions the tree/DAG comparison is stated with *)

Definition nonneg_costs (g : EGraph) : Prop :=
  forall e, e ∈ all_nodes (nodes g) -> (0 <= cost (snd e))%Q.


(** Every node cost is a non-negative integer. *)
Definition integer_costs (g : EGraph) : Prop :=
  forall e, e ∈ all_nodes (nodes g) ->
    exists n : Z, (0 <= n)%Z /\ cost (snd e) = inject_Z n.




Section Costs.
Context (g : EGraph) (choices : choice_map).

(** Cost of the node chosen for a class. *)
Definition costc (c : ClassId) : Q :=
  match chosen_node g choices c with
  | Ok node => cost node
  | _ => 0%Q
  end.

Definition sumc (l : list ClassId) : Q :=
  fold_right (fun c acc => (costc c + acc)%Q) 0%Q l.

(** The expression tree below a list of classes, in pre-order: every class
    once per occurrence. *)
Inductive unfolding : list ClassId -> list ClassId -> Prop :=
| unfolding_nil : unfolding [] []
| unfolding_cons c node l ks ls :
    chosen_node g choices c = Ok node ->
    unfolding (children node) ks ->
    unfolding l ls ->
    unfolding (c :: l) (c :: ks ++ ls).

(** A path from a list of entry classes: a position in the list, then
    positions in the successive chosen nodes' child lists; [x] is where it
    ends. *)
Fixpoint walk (l : list ClassId) (p : list nat) (x : ClassId) : Prop :=
  match p with
  | [] => False
  | i :: p' =>
      exists c, l !! i = Some c /\
        match p' with
        | [] => x = c
        | _ :: _ =>
            exists node, chosen_node g choices c = Ok node /\
                         walk (children node) p' x
        end
  end.

(** Some class is reached along two different paths. *)
Definition shared (roots : list ClassId) : Prop :=
  exists x p1 p2, p1 <> p2 /\ walk roots p1 x /\ walk roots p2 x.

Definition memo_ok (memo : memo_map) : Prop :=
  forall n v, memo !! n = Some v ->
    exists node ks,
      egraph_get g n = Ok node /\ unfolding (children node) ks /\
      (v == cost node + sumc ks)%Q.

(** The cost table of [dag_cost] holds the chosen nodes' costs. *)
Definition table_ok (costs : cost_table) : Prop :=
  NoDup (om_keys costs) /\
  forall c v, (c, v) ∈ costs -> v = costc c.
End Costs.

(** Diamond with a free leaf: R -> A, B; A -> C; B -> C; C costs 0. *)
Definition diamond : EGraph :=
  mkEGraph [(0%N, [((0%N, 0%N), mkNode 0 [1%N; 2%N] 0 1)]);
            (1%N, [((1%N, 0%N), mkNode 0 [3%N] 1 1)]);
            (2%N, [((2%N, 0%N), mkNode 0 [3%N] 2 1)]);
            (3%N, [((3%N, 0%N), leaf 3 0)])] [0%N].

Definition diamond_table : choice_map :=
  [(0%N, (0%N, 0%N)); (1%N, (1%N, 0%N)); (2%N, (2%N, 0%N)); (3%N, (3%N, 0%N))].


(** ** Termination of the greedy extractor: the decreasing measure *)

Section ExtractMeasure.
Context (g : EGraph).

(** A common denominator of all node costs. *)
Definition den_prod (l : list (NodeId * Node)) : positive :=
  fold_right (fun e acc => (Qden (cost (snd e)) * acc)%positive) 1%positive l.

Definition common_den : positive := den_prod (all_nodes (nodes g)).

(** The sum of all node costs: an upper bound of each (non-negative) one. *)
Definition cost_sum (l : list (NodeId * Node)) : Q :=
  fold_right (fun e acc => (cost (snd e) + acc)%Q) 0%Q l.

Definition cost_max : Q := cost_sum (all_nodes (nodes g)).

(** The classes that own a node. *)
Definition cls_ids : list ClassId :=
  remove_dups (map (fun e => eclass (snd e)) (all_nodes (nodes g))).

Definition total_bound : Q :=
  (inject_Z (Z.of_nat (length cls_ids)) * cost_max)%Q.

(** Totals are multiples of [1 / common_den]; their rank counts them. *)
Definition rank (t : Q) : nat :=
  Z.to_nat (Qfloor (t * (Zpos common_den # 1))%Q).

Definition rank_top : nat := S (rank total_bound).

Definition rk (costs : cost_sets) (c : ClassId) : nat :=
  match costs !! c with
  | Some cs => match cs_total cs with
               | Fin t => rank t
               | Inf => rank_top
               end
  | None => rank_top
  end.

Definition parents_size (parents : parents_map) : nat :=
  sum_list (map (fun kv => length (snd kv)) parents).

Definition potential (parents : parents_map) (st : UniqueQueue * cost_sets)
  : nat :=
  (length (uq_queue (fst st))
   + parents_size parents * sum_list (map (rk (snd st)) cls_ids))%nat.

Definition good_val (v : Q) : Prop :=
  (0 <= v)%Q /\ (v <= cost_max)%Q /\ exists z : Z, (v == z # common_den)%Q.

Definition good_total (t : Q) : Prop :=
  (0 <= t)%Q /\ (t <= total_bound)%Q /\ exists z : Z, (t == z # common_den)%Q.

Definition entries_good (m : gmap ClassId Q) : Prop :=
  forall k v, m !! k = Some v -> k ∈ cls_ids /\ good_val v.

Definition cost_inv (costs : cost_sets) : Prop :=
  forall c cs, costs !! c = Some cs ->
    entries_good (cs_costs cs) /\
    exists t, cs_total cs = Fin t /\ good_total t.

(** Every node id the worklist can hold names a node of the graph. *)
Definition valid_id (nid : NodeId) : Prop :=
  exists node, (nid, node) ∈ all_nodes (nodes g) /\ egraph_get g nid = Ok node.

Definition queue_valid (q : UniqueQueue) : Prop :=
  forall nid, nid ∈ uq_queue q -> valid_id nid.

Definition parents_valid (parents : parents_map) : Prop :=
  forall c ps nid, (c, ps) ∈ parents -> nid ∈ ps -> valid_id nid.
End ExtractMeasure.

(** * The remaining operations of the data model and of the result object *)

(** ** [EGraph::add_node], [EGraph::operator[](const ClassId&)],
       [EGraph::nid_to_class] (egraph_serialize.hpp) *)

(** [nodes[ClassId(node_id.value[0])]] creates an empty inner map when the
    class is absent; [emplace] appends, or finds the id already there. *)
Definition add_node (node_id : NodeId) (node : Node) (g : EGraph) : res EGraph :=
  let inner_map := default [] (om_find (fst node_id) (nodes g)) in
  match om_find node_id inner_map with
  | Some _ => Throw (RuntimeError "Duplicate node with id")
  | None =>
      Ok (mkEGraph (om_set (fst node_id) (inner_map ++ [(node_id, node)])
                           (nodes g))
                   (root_eclasses g))
  end.

(** The message of the class lookup is built as
    ["No class with id: " + class_id.return_value()]. *)
Definition NO_CLASS : string := "No class with id: ".

(** The graph object with its [mutable] cache: [classes_cache] is empty in
    a graph that was just built, is filled by the first call of
    [classes()], and is never emptied or updated again. *)
Record EGraphObj : Type := mkObj {
  obj_graph : EGraph;
  classes_cache : option classes_map
}.

Module Cached.

(** [EGraph::classes()] *)
Definition classes (e : EGraphObj) : classes_map * EGraphObj :=
  match classes_cache e with
  | Some cls => (cls, e)
  | None =>
      let cls := classes (obj_graph e) in
      (cls, mkObj (obj_graph e) (Some cls))
  end.

(** [EGraph::add_node]: the node map changes, the cache stays. *)
Definition add_node (node_id : NodeId) (node : Node) (e : EGraphObj)
  : res EGraphObj :=
  let* g := add_node node_id node (obj_graph e) in
  Ok (mkObj g (classes_cache e)).

(** [EGraph::operator[](const ClassId&)] *)
Definition egraph_class (e : EGraphObj) (class_id : ClassId)
  : res Class * EGraphObj :=
  let '(cls, e) := classes e in
  (match om_find class_id cls with
   | Some c => Ok c
   | None => Throw (literal_plus NO_CLASS class_id)
   end, e).

(** [EGraph::nid_to_class] *)
Definition nid_to_class (e : EGraphObj) (node_id : NodeId)
  : res Class * EGraphObj :=
  match egraph_get (obj_graph e) node_id with
  | Ok node => egraph_class e (eclass node)
  | Throw x => (Throw x, e)
  | NoFuel => (NoFuel, e)
  end.

End Cached.

(** [EGraph::from_json_file], after parsing: the description's node map and
    root list become the graph's. *)
Definition egraph_of_data (d : Data) : EGraph :=
  mkEGraph (d_nodes d) (d_root_eclasses d).

(** The ids of the nodes that declare class [c], in iteration order. *)
Definition members (g : EGraph) (c : ClassId) : list NodeId :=
  map fst (filter (fun e => eclass (snd e) = c) (all_nodes (nodes g))).

(** ** [ExtractionResult::node_sum_cost] (extractor.hpp)

    [map_get] is the map's lookup; a missing child counts as
    [COST_INFINITY], and every [+=] rounds. *)
Definition node_sum_cost (node : Node) (costs : gmap ClassId double) : double :=
  fold_left (fun sum cid =>
               dadd sum (match costs !! cid with
                         | Some c => c
                         | None => DPInf
                         end))
            (children node) (DFin (cost node)).

(** A node of cost 2^1023 whose only child is recorded with cost 2^1023. *)
Definition huge_node : Node := mkNode 0 [1%N] 0 (2 ^ 1023).
Definition huge_costs : gmap ClassId double := {[ 1%N := DFin (2 ^ 1023) ]}.

(** ** Cost accounting on arbitrary tables *)

(** Every class reachable from [roots] has a chosen node in the graph. *)
Definition all_chosen (g : EGraph) (choices : choice_map)
    (roots : list ClassId) : Prop :=
  forall c, reachable g choices roots c ->
    exists node, chosen_node g choices c = Ok node.

(** The loop invariant of [dag_cost] on a table that may be cyclic. *)
Definition dag_inv_gen (g : EGraph) (choices : choice_map)
    (roots : list ClassId) (todo : list ClassId) (costs : cost_table) : Prop :=
  table_ok g choices costs /\
  (forall c, c ∈ todo -> reachable g choices roots c) /\
  (forall c, c ∈ om_keys costs ->
     reachable g choices roots c /\
     (exists node, chosen_node g choices c = Ok node) /\
     forall k, child_edge g choices c k -> k ∈ om_keys costs \/ k ∈ todo) /\
  (forall r, r ∈ roots -> r ∈ om_keys costs \/ r ∈ todo).

(** ** Greedy extractor: invariants of the queue and of the cost sets *)

(** The queue holds no element twice and the set mirrors it. *)
Definition uq_wf (q : UniqueQueue) : Prop :=
  NoDup (uq_queue q) /\ forall x, x ∈ uq_set q <-> x ∈ uq_queue q.

(** Every recorded cost set was computed for a node of its class whose
    children all have a cost set, none of them the class itself; a recorded
    leaf carries its own cost as total. *)
Definition choice_inv (g : EGraph) (costs : cost_sets) : Prop :=
  forall c cs, costs !! c = Some cs ->
    exists node,
      egraph_get g (cs_choice cs) = Ok node /\ eclass node = c /\
      (forall k, k ∈ children node -> is_Some (costs !! k)) /\
      (c ∉ children node) /\
      (children node = [] -> cs_total cs = Fin (cost node)).

(** Every leaf is still queued or its class has a total no larger than the
    leaf's cost. *)
Definition leaf_inv (g : EGraph) (st : UniqueQueue * cost_sets) : Prop :=
  forall nid node,
    (nid, node) ∈ all_nodes (nodes g) -> children node = [] ->
    nid ∈ uq_queue (fst st) \/
    exists cs t, snd st !! eclass node = Some cs /\
                 cs_total cs = Fin t /\ (t <= cost node)%Q.

(** ** Redundant-node remover: what the survivors look like *)

(** No node of [l] references a child multiset in [seen] or one referenced
    by an earlier node of [l]. *)
Fixpoint fresh_from (seen : list (list ClassId)) (l : node_map) : Prop :=
  match l with
  | [] => True
  | e :: l' =>
      ~ Exists (fun s => s ≡ₚ children (snd e)) seen /\
      fresh_from (seen ++ [children (snd e)]) l'
  end.

(** A description with every node rewritten by [h], ids and order kept. *)
Definition retag (h : Node -> Node) (data : Data) : Data :=
  mkData (map (fun kv => (fst kv, map (fun e => (fst e, h (snd e))) (snd kv)))
              (d_nodes data))
         (d_root_eclasses data) (d_op data).

(** ** Partitioner: further notions *)

Definition CHILD_NOT_FOUND : exn :=
  RuntimeError "Child node not found for eclass".

(** Some node references a child class that is absent or has no node. *)
Definition dangling_child (mn : nodes_map) : Prop :=
  exists entry child,
    entry ∈ all_nodes mn /\ child ∈ children (snd entry) /\
    forall inner, om_find child mn = Some inner -> inner = [].

(** All child references of a node map, and how many of them the traversal
    has not marked yet. *)
Definition child_universe (mn : nodes_map) : list ClassId :=
  concat (map (fun e => children (snd e)) (all_nodes mn)).

Definition unvisited (mn : nodes_map) (visited : gset ClassId) : nat :=
  length (filter (fun c => c ∉ visited) (child_universe mn)).

Definition bfs_measure (mn : nodes_map) (st : bfs_state) : nat :=
  (length (bfs_queue st) + unvisited mn (bfs_visited st))%nat.

(** What the traversal keeps true of the buckets it has sealed. *)
Definition buckets_inv (k : nat) (st : bfs_state) : Prop :=
  (forall b, b ∈ bfs_subgraphs st -> b <> []) /\
  (length (bfs_subgraphs st) < k)%nat /\
  (bfs_subgraphs st <> [] \/ bfs_current st <> [] \/ bfs_queue st <> []).

(** The classes a child reference may name without leaving the file. *)
Definition closed_nodes (ns : nodes_map) : Prop :=
  forall e child, e ∈ all_nodes ns -> child ∈ children (snd e) ->
                  child ∈ om_keys ns.

(** A root with four children, the first of which has three nodes: with two
    partitions the second bucket holds the classes 3 and 4, neither the
    parent of the other. *)
Definition fan : Data :=
  mkData [(0%N, [((0%N, 0%N), mkNode 0 [1%N; 2%N; 3%N; 4%N] 0 1)]);
          (1%N, [((1%N, 0%N), leaf 1 1); ((1%N, 1%N), leaf 1 2);
                 ((1%N, 2%N), leaf 1 3)]);
          (2%N, [((2%N, 0%N), leaf 2 1)]);
          (3%N, [((3%N, 0%N), leaf 3 1)]);
          (4%N, [((4%N, 0%N), leaf 4 1)])] [0%N] ["a"%string].


(** * Serialization (egraph_serialize.hpp)

    ** The JSON documents of the library the code uses

    A [nlohmann::json] number is stored as a signed or an unsigned 64-bit
    integer or as a double; an object is a [std::map] from strings, kept and
    iterated in increasing key order; assigning to [j[key]] replaces an
    existing member.  A double is given by the rational it stands for, as a
    node's cost is. *)

#[warnings="-register-all"]
Inductive json : Type :=
| JNull
| JBool (b : bool)
| JInt (z : Z)
| JUInt (n : N)
| JFloat (q : Q)
| JString (s : string)
| JArray (l : list json)
| JObject (m : list (string * json)).

(** The two places where a class id may be written as a string, and what
    can be wrong with it. *)
Inductive id_field : Type := F_eclass | F_root_eclasses.

Inductive id_error : Type :=
| IllegalCharacters   (* the number does not span the whole string *)
| ExceedsUnsigned     (* above [UINT_MAX], or not representable at all *)
| NotANumber          (* no digits *)
| NeitherIntNorString.

Inductive jexn : Type :=
| TypeError (id : nat)   (* json::type_error, with the library's id *)
| KeyNotFound            (* json::out_of_range 403, thrown by [at] *)
| InvalidArgument        (* std::invalid_argument, thrown by std::stoul *)
| StoulOutOfRange        (* std::out_of_range, thrown by std::stoul *)
| IdError (f : id_field) (e : id_error)  (* the code's std::runtime_error *)
| UndefinedConversion.   (* a double outside the target integer type *)

Inductive jres (A : Type) : Type :=
| JOk (a : A)
| JThrow (e : jexn).
Arguments JOk {A} a.
Arguments JThrow {A} e.

Definition jbind {A B} (m : jres A) (k : A -> jres B) : jres B :=
  match m with
  | JOk a => k a
  | JThrow e => JThrow e
  end.

Notation "'let+' x ':=' m 'in' k" := (jbind m (fun x => k))
  (at level 10, x name, m at level 100, k at level 200).
Notation "'let+' ' p ':=' m 'in' k" :=
  (jbind m (fun x => match x with p => k end))
  (at level 10, p pattern, m at level 100, k at level 200).

(** A loop over a list whose body may throw. *)
Fixpoint jfor_each {A S : Type} (f : A -> S -> jres S) (l : list A) (s : S)
  : jres S :=
  match l with
  | [] => JOk s
  | a :: l' => let+ s' := f a s in jfor_each f l' s'
  end.

(** Element-wise conversion of an array. *)
Fixpoint jmap {A B : Type} (f : A -> jres B) (l : list A) : jres (list B) :=
  match l with
  | [] => JOk []
  | a :: l' => let+ b := f a in let+ bs := jmap f l' in JOk (b :: bs)
  end.

(** [j[key] = v] on an object. *)
Definition obj_set (key : string) (v : json) (m : list (string * json))
  : list (string * json) :=
  sm_update String.ltb key (fun _ => v) m.

(** [j.at(key)] *)
Definition j_at (key : string) (j : json) : jres json :=
  match j with
  | JObject m => match om_find key m with
                 | Some v => JOk v
                 | None => JThrow KeyNotFound
                 end
  | _ => JThrow (TypeError 304)
  end.

(** [get<unsigned int>()]: any number or a boolean, converted with
    [static_cast]. *)
Definition j_get_uint32 (j : json) : jres N :=
  match j with
  | JUInt n => JOk (n mod 2 ^ 32)%N
  | JInt z => JOk (Z.to_N (z mod 2 ^ 32))
  | JFloat q =>
      let t := if Qle_bool 0 q then Qfloor q else Qceiling q in
      if ((0 <=? t) && (t <? 2 ^ 32))%Z then JOk (Z.to_N t)
      else JThrow UndefinedConversion
  | JBool b => JOk (if b then 1 else 0)%N
  | _ => JThrow (TypeError 302)
  end.

(** [get<double>()]: any number. *)
Definition j_get_double (j : json) : jres Q :=
  match j with
  | JUInt n => JOk (inject_Z (Z.of_N n))
  | JInt z => JOk (inject_Z z)
  | JFloat q => JOk q
  | _ => JThrow (TypeError 302)
  end.

Definition j_get_string (j : json) : jres string :=
  match j with
  | JString s => JOk s
  | _ => JThrow (TypeError 302)
  end.

(** [get<std::vector<T>>()] *)
Definition j_get_vector {A} (get : json -> jres A) (j : json)
  : jres (list A) :=
  match j with
  | JArray l => jmap get l
  | _ => JThrow (TypeError 302)
  end.

(** ** [std::to_string] and [std::stoul] *)

Fixpoint to_digits (fuel : nat) (n : N) : list N :=
  match fuel with
  | O => []
  | S fuel' =>
      if (n <? 10)%N then [n]
      else to_digits fuel' (n / 10)%N ++ [(n mod 10)%N]
  end.

Definition digit_char (d : N) : Ascii.ascii := Ascii.ascii_of_N (48 + d).

(** Decimal digits, most significant first, no leading zero. *)
Definition to_string (n : N) : string :=
  String.string_of_list_ascii
    (map digit_char (to_digits (S (N.size_nat n)) n)).

Definition is_space (c : Ascii.ascii) : bool :=
  let n := Ascii.N_of_ascii c in
  ((n =? 32) || ((9 <=? n) && (n <=? 13)))%N.

Definition digit_of (c : Ascii.ascii) : option N :=
  let n := Ascii.N_of_ascii c in
  if ((48 <=? n) && (n <=? 57))%N then Some (n - 48)%N else None.

Fixpoint skip_spaces (l : list Ascii.ascii) : nat * list Ascii.ascii :=
  match l with
  | c :: l' => if is_space c
               then let '(k, r) := skip_spaces l' in (S k, r)
               else (O, l)
  | [] => (O, [])
  end.

Fixpoint read_digits (l : list Ascii.ascii) (acc : N) : N * nat :=
  match l with
  | c :: l' => match digit_of c with
               | Some d => let '(v, k) := read_digits l' (acc * 10 + d)%N in
                           (v, S k)
               | None => (acc, O)
               end
  | [] => (acc, O)
  end.

Definition ULONG_MAX : N := (2 ^ 64 - 1)%N.

(** [std::stoul(s, &pos, 10)]: leading white space, an optional sign (the
    characters 45 and 43), then as many digits as there are; the value and
    the number of characters read.  A minus sign negates in [unsigned long],
    which has 64 bits. *)
Definition stoul (s : string) : jres (N * nat) :=
  let '(spaces, l1) := skip_spaces (String.list_ascii_of_string s) in
  let '(negative, sign, l2) :=
    match l1 with
    | c :: l' => if (Ascii.N_of_ascii c =? 45)%N then (true, 1%nat, l')
                 else if (Ascii.N_of_ascii c =? 43)%N then (false, 1%nat, l')
                 else (false, 0%nat, l1)
    | [] => (false, 0%nat, l1)
    end in
  let '(v, k) := read_digits l2 0%N in
  match k with
  | O => JThrow InvalidArgument
  | S _ =>
      if (ULONG_MAX <? v)%N then JThrow StoulOutOfRange
      else JOk ((if negative then (2 ^ 64 - v) mod 2 ^ 64 else v)%N,
                (spaces + sign + k)%nat)
  end.

(** [unsigned int num = std::stoul(key)] *)
Definition key_to_uint (key : string) : jres N :=
  let+ '(ul, _) := stoul key in JOk (ul mod 2 ^ 32)%N.

(** ** [to_json] *)

Definition node_fields (n : Node) : list (string * json) :=
  obj_set "cost" (JFloat (cost n))
    (obj_set "eclass" (JUInt (eclass n))
       (obj_set "children" (JArray (map JUInt (children n)))
          (obj_set "op" (JUInt (op n)) []))).

(** [to_json(json&, const Node&)] *)
Definition json_of_node (n : Node) : json := JObject (node_fields n).

(** [to_json(json&, const NodeId&)] *)
Definition json_of_nid (nid : NodeId) : json :=
  JArray [JUInt (fst nid); JUInt (snd nid)].

(** The member written for one node: the node with an extra ["nid"]. *)
Definition node_member (e : NodeId * Node) : json :=
  JObject (obj_set "nid" (json_of_nid (fst e)) (node_fields (snd e))).

Definition class_members (inner : node_map) : list (string * json) :=
  fold_left (fun inner_obj e =>
               obj_set (to_string (snd (fst e))) (node_member e) inner_obj)
            inner [].

Definition nodes_members (ns : nodes_map) : list (string * json) :=
  fold_left (fun nodes_obj kv =>
               obj_set (to_string (fst kv)) (JObject (class_members (snd kv)))
                       nodes_obj)
            ns [].

(** [to_json(json&, const Data&)] *)
Definition json_of_data (d : Data) : json :=
  JObject
    (obj_set "op" (JArray (map JString (d_op d)))
       (obj_set "root_eclasses" (JArray (map JUInt (d_root_eclasses d)))
          (obj_set "nodes" (JObject (nodes_members (d_nodes d)))
             (obj_set "class_data" (JObject []) [])))).

(** ** [from_json] *)

(** What [items()] iterates over: the members of an object, the elements of
    an array under their indices, nothing for null, the value itself under
    the empty key otherwise. *)
Definition j_items (j : json) : list (string * json) :=
  match j with
  | JObject m => m
  | JArray l => imap (fun i v => (to_string (N.of_nat i), v)) l
  | JNull => []
  | _ => [(""%string, j)]
  end.

(** What a range-[for] over a document iterates over. *)
Definition j_elements (j : json) : list json := map snd (j_items j).

(** A class id given as an integer or as a decimal string. *)
Definition id_of_json (f : id_field) (j : json) : jres N :=
  match j with
  | JInt _ | JUInt _ => j_get_uint32 j
  | JString s =>
      match stoul s with
      | JOk (ul, pos) =>
          if negb (pos =? String.length s)%nat
          then JThrow (IdError f IllegalCharacters)
          else if (UINT_MAX <? ul)%N then JThrow (IdError f ExceedsUnsigned)
          else JOk ul
      | JThrow InvalidArgument => JThrow (IdError f NotANumber)
      | JThrow StoulOutOfRange => JThrow (IdError f ExceedsUnsigned)
      | JThrow e => JThrow e
      end
  | _ => JThrow (IdError f NeitherIntNorString)
  end.

(** [from_json(const json&, Node&)] *)
Definition node_of_json (j : json) : jres Node :=
  let+ j_op := j_at "op" j in
  let+ op := j_get_uint32 j_op in
  let+ j_children := j_at "children" j in
  let+ children := j_get_vector j_get_uint32 j_children in
  let+ j_eclass := j_at "eclass" j in
  let+ eclass := id_of_json F_eclass j_eclass in
  let+ j_cost := j_at "cost" j in
  let+ cost := j_get_double j_cost in
  JOk (mkNode op children eclass cost).

(** [d.nodes[ClassId(num1)].emplace(nid, node)] *)
Definition emplace_node (c : ClassId) (nid : NodeId) (node : Node)
    (ns : nodes_map) : nodes_map :=
  om_set c (om_insert nid node (default [] (om_find c ns))) ns.

Definition read_class (outer : string * json) (ns : nodes_map)
  : jres nodes_map :=
  let+ num1 := key_to_uint (fst outer) in
  jfor_each (fun inner ns =>
               let+ num2 := key_to_uint (fst inner) in
               let+ node := node_of_json (snd inner) in
               JOk (emplace_node num1 (num1, num2) node ns))
            (j_items (snd outer)) ns.

(** [from_json(const json&, Data&)] *)
Definition data_of_json (j : json) : jres Data :=
  let+ nodes_json := j_at "nodes" j in
  let+ ns := jfor_each read_class (j_items nodes_json) [] in
  let+ root_eclasses_json := j_at "root_eclasses" j in
  let+ roots := jmap (id_of_json F_root_eclasses)
                     (j_elements root_eclasses_json) in
  let+ op_json := j_at "op" j in
  let+ ops := j_get_vector j_get_string op_json in
  JOk (mkData ns roots ops).

(** What a description needs for [to_json] to lose nothing: every number
    fits [unsigned int] (they all are [unsigned int] in the source), the
    description is well formed, and no class is empty. *)
Definition node_fits (n : Node) : Prop :=
  (op n <= UINT_MAX)%N /\
  Forall (fun c => (c <= UINT_MAX)%N) (children n) /\
  (eclass n <= UINT_MAX)%N.

Definition serializable (d : Data) : Prop :=
  NoDup (om_keys (d_nodes d)) /\
  Forall (fun c => (c <= UINT_MAX)%N) (d_root_eclasses d) /\
  forall c inner, (c, inner) ∈ d_nodes d ->
    (c <= UINT_MAX)%N /\ inner <> [] /\ NoDup (om_keys inner) /\
    forall nid n, (nid, n) ∈ inner ->
      fst nid = c /\ (snd nid <= UINT_MAX)%N /\ node_fits n.

(** The order [from_json] rebuilds a description in: classes by the decimal
    spelling of their id, the nodes of a class by the decimal spelling of the
    second component of their id. *)
Definition class_key (kv : ClassId * node_map) : string := to_string (fst kv).
Definition node_key (e : NodeId * Node) : string := to_string (snd (fst e)).

Definition in_key_order {A} (key : A -> string) (l : list A) : Prop :=
  StronglySorted (fun a b => String.ltb (key a) (key b) = true) l.

Definition in_file_order (ns : nodes_map) : Prop :=
  in_key_order class_key ns /\
  forall c inner, (c, inner) ∈ ns -> in_key_order node_key inner.

(** Classes 2 and 10, stored in this order; as strings, 10 comes first. *)
Definition two_and_ten : Data :=
  mkData [(2%N, [((2%N, 1%N), leaf 2 1); ((2%N, 0%N), leaf 2 3)]);
          (10%N, [((10%N, 0%N), mkNode 0 [2%N] 10 1)])] [10%N] ["f"%string].

(** A document that spells class 1 twice, as [01] and as [1], writes class
    ids as strings, and repeats node 0 of the class. *)
Definition spelled_twice : json :=
  JObject
    [("nodes"%string,
      JObject
        [("01"%string,
          JObject
            [("0"%string,
              JObject [("children"%string, JArray []);
                       ("cost"%string, JFloat 1);
                       ("eclass"%string, JString "1");
                       ("op"%string, JUInt 0)])]);
         ("1"%string,
          JObject
            [("0"%string,
              JObject [("children"%string, JArray []);
                       ("cost"%string, JFloat 7);
                       ("eclass"%string, JUInt 1);
                       ("op"%string, JUInt 0)]);
             ("1"%string,
              JObject [("children"%string, JArray [JUInt 1]);
                       ("cost"%string, JInt 2);
                       ("eclass"%string, JString " +1");
                       ("op"%string, JUInt 0)])])]);
     ("op"%string, JArray [JString "f"]);
     ("root_eclasses"%string, JArray [JString "1"])].
(** * Theorems *)

Section OrderedMapFacts.
Context {K V : Type} `{EqDecision K}.
Implicit Types (m : omap K V).

Lemma om_find_app k m1 m2 :
  om_find k (m1 ++ m2) =
  match om_find k m1 with Some v => Some v | None => om_find k m2 end.
Proof.
  induction m1 as [|[k' v'] m1 IH]; simpl; [done|].
  destruct (decide (k = k')); auto.
Qed.

Lemma om_find_insert_eq k v m :
  om_find k (om_insert k v m) =
  match om_find k m with Some v' => Some v' | None => Some v end.
Proof.
  unfold om_insert. destruct (om_find k m) eqn:E; [done|].
  rewrite om_find_app, E. simpl. by rewrite decide_True.
Qed.

Lemma om_find_insert_ne k k' v m :
  k <> k' -> om_find k' (om_insert k v m) = om_find k' m.
Proof.
  intros Hne. unfold om_insert. destruct (om_find k m); [done|].
  rewrite om_find_app. destruct (om_find k' m); [done|].
  simpl. by rewrite decide_False.
Qed.
End OrderedMapFacts.


Section OrderedMapFacts2.
Context {K V : Type} `{EqDecision K}.
Implicit Types (m : omap K V).

Lemma om_find_set_eq k v m : om_find k (om_set k v m) = Some v.
Proof.
  induction m as [|[k' v'] m IH]; simpl.
  - by rewrite decide_True.
  - destruct (decide (k = k')) as [->|Hne]; simpl.
    + by rewrite decide_True.
    + by rewrite decide_False.
Qed.

Lemma om_find_set_ne k k' v m :
  k <> k' -> om_find k' (om_set k v m) = om_find k' m.
Proof.
  intros Hne. induction m as [|[k0 v0] m IH]; simpl.
  - by rewrite decide_False.
  - destruct (decide (k = k0)) as [->|Hne0]; simpl.
    + by rewrite !decide_False.
    + destruct (decide (k' = k0)); auto.
Qed.

Lemma om_find_Some_elem k v m : om_find k m = Some v -> (k, v) ∈ m.
Proof.
  induction m as [|[k' v'] m IH]; simpl; [done|].
  destruct (decide (k = k')) as [->|Hne].
  - intros [= ->]. left.
  - intros Hf. right. auto.
Qed.

Lemma om_find_None_notin k m : om_find k m = None <-> k ∉ om_keys m.
Proof.
  unfold om_keys. induction m as [|[k' v'] m IH]; simpl.
  - split; [intros _; apply not_elem_of_nil|done].
  - rewrite not_elem_of_cons.
    destruct (decide (k = k')) as [->|Hne]; split; try done.
    + intros [? _]; done.
    + intros Hf. split; [done|]. by apply IH.
    + intros [_ Hn]. by apply IH.
Qed.

Lemma om_find_elem_NoDup k v m :
  NoDup (om_keys m) -> (k, v) ∈ m -> om_find k m = Some v.
Proof.
  unfold om_keys. induction m as [|[k' v'] m IH]; simpl.
  - intros _ Hin. by apply elem_of_nil in Hin.
  - intros Hnd Hin. apply NoDup_cons in Hnd as [Hnotin Hnd].
    apply elem_of_cons in Hin as [[= <- <-]|Hin].
    + by rewrite decide_True.
    + destruct (decide (k = k')) as [->|Hne]; [|auto].
      exfalso. apply Hnotin. apply list_elem_of_fmap. by exists (k', v).
Qed.

Lemma om_find_is_Some k m : is_Some (om_find k m) <-> k ∈ om_keys m.
Proof.
  destruct (om_find k m) eqn:E.
  - split; [intros _|eauto].
    apply om_find_Some_elem in E. unfold om_keys.
    apply list_elem_of_fmap. by exists (k, v).
  - apply om_find_None_notin in E. split; [intros [? ?]; done|done].
Qed.
End OrderedMapFacts2.

(** [for_each] *)
Section ForEach.
Context {A S : Type}.
Implicit Types (f : A -> S -> res S).

Lemma for_each_app f l1 l2 s :
  for_each f (l1 ++ l2) s = let* s' := for_each f l1 s in for_each f l2 s'.
Proof.
  revert s. induction l1 as [|a l1 IH]; intros s; simpl; [done|].
  destruct (f a s); simpl; auto.
Qed.

Lemma for_each_inv (P : S -> Prop) f l s s' :
  (forall a t t', a ∈ l -> P t -> f a t = Ok t' -> P t') ->
  P s -> for_each f l s = Ok s' -> P s'.
Proof.
  revert s. induction l as [|a l IH]; intros s Hstep Hs; simpl.
  - by intros [= <-].
  - destruct (f a s) as [t| |] eqn:E; simpl; try done.
    apply IH.
    + intros b t1 t2 Hb. apply Hstep. by right.
    + eapply Hstep; [left|done|done].
Qed.
End ForEach.

Lemma rbind_Ok {A B} (m : res A) (k : A -> res B) b :
  rbind m k = Ok b -> exists a, m = Ok a /\ k a = Ok b.
Proof. destruct m; simpl; try done. eauto. Qed.

Lemma of_option_Ok {A} e (o : option A) a : of_option e o = Ok a -> o = Some a.
Proof. destruct o; simpl; congruence. Qed.

(** Lookup in [map_to_list] read as an ordered map. *)
Lemma om_find_map_to_list `{Countable K} {V} (m : gmap K V) k :
  om_find k (map_to_list m) = m !! k.
Proof.
  destruct (m !! k) as [v|] eqn:E.
  - apply om_find_elem_NoDup.
    + apply NoDup_fst_map_to_list.
    + by apply elem_of_map_to_list.
  - apply om_find_None_notin. unfold om_keys.
    intros Hin. apply list_elem_of_fmap in Hin as [[k' v] [Hk Hin]].
    simpl in Hk. subst k'. apply elem_of_map_to_list in Hin. congruence.
Qed.

Lemma rbind_Throw {A B} (m : res A) (k : A -> res B) e :
  rbind m k = Throw e -> m = Throw e \/ exists a, m = Ok a /\ k a = Throw e.
Proof.
  destruct m as [a|e'|]; simpl; intros H.
  - right. by exists a.
  - left. by injection H as ->.
  - discriminate H.
Qed.

Lemma for_each_Throw {A S} (f : A -> S -> res S) l s e :
  for_each f l s = Throw e -> exists a t, a ∈ l /\ f a t = Throw e.
Proof.
  revert s. induction l as [|a l IH]; intros s; simpl; [done|].
  intros H. apply rbind_Throw in H as [H|(t & _ & H)].
  - exists a, s. split; [left|done].
  - apply IH in H as (b & t' & Hb & H). exists b, t'. split; [by right|done].
Qed.

Lemma of_option_Throw {A} e e' (o : option A) :
  of_option e o = Throw e' -> e' = e.
Proof. destruct o; simpl; congruence. Qed.

Lemma elem_of_concat {A} (x : A) (ls : list (list A)) :
  x ∈ concat ls <-> exists l, x ∈ l /\ l ∈ ls.
Proof.
  induction ls as [|l ls IH]; simpl.
  - split; [intros H; by apply elem_of_nil in H|].
    intros (l & _ & H). by apply elem_of_nil in H.
  - rewrite elem_of_app, IH. split.
    + intros [H|(l' & H1 & H2)].
      * exists l. split; [done|left].
      * exists l'. split; [done|by right].
    + intros (l' & H1 & H2). apply elem_of_cons in H2 as [->|H2].
      * by left.
      * right. by exists l'.
Qed.

Lemma elem_of_rev {A} (x : A) (l : list A) : x ∈ rev l <-> x ∈ l.
Proof. rewrite !list_elem_of_In. symmetry. apply in_rev. Qed.

Lemma for_each_cons {A S} (f : A -> S -> res S) a l s :
  for_each f (a :: l) s = let* s' := f a s in for_each f l s'.
Proof. reflexivity. Qed.

Lemma egraph_get_elem g nid node :
  egraph_get g nid = Ok node -> (nid, node) ∈ all_nodes (nodes g).
Proof.
  unfold egraph_get, nodes_get. intros H.
  apply rbind_Ok in H as (inner & Hi & H). apply of_option_Ok in Hi, H.
  unfold all_nodes. apply elem_of_concat. exists inner.
  split; [by apply om_find_Some_elem|].
  apply list_elem_of_fmap. exists (fst nid, inner).
  split; [done|]. by apply om_find_Some_elem.
Qed.

Lemma for_each_total {A S} (P : S -> Prop) (f : A -> S -> res S) l s :
  (forall a t, a ∈ l -> P t -> exists t', f a t = Ok t' /\ P t') ->
  P s -> exists s', for_each f l s = Ok s' /\ P s'.
Proof.
  revert s. induction l as [|a l IH]; intros s Hf Hs; simpl; [by exists s|].
  destruct (Hf a s) as (t & Ht & HPt); [left|done|]. rewrite Ht. simpl.
  apply IH; [|done]. intros b t' Hb. apply Hf. by right.
Qed.

(** ** Rounded addition ([double]) *)

Lemma two_pow_pos (e : Z) : (0 < 2 ^ e)%Q.
Proof. apply Qpower_0_lt. reflexivity. Qed.









Lemma round_even_nonneg (m : Q) : (0 <= m)%Q -> (0 <= round_even m)%Z.
Proof.
  intros Hm. unfold round_even.
  assert (Hf : (0 <= Qfloor m)%Z).
  { change 0%Z with (Qfloor 0). by apply Qfloor_resp_le. }
  destruct (_ ?= _)%Q; [destruct (Z.even _)|..]; lia.
Qed.

Lemma round53_nonneg (q : Q) : (0 <= q)%Q -> (0 <= round53 q)%Q.
Proof.
  intros Hq. unfold round53. destruct (Qeq_bool q 0); [lra|].
  rewrite Qred_correct.
  pose proof (two_pow_pos (last_place q)) as Hp.
  apply Qmult_le_0_compat; [|lra].
  change 0%Q with (inject_Z 0). rewrite <- Zle_Qle.
  apply round_even_nonneg. apply Qle_shift_div_l; [done|]. lra.
Qed.

(** A sum of non-negative values is non-negative, or [+infinity]. *)
Lemma of_Q_nonneg (q : Q) :
  (0 <= q)%Q -> of_Q q = DPInf \/ exists r, of_Q q = DFin r /\ (0 <= r)%Q.
Proof.
  intros Hq. unfold of_Q. pose proof (round53_nonneg q Hq) as Hr.
  destruct (Qle_bool (2 ^ 1024) (round53 q)); [by left|].
  destruct (Qle_bool (round53 q) (- 2 ^ 1024)) eqn:E.
  - apply Qle_bool_iff in E. pose proof (two_pow_pos 1024). lra.
  - right. by exists (round53 q).
Qed.
(** C4 (as the code has it): [choose] is an insert that keeps an existing
    entry.  After [choose c n1] and then [choose c n2] the table maps [c] to
    the selection that was recorded FIRST ([n1], or an even earlier one when
    the table already had [c]); the second call leaves the table unchanged,
    and so does repeating a call. *)
Theorem choose_first_wins (c : ClassId) (n1 n2 : NodeId) (t : choice_map) :
  om_find c (choose c n2 (choose c n1 t)) = Some (default n1 (om_find c t)) /\
  choose c n2 (choose c n1 t) = choose c n1 t /\
  choose c n1 (choose c n1 t) = choose c n1 t.
Proof.
  unfold choose.
  assert (Hf : om_find c (om_insert c n1 t) = Some (default n1 (om_find c t))).
  { rewrite om_find_insert_eq. by destruct (om_find c t). }
  assert (Hid : forall n, om_insert c n (om_insert c n1 t) = om_insert c n1 t).
  { intros n. unfold om_insert at 1. by rewrite Hf. }
  rewrite !Hid. auto.
Qed.

(** C4 (as stated) fails: after [choose 0 (0,0)] and then [choose 0 (0,1)]
    on the empty table, class 0 is not mapped to the later node (0,1). *)
Lemma choose_later_does_not_replace :
  om_find 0%N (choose 0%N (0%N, 1%N) (choose 0%N (0%N, 0%N) [])) <> Some (0%N, 1%N).
Proof. vm_compute. discriminate. Qed.

(** ** The greedy extractor: what every recorded cost set satisfies *)

Lemma calculate_cost_set_choice g node_id costs best cs :
  calculate_cost_set g node_id costs best = Ok cs -> cs_choice cs = node_id.
Proof.
  unfold calculate_cost_set. intros H.
  apply rbind_Ok in H as (node & _ & H).
  apply rbind_Ok in H as (cid & _ & H).
  destruct (children node); [by injection H as <-|].
  destruct (sort_unique _); [by injection H as <-|].
  destruct (costs !! _); [|by injection H as <-].
  destruct (_ || _); by injection H as <-.
Qed.

Lemma ecost_ltb_Fin a b : ecost_ltb a b = true -> exists q, a = Fin q.
Proof. destruct a; [eauto|done]. Qed.

Lemma extract_step_costs_ok g parents node_id q costs q' costs' :
  costs_ok g costs ->
  extract_step g parents node_id (q, costs) = Ok (q', costs') ->
  costs_ok g costs'.
Proof.
  intros Hok H. unfold extract_step in H.
  apply rbind_Ok in H as (class_id & Hcid & H).
  apply rbind_Ok in H as (node & Hnode & H).
  destruct (forallb _ _); [|by injection H as <- <-].
  apply rbind_Ok in H as (cost_set & Hcs & H).
  destruct (ecost_ltb _ _) eqn:Hlt; [|by injection H as <- <-].
  injection H as <- <-.
  intros c cs Hl. destruct (decide (c = class_id)) as [->|Hne].
  - rewrite lookup_insert_eq in Hl. injection Hl as <-.
    apply calculate_cost_set_choice in Hcs. rewrite Hcs.
    split; [done|]. by eapply ecost_ltb_Fin.
  - rewrite lookup_insert_ne in Hl by done. by apply Hok.
Qed.

Lemma extract_loop_costs_ok fuel g parents st costs :
  costs_ok g (snd st) ->
  extract_loop fuel g parents st = Ok costs ->
  costs_ok g costs.
Proof.
  revert st. induction fuel as [|fuel IH]; intros [q cs0] Hok; simpl; [done|].
  destruct (uq_pop q) as [[node_id q1]|]; [|by intros [= <-]].
  intros H. apply rbind_Ok in H as ([q' costs'] & Hstep & H).
  eapply IH; [|exact H]. simpl. by eapply extract_step_costs_ok.
Qed.

Lemma extract_costs_ok fuel g costs :
  extract_costs fuel g = Ok costs -> costs_ok g costs.
Proof.
  unfold extract_costs. intros H.
  apply rbind_Ok in H as ([parents q] & _ & H).
  eapply extract_loop_costs_ok; [|exact H].
  intros c cs Hl. simpl in Hl. by rewrite lookup_empty in Hl.
Qed.

(** [choices_of] records, for every class with a cost set, that set's choice. *)
Lemma om_find_fold_choose {V} (f : V -> NodeId) (l : list (ClassId * V)) acc k :
  om_find k (fold_left (fun result p => choose (fst p) (f (snd p)) result) l acc)
  = match om_find k acc with
    | Some n => Some n
    | None => f <$> om_find k l
    end.
Proof.
  revert acc. induction l as [|[k' v] l IH]; intros acc; simpl.
  - by destruct (om_find k acc).
  - rewrite IH. unfold choose. destruct (decide (k = k')) as [->|Hne].
    + rewrite om_find_insert_eq. by destruct (om_find k' acc).
    + by rewrite om_find_insert_ne.
Qed.

Lemma om_find_choices_of costs c :
  om_find c (choices_of costs) = cs_choice <$> (costs !! c).
Proof.
  unfold choices_of. rewrite (om_find_fold_choose cs_choice). simpl.
  by rewrite om_find_map_to_list.
Qed.

Lemma choices_of_elem costs c n :
  (c, n) ∈ choices_of costs ->
  exists cs, costs !! c = Some cs /\ n = cs_choice cs.
Proof.
  unfold choices_of.
  assert (G : forall l acc,
    (c, n) ∈ fold_left (fun result p => choose (fst p) (cs_choice (snd p)) result) l acc ->
    (c, n) ∈ acc \/ exists cs, (c, cs) ∈ l /\ n = cs_choice cs).
  { induction l as [|[k v] l IH]; intros acc Hin; simpl in *; [by left|].
    apply IH in Hin as [Hin|(cs & Hin & ->)].
    - unfold choose, om_insert in Hin. destruct (om_find k acc); [by left|].
      apply elem_of_app in Hin as [Hin|Hin]; [by left|].
      apply list_elem_of_singleton in Hin. injection Hin as -> ->.
      right. exists v. split; [left|done].
    - right. exists cs. split; [by right|done]. }
  intros Hin. apply G in Hin as [Hin|(cs & Hin & ->)].
  - by apply elem_of_nil in Hin.
  - exists cs. split; [|done]. by apply elem_of_map_to_list.
Qed.

(** C9.  [extract] never reads its [roots] argument: any two root lists give
    the same result, and that result has an entry for every class that ended
    with a (finite) cost set, namely that cost set's choice. *)
Theorem extract_independent_of_roots (fuel : nat) (g : EGraph)
    (r1 r2 : list ClassId) :
  extract fuel g r1 = extract fuel g r2 /\
  (forall costs, extract_costs fuel g = Ok costs ->
     extract fuel g r1 = Ok (choices_of costs) /\
     forall c cs, costs !! c = Some cs ->
       (exists q, cs_total cs = Fin q) /\
       om_find c (choices_of costs) = Some (cs_choice cs)).
Proof.
  split; [reflexivity|].
  intros costs Hc. split.
  - unfold extract. by rewrite Hc.
  - intros c cs Hl. split.
    + by apply (extract_costs_ok _ _ _ Hc c cs Hl).
    + by rewrite om_find_choices_of, Hl.
Qed.

Lemma extract_independent_of_roots_witness :
  extract 10 scenario_B [0%N] = extract 10 scenario_B [1%N; 7%N] /\
  extract 10 scenario_B [0%N] = Ok [(1%N, (1%N, 0%N)); (0%N, (0%N, 0%N))].
Proof.
  destruct (extract_independent_of_roots 10 scenario_B [0%N] [1%N; 7%N])
    as [Heq _].
  split; [exact Heq|]. vm_compute. reflexivity.
Defined.

Lemma check_eclass_match_Ok g (choices : choice_map) :
  (forall c n, (c, n) ∈ choices -> nid_to_cid g n = Ok c) ->
  check_eclass_match g choices = Ok tt.
Proof.
  unfold check_eclass_match. induction choices as [|[c n] l IH]; intros Hall; simpl.
  - done.
  - assert (Hc : nid_to_cid g n = Ok c) by (apply Hall; left).
    unfold nid_to_cid in Hc. apply rbind_Ok in Hc as (node & -> & [= Hc]).
    simpl. rewrite decide_True by done.
    apply IH. intros c' n' Hin. apply Hall. by right.
Qed.

(** C10.  Every entry [(c, n)] of an extractor-produced table names a node
    that exists in the graph and whose declared class is [c]; hence the
    eclass-match pass of [check] succeeds on it. *)
Theorem extract_eclass_match (fuel : nat) (g : EGraph) (roots : list ClassId)
    (r : choice_map) :
  extract fuel g roots = Ok r ->
  (forall c n, (c, n) ∈ r ->
     exists node, egraph_get g n = Ok node /\ eclass node = c) /\
  check_eclass_match g r = Ok tt.
Proof.
  unfold extract. intros H. apply rbind_Ok in H as (costs & Hc & [= <-]).
  assert (Hall : forall c n, (c, n) ∈ choices_of costs -> nid_to_cid g n = Ok c).
  { intros c n Hin. apply choices_of_elem in Hin as (cs & Hl & ->).
    by apply (extract_costs_ok _ _ _ Hc c cs Hl). }
  split.
  - intros c n Hin. specialize (Hall c n Hin). unfold nid_to_cid in Hall.
    apply rbind_Ok in Hall as (node & Hn & [= Hc']). eauto.
  - by apply check_eclass_match_Ok.
Qed.

Lemma extract_eclass_match_witness :
  check_eclass_match scenario_B [(1%N, (1%N, 0%N)); (0%N, (0%N, 0%N))] = Ok tt.
Proof.
  apply (extract_eclass_match 10 scenario_B [0%N]). vm_compute. reflexivity.
Defined.

(** ** Result validation *)

Section CheckFacts.
Context (g : EGraph) (choices : choice_map).

Local Abbreviation edge := (child_edge g choices).
Local Abbreviation post := (dfs_post g choices).

(** *** Depth-first search: what a successful run establishes *)

Lemma dfs_post_nil st cyc : post [] st cyc st cyc.
Proof.
  split; [by intros ? ?|]. split; [done|].
  exists []. split; [by rewrite app_nil_r|]. split.
  - intros _ x Hx. by apply elem_of_nil in Hx.
  - intros _ Hs. split; [done|]. intros k Hk. by apply elem_of_nil in Hk.
Qed.

Lemma dfs_post_cons k T st cyc st1 cyc1 st2 cyc2 :
  post [k] st cyc st1 cyc1 -> post T st1 cyc1 st2 cyc2 ->
  post (k :: T) st cyc st2 cyc2.
Proof.
  intros (Hsub1 & Hd1 & new1 & -> & Hsound1 & Hcomp1)
         (Hsub2 & Hd2 & new2 & -> & Hsound2 & Hcomp2).
  split; [intros x s Hx; by apply Hsub2, Hsub1|].
  split; [intros x; by rewrite Hd2, Hd1|].
  exists (new1 ++ new2). split; [by rewrite app_assoc|]. split.
  - intros Hdoing x Hx. apply elem_of_app in Hx as [Hx|Hx].
    + destruct (Hsound1 (fun u k' Hu Hk' =>
                  Hdoing u k' Hu ltac:(apply list_elem_of_singleton in Hk' as ->; left))
                  x Hx) as (Hc & k' & Hk' & Hr).
      split; [done|]. exists k'. split; [|done].
      apply list_elem_of_singleton in Hk' as ->. left.
    + destruct (Hsound2 (fun u k' Hu Hk' =>
                  Hdoing u k' (proj1 (Hd1 u) Hu) ltac:(by right)) x Hx)
        as (Hc & k' & Hk' & Hr).
      split; [done|]. exists k'. split; [by right|done].
  - intros Hnil Hs. apply app_eq_nil in Hnil as [-> ->].
    destruct (Hcomp1 eq_refl Hs) as [Hs1 Hk1].
    destruct (Hcomp2 eq_refl Hs1) as [Hs2 Hk2].
    split; [done|]. intros k' Hk'. apply elem_of_cons in Hk' as [->|Hk'].
    + apply Hsub2, Hk1. left.
    + by apply Hk2.
Qed.

Lemma for_each_dfs_post (f : ClassId -> status_map * list ClassId ->
                             res (status_map * list ClassId)) T st cyc st' cyc' :
  (forall k s c s' c', f k (s, c) = Ok (s', c') -> post [k] s c s' c') ->
  for_each f T (st, cyc) = Ok (st', cyc') ->
  post T st cyc st' cyc'.
Proof.
  intros Hf. revert st cyc. induction T as [|k T IH]; intros st cyc; simpl.
  - intros [= <- <-]. apply dfs_post_nil.
  - intros H. apply rbind_Ok in H as ([st1 cyc1] & H1 & H2).
    eapply dfs_post_cons; eauto.
Qed.

Lemma cycle_dfs_post fuel c st cyc st' cyc' :
  cycle_dfs fuel g choices c (st, cyc) = Ok (st', cyc') ->
  post [c] st cyc st' cyc'.
Proof.
  revert c st cyc st' cyc'. induction fuel as [|fuel IH];
    intros c st cyc st' cyc'; simpl; [done|].
  destruct (om_find c st) as [[|]|] eqn:Hc.
  - (* in progress: a cycle is reported *)
    intros [= <- <-]. split; [by intros ? ?|]. split; [done|].
    exists [c]. split; [done|]. split; [|done].
    intros Hdoing x Hx. apply list_elem_of_singleton in Hx as ->.
    split; [apply Hdoing; [done|left]|]. exists c. split; [left|done].
  - (* done *)
    intros [= <- <-]. split; [by intros ? ?|]. split; [done|].
    exists []. split; [by rewrite app_nil_r|]. split.
    + intros _ x Hx. by apply elem_of_nil in Hx.
    + intros _ Hs. split; [done|]. intros k Hk.
      by apply list_elem_of_singleton in Hk as ->.
  - (* unvisited *)
    intros H. apply rbind_Ok in H as (node & Hnode & H).
    apply rbind_Ok in H as ([st2 cyc2] & Hloop & [= <- <-]).
    apply (for_each_dfs_post _ _ _ _ _ _ (fun k s c0 s' c' => IH k s c0 s' c'))
      in Hloop as (Hsub & Hd & new & -> & Hsound & Hcomp).
    assert (Hne : forall k s, om_find k st = Some s -> k <> c)
      by (intros k s Hk ->; congruence).
    split; [|split].
    + intros k s Hk. rewrite om_find_set_ne by (symmetry; by eapply Hne).
      apply Hsub. rewrite om_find_set_ne by (symmetry; by eapply Hne). done.
    + intros k. destruct (decide (k = c)) as [->|Hkc].
      * rewrite om_find_set_eq, Hc. split; done.
      * rewrite om_find_set_ne by done. rewrite Hd.
        by rewrite om_find_set_ne by done.
    + exists new. split; [done|]. split.
      * intros Hdoing x Hx.
        assert (Hpre : forall u k, om_find u (om_set c Doing st) = Some Doing ->
                                   k ∈ children node -> tc edge u k).
        { intros u k Hu Hk. assert (He : edge c k) by (by exists node).
          destruct (decide (u = c)) as [->|Huc]; [by apply tc_once|].
          rewrite om_find_set_ne in Hu by done.
          eapply tc_r; [|exact He]. apply Hdoing; [done|left]. }
        destruct (Hsound Hpre x Hx) as (Hcyc & k & Hk & Hr).
        split; [done|]. exists c. split; [left|].
        eapply rtc_l; [|exact Hr]. by exists node.
      * intros -> Hs.
        assert (Hs1 : done_safe g choices (om_set c Doing st)).
        { intros k Hk. destruct (decide (k = c)) as [->|Hkc].
          - by rewrite om_find_set_eq in Hk.
          - rewrite om_find_set_ne in Hk by done. by apply Hs. }
        destruct (Hcomp eq_refl Hs1) as [Hs2 Hkids].
        assert (Hsafe : safe g choices c).
        { apply (safe_intro g choices c node Hnode). intros k Hk.
          apply Hs2. by apply Hkids. }
        split.
        -- intros k Hk. destruct (decide (k = c)) as [->|Hkc]; [done|].
           rewrite om_find_set_ne in Hk by done. by apply Hs2.
        -- intros k Hk. apply list_elem_of_singleton in Hk as ->.
           apply om_find_set_eq.
Qed.

(** *** Depth-first search: an exception comes from a reachable class *)

Lemma for_each_dfs_throw
    (f : ClassId -> status_map * list ClassId -> res (status_map * list ClassId))
    T s e :
  (forall k s', f k s' = Throw e ->
     exists x, rtc edge k x /\ chosen_node g choices x = Throw e) ->
  for_each f T s = Throw e ->
  exists k x, k ∈ T /\ rtc edge k x /\ chosen_node g choices x = Throw e.
Proof.
  intros Hf H. apply for_each_Throw in H as (k & s' & Hk & H).
  apply Hf in H as (x & Hr & Hx). by exists k, x.
Qed.

Lemma cycle_dfs_throw fuel c st e :
  cycle_dfs fuel g choices c st = Throw e ->
  exists x, rtc edge c x /\ chosen_node g choices x = Throw e.
Proof.
  revert c st. induction fuel as [|fuel IH]; intros c [st cyc]; simpl; [done|].
  destruct (om_find c st) as [[|]|]; [done|done|].
  intros H. apply rbind_Throw in H as [H|(node & Hnode & H)].
  { by exists c. }
  apply rbind_Throw in H as [H|([? ?] & _ & H)]; [|simpl in H; done].
  apply (for_each_dfs_throw _ _ _ _ (fun k s' => IH k s')) in H
    as (k & x & Hk & Hr & Hx).
  exists x. split; [|done]. eapply rtc_l; [|exact Hr]. by exists node.
Qed.

(** *** Depth-first search: enough fuel *)

Lemma filter_length_le {A} (P Q : A -> Prop) `{forall x, Decision (P x)}
    `{forall x, Decision (Q x)} (l : list A) :
  (forall x, x ∈ l -> Q x -> P x) ->
  (length (filter Q l) <= length (filter P l))%nat.
Proof.
  induction l as [|a l IH]; intros HPQ; [done|].
  rewrite !filter_cons.
  assert (IH' : (length (filter Q l) <= length (filter P l))%nat).
  { apply IH. intros x Hx. apply HPQ. by right. }
  destruct (decide (Q a)) as [Hq|Hq].
  - rewrite decide_True by (apply HPQ; [left|done]). simpl. lia.
  - destruct (decide (P a)); simpl; lia.
Qed.

Lemma filter_length_lt {A} (P Q : A -> Prop) `{forall x, Decision (P x)}
    `{forall x, Decision (Q x)} (l : list A) (a : A) :
  (forall x, x ∈ l -> Q x -> P x) -> a ∈ l -> P a -> ~ Q a ->
  (length (filter Q l) < length (filter P l))%nat.
Proof.
  induction l as [|b l IH]; intros HPQ Ha Pa Qa; [by apply elem_of_nil in Ha|].
  rewrite !filter_cons.
  assert (HPQ' : forall x, x ∈ l -> Q x -> P x).
  { intros x Hx. apply HPQ. by right. }
  pose proof (filter_length_le P Q l HPQ') as Hle.
  apply elem_of_cons in Ha as [<-|Ha].
  - destruct (decide (Q a)); [done|]. destruct (decide (P a)); [|done].
    simpl. lia.
  - specialize (IH HPQ' Ha Pa Qa).
    destruct (decide (Q b)) as [Hq|Hq].
    + rewrite decide_True by (apply HPQ; [left|done]). simpl. lia.
    + destruct (decide (P b)); simpl; lia.
Qed.

Lemma unmarked_sub st st' :
  status_sub st st' -> (unmarked choices st' <= unmarked choices st)%nat.
Proof.
  intros Hsub. unfold unmarked. apply filter_length_le.
  intros [k n] _ Hnone. simpl in *.
  destruct (om_find k st) as [s|] eqn:E; [|done].
  apply Hsub in E. congruence.
Qed.

Lemma unmarked_mark st c n :
  om_find c st = None -> om_find c choices = Some n ->
  (unmarked choices (om_set c Doing st) < unmarked choices st)%nat.
Proof.
  intros Hc Hn. unfold unmarked.
  apply (filter_length_lt _ _ choices (c, n)).
  - intros [k m] _. simpl. destruct (decide (c = k)) as [->|Hne].
    + by rewrite om_find_set_eq.
    + by rewrite om_find_set_ne.
  - by apply om_find_Some_elem.
  - done.
  - simpl. by rewrite om_find_set_eq.
Qed.

Lemma for_each_dfs_fuel fuel T st cyc :
  (forall c st cyc, (unmarked choices st < fuel)%nat ->
                    cycle_dfs fuel g choices c (st, cyc) <> NoFuel) ->
  (unmarked choices st < fuel)%nat ->
  for_each (cycle_dfs fuel g choices) T (st, cyc) <> NoFuel.
Proof.
  intros IH. revert st cyc. induction T as [|k T IHT]; intros st cyc Hlt; simpl;
    [done|].
  destruct (cycle_dfs fuel g choices k (st, cyc)) as [[st1 cyc1]| |] eqn:E; simpl.
  - apply IHT. apply cycle_dfs_post in E as (Hsub & _).
    apply unmarked_sub in Hsub. lia.
  - done.
  - by apply IH in E.
Qed.

Lemma cycle_dfs_fuel fuel c st cyc :
  (unmarked choices st < fuel)%nat ->
  cycle_dfs fuel g choices c (st, cyc) <> NoFuel.
Proof.
  revert c st cyc. induction fuel as [|fuel IH]; intros c st cyc Hlt; [lia|].
  simpl. destruct (om_find c st) as [[|]|] eqn:Hc; [done|done|].
  unfold chosen_node at 1.
  destruct (om_find c choices) as [n|] eqn:Hn; simpl; [|done].
  destruct (egraph_get g n) as [node| |] eqn:Hnode; simpl; [|done|].
  2:{ unfold egraph_get, nodes_get in Hnode.
      destruct (om_find (fst n) (nodes g)); simpl in Hnode; [|done].
      by destruct (om_find n _). }
  pose proof (unmarked_mark st c n Hc Hn) as Hmark.
  destruct (for_each _ _ _) as [[st2 cyc2]| |] eqn:E; simpl; [done|done|].
  apply for_each_dfs_fuel in E; [done|exact IH|lia].
Qed.

(** *** Safe classes *)

Lemma safe_edge c k : safe g choices c -> edge c k -> safe g choices k.
Proof.
  intros Hs (node & Hn & Hk). destruct Hs as [c node' Hn' Hkids].
  rewrite Hn in Hn'. injection Hn' as <-. by apply Hkids.
Qed.

Lemma safe_rtc c x : safe g choices c -> rtc edge c x -> safe g choices x.
Proof. intros Hs Hr. induction Hr; eauto using safe_edge. Qed.

Lemma safe_chosen c :
  safe g choices c -> exists node, chosen_node g choices c = Ok node.
Proof. intros [? node Hn _]. eauto. Qed.

Lemma tc_first_step (R : relation ClassId) x z :
  tc R x z -> exists k, R x k /\ rtc R k z.
Proof.
  intros H. destruct H as [x z H|x k z H1 H2].
  - by exists z.
  - exists k. split; [done|]. by apply tc_rtc.
Qed.

Lemma safe_acyclic c :
  safe g choices c -> forall y, rtc edge c y -> ~ tc edge y y.
Proof.
  induction 1 as [c node Hn Hkids IH]. intros y Hr Hcyc.
  apply rtc_inv in Hr as [->|(k & (node' & Hn' & Hk) & Hr)].
  - apply tc_first_step in Hcyc as Hstep.
    destruct Hstep as (k & (node' & Hn' & Hk) & Hr).
    rewrite Hn in Hn'. injection Hn' as <-.
    by apply (IH k Hk y Hr).
  - rewrite Hn in Hn'. injection Hn' as <-. by apply (IH k Hk y Hr).
Qed.

(** *** The straight-line passes of [check] *)

Lemma check_roots_spec :
  (check_roots g choices = Ok tt /\
   forall r, r ∈ root_eclasses g -> is_Some (om_find r choices)) \/
  (throws (check_roots g choices) /\ missing_root g choices).
Proof.
  unfold check_roots, missing_root.
  induction (root_eclasses g) as [|r l IH]; simpl.
  - left. split; [done|]. intros r Hr. by apply elem_of_nil in Hr.
  - destruct (om_find r choices) eqn:E; simpl.
    + destruct IH as [[Hok Hall]|[Hthrow (r' & Hr' & Hnone)]].
      * left. split; [done|]. intros r' Hr'.
        apply elem_of_cons in Hr' as [->|Hr']; [by rewrite E|auto].
      * right. split; [done|]. exists r'. split; [by right|done].
    + right. split; [by eexists|]. exists r. split; [left|done].
Qed.

Lemma egraph_get_cases n :
  (exists node, egraph_get g n = Ok node) \/ throws (egraph_get g n).
Proof.
  unfold egraph_get, nodes_get, throws.
  destruct (om_find (fst n) (nodes g)); simpl; [|eauto].
  destruct (om_find n _); simpl; eauto.
Qed.

Lemma check_eclass_match_spec :
  (check_eclass_match g choices = Ok tt /\
   forall c n, (c, n) ∈ choices ->
     exists node, egraph_get g n = Ok node /\ eclass node = c) \/
  (throws (check_eclass_match g choices) /\
   (eclass_mismatch g choices \/ dangling_choice g choices)).
Proof.
  unfold check_eclass_match, eclass_mismatch, dangling_choice.
  induction choices as [|[c n] l IH]; simpl.
  - left. split; [done|]. intros c n Hin. by apply elem_of_nil in Hin.
  - destruct (egraph_get_cases n) as [(node & Hn)|Hthrow].
    + rewrite Hn. simpl. destruct (decide (eclass node = c)) as [Hc|Hc]; simpl.
      * destruct IH as [[Hok Hall]|[Hthrow [(c' & n' & node' & Hin & H1 & H2)
                                           |(c' & n' & Hin & H1)]]].
        -- left. split; [done|]. intros c' n' Hin.
           apply elem_of_cons in Hin as [[= -> ->]|Hin]; eauto.
        -- right. split; [done|]. left. exists c', n', node'.
           split; [by right|done].
        -- right. split; [done|]. right. exists c', n'. split; [by right|done].
      * right. split; [by eexists|]. left. exists c, n, node.
        split; [left|done].
    + right. destruct Hthrow as [e He]. rewrite He. simpl.
      split; [by eexists|]. right. exists c, n. split; [left|by exists e].
Qed.

(** *** The dependency walk *)

Lemma sum_list_drop {A} (f f' : A -> nat) (l : list A) (a : A) (w : nat) :
  (forall x, x ∈ l -> (f' x <= f x)%nat) -> a ∈ l -> (f' a + w <= f a)%nat ->
  (sum_list (map f' l) + w <= sum_list (map f l))%nat.
Proof.
  induction l as [|b l IH]; intros Hle Ha Hw; [by apply elem_of_nil in Ha|].
  simpl.
  assert (Hle' : forall x, x ∈ l -> (f' x <= f x)%nat)
    by (intros x Hx; apply Hle; by right).
  assert (Hall : (sum_list (map f' l) <= sum_list (map f l))%nat).
  { clear -Hle'. induction l as [|c l IHl]; simpl; [done|].
    assert (f' c <= f c)%nat by (apply Hle'; left).
    assert (sum_list (map f' l) <= sum_list (map f l))%nat
      by (apply IHl; intros x Hx; apply Hle'; by right).
    lia. }
  apply elem_of_cons in Ha as [<-|Ha].
  - lia.
  - specialize (IH Hle' Ha Hw). assert (f' b <= f b)%nat by (apply Hle; left). lia.
Qed.

Lemma pending_kids_visit (visited : gset ClassId) c n :
  c ∉ visited -> om_find c choices = Some n ->
  (pending_kids g choices (fun k => k ∈ {[c]} ∪ visited) + nkids g choices c
   <= pending_kids g choices (fun k => k ∈ visited))%nat.
Proof.
  intros Hc Hn. unfold pending_kids.
  apply (sum_list_drop _ _ choices (c, n)).
  - intros [k m] _. simpl.
    destruct (decide (k ∈ {[c]} ∪ visited)); [lia|].
    rewrite decide_False by set_solver. done.
  - by apply om_find_Some_elem.
  - simpl. rewrite decide_True by set_solver. by rewrite decide_False.
Qed.

Lemma chosen_node_inv c node :
  chosen_node g choices c = Ok node ->
  exists n, om_find c choices = Some n /\ egraph_get g n = Ok node.
Proof.
  unfold chosen_node. intros H. apply rbind_Ok in H as (n & Hn & H).
  apply of_option_Ok in Hn. eauto.
Qed.

Lemma check_deps_safe fuel todo (visited : gset ClassId) :
  (forall c, c ∈ todo -> safe g choices c) ->
  (length todo + pending_kids g choices (fun k => k ∈ visited) < fuel)%nat ->
  check_deps fuel g choices todo visited = Ok tt.
Proof.
  revert todo visited. induction fuel as [|fuel IH]; intros todo visited Hsafe Hlt;
    [lia|].
  simpl. destruct todo as [|c todo]; [done|]. simpl in Hlt.
  destruct (decide (c ∈ visited)) as [Hv|Hv].
  - apply IH; [|lia]. intros k Hk. apply Hsafe. by right.
  - assert (Hc : safe g choices c) by (apply Hsafe; left).
    destruct Hc as [c node Hnode Hkids].
    apply chosen_node_inv in Hnode as Hn. destruct Hn as (n & Hn & Hget).
    rewrite Hn, Hget. simpl.
    pose proof (pending_kids_visit visited c n Hv Hn) as Hpk.
    unfold nkids in Hpk. rewrite Hnode in Hpk.
    apply IH.
    + intros k Hk. apply elem_of_app in Hk as [Hk|Hk].
      * apply Hkids. by apply elem_of_rev.
      * apply Hsafe. by right.
    + rewrite length_app, length_rev. lia.
Qed.

(** *** [find_cycles] *)

Lemma find_cycles_spec fuel roots :
  (length choices < fuel)%nat ->
  (exists cycles, find_cycles fuel g choices roots = Ok cycles /\
     (forall x, x ∈ cycles -> tc edge x x /\ reachable g choices roots x) /\
     (cycles = [] -> forall r, r ∈ roots -> safe g choices r)) \/
  (exists e x, find_cycles fuel g choices roots = Throw e /\
     reachable g choices roots x /\ chosen_node g choices x = Throw e).
Proof.
  intros Hfuel. unfold find_cycles.
  assert (Hun : (unmarked choices [] < fuel)%nat).
  { unfold unmarked. eapply Nat.le_lt_trans; [apply length_filter|done]. }
  destruct (for_each _ roots _) as [[st cyc]|e|] eqn:E; simpl.
  - left. exists cyc. split; [done|].
    apply (for_each_dfs_post _ _ _ _ _ _
             (fun k s c s' c' => cycle_dfs_post fuel k s c s' c'))
      in E as (_ & _ & new & Hnew & Hsound & Hcomp).
    simpl in Hnew. subst new. split.
    + intros x Hx. destruct (Hsound (fun u k Hu _ => ltac:(done)) x Hx)
        as (Hc & r & Hr & Hrx).
      split; [done|]. by exists r.
    + intros -> r Hr. destruct (Hcomp eq_refl) as [Hs Hd]; [by intros ? ?|].
      apply Hs. by apply Hd.
  - right. apply (for_each_dfs_throw _ _ _ _
                    (fun k s' => cycle_dfs_throw fuel k s' e)) in E
      as (r & x & Hr & Hrx & Hx).
    exists e, x. split; [done|]. split; [by exists r|done].
  - exfalso. apply for_each_dfs_fuel in E; [done| |done].
    intros c st cyc. apply cycle_dfs_fuel.
Qed.

Lemma chosen_node_throw x e :
  chosen_node g choices x = Throw e ->
  om_find x choices = None \/
  exists n, (x, n) ∈ choices /\ throws (egraph_get g n).
Proof.
  unfold chosen_node. destruct (om_find x choices) as [n|] eqn:Hn; simpl.
  - intros H. right. exists n. split; [by apply om_find_Some_elem|by exists e].
  - by left.
Qed.

Lemma check_unfold fuel :
  root_eclasses g <> [] ->
  check fuel g choices =
  (let* _ := check_roots g choices in
   let* cycles := find_cycles fuel g choices (root_eclasses g) in
   match cycles with
   | _ :: _ => Throw (LogicError "Cycle detected in extraction choices")
   | [] =>
       let* _ := check_eclass_match g choices in
       check_deps fuel g choices (rev (root_eclasses g)) ∅
   end).
Proof. unfold check. by destruct (root_eclasses g). Qed.

Lemma check_cases fuel :
  root_eclasses g <> [] -> (check_fuel g choices <= fuel)%nat ->
  (check fuel g choices = Ok tt /\
   ~ (missing_root g choices \/ has_cycle g choices \/ missing_dep g choices \/
      eclass_mismatch g choices \/ dangling_choice g choices)) \/
  (throws (check fuel g choices) /\
   (missing_root g choices \/ has_cycle g choices \/ missing_dep g choices \/
    eclass_mismatch g choices \/ dangling_choice g choices)).
Proof.
  intros Hroots Hfuel. rewrite check_unfold by done. unfold check_fuel in Hfuel.
  destruct check_roots_spec as [[Hr Hrall]|[[e Hr] Hmiss]]; rewrite Hr; simpl.
  2:{ right. split; [by exists e|by left]. }
  destruct (find_cycles_spec fuel (root_eclasses g))
    as [(cycles & Hc & Hsound & Hcomp)|(e & x & Hc & Hx & He)]; [lia| |];
    rewrite Hc; simpl.
  2:{ right. split; [by exists e|].
      apply chosen_node_throw in He as [Hnone|(n & Hin & Hth)].
      - right. right. left. by exists x.
      - do 4 right. by exists x, n. }
  destruct cycles as [|x cycles].
  2:{ right. split; [by eexists|]. right. left. exists x.
      destruct (Hsound x) as [? ?]; [left|]. done. }
  specialize (Hcomp eq_refl).
  destruct check_eclass_match_spec as [[Hm Hmall]|[[e Hm] Hbad]]; rewrite Hm; simpl.
  2:{ right. split; [by exists e|]. destruct Hbad; auto. }
  left. split.
  - apply check_deps_safe.
    + intros c Hc'. apply Hcomp. by apply elem_of_rev.
    + rewrite length_rev.
      match goal with
      | |- (_ + ?p < _)%nat =>
          assert (p = pending_kids g choices (fun _ => False)) as ->
            by reflexivity
      end. lia.
  - assert (Hreach : forall c, reachable g choices (root_eclasses g) c ->
                               safe g choices c).
    { intros c (r & Hr' & Hrc). eapply safe_rtc; [|exact Hrc]. by apply Hcomp. }
    intros [(r & Hr' & Hnone)|[(c & Hrc & Hcyc)|[(c & Hrc & Hnone)|
            [(c & n & node & Hin & Hget & Hne)|(c & n & Hin & [e Hth])]]]].
    + destruct (Hrall r Hr') as [? ?]. congruence.
    + by apply (safe_acyclic c (Hreach c Hrc) c).
    + destruct (safe_chosen c (Hreach c Hrc)) as [node Hnode].
      apply chosen_node_inv in Hnode as (n & Hn & _). congruence.
    + destruct (Hmall c n Hin) as (node' & Hget' & Hecl). congruence.
    + destruct (Hmall c n Hin) as (node' & Hget' & _). congruence.
Qed.
End CheckFacts.

(** C1 (as the code has it).  For a graph with a non-empty root list and
    enough fuel, [check] fails if and only if (1) a root has no choice, or
    (2) the chosen-node child graph reachable from the roots has a cycle, or
    (3) a reachable class has no choice, or (4) an entry of the table names a
    node whose declared class differs from the entry's class, or (5) an entry
    of the table names a node that the graph does not have; when none holds,
    [check] returns normally. *)
Theorem check_fails_iff (fuel : nat) (g : EGraph) (choices : choice_map) :
  root_eclasses g <> [] -> (check_fuel g choices <= fuel)%nat ->
  (throws (check fuel g choices) <->
   missing_root g choices \/ has_cycle g choices \/ missing_dep g choices \/
   eclass_mismatch g choices \/ dangling_choice g choices) /\
  (~ (missing_root g choices \/ has_cycle g choices \/ missing_dep g choices \/
      eclass_mismatch g choices \/ dangling_choice g choices) ->
   check fuel g choices = Ok tt).
Proof.
  intros Hroots Hfuel.
  destruct (check_cases g choices fuel Hroots Hfuel) as [[Hok Hno]|[Hth Hyes]].
  - split; [|done]. split; [|done]. intros [e He]. congruence.
  - split; [done|]. intros Hno. done.
Qed.

Lemma check_fails_iff_witness :
  (throws (check 20 scenario_C []) <->
   missing_root scenario_C [] \/ has_cycle scenario_C [] \/
   missing_dep scenario_C [] \/ eclass_mismatch scenario_C [] \/
   dangling_choice scenario_C []) /\
  (~ (missing_root scenario_B table_B \/ has_cycle scenario_B table_B \/
      missing_dep scenario_B table_B \/ eclass_mismatch scenario_B table_B \/
      dangling_choice scenario_B table_B) ->
   check 20 scenario_B table_B = Ok tt).
Proof.
  split.
  - apply (check_fails_iff 20 scenario_C []); [discriminate|vm_compute; lia].
  - apply (check_fails_iff 20 scenario_B table_B); [discriminate|vm_compute; lia].
Defined.

(** C1 (as stated) fails: on scenario A with a table that also has an entry
    for the unreachable class 5 naming the absent node (7,0), [check] throws
    although none of the four listed conditions holds. *)
Lemma check_fails_on_dangling_entry :
  throws (check 10 scenario_A dangling_table) /\
  ~ (missing_root scenario_A dangling_table \/
     has_cycle scenario_A dangling_table \/
     missing_dep scenario_A dangling_table \/
     eclass_mismatch scenario_A dangling_table).
Proof.
  split; [vm_compute; by eexists|].
  assert (Hsafe : safe scenario_A dangling_table 0%N).
  { apply (safe_intro _ _ 0%N (leaf 0 3)); [reflexivity|].
    intros k Hk. by apply elem_of_nil in Hk. }
  assert (Hreach : forall c, reachable scenario_A dangling_table [0%N] c ->
                             safe scenario_A dangling_table c).
  { intros c (r & Hr & Hrc). apply list_elem_of_singleton in Hr as ->.
    by eapply safe_rtc. }
  intros [(r & Hr & Hnone)|[(c & Hrc & Hcyc)|[(c & Hrc & Hnone)|
          (c & n & node & Hin & Hget & Hne)]]].
  - apply list_elem_of_singleton in Hr as ->. vm_compute in Hnone. discriminate.
  - by apply (safe_acyclic _ _ c (Hreach c Hrc) c).
  - destruct (safe_chosen _ _ c (Hreach c Hrc)) as [node Hnode].
    apply chosen_node_inv in Hnode as (n & Hn & _). congruence.
  - apply elem_of_cons in Hin as [[= -> ->]|Hin].
    + vm_compute in Hget. injection Hget as <-. by apply Hne.
    + apply list_elem_of_singleton in Hin as [= -> ->].
      vm_compute in Hget. discriminate.
Qed.

(** ** Tree cost and DAG cost *)

Section CostFacts.
Context (g : EGraph) (choices : choice_map).

Local Abbreviation edge := (child_edge g choices).
Local Abbreviation U := (unfolding g choices).
Local Abbreviation Σ := (sumc g choices).

Lemma sumc_app l1 l2 : (Σ (l1 ++ l2) == Σ l1 + Σ l2)%Q.
Proof.
  induction l1 as [|c l1 IH]; simpl; [lra|]. rewrite IH. lra.
Qed.


Lemma unfolding_safe l :
  (forall c, c ∈ l -> safe g choices c) -> exists ls, U l ls.
Proof.
  assert (Hone : forall c, safe g choices c ->
                 exists node ks, chosen_node g choices c = Ok node /\
                                 U (children node) ks).
  { induction 1 as [c node Hn Hkids IH]. exists node.
    assert (Hl : exists ks, U (children node) ks).
    { clear Hn Hkids. induction (children node) as [|k kids IHl].
      - exists []. constructor.
      - destruct (IH k) as (nk & ksk & Hnk & Hk); [left|].
        destruct IHl as [ls Hls]; [intros k' Hk'; apply IH; by right|].
        exists (k :: ksk ++ ls). by econstructor. }
    destruct Hl as [ks Hks]. by exists ks. }
  induction l as [|c l IH]; intros Hsafe.
  - exists []. constructor.
  - destruct (Hone c) as (node & ks & Hn & Hks); [apply Hsafe; left|].
    destruct IH as [ls Hls]; [intros k Hk; apply Hsafe; by right|].
    exists (c :: ks ++ ls). by econstructor.
Qed.

(** *** [tree_cost_rec] sums the unfolding *)

Lemma tree_loop_ok rec roots acc memo r memo' :
  (forall l m r' m', memo_ok g choices m -> rec l m = Ok (r', m') ->
     memo_ok g choices m' /\ exists ls, U l ls /\ (r' == Σ ls)%Q) ->
  memo_ok g choices memo ->
  for_each (tree_step g choices rec) roots (acc, memo) = Ok (r, memo') ->
  memo_ok g choices memo' /\ exists ls, U roots ls /\ (r == acc + Σ ls)%Q.
Proof.
  intros Hrec. revert acc memo. induction roots as [|c roots IH];
    intros acc memo Hmemo; simpl.
  - intros [= <- <-]. split; [done|]. exists []. split; [constructor|simpl; lra].
  - intros H. apply rbind_Ok in H as ([acc1 memo1] & Hstep & Hrest).
    unfold tree_step in Hstep.
    apply rbind_Ok in Hstep as (n & Hn & Hstep). apply of_option_Ok in Hn.
    assert (Hone : memo_ok g choices memo1 /\
                   exists node ks, chosen_node g choices c = Ok node /\
                     U (children node) ks /\
                     (acc1 == acc + (cost node + Σ ks))%Q).
    { destruct (memo !! n) as [v|] eqn:Hv.
      - injection Hstep as <- <-. split; [done|].
        destruct (Hmemo n v Hv) as (node & ks & Hget & Hks & Heq).
        exists node, ks. split; [|split; [done|]].
        + unfold chosen_node. rewrite Hn. simpl. done.
        + rewrite Heq. lra.
      - apply rbind_Ok in Hstep as (node & Hget & Hstep).
        apply rbind_Ok in Hstep as ([sub memo2] & Hsub & [= <- <-]).
        destruct (Hrec _ _ _ _ Hmemo Hsub) as (Hmemo2 & ks & Hks & Heq).
        split.
        + destruct (memo2 !! n) eqn:Hn2; [done|].
          intros n' v'. destruct (decide (n' = n)) as [->|Hne].
          * rewrite lookup_insert_eq. intros [= <-].
            exists node, ks. split; [done|]. split; [done|]. rewrite Heq. lra.
          * rewrite lookup_insert_ne by done. apply Hmemo2.
        + exists node, ks. split; [|split; [done|]].
          * unfold chosen_node. rewrite Hn. simpl. done.
          * rewrite Heq. lra. }
    destruct Hone as (Hmemo1 & node & ks & Hnode & Hks & Heq1).
    destruct (IH _ _ Hmemo1 Hrest) as (Hmemo' & ls & Hls & Heq).
    split; [done|]. exists (c :: ks ++ ls). split; [by econstructor|].
    simpl. rewrite sumc_app. unfold costc. rewrite Hnode. rewrite Heq, Heq1. lra.
Qed.

Lemma tree_cost_rec_ok fuel roots memo r memo' :
  memo_ok g choices memo ->
  tree_cost_rec fuel g choices roots memo = Ok (r, memo') ->
  memo_ok g choices memo' /\ exists ls, U roots ls /\ (r == Σ ls)%Q.
Proof.
  revert roots memo r memo'. induction fuel as [|fuel IH];
    intros roots memo r memo' Hmemo; simpl; [done|].
  intros H. apply tree_loop_ok in H as (Hm & ls & Hls & Heq); [|exact IH|done].
  split; [done|]. exists ls. split; [done|]. rewrite Heq. lra.
Qed.

(** *** [tree_cost_rec] returns on safe classes *)




(** *** [dag_cost_loop] collects exactly the reachable classes *)

Lemma pending_kids_step (V V' : ClassId -> Prop) `{forall c, Decision (V c)}
    `{forall c, Decision (V' c)} c n :
  ~ V c -> (forall k, V' k <-> k = c \/ V k) ->
  om_find c choices = Some n ->
  (pending_kids g choices V' + nkids g choices c <= pending_kids g choices V)%nat.
Proof.
  intros Hc HV Hn. unfold pending_kids.
  apply (sum_list_drop _ _ choices (c, n)).
  - intros [k m] _. simpl. destruct (decide (V' k)) as [Hk|Hk]; [lia|].
    rewrite decide_False; [done|]. intros Hk'. apply Hk, HV. by right.
  - by apply om_find_Some_elem.
  - simpl. rewrite decide_True by (apply HV; by left). by rewrite decide_False.
Qed.

Lemma om_keys_insert_new c (v : Q) (costs : cost_table) :
  om_find c costs = None ->
  om_insert c v costs = costs ++ [(c, v)].
Proof. intros H. unfold om_insert. by rewrite H. Qed.





(** *** Sums over class lists *)








(** *** The unfolding lists the reachable classes, once per path *)



(** *** Comparing the table with the unfolding *)


(** *** Paths *)

Local Abbreviation W := (walk g choices).





End CostFacts.




(** *** Rounded sums of integer costs *)

Section IntegerCosts.
Context (g : EGraph) (choices : choice_map).
Hypothesis Hint : integer_costs g.

Local Abbreviation natq q := (exists n : Z, (0 <= n)%Z /\ q = inject_Z n).
Local Abbreviation natmemo memo :=
  (forall (k : NodeId) (v : Q), memo !! k = Some v -> natq v).
Local Abbreviation B := (inject_Z (2 ^ 53)).












End IntegerCosts.



Lemma nonneg_scenario_B : nonneg_costs scenario_B.
Proof.
  intros e He. vm_compute in He.
  repeat (apply elem_of_cons in He as [->|He]; [vm_compute; discriminate|]).
  by apply elem_of_nil in He.
Qed.





(** With exact sums the "only if" of C2 fails as well: in the diamond
    0 -> 1, 2 -> 3 whose shared leaf costs 0, [check] succeeds, class 3 is
    reached along two paths, and still [dag_cost = tree_cost = 3]. *)
Lemma dag_equals_tree_with_sharing :
  integer_costs diamond /\
  check 20 diamond diamond_table = Ok tt /\
  F64.dag_cost 20 diamond diamond_table [0%N] = Ok (DFin 3) /\
  F64.tree_cost 20 diamond diamond_table [0%N] = Ok (DFin 3) /\
  shared diamond diamond_table [0%N].
Proof.
  split; [|split; [|split; [|split]]]; try (vm_compute; reflexivity).
  - intros e He. vm_compute in He.
    repeat (apply elem_of_cons in He as [->|He];
            [eexists; split; [|reflexivity]; lia|]).
    by apply elem_of_nil in He.
  - exists 3%N, [0; 0; 0]%nat, [0; 1; 0]%nat. split; [done|].
    split; simpl; eexists; (split; [reflexivity|]);
      eexists; (split; [reflexivity|]); simpl;
      eexists; (split; [reflexivity|]);
      eexists; (split; [reflexivity|]); simpl;
      eexists; (split; [reflexivity|]); reflexivity.
Qed.

(** ** Termination of the greedy extractor *)

(** *** Arithmetic of the measure *)

Lemma den_prod_elem (l : list (NodeId * Node)) e :
  e ∈ l -> exists z : Z, (cost (snd e) == z # den_prod l)%Q.
Proof.
  induction l as [|a l IH]; intros He; [by apply elem_of_nil in He|].
  simpl. apply elem_of_cons in He as [->|He].
  - exists (Qnum (cost (snd a)) * Zpos (den_prod l))%Z.
    unfold Qeq. simpl. rewrite Pos2Z.inj_mul. ring.
  - destruct (IH He) as [z Hz]. exists (z * Zpos (Qden (cost (snd a))))%Z.
    unfold Qeq in *. simpl in *. rewrite Pos2Z.inj_mul.
    transitivity (Qnum (cost (snd e)) * Zpos (den_prod l)
                  * Zpos (Qden (cost (snd a))))%Z; [ring|].
    rewrite Hz. ring.
Qed.

Lemma cost_sum_nonneg (l : list (NodeId * Node)) :
  (forall e, e ∈ l -> (0 <= cost (snd e))%Q) -> (0 <= cost_sum l)%Q.
Proof.
  induction l as [|a l IH]; intros Hnn; simpl; [lra|].
  assert (0 <= cost (snd a))%Q by (apply Hnn; left).
  assert (0 <= cost_sum l)%Q by (apply IH; intros e He; apply Hnn; by right).
  lra.
Qed.

Lemma cost_sum_elem (l : list (NodeId * Node)) e :
  (forall e, e ∈ l -> (0 <= cost (snd e))%Q) -> e ∈ l ->
  (cost (snd e) <= cost_sum l)%Q.
Proof.
  induction l as [|a l IH]; intros Hnn He; [by apply elem_of_nil in He|].
  simpl.
  assert (Ha : (0 <= cost (snd a))%Q) by (apply Hnn; left).
  assert (Hl : forall e, e ∈ l -> (0 <= cost (snd e))%Q)
    by (intros e' He'; apply Hnn; by right).
  pose proof (cost_sum_nonneg l Hl).
  apply elem_of_cons in He as [->|He]; [lra|].
  specialize (IH Hl He). lra.
Qed.

Section MeasureFacts.
Context (g : EGraph).
Hypothesis Hnn : nonneg_costs g.

Lemma node_good e : e ∈ all_nodes (nodes g) -> good_val g (cost (snd e)).
Proof.
  intros He. split; [by apply Hnn|]. split.
  - by apply cost_sum_elem.
  - by apply den_prod_elem.
Qed.

Lemma cost_max_nonneg : (0 <= cost_max g)%Q.
Proof. by apply cost_sum_nonneg. Qed.

Lemma node_class e : e ∈ all_nodes (nodes g) -> eclass (snd e) ∈ cls_ids g.
Proof.
  intros He. unfold cls_ids. apply elem_of_remove_dups.
  apply list_elem_of_fmap. by exists e.
Qed.

Lemma rank_integral t (z : Z) :
  (t == z # common_den g)%Q -> (0 <= t)%Q ->
  rank g t = Z.to_nat z /\ (0 <= z)%Z.
Proof.
  intros Hz Hpos. unfold rank.
  assert (Heq : (t * (Zpos (common_den g) # 1) == inject_Z z)%Q).
  { rewrite Hz. unfold Qeq, inject_Z. simpl. rewrite Pos.mul_1_r. ring. }
  rewrite (Qfloor_comp _ _ Heq), Qfloor_Z. split; [done|].
  rewrite Hz in Hpos. unfold Qle in Hpos. simpl in Hpos. lia.
Qed.

Lemma rank_lt t' t :
  good_total g t' -> good_total g t -> (t' < t)%Q ->
  (rank g t' < rank g t)%nat.
Proof.
  intros (Hp' & _ & z' & Hz') (Hp & _ & z & Hz) Hlt.
  destruct (rank_integral t' z' Hz' Hp') as [-> Hz'0].
  destruct (rank_integral t z Hz Hp) as [-> Hz0].
  rewrite Hz', Hz in Hlt. unfold Qlt in Hlt. simpl in Hlt.
  assert (z' < z)%Z by nia. lia.
Qed.

Lemma rank_below_top t : good_total g t -> (rank g t < rank_top g)%nat.
Proof.
  intros (Hp & Hle & _). unfold rank_top, rank.
  assert (Hmono : (Qfloor (t * (Zpos (common_den g) # 1))
                   <= Qfloor (total_bound g * (Zpos (common_den g) # 1)))%Z).
  { apply Qfloor_resp_le. apply Qmult_le_compat_r; [done|]. done. }
  lia.
Qed.

(** *** Sums of good entries *)

Lemma inject_Z_S n c :
  (inject_Z (Z.of_nat (S n)) * c == c + inject_Z (Z.of_nat n) * c)%Q.
Proof.
  rewrite Nat2Z.inj_succ. unfold Z.succ. rewrite inject_Z_plus.
  change (inject_Z 1) with 1%Q. lra.
Qed.

Lemma fold_good (l : list (ClassId * Q)) acc :
  (forall kv, kv ∈ l -> good_val g (snd kv)) ->
  (0 <= acc)%Q -> (exists z : Z, (acc == z # common_den g)%Q) ->
  let s := fold_left (fun total kv => (total + snd kv)%Q) l acc in
  (0 <= s)%Q /\
  (s <= acc + inject_Z (Z.of_nat (length l)) * cost_max g)%Q /\
  exists z : Z, (s == z # common_den g)%Q.
Proof.
  revert acc. induction l as [|[k v] l IH]; intros acc Hall Hacc [z Hz]; simpl.
  - split; [done|]. split; [|by exists z].
    change (inject_Z (Z.of_nat 0)) with 0%Q. lra.
  - destruct (Hall (k, v)) as (Hv0 & Hvmax & zv & Hzv); [left|]. simpl in *.
    destruct (IH (acc + v)%Q) as (Hs0 & Hsle & Hsz).
    + intros kv Hkv. apply Hall. by right.
    + lra.
    + exists (z + zv)%Z. rewrite Hz, Hzv. apply Qinv_plus_distr.
    + split; [done|]. split; [|done].
      pose proof (inject_Z_S (length l) (cost_max g)) as HS.
      simpl in HS. rewrite HS. lra.
Qed.

Lemma size_le_cls (m : gmap ClassId Q) :
  entries_good g m -> (size m <= length (cls_ids g))%nat.
Proof.
  intros Hm. rewrite <- (length_map_to_list m).
  rewrite <- (length_fmap fst (map_to_list m)).
  apply submseteq_length, NoDup_submseteq; [apply NoDup_fst_map_to_list|].
  intros k Hk. apply list_elem_of_fmap in Hk as ([k' v] & -> & Hin).
  apply elem_of_map_to_list in Hin. by apply (Hm k' v).
Qed.

Lemma sum_values_good (m : gmap ClassId Q) :
  entries_good g m -> good_total g (sum_values m).
Proof.
  intros Hm. unfold sum_values.
  destruct (fold_good (map_to_list m) 0%Q) as (Hs0 & Hsle & Hsz).
  - intros [k v] Hin. apply elem_of_map_to_list in Hin. by apply (Hm k v).
  - lra.
  - exists 0%Z. done.
  - split; [done|]. split; [|done].
    rewrite length_map_to_list in Hsle. unfold total_bound.
    pose proof (size_le_cls m Hm) as Hsize. pose proof cost_max_nonneg as Hc.
    assert (Hinj : (inject_Z (Z.of_nat (size m))
                    <= inject_Z (Z.of_nat (length (cls_ids g))))%Q).
    { rewrite <- Zle_Qle. lia. }
    assert (inject_Z (Z.of_nat (size m)) * cost_max g
            <= inject_Z (Z.of_nat (length (cls_ids g))) * cost_max g)%Q
      by (by apply Qmult_le_compat_r).
    lra.
Qed.

(** *** [calculate_cost_set] keeps entries and totals good *)

Lemma insert_all_good (acc m : gmap ClassId Q) :
  entries_good g acc -> entries_good g m -> entries_good g (insert_all acc m).
Proof.
  intros Hacc Hm. unfold insert_all.
  assert (Hl : forall kv, kv ∈ map_to_list m -> fst kv ∈ cls_ids g /\ good_val g (snd kv)).
  { intros [k v] Hin. apply elem_of_map_to_list in Hin. by apply (Hm k v). }
  revert acc Hacc. induction (map_to_list m) as [|[k v] l IH]; intros acc Hacc;
    simpl; [done|].
  apply IH; [intros kv Hkv; apply Hl; by right|].
  destruct (acc !! k) eqn:E; [done|].
  intros k' v'. destruct (decide (k' = k)) as [->|Hne].
  - rewrite lookup_insert_eq. intros [= <-]. apply (Hl (k, v)). left.
  - rewrite lookup_insert_ne by done. apply Hacc.
Qed.

Lemma calculate_cost_set_good node_id costs best cs :
  cost_inv g costs ->
  calculate_cost_set g node_id costs best = Ok cs ->
  cs_total cs = Inf \/
  (entries_good g (cs_costs cs) /\
   exists t, cs_total cs = Fin t /\ good_total g t).
Proof.
  intros Hinv H. unfold calculate_cost_set in H.
  apply rbind_Ok in H as (node & Hnode & H).
  apply rbind_Ok in H as (cid & Hcid & H).
  unfold nid_to_cid in Hcid. rewrite Hnode in Hcid. simpl in Hcid.
  injection Hcid as <-.
  apply egraph_get_elem in Hnode as Hin.
  pose proof (node_good _ Hin) as Hgood. pose proof (node_class _ Hin) as Hcls.
  simpl in Hgood, Hcls.
  assert (Hset : forall m : gmap ClassId Q, entries_good g m ->
            entries_good g (<[eclass node := cost node]> m)).
  { intros m Hm k v. destruct (decide (k = eclass node)) as [->|Hne].
    - rewrite lookup_insert_eq. by intros [= <-].
    - rewrite lookup_insert_ne by done. apply Hm. }
  assert (Hempty : entries_good g ∅).
  { intros k v Hk. by rewrite lookup_empty in Hk. }
  destruct (children node) as [|k0 kids].
  { injection H as <-. right. simpl.
    assert (Hm : entries_good g {[eclass node := cost node]}).
    { rewrite <- insert_empty. by apply Hset. }
    split; [done|]. exists (cost node). split; [done|].
    destruct Hgood as (H0 & Hmax & Hz). split; [done|]. split; [|done].
    pose proof (sum_values_good _ Hm) as (_ & Hle & _).
    unfold sum_values in Hle. rewrite map_to_list_singleton in Hle.
    simpl in Hle. lra. }
  destruct (sort_unique _) as [|first cc]; [injection H as <-; by left|].
  destruct (costs !! first) as [first_cost|]; [|injection H as <-; by left].
  destruct (_ || _); [injection H as <-; by left|].
  injection H as <-. cbn [cs_total cs_costs].
  destruct (bool_decide _); [by left|]. right.
  assert (Hres : forall big l m0, entries_good g m0 ->
    entries_good g
      (fold_left
         (fun acc child_cid =>
            if decide (child_cid = big) then acc
            else match costs !! child_cid with
                 | Some cs => insert_all acc (cs_costs cs)
                 | None => acc
                 end) l m0)).
  { intros big l. induction l as [|child l IHl]; intros m0 Hm0; simpl; [done|].
    apply IHl. destruct (decide _); [done|].
    destruct (costs !! child) as [cs1|] eqn:E; [|done].
    apply insert_all_good; [done|]. by apply (Hinv _ cs1 E). }
  assert (Hbig : entries_good g
            match costs !! find_biggest costs (first :: cc) first with
            | Some cs => cs_costs cs
            | None => ∅
            end).
  { destruct (costs !! _) as [cs0|] eqn:E; [|done]. by apply (Hinv _ cs0 E). }
  pose proof (Hres (find_biggest costs (first :: cc) first) (first :: cc) _ Hbig)
    as Hall.
  split; [apply Hset; exact Hall|].
  eexists. split; [done|]. apply sum_values_good, Hset. exact Hall.
Qed.

(** *** One iteration of the worklist loop *)

Lemma Qltb_lt x y : Qltb x y = true -> (x < y)%Q.
Proof.
  unfold Qltb. rewrite negb_true_iff. intros H.
  apply Qnot_le_lt. intros Hle. apply Qle_bool_iff in Hle. congruence.
Qed.

Lemma uq_extend_length ps q :
  (length (uq_queue (uq_extend ps q)) <= length (uq_queue q) + length ps)%nat.
Proof.
  unfold uq_extend. revert q. induction ps as [|p ps IH]; intros q; simpl; [lia|].
  etransitivity; [apply IH|]. unfold uq_insert.
  destruct (decide _); simpl; [lia|]. rewrite length_app. simpl. lia.
Qed.

Lemma uq_extend_elem ps q x :
  x ∈ uq_queue (uq_extend ps q) -> x ∈ uq_queue q \/ x ∈ ps.
Proof.
  unfold uq_extend. revert q. induction ps as [|p ps IH]; intros q; simpl;
    [by left|].
  intros Hx. apply IH in Hx as [Hx|Hx]; [|right; by right].
  unfold uq_insert in Hx. destruct (decide _); [by left|]. simpl in Hx.
  apply elem_of_app in Hx as [Hx|Hx]; [by left|].
  apply list_elem_of_singleton in Hx as ->. right. left.
Qed.

Lemma parents_size_find (parents : parents_map) c ps :
  om_find c parents = Some ps -> (length ps <= parents_size parents)%nat.
Proof.
  unfold parents_size. induction parents as [|[k v] parents IH]; simpl; [done|].
  destruct (decide (c = k)) as [->|Hne].
  - intros [= ->]. lia.
  - intros H. specialize (IH H). lia.
Qed.

Lemma extract_step_spec parents node_id q costs q' costs' :
  cost_inv g costs ->
  extract_step g parents node_id (q, costs) = Ok (q', costs') ->
  cost_inv g costs' /\
  (potential g parents (q', costs') <= potential g parents (q, costs))%nat /\
  (forall x, x ∈ uq_queue q' ->
     x ∈ uq_queue q \/ exists c ps, (c, ps) ∈ parents /\ x ∈ ps) /\
  (forall c cs', costs' !! c = Some cs' ->
     costs !! c = Some cs' \/
     ecost_ltb (cs_total cs')
               (match costs !! c with Some cs => cs_total cs | None => Inf end)
     = true).
Proof.
  intros Hinv H. unfold extract_step in H.
  apply rbind_Ok in H as (class_id & Hcid & H).
  apply rbind_Ok in H as (node & Hnode & H).
  assert (Hsame : cost_inv g costs /\
    (potential g parents (q, costs) <= potential g parents (q, costs))%nat /\
    (forall x, x ∈ uq_queue q ->
       x ∈ uq_queue q \/ exists c ps, (c, ps) ∈ parents /\ x ∈ ps) /\
    (forall c cs', costs !! c = Some cs' ->
       costs !! c = Some cs' \/
       ecost_ltb (cs_total cs')
         (match costs !! c with Some cs => cs_total cs | None => Inf end) = true)).
  { split; [done|]. split; [done|]. split; [by left|by left]. }
  destruct (forallb _ _); [|by injection H as <- <-].
  apply rbind_Ok in H as (cost_set & Hcs & H).
  destruct (ecost_ltb _ _) eqn:Hlt; [|by injection H as <- <-].
  injection H as <- <-. clear Hsame.
  unfold nid_to_cid in Hcid. rewrite Hnode in Hcid. simpl in Hcid.
  injection Hcid as <-.
  pose proof (node_class _ (egraph_get_elem _ _ _ Hnode)) as Hcls. simpl in Hcls.
  destruct (calculate_cost_set_good _ _ _ _ Hinv Hcs) as [Hinf|(Hent & t & Ht & Hgt)].
  { rewrite Hinf in Hlt. done. }
  rewrite Ht in Hlt.
  assert (Hrk : (rk g (<[eclass node := cost_set]> costs) (eclass node) + 1
                 <= rk g costs (eclass node))%nat).
  { unfold rk. rewrite lookup_insert_eq, Ht.
    destruct (costs !! eclass node) as [cs0|] eqn:E.
    - destruct (Hinv _ cs0 E) as (_ & t0 & Ht0 & Hgt0). rewrite Ht0 in *.
      simpl in Hlt. apply Qltb_lt in Hlt.
      pose proof (rank_lt t t0 Hgt Hgt0 Hlt). lia.
    - pose proof (rank_below_top t Hgt). lia. }
  assert (Hsum : (sum_list (map (rk g (<[eclass node := cost_set]> costs)) (cls_ids g))
                  + 1 <= sum_list (map (rk g costs) (cls_ids g)))%nat).
  { apply (sum_list_drop _ _ _ (eclass node)); [|done|done].
    intros x _. destruct (decide (x = eclass node)) as [->|Hne]; [lia|].
    unfold rk. by rewrite lookup_insert_ne. }
  split; [|split; [|split]].
  - intros c cs. destruct (decide (c = eclass node)) as [->|Hne].
    + rewrite lookup_insert_eq. intros [= <-]. split; [done|]. by exists t.
    + rewrite lookup_insert_ne by done. apply Hinv.
  - unfold potential. simpl.
    destruct (om_find (eclass node) parents) as [ps|] eqn:Hps.
    + pose proof (uq_extend_length ps q). pose proof (parents_size_find _ _ _ Hps).
      nia.
    + nia.
  - intros x Hx. destruct (om_find (eclass node) parents) as [ps|] eqn:Hps;
      [|by left].
    apply uq_extend_elem in Hx as [?|Hx]; [by left|]. right.
    exists (eclass node), ps. split; [by apply om_find_Some_elem|done].
  - intros c cs'. destruct (decide (c = eclass node)) as [->|Hne].
    + rewrite lookup_insert_eq. intros [= <-]. right. by rewrite Ht.
    + rewrite lookup_insert_ne by done. by left.
Qed.

Lemma calculate_cost_set_total node_id node costs best :
  egraph_get g node_id = Ok node ->
  exists cs, calculate_cost_set g node_id costs best = Ok cs.
Proof.
  intros Hnode. unfold calculate_cost_set, nid_to_cid. rewrite Hnode. simpl.
  destruct (children node); [by eexists|].
  destruct (sort_unique _); [by eexists|].
  destruct (costs !! _); [|by eexists].
  destruct (_ || _); by eexists.
Qed.

Lemma extract_step_total parents node_id q costs :
  valid_id g node_id ->
  exists st', extract_step g parents node_id (q, costs) = Ok st'.
Proof.
  intros (node & _ & Hnode). unfold extract_step, nid_to_cid.
  rewrite Hnode. simpl. destruct (forallb _ _); [|by eexists].
  destruct (calculate_cost_set_total node_id node costs
              match costs !! eclass node with
              | Some cs => cs_total cs
              | None => Inf
              end Hnode) as [cs Hcs].
  rewrite Hcs. simpl. destruct (ecost_ltb _ _); by eexists.
Qed.

(** *** The loop *)

Lemma extract_loop_S fuel parents st :
  extract_loop (S fuel) g parents st =
  match uq_pop (fst st) with
  | None => Ok (snd st)
  | Some (node_id, analysis_pending) =>
      let* st' := extract_step g parents node_id (analysis_pending, snd st) in
      extract_loop fuel g parents st'
  end.
Proof. reflexivity. Qed.

Lemma extract_loop_terminates parents fuel st :
  cost_inv g (snd st) ->
  (potential g parents st < fuel)%nat ->
  extract_loop fuel g parents st <> NoFuel /\
  (queue_valid g (fst st) -> parents_valid g parents ->
   exists costs, extract_loop fuel g parents st = Ok costs).
Proof.
  revert st. induction fuel as [|fuel IH]; intros [q costs] Hinv Hlt; [lia|].
  rewrite extract_loop_S. cbn [fst snd] in *. unfold uq_pop.
  destruct (uq_queue q) as [|node_id rest] eqn:Hq; [by eauto|].
  set (q1 := mkUQ (uq_set q ∖ {[node_id]}) rest).
  assert (Hpot1 : (potential g parents (q1, costs) < fuel)%nat).
  { unfold potential in *. cbn [fst snd uq_queue q1] in *. rewrite Hq in Hlt.
    simpl in Hlt. lia. }
  destruct (extract_step g parents node_id (q1, costs)) as [[q' costs']| |] eqn:Hstep;
    cbn [rbind].
  - destruct (extract_step_spec _ _ _ _ _ _ Hinv Hstep) as (Hinv' & Hpot & Hqs & _).
    destruct (IH (q', costs') Hinv' ltac:(lia)) as [Hnf Hok].
    split; [done|]. intros Hqv Hpv. apply Hok; [|done].
    intros x Hx. simpl in Hx. apply Hqs in Hx as [Hx|(c & ps & Hc & Hx)].
    + apply Hqv. rewrite Hq. by right.
    + by eapply Hpv.
  - split; [done|]. intros Hqv Hpv. exfalso.
    destruct (extract_step_total parents node_id q1 costs) as [st' Hst'].
    { apply Hqv. rewrite Hq. left. }
    congruence.
  - exfalso. unfold extract_step in Hstep.
    destruct (nid_to_cid g node_id) as [cid| |] eqn:Hcid; simpl in Hstep; try done.
    2:{ unfold nid_to_cid in Hcid.
        destruct (egraph_get_cases g node_id) as [[n Hn]|[e He]];
          [rewrite Hn in Hcid|rewrite He in Hcid]; done. }
    destruct (egraph_get g node_id) as [node| |] eqn:Hnode; simpl in Hstep;
      try done.
    2:{ destruct (egraph_get_cases g node_id) as [[n Hn]|[e He]]; congruence. }
    destruct (forallb _ _); [|done].
    destruct (calculate_cost_set_total node_id node costs
              match costs !! cid with
              | Some cs => cs_total cs
              | None => Inf
              end Hnode) as [cs Hcs].
    rewrite Hcs in Hstep. simpl in Hstep. by destruct (ecost_ltb _ _).
Qed.
End MeasureFacts.

(** *** The set-up loops *)

Lemma om_set_elem {K V} `{EqDecision K} (c : K) (x : V) (m : omap K V) k v :
  (k, v) ∈ om_set c x m -> (k = c /\ v = x) \/ (k, v) ∈ m.
Proof.
  induction m as [|[k' v'] m IH]; simpl.
  - intros H. apply list_elem_of_singleton in H as [= -> ->]. by left.
  - destruct (decide (c = k')) as [->|Hne].
    + intros H. apply elem_of_cons in H as [[= -> ->]|H]; [by left|].
      right. by right.
    + intros H. apply elem_of_cons in H as [[= -> ->]|H]; [right; left|].
      apply IH in H as [?|?]; [by left|right; by right].
Qed.

Lemma parents_push_valid g child node_id (parents : parents_map) :
  valid_id g node_id -> parents_valid g parents ->
  parents_valid g (parents_push child node_id parents).
Proof.
  intros Hid Hp c ps nid Hin Hnid. unfold parents_push in Hin.
  apply om_set_elem in Hin as [[-> ->]|Hin]; [|by eapply Hp].
  apply elem_of_app in Hnid as [Hnid|Hnid].
  - destruct (om_find child parents) as [ps0|] eqn:E; simpl in Hnid;
      [|by apply elem_of_nil in Hnid].
    apply om_find_Some_elem in E. by eapply Hp.
  - by apply list_elem_of_singleton in Hnid as ->.
Qed.

Lemma setup_node_valid g node_id parents q parents' q' :
  parents_valid g parents -> queue_valid g q ->
  setup_node g node_id (parents, q) = Ok (parents', q') ->
  parents_valid g parents' /\ queue_valid g q'.
Proof.
  intros Hp Hq H. unfold setup_node in H.
  apply rbind_Ok in H as (node & Hnode & [= <- <-]).
  assert (Hid : valid_id g node_id).
  { exists node. split; [by apply egraph_get_elem|done]. }
  split.
  - clear Hq. revert parents Hp.
    induction (children node) as [|child l IH]; intros parents Hp; simpl; [done|].
    apply IH. by apply parents_push_valid.
  - destruct (is_leaf node); [|done]. unfold uq_insert.
    destruct (decide _); [done|]. intros x Hx. simpl in Hx.
    apply elem_of_app in Hx as [Hx|Hx]; [by apply Hq|].
    by apply list_elem_of_singleton in Hx as ->.
Qed.

Lemma init_parents_valid g (cls : classes_map) :
  parents_valid g (init_parents cls).
Proof.
  unfold init_parents.
  assert (G : forall acc : parents_map, parents_valid g acc ->
    parents_valid g (fold_left (fun parents kv => om_set (fst kv) [] parents) cls acc)).
  { induction cls as [|kv cls IH]; intros acc Hacc; simpl; [done|].
    apply IH. intros c ps nid Hin Hnid.
    apply om_set_elem in Hin as [[-> ->]|Hin]; [by apply elem_of_nil in Hnid|].
    by eapply Hacc. }
  apply G. intros c ps nid Hin. by apply elem_of_nil in Hin.
Qed.

Lemma extract_setup_valid g parents q :
  extract_setup g = Ok (parents, q) ->
  parents_valid g parents /\ queue_valid g q.
Proof.
  unfold extract_setup. intros H.
  apply (for_each_inv (fun st => parents_valid g (fst st) /\ queue_valid g (snd st)))
    in H; [done| |].
  - intros kv [p1 q1] [p2 q2] _ Hinv Hstep.
    apply (for_each_inv (fun st => parents_valid g (fst st) /\ queue_valid g (snd st)))
      in Hstep; [done| |done].
    intros nid [p3 q3] [p4 q4] _ [Hp3 Hq3] Hnode. simpl in *.
    by eapply setup_node_valid.
  - split; [apply init_parents_valid|]. intros x Hx. by apply elem_of_nil in Hx.
Qed.

Lemma wf_nodes_get (ns : nodes_map) nid node :
  wf_nodes ns -> (nid, node) ∈ all_nodes ns -> nodes_get ns nid = Ok node.
Proof.
  intros [Hnd Hwf] Hin. unfold all_nodes in Hin.
  apply elem_of_concat in Hin as (inner & Hin & Hinner).
  apply list_elem_of_fmap in Hinner as ([c inner'] & -> & Hc). simpl in Hin.
  destruct (Hwf c inner' Hc) as [Hndi Hfst].
  assert (Hk : fst nid = c).
  { apply Hfst. unfold om_keys. apply list_elem_of_fmap. by exists (nid, node). }
  unfold nodes_get. rewrite Hk.
  rewrite (om_find_elem_NoDup c inner' ns) by done. simpl.
  by rewrite (om_find_elem_NoDup nid node inner').
Qed.

Lemma classes_ids g c cls nid :
  (c, cls) ∈ classes g -> nid ∈ class_nodes cls ->
  exists node, (nid, node) ∈ all_nodes (nodes g).
Proof.
  unfold classes. generalize (all_nodes (nodes g)) as l. intros l.
  assert (G : forall acc : classes_map,
    (c, cls) ∈ fold_left classes_add l acc ->
    (forall c' cls' nid', (c', cls') ∈ acc -> nid' ∈ class_nodes cls' ->
                          exists node, (nid', node) ∈ l) \/ True ->
    nid ∈ class_nodes cls ->
    (exists c0 cls0, (c0, cls0) ∈ acc /\ nid ∈ class_nodes cls0) \/
    exists node, (nid, node) ∈ l).
  { induction l as [|[id n] l IH]; intros acc Hin _ Hnid; simpl in Hin.
    - left. by exists c, cls.
    - apply IH in Hin; [|by right|done].
      destruct Hin as [(c0 & cls0 & Hin0 & Hn0)|[node Hnode]].
      + unfold classes_add in Hin0.
        set (acc1 := match om_find (eclass n) acc with
                     | Some _ => acc
                     | None => om_set (eclass n) (mkClass (eclass n) []) acc
                     end) in *.
        assert (Hacc1 : forall k v, (k, v) ∈ acc1 ->
                  (k, v) ∈ acc \/ class_nodes v = []).
        { intros k v Hkv. subst acc1. destruct (om_find (eclass n) acc); [by left|].
          apply om_set_elem in Hkv as [[-> ->]|?]; [by right|by left]. }
        destruct (om_find (eclass n) acc1) as [c1|] eqn:E1.
        * apply om_set_elem in Hin0 as [[-> ->]|Hin0].
          -- simpl in Hn0. apply elem_of_app in Hn0 as [Hn0|Hn0].
             ++ apply om_find_Some_elem in E1.
                apply Hacc1 in E1 as [E1|E1]; [left; by exists (eclass n), c1|].
                rewrite E1 in Hn0. by apply elem_of_nil in Hn0.
             ++ apply list_elem_of_singleton in Hn0 as ->. right. exists n. left.
          -- apply Hacc1 in Hin0 as [Hin0|Hin0]; [left; by exists c0, cls0|].
             rewrite Hin0 in Hn0. by apply elem_of_nil in Hn0.
        * apply Hacc1 in Hin0 as [Hin0|Hin0]; [left; by exists c0, cls0|].
          rewrite Hin0 in Hn0. by apply elem_of_nil in Hn0.
      + right. exists node. by right. }
  intros Hin Hnid. destruct (G [] Hin (or_intror I) Hnid)
    as [(c0 & cls0 & H0 & _)|?]; [by apply elem_of_nil in H0|done].
Qed.

Lemma extract_setup_total g :
  wf_nodes (nodes g) -> exists st, extract_setup g = Ok st.
Proof.
  intros Hwf. unfold extract_setup.
  destruct (for_each_total (fun _ => True)
              (fun kv st => for_each (setup_node g) (class_nodes (snd kv)) st)
              (classes g) (init_parents (classes g), uq_empty))
    as (st & Hst & _); [|done|by exists st].
  intros [c cls] t Hin _. simpl.
  apply (for_each_total (fun _ => True)); [|done].
  intros nid [p q] Hnid _.
  destruct (classes_ids g c cls nid Hin Hnid) as [node Hnode].
  unfold setup_node, egraph_get. rewrite (wf_nodes_get _ _ _ Hwf Hnode). simpl.
  by eexists.
Qed.

Lemma for_each_NoFuel {A S} (f : A -> S -> res S) l s :
  for_each f l s = NoFuel -> exists a t, a ∈ l /\ f a t = NoFuel.
Proof.
  revert s. induction l as [|a l IH]; intros s; simpl; [done|].
  destruct (f a s) as [t| |] eqn:E; simpl; [|done|].
  - intros H. apply IH in H as (b & t' & Hb & H). exists b, t'.
    split; [by right|done].
  - intros _. exists a, s. split; [left|done].
Qed.

Lemma extract_setup_fuel_free g : extract_setup g <> NoFuel.
Proof.
  unfold extract_setup. intros H.
  apply for_each_NoFuel in H as (kv & st & _ & H).
  apply for_each_NoFuel in H as (nid & [p q] & _ & H).
  unfold setup_node, egraph_get, nodes_get in H.
  destruct (om_find (fst nid) (nodes g)) as [inner|]; simpl in H; [|done].
  destruct (om_find nid inner); simpl in H; done.
Qed.

Lemma extract_step_decreases g parents node_id q costs q' costs' :
  extract_step g parents node_id (q, costs) = Ok (q', costs') ->
  forall c cs', costs' !! c = Some cs' ->
    costs !! c = Some cs' \/
    ecost_ltb (cs_total cs')
              (match costs !! c with Some cs => cs_total cs | None => Inf end)
    = true.
Proof.
  intros H. unfold extract_step in H.
  apply rbind_Ok in H as (class_id & Hcid & H).
  apply rbind_Ok in H as (node & Hnode & H).
  destruct (forallb _ _); [|injection H as <- <-; by left].
  apply rbind_Ok in H as (cost_set & Hcs & H).
  destruct (ecost_ltb _ _) eqn:Hlt; [|injection H as <- <-; by left].
  injection H as <- <-.
  intros c cs'. destruct (decide (c = class_id)) as [->|Hne].
  - rewrite lookup_insert_eq. intros [= <-]. by right.
  - rewrite lookup_insert_ne by done. by left.
Qed.

(** C3.  On a finite e-graph with non-negative node costs the worklist loop
    of [FasterGreedyDagExtractor::extract] terminates: some number of
    iterations [N] suffices, i.e. with at least [N] units of fuel [extract]
    never runs out of fuel, and on a well-formed node map it returns a choice
    table.  The reason is the one the specification gives: an iteration
    leaves every recorded cost set as it was or replaces it by one whose total
    is strictly smaller than the previous total ([Inf] when the class had
    none). *)
Theorem extract_terminates (g : EGraph) (roots : list ClassId) :
  nonneg_costs g ->
  (exists N, forall fuel, (N <= fuel)%nat ->
     extract fuel g roots <> NoFuel /\
     (wf_nodes (nodes g) -> exists r, extract fuel g roots = Ok r)) /\
  (forall parents node_id q costs q' costs',
     extract_step g parents node_id (q, costs) = Ok (q', costs') ->
     forall c cs', costs' !! c = Some cs' ->
       costs !! c = Some cs' \/
       ecost_ltb (cs_total cs')
                 (match costs !! c with Some cs => cs_total cs | None => Inf end)
       = true).
Proof.
  intros Hnn. split; [|intros *; apply extract_step_decreases].
  destruct (extract_setup g) as [[parents q0]|e|] eqn:Hs.
  - exists (S (potential g parents (q0, ∅))). intros fuel Hf.
    unfold extract, extract_costs. rewrite Hs. cbn [rbind].
    destruct (extract_loop_terminates g Hnn parents fuel (q0, ∅)) as [Hnf Hok].
    { intros c cs Hc. simpl in Hc. by rewrite lookup_empty in Hc. }
    { lia. }
    split.
    + destruct (extract_loop fuel g parents (q0, ∅)); simpl; done.
    + intros _. destruct (extract_setup_valid _ _ _ Hs) as [Hp Hq].
      destruct (Hok Hq Hp) as [costs ->]. simpl. by eexists.
  - exists 0%nat. intros fuel _. unfold extract, extract_costs. rewrite Hs.
    simpl. split; [done|]. intros Hwf.
    destruct (extract_setup_total g Hwf) as [st Hst]. congruence.
  - by destruct (extract_setup_fuel_free g).
Qed.

Lemma extract_terminates_witness :
  nonneg_costs scenario_B /\
  (exists N, forall fuel, (N <= fuel)%nat ->
     extract fuel scenario_B [0%N] <> NoFuel /\
     (wf_nodes (nodes scenario_B) ->
      exists r, extract fuel scenario_B [0%N] = Ok r)).
Proof.
  split; [exact nonneg_scenario_B|].
  exact (proj1 (extract_terminates scenario_B [0%N] nonneg_scenario_B)).
Defined.

(** ** Sorted association lists ([std::map]) *)

Section SortedMapFacts.
Context {K V : Type} `{EqDecision K} (ltb : K -> K -> bool).
Hypothesis ltb_irrefl : forall k, ltb k k = false.
Hypothesis ltb_trans :
  forall a b c, ltb a b = true -> ltb b c = true -> ltb a c = true.
Hypothesis ltb_total : forall a b, a <> b -> ltb a b = false -> ltb b a = true.
Implicit Types (m : list (K * V)).

Lemma sm_update_fst k f m x :
  x ∈ sm_update ltb k f m -> fst x = k \/ fst x ∈ om_keys m.
Proof.
  unfold om_keys. induction m as [|[k' v] m IH]; simpl.
  - intros Hx. apply list_elem_of_singleton in Hx as ->. by left.
  - destruct (decide (k = k')) as [->|Hne].
    + intros Hx. apply elem_of_cons in Hx as [->|Hx]; simpl.
      * by left.
      * right. right. apply list_elem_of_fmap. by exists x.
    + destruct (ltb k k').
      * intros Hx. apply elem_of_cons in Hx as [->|Hx]; [by left|].
        right. change (fst x ∈ fst <$> ((k', v) :: m)).
        apply list_elem_of_fmap. by exists x.
      * intros Hx. apply elem_of_cons in Hx as [->|Hx]; simpl.
        -- right. left.
        -- apply IH in Hx as [?|?]; [by left|]. right. by right.
Qed.

Lemma sm_sorted_cons_inv kv m :
  sm_sorted ltb (kv :: m) ->
  sm_sorted ltb m /\ forall x, x ∈ m -> ltb (fst kv) (fst x) = true.
Proof.
  intros H. apply StronglySorted_inv in H as [H1 H2]. split; [done|].
  intros x Hx. rewrite List.Forall_forall in H2. apply H2.
  by apply list_elem_of_In.
Qed.

Lemma sm_sorted_cons kv m :
  sm_sorted ltb m -> (forall x, x ∈ m -> ltb (fst kv) (fst x) = true) ->
  sm_sorted ltb (kv :: m).
Proof.
  intros H1 H2. apply SSorted_cons; [done|].
  apply List.Forall_forall. intros x Hx. apply H2. by apply list_elem_of_In.
Qed.

Lemma sm_sorted_find_None k m :
  sm_sorted ltb m -> (forall x, x ∈ m -> ltb k (fst x) = true) ->
  om_find k m = None.
Proof.
  intros _ Hlt. apply om_find_None_notin. unfold om_keys. intros Hin.
  apply list_elem_of_fmap in Hin as (x & -> & Hx).
  apply Hlt in Hx. by rewrite ltb_irrefl in Hx.
Qed.

Lemma sm_update_sorted k f m :
  sm_sorted ltb m -> sm_sorted ltb (sm_update ltb k f m).
Proof.
  induction m as [|[k' v] m IH]; simpl; intros Hs.
  - apply sm_sorted_cons; [constructor|]. intros x Hx. by apply elem_of_nil in Hx.
  - apply sm_sorted_cons_inv in Hs as Hs'. destruct Hs' as [Hm Hlt].
    destruct (decide (k = k')) as [->|Hne]; [by apply sm_sorted_cons|].
    destruct (ltb k k') eqn:Hk.
    + apply sm_sorted_cons; [done|]. intros x Hx. simpl.
      apply elem_of_cons in Hx as [->|Hx]; [done|].
      eapply ltb_trans; [exact Hk|]. by apply Hlt.
    + apply sm_sorted_cons; [by apply IH|]. intros x Hx. simpl.
      apply sm_update_fst in Hx as [->|Hx].
      * by apply ltb_total.
      * unfold om_keys in Hx. apply list_elem_of_fmap in Hx as (y & -> & Hy).
        by apply Hlt.
Qed.

Lemma sm_find_update k k' f m :
  sm_sorted ltb m ->
  om_find k' (sm_update ltb k f m) =
  if decide (k' = k) then Some (f (om_find k m)) else om_find k' m.
Proof.
  induction m as [|[k0 v] m IH]; simpl; intros Hs.
  - destruct (decide (k' = k)); done.
  - apply sm_sorted_cons_inv in Hs as Hs'. destruct Hs' as [Hm Hlt].
    destruct (decide (k = k0)) as [->|Hne]; simpl.
    + destruct (decide (k' = k0)); done.
    + destruct (ltb k k0) eqn:Hk; simpl.
      * destruct (decide (k' = k)) as [->|Hne']; [|done].
        rewrite (sm_sorted_find_None k m); [done|done|].
        intros x Hx. eapply ltb_trans; [exact Hk|]. by apply Hlt.
      * rewrite IH by done.
        destruct (decide (k' = k0)) as [->|Hne0]; [|done].
        by rewrite decide_False.
Qed.

Lemma sm_sorted_NoDup m : sm_sorted ltb m -> NoDup (om_keys m).
Proof.
  unfold om_keys. induction m as [|kv m IH]; simpl; intros Hs.
  - constructor.
  - apply sm_sorted_cons_inv in Hs as [Hm Hlt]. apply NoDup_cons. split; [|auto].
    intros Hin. apply list_elem_of_fmap in Hin as (x & Heq & Hx).
    apply Hlt in Hx. rewrite Heq in Hx. by rewrite ltb_irrefl in Hx.
Qed.

Lemma sm_sorted_ext m1 m2 :
  sm_sorted ltb m1 -> sm_sorted ltb m2 ->
  (forall k, om_find k m1 = om_find k m2) -> m1 = m2.
Proof.
  revert m2. induction m1 as [|[k1 v1] m1 IH]; intros [|[k2 v2] m2] Hs1 Hs2 Hext.
  - done.
  - specialize (Hext k2). simpl in Hext. by rewrite decide_True in Hext.
  - specialize (Hext k1). simpl in Hext. by rewrite decide_True in Hext.
  - apply sm_sorted_cons_inv in Hs1 as Hs1'. destruct Hs1' as [Hm1 Hlt1].
    apply sm_sorted_cons_inv in Hs2 as Hs2'. destruct Hs2' as [Hm2 Hlt2].
    assert (Hk : k1 = k2).
    { destruct (decide (k1 = k2)) as [|Hne]; [done|]. exfalso.
      pose proof (Hext k1) as H1. pose proof (Hext k2) as H2. simpl in H1, H2.
      destruct (decide (k1 = k1)); [|done]. destruct (decide (k1 = k2)); [done|].
      destruct (decide (k2 = k2)); [|done].
      destruct (decide (k2 = k1)); [by subst|].
      symmetry in H1. apply om_find_Some_elem in H1, H2.
      apply Hlt2 in H1. apply Hlt1 in H2. simpl in H1, H2.
      pose proof (ltb_trans _ _ _ H1 H2) as H3. by rewrite ltb_irrefl in H3. }
    subst k2. pose proof (Hext k1) as H1. simpl in H1.
    destruct (decide (k1 = k1)); [|done]. injection H1 as ->.
    f_equal. apply IH; [done|done|]. intros k. specialize (Hext k). simpl in Hext.
    destruct (decide (k = k1)) as [->|Hne]; [|done].
    rewrite (sm_sorted_find_None k1 m1), (sm_sorted_find_None k1 m2); done.
Qed.
End SortedMapFacts.

(** The two key orders. *)
Lemma N_ltb_irrefl (k : ClassId) : N.ltb k k = false.
Proof. apply N.ltb_irrefl. Qed.

Lemma N_ltb_trans (a b c : ClassId) :
  N.ltb a b = true -> N.ltb b c = true -> N.ltb a c = true.
Proof. rewrite !N.ltb_lt. lia. Qed.

Lemma N_ltb_total (a b : ClassId) : a <> b -> N.ltb a b = false -> N.ltb b a = true.
Proof. rewrite N.ltb_lt, N.ltb_ge. lia. Qed.

Lemma pair_ltb_spec (a b : ClassId * nat) :
  pair_ltb a b = true <->
  (fst a < fst b)%N \/ (fst a = fst b /\ (snd a < snd b)%nat).
Proof.
  unfold pair_ltb. rewrite orb_true_iff, andb_true_iff, negb_true_iff.
  rewrite N.ltb_lt, N.ltb_ge, Nat.ltb_lt. lia.
Qed.

Lemma pair_ltb_neither (a b : ClassId * nat) :
  pair_ltb a b = false -> pair_ltb b a = false -> a = b.
Proof.
  intros H1 H2. apply not_true_iff_false in H1, H2.
  rewrite pair_ltb_spec in H1, H2. destruct a, b; simpl in *.
  f_equal; lia.
Qed.

Lemma vec_ltb_irrefl l : vec_ltb l l = false.
Proof.
  induction l as [|x l IH]; simpl; [done|].
  destruct (pair_ltb x x) eqn:E; [|done].
  apply pair_ltb_spec in E. lia.
Qed.

Lemma vec_ltb_trans a b c :
  vec_ltb a b = true -> vec_ltb b c = true -> vec_ltb a c = true.
Proof.
  revert b c. induction a as [|x a IH]; intros [|y b] [|z c]; simpl; try done.
  destruct (pair_ltb x y) eqn:Exy.
  - intros _. destruct (pair_ltb y z) eqn:Eyz.
    + intros _. apply pair_ltb_spec in Exy, Eyz.
      assert (E : pair_ltb x z = true) by (apply pair_ltb_spec; lia).
      by rewrite E.
    + destruct (pair_ltb z y) eqn:Ezy; [done|].
      assert (z = y) by (by apply pair_ltb_neither). subst z. by rewrite Exy.
  - destruct (pair_ltb y x) eqn:Eyx; [done|].
    assert (y = x) by (by apply pair_ltb_neither). subst y.
    intros Hab. destruct (pair_ltb x z) eqn:Exz; [done|].
    destruct (pair_ltb z x); [done|]. by apply IH.
Qed.

Lemma vec_ltb_total a b : a <> b -> vec_ltb a b = false -> vec_ltb b a = true.
Proof.
  revert b. induction a as [|x a IH]; intros [|y b]; simpl; try done.
  destruct (pair_ltb x y) eqn:Exy; [done|].
  destruct (pair_ltb y x) eqn:Eyx; [done|].
  assert (y = x) by (by apply pair_ltb_neither). subst y.
  intros Hne. apply IH. congruence.
Qed.

(** The frequency vector is a canonical form of the child multiset. *)
Lemma freq_fold_spec (l : list ClassId) (m : list (ClassId * nat)) :
  sm_sorted N.ltb m ->
  let r := fold_left (fun freq_map elem =>
                        sm_update N.ltb elem (fun o => S (default 0%nat o)) freq_map)
                     l m in
  sm_sorted N.ltb r /\
  forall c, om_find c r =
            match om_find c m, count_occ N.eq_dec l c with
            | None, O => None
            | o, n => Some (default 0 o + n)%nat
            end.
Proof.
  revert m. induction l as [|x l IH]; intros m Hs; simpl.
  - split; [done|]. intros c. destruct (om_find c m); simpl; [f_equal; lia|done].
  - pose proof (sm_update_sorted N.ltb N_ltb_trans N_ltb_total x
                  (fun o => S (default 0%nat o)) m Hs) as Hs'.
    destruct (IH _ Hs') as [Hr Hf]. split; [done|].
    intros c. rewrite Hf.
    rewrite (sm_find_update N.ltb N_ltb_irrefl N_ltb_trans) by done.
    destruct (N.eq_dec x c) as [->|Hne].
    + rewrite decide_True by done. destruct (om_find c m); simpl; f_equal; lia.
    + rewrite decide_False by done. done.
Qed.

Lemma freq_vec_sorted l : sm_sorted N.ltb (freq_vec l).
Proof. apply (freq_fold_spec l []). constructor. Qed.

Lemma freq_vec_find l c :
  om_find c (freq_vec l) =
  match count_occ N.eq_dec l c with O => None | n => Some n end.
Proof.
  destruct (freq_fold_spec l []) as [_ H]; [constructor|].
  unfold freq_vec. rewrite H. simpl. by destruct (count_occ _ _ _).
Qed.

Lemma freq_vec_eq_iff l1 l2 : freq_vec l1 = freq_vec l2 <-> l1 ≡ₚ l2.
Proof.
  rewrite (Permutation_count_occ N.eq_dec). split.
  - intros Heq c. pose proof (freq_vec_find l1 c) as H1.
    pose proof (freq_vec_find l2 c) as H2. rewrite Heq, H2 in H1.
    destruct (count_occ N.eq_dec l1 c), (count_occ N.eq_dec l2 c); congruence.
  - intros Hc. apply (sm_sorted_ext N.ltb N_ltb_irrefl N_ltb_trans);
      [apply freq_vec_sorted..|].
    intros c. by rewrite !freq_vec_find, Hc.
Qed.

(** ** Grouping the nodes of one class *)

Lemma group_node_sig ns node_id grouped :
  group_node ns node_id grouped =
  match sig_of ns node_id with
  | Some s => Ok (sm_update vec_ltb s (fun o => default [] o ++ [node_id]) grouped)
  | None => group_node ns node_id grouped
  end.
Proof.
  unfold sig_of, group_node. destruct (om_find (fst node_id) ns) as [inner|]; simpl; [|done].
  by destruct (om_find node_id inner).
Qed.

Lemma group_fold_spec ns (ids : list NodeId) (grouped0 : group_map) :
  sm_sorted vec_ltb grouped0 ->
  (forall id, id ∈ ids -> is_Some (sig_of ns id)) ->
  exists grouped,
    for_each (group_node ns) ids grouped0 = Ok grouped /\
    sm_sorted vec_ltb grouped /\
    forall s, om_find s grouped =
              match om_find s grouped0,
                    filter (fun id => sig_of ns id = Some s) ids with
              | None, [] => None
              | o, l => Some (default [] o ++ l)
              end.
Proof.
  revert grouped0. induction ids as [|id ids IH]; intros g0 Hs Hall; simpl.
  - exists g0. split; [done|]. split; [done|]. intros s.
    destruct (om_find s g0); simpl; [by rewrite app_nil_r|done].
  - destruct (Hall id) as [s0 Hs0]; [left|].
    rewrite group_node_sig, Hs0. simpl.
    set (g1 := sm_update vec_ltb s0 (fun o => default [] o ++ [id]) g0).
    assert (Hs1 : sm_sorted vec_ltb g1)
      by (by apply sm_update_sorted; [apply vec_ltb_trans|apply vec_ltb_total|]).
    destruct (IH g1 Hs1) as (g & Hg & Hsg & Hf).
    { intros id' Hin. apply Hall. by right. }
    exists g. split; [done|]. split; [done|]. intros s. rewrite Hf.
    subst g1. rewrite (sm_find_update vec_ltb vec_ltb_irrefl vec_ltb_trans) by done.
    rewrite filter_cons, Hs0. destruct (decide (s = s0)) as [->|Hne].
    + rewrite decide_True by done.
      destruct (om_find s0 g0); simpl; [|done]. by rewrite <- app_assoc.
    + rewrite decide_False by congruence. done.
Qed.

Lemma prune_group_tail group ns :
  prune_group group ns = for_each erase_node (tail (snd group)) ns.
Proof. unfold prune_group. by destruct (snd group) as [|? [|? ?]]. Qed.

Lemma prune_groups_concat (grouped : group_map) ns :
  for_each prune_group grouped ns = for_each erase_node (redundant_ids grouped) ns.
Proof.
  unfold redundant_ids. revert ns.
  induction grouped as [|g grouped IH]; intros ns; simpl; [done|].
  rewrite for_each_app, prune_group_tail.
  destruct (for_each erase_node (tail (snd g)) ns); simpl; auto.
Qed.

(** ** Erasing from an ordered map *)

Lemma filter_all {A} (P : A -> Prop) `{forall x, Decision (P x)} (l : list A) :
  (forall x, x ∈ l -> P x) -> filter P l = l.
Proof.
  induction l as [|a l IH]; intros Hall; [done|].
  rewrite filter_cons, decide_True by (apply Hall; left).
  f_equal. apply IH. intros x Hx. apply Hall. by right.
Qed.

Section EraseFacts.
Context {K V : Type} `{EqDecision K}.
Implicit Types (m : omap K V).

Lemma om_erase_filter k m :
  NoDup (om_keys m) -> om_erase k m = filter (fun e => fst e <> k) m.
Proof.
  unfold om_keys. induction m as [|[k' v] m IH]; simpl; intros Hnd; [done|].
  apply NoDup_cons in Hnd as [Hk Hnd]. rewrite filter_cons. simpl.
  destruct (decide (k = k')) as [->|Hne].
  - rewrite decide_False by (intros ?; done).
    symmetry. apply filter_all. intros x Hx Heq. apply Hk.
    apply list_elem_of_fmap. by exists x.
  - rewrite decide_True by done. f_equal. by apply IH.
Qed.

Lemma om_set_set k v v' m : om_set k v (om_set k v' m) = om_set k v m.
Proof.
  induction m as [|[k' v0] m IH]; simpl.
  - by rewrite decide_True.
  - destruct (decide (k = k')) as [->|Hne]; simpl.
    + by rewrite decide_True.
    + rewrite decide_False by done. by rewrite IH.
Qed.

Lemma om_set_id k v m : om_find k m = Some v -> om_set k v m = m.
Proof.
  induction m as [|[k' v0] m IH]; simpl; [done|].
  destruct (decide (k = k')) as [->|Hne].
  - by intros [= ->].
  - intros Hf. by rewrite IH.
Qed.

Lemma om_keys_filter (P : K * V -> Prop) `{forall x, Decision (P x)} m :
  NoDup (om_keys m) -> NoDup (om_keys (filter P m)).
Proof.
  unfold om_keys. induction m as [|kv m IH]; intros Hnd; [constructor|].
  apply NoDup_cons in Hnd as [Hk Hnd]. rewrite filter_cons.
  destruct (decide (P kv)); [|by apply IH].
  simpl. apply NoDup_cons. split; [|by apply IH].
  intros Hin. apply Hk. apply list_elem_of_fmap in Hin as (x & -> & Hx).
  apply list_elem_of_filter in Hx as [_ Hx]. apply list_elem_of_fmap. by exists x.
Qed.
End EraseFacts.

Lemma erase_all_spec (c : ClassId) (R : list NodeId) (ns : nodes_map)
    (inner : node_map) :
  om_find c ns = Some inner ->
  NoDup (om_keys inner) -> NoDup R ->
  (forall r, r ∈ R -> fst r = c /\ r ∈ om_keys inner) ->
  for_each erase_node R ns
  = Ok (om_set c (filter (fun e => fst e ∉ R) inner) ns).
Proof.
  revert ns inner. induction R as [|r R IH]; intros ns inner Hf Hnd HR Hall; simpl.
  - rewrite filter_all by (intros ? _; apply not_elem_of_nil).
    by rewrite om_set_id.
  - destruct (Hall r) as [Hrc Hrin]; [left|].
    apply NoDup_cons in HR as [HrR HR].
    unfold erase_node at 1. rewrite Hrc, Hf. simpl.
    apply om_find_is_Some in Hrin as [n Hn]. rewrite Hn. simpl.
    rewrite (IH _ (om_erase r inner)).
    + rewrite om_set_set, om_erase_filter, list_filter_filter by done.
      do 2 f_equal. apply list_filter_iff. intros [k v]. simpl.
      rewrite not_elem_of_cons. naive_solver.
    + apply om_find_set_eq.
    + rewrite om_erase_filter by done. by apply om_keys_filter.
    + done.
    + intros r' Hr'. destruct (Hall r') as [? Hin]; [by right|]. split; [done|].
      rewrite om_erase_filter by done. unfold om_keys in *.
      apply list_elem_of_fmap in Hin as ([k v] & -> & Hin). simpl.
      apply list_elem_of_fmap. exists (k, v). split; [done|].
      apply list_elem_of_filter. split; [|done]. simpl. intros Heq.
      apply HrR. by rewrite <- Heq.
Qed.

(** ** One class *)

Lemma tail_filter_elem {A} (P : A -> Prop) `{forall x, Decision (P x)}
    (pre suf : list A) (x : A) :
  NoDup (pre ++ x :: suf) -> P x ->
  (x ∈ tail (filter P (pre ++ x :: suf)) <-> exists y, y ∈ pre /\ P y).
Proof.
  intros Hnd Px. rewrite filter_app, filter_cons, decide_True by done.
  apply NoDup_app in Hnd as (_ & Hdis & Hsuf). apply NoDup_cons in Hsuf as [Hx _].
  destruct (filter P pre) as [|y r] eqn:E; simpl.
  - split.
    + intros Hin. apply list_elem_of_filter in Hin as [_ Hin]. done.
    + intros (y & Hy & Py). exfalso.
      assert (Hin : y ∈ filter P pre) by (by apply list_elem_of_filter).
      rewrite E in Hin. by apply elem_of_nil in Hin.
  - split.
    + intros _. exists y.
      assert (Hin : y ∈ filter P pre) by (rewrite E; left).
      by apply list_elem_of_filter in Hin as [? ?].
    + intros _. apply elem_of_app. right. left.
Qed.

Section OneClass.
Context (ns : nodes_map) (c : ClassId) (inner : node_map).
Hypothesis Hfind : om_find c ns = Some inner.
Hypothesis Hnd : NoDup (om_keys inner).
Hypothesis Hfst : forall nid, nid ∈ om_keys inner -> fst nid = c.

Lemma sig_of_inner nid n :
  (nid, n) ∈ inner -> sig_of ns nid = Some (freq_vec (children n)).
Proof.
  intros Hin. unfold sig_of.
  rewrite (Hfst nid) by (apply list_elem_of_fmap; by exists (nid, n)).
  rewrite Hfind. simpl. by rewrite (om_find_elem_NoDup nid n inner).
Qed.

Lemma sig_of_keys nid : nid ∈ om_keys inner -> is_Some (sig_of ns nid).
Proof.
  intros Hin. apply list_elem_of_fmap in Hin as ([k n] & -> & Hin). simpl.
  rewrite (sig_of_inner k n) by done. eauto.
Qed.

Lemma grouped_elem (grouped : group_map) :
  sm_sorted vec_ltb grouped ->
  (forall s, om_find s grouped =
             match filter (fun id => sig_of ns id = Some s) (om_keys inner) with
             | [] => None
             | l => Some l
             end) ->
  forall s l, (s, l) ∈ grouped ->
    l = filter (fun id => sig_of ns id = Some s) (om_keys inner).
Proof.
  intros Hs Hf s l Hin.
  apply om_find_elem_NoDup in Hin;
    [|by apply (sm_sorted_NoDup vec_ltb vec_ltb_irrefl)].
  rewrite Hf in Hin. destruct (filter _ _); congruence.
Qed.

Lemma redundant_ids_elem (grouped : group_map) r :
  sm_sorted vec_ltb grouped ->
  (forall s, om_find s grouped =
             match filter (fun id => sig_of ns id = Some s) (om_keys inner) with
             | [] => None
             | l => Some l
             end) ->
  (r ∈ redundant_ids grouped <->
   exists s, r ∈ tail (filter (fun id => sig_of ns id = Some s) (om_keys inner))).
Proof.
  intros Hs Hf. unfold redundant_ids. rewrite elem_of_concat. split.
  - intros (l & Hr & Hl). apply list_elem_of_fmap in Hl as ([s l'] & -> & Hl).
    simpl in Hr. exists s. by rewrite <- (grouped_elem grouped Hs Hf s l').
  - intros (s & Hr).
    exists (tail (filter (fun id => sig_of ns id = Some s) (om_keys inner))).
    split; [done|]. apply list_elem_of_fmap.
    exists (s, filter (fun id => sig_of ns id = Some s) (om_keys inner)).
    split; [done|]. apply om_find_Some_elem. rewrite Hf.
    destruct (filter _ _); [by apply elem_of_nil in Hr|done].
Qed.

Lemma redundant_ids_NoDup (grouped : group_map) :
  NoDup (om_keys grouped) ->
  (forall s l, (s, l) ∈ grouped ->
     l = filter (fun id => sig_of ns id = Some s) (om_keys inner)) ->
  NoDup (redundant_ids grouped).
Proof.
  unfold redundant_ids, om_keys.
  induction grouped as [|[s l] grouped IH]; simpl; intros Hk Hall; [constructor|].
  apply NoDup_cons in Hk as [Hs Hk].
  assert (Hl : l = filter (fun id => sig_of ns id = Some s) (om_keys inner))
    by (apply Hall; left).
  apply NoDup_app. split; [|split].
  - assert (Hndl : NoDup l) by (rewrite Hl; by apply NoDup_filter).
    destruct l; [constructor|]. by apply NoDup_cons in Hndl as [_ ?].
  - intros x Hx Hx'. apply elem_of_concat in Hx' as (l' & Hx' & Hl').
    apply list_elem_of_fmap in Hl' as ([s' l2] & -> & Hin). simpl in Hx'.
    assert (Hxl : x ∈ l) by (destruct l; [done|by right]).
    assert (Hxl2 : x ∈ l2) by (destruct l2; [done|by right]).
    rewrite Hl in Hxl. rewrite (Hall s' l2) in Hxl2 by (by right).
    apply list_elem_of_filter in Hxl as [H1 _].
    apply list_elem_of_filter in Hxl2 as [H2 _].
    apply Hs. apply list_elem_of_fmap. exists (s', l2). split; [|done].
    simpl. congruence.
  - apply IH; [done|]. intros s' l' Hin. apply Hall. by right.
Qed.
End OneClass.

Section OneClassResult.
Context (ns : nodes_map) (c : ClassId) (inner : node_map).
Hypothesis Hfind : om_find c ns = Some inner.
Hypothesis Hnd : NoDup (om_keys inner).
Hypothesis Hfst : forall nid, nid ∈ om_keys inner -> fst nid = c.
Context (R : list NodeId).
Hypothesis HR :
  forall r, r ∈ R <->
    exists s, r ∈ tail (filter (fun id => sig_of ns id = Some s) (om_keys inner)).

Lemma redundant_iff_earlier_twin pre nid n suf :
  inner = pre ++ (nid, n) :: suf ->
  (nid ∈ R <-> exists e, e ∈ pre /\ children (snd e) ≡ₚ children n).
Proof.
  intros Hsplit.
  assert (Hkeys : om_keys inner = om_keys pre ++ nid :: om_keys suf).
  { unfold om_keys. by rewrite Hsplit, map_app. }
  assert (Hsig : sig_of ns nid = Some (freq_vec (children n))).
  { apply (sig_of_inner ns c inner Hfind Hnd Hfst). rewrite Hsplit.
    apply elem_of_app. right. left. }
  assert (Hpre : forall e, e ∈ pre ->
            sig_of ns (fst e) = Some (freq_vec (children (snd e)))).
  { intros [k m] He. apply (sig_of_inner ns c inner Hfind Hnd Hfst).
    rewrite Hsplit. apply elem_of_app. by left. }
  rewrite HR, Hkeys. split.
  - intros (s & Hin).
    assert (Hs : sig_of ns nid = Some s).
    { assert (Hin' : nid ∈ filter (fun id => sig_of ns id = Some s)
                                  (om_keys pre ++ nid :: om_keys suf)).
      { destruct (filter _ _); [done|by right]. }
      by apply list_elem_of_filter in Hin' as [? _]. }
    apply tail_filter_elem in Hin as (y & Hy & Py); [| by rewrite <- Hkeys |done].
    unfold om_keys in Hy. apply list_elem_of_fmap in Hy as (e & -> & He).
    exists e. split; [done|]. apply freq_vec_eq_iff.
    rewrite (Hpre e He) in Py. congruence.
  - intros (e & He & Hperm). exists (freq_vec (children n)).
    apply tail_filter_elem; [by rewrite <- Hkeys|done|].
    exists (fst e). split.
    + unfold om_keys. apply list_elem_of_fmap. by exists e.
    + rewrite (Hpre e He). f_equal. by apply freq_vec_eq_iff.
Qed.

Lemma filter_redundant_spec pre suf seen :
  inner = pre ++ suf ->
  (forall t, Exists (fun s => s ≡ₚ t) seen <->
             exists e, e ∈ pre /\ children (snd e) ≡ₚ t) ->
  filter (fun e => fst e ∉ R) suf = spec_dedup_from seen suf.
Proof.
  revert pre seen. induction suf as [|[nid n] suf IH]; intros pre seen Hsplit Hseen;
    [done|].
  rewrite filter_cons. simpl.
  pose proof (redundant_iff_earlier_twin pre nid n suf Hsplit) as Hiff.
  destruct (decide (nid ∉ R)) as [Hkeep|Hdrop].
  - rewrite bool_decide_eq_false_2.
    2:{ intros Hex. apply Hkeep. apply Hiff. by apply Hseen. }
    f_equal. apply (IH (pre ++ [(nid, n)])).
    + by rewrite <- app_assoc.
    + intros t. rewrite Exists_app, Exists_cons, Exists_nil. split.
      * intros [Hex|[Hp|[]]].
        -- apply Hseen in Hex as (e & He & Hp). exists e. split; [|done].
           apply elem_of_app. by left.
        -- exists (nid, n). split; [|done]. apply elem_of_app. right. left.
      * intros (e & He & Hp). apply elem_of_app in He as [He|He].
        -- left. apply Hseen. by exists e.
        -- apply list_elem_of_singleton in He as ->. right. by left.
  - assert (Hin : nid ∈ R) by (destruct (decide (nid ∈ R)); [done|by exfalso; apply Hdrop]).
    rewrite bool_decide_eq_true_2.
    2:{ apply Hseen. by apply Hiff. }
    apply (IH (pre ++ [(nid, n)])).
    + by rewrite <- app_assoc.
    + intros t. split.
      * intros Hex. apply Hseen in Hex as (e & He & Hp). exists e. split; [|done].
        apply elem_of_app. by left.
      * intros (e & He & Hp). apply elem_of_app in He as [He|He].
        -- apply Hseen. by exists e.
        -- apply list_elem_of_singleton in He as ->. simpl in Hp.
           apply Hiff in Hin as (e' & He' & Hp'). apply Hseen.
           exists e'. split; [done|]. by rewrite Hp'.
Qed.

End OneClassResult.

Lemma dedup_class_spec (ns : nodes_map) (c : ClassId) (inner : node_map) :
  om_find c ns = Some inner ->
  NoDup (om_keys inner) ->
  (forall nid, nid ∈ om_keys inner -> fst nid = c) ->
  dedup_class (c, om_keys inner) ns = Ok (om_set c (spec_dedup inner) ns).
Proof.
  intros Hfind Hnd Hfst. unfold dedup_class. simpl.
  destruct (group_fold_spec ns (om_keys inner) []) as (grouped & Hg & Hs & Hf).
  { constructor. }
  { by apply (sig_of_keys ns c inner). }
  rewrite Hg. simpl. rewrite prune_groups_concat.
  assert (Hf' : forall s, om_find s grouped =
             match filter (fun id => sig_of ns id = Some s) (om_keys inner) with
             | [] => None
             | l => Some l
             end).
  { intros s. rewrite Hf. simpl. by destruct (filter _ _). }
  pose proof (fun r => redundant_ids_elem ns inner grouped r Hs Hf') as HR.
  rewrite (erase_all_spec c (redundant_ids grouped) ns inner); try done.
  - do 2 f_equal.
    apply (filter_redundant_spec ns c inner Hfind Hnd Hfst _ HR [] inner []);
      [done|].
    intros t. rewrite Exists_nil. split; [done|].
    intros (e & He & _). by apply elem_of_nil in He.
  - apply (redundant_ids_NoDup ns inner Hnd).
    + by apply (sm_sorted_NoDup vec_ltb vec_ltb_irrefl).
    + by apply grouped_elem.
  - intros r Hr. apply HR in Hr as (s & Hr).
    assert (Hin : r ∈ om_keys inner).
    { assert (Hr' : r ∈ filter (fun id => sig_of ns id = Some s) (om_keys inner))
        by (destruct (filter _ _); [done|by right]).
      by apply list_elem_of_filter in Hr' as [_ ?]. }
    split; [by apply Hfst|done].
Qed.

(** ** The whole description *)

Lemma collect_inner_lookup (k : ClassId) (inner : node_map)
    (acc : eclass_collect_map) c :
  fold_left (fun acc kw => <[k := default [] (acc !! k) ++ [fst kw]]> acc)
            inner acc !! c
  = if decide (c = k)
    then match inner with
         | [] => acc !! k
         | _ => Some (default [] (acc !! k) ++ om_keys inner)
         end
    else acc !! c.
Proof.
  revert acc. induction inner as [|kw inner IH]; intros acc; simpl.
  - by destruct (decide (c = k)) as [->|].
  - rewrite IH. destruct (decide (c = k)) as [->|Hne].
    + rewrite lookup_insert_eq. simpl.
      destruct inner; simpl; [done|]. by rewrite <- app_assoc.
    + by rewrite lookup_insert_ne.
Qed.

Lemma collect_eclasses_lookup (ns : nodes_map) c :
  NoDup (om_keys ns) ->
  collect_eclasses ns !! c =
  match om_find c ns with
  | Some (e :: inner) => Some (om_keys (e :: inner))
  | _ => None
  end.
Proof.
  unfold collect_eclasses. intros Hnd.
  assert (G : forall acc : eclass_collect_map,
    fold_left
      (fun acc kv =>
         fold_left (fun acc kw =>
                      <[fst kv := default [] (acc !! fst kv) ++ [fst kw]]> acc)
                   (snd kv) acc) ns acc !! c
    = match om_find c ns with
      | Some (e :: inner) => Some (default [] (acc !! c) ++ om_keys (e :: inner))
      | _ => acc !! c
      end).
  { induction ns as [|[k inner] ns IH]; intros acc; simpl; [done|].
    unfold om_keys in Hnd. simpl in Hnd. apply NoDup_cons in Hnd as [Hk Hnd].
    rewrite IH by done. rewrite collect_inner_lookup.
    destruct (decide (c = k)) as [->|Hne].
    - assert (Hnone : om_find k ns = None) by (by apply om_find_None_notin).
      rewrite Hnone. by destruct inner.
    - done. }
  rewrite G, lookup_empty. by destruct (om_find c ns) as [[|]|].
Qed.

Lemma om_find_dedup_in S (ns : nodes_map) c :
  om_find c (map (dedup_in S) ns)
  = (fun inner => if decide (c ∈ S) then spec_dedup inner else inner)
      <$> om_find c ns.
Proof.
  induction ns as [|[k inner] ns IH]; simpl; [done|].
  destruct (decide (c = k)) as [->|Hne]; [done|]. apply IH.
Qed.

Lemma om_set_dedup_in S (ns : nodes_map) c inner :
  NoDup (om_keys ns) -> om_find c ns = Some inner -> c ∉ S ->
  om_set c (spec_dedup inner) (map (dedup_in S) ns) = map (dedup_in (c :: S)) ns.
Proof.
  unfold om_keys. induction ns as [|[k i] ns IH]; simpl; [done|].
  intros Hnd Hf HS. apply NoDup_cons in Hnd as [Hk Hnd].
  destruct (decide (c = k)) as [->|Hne].
  - injection Hf as ->. unfold dedup_in at 2. simpl.
    rewrite decide_True by left. f_equal.
    apply map_ext_in. intros [k' i'] Hin. unfold dedup_in. simpl.
    assert (k' <> k).
    { intros ->. apply Hk. apply list_elem_of_fmap. exists (k, i').
      split; [done|]. by apply list_elem_of_In. }
    destruct (decide (k' ∈ S)), (decide (k' ∈ k :: S)); try done.
    + exfalso. apply n. by right.
    + apply elem_of_cons in e as [?|?]; done.
  - rewrite IH by done. f_equal. unfold dedup_in. simpl.
    destruct (decide (k ∈ S)), (decide (k ∈ c :: S)); try done.
    + exfalso. apply n. by right.
    + apply elem_of_cons in e as [?|?]; [congruence|done].
Qed.

Lemma dedup_classes_spec (ns : nodes_map) (L : list (ClassId * list NodeId)) S :
  wf_nodes ns ->
  NoDup (om_keys L) -> (forall c, c ∈ om_keys L -> c ∉ S) ->
  (forall c ids, (c, ids) ∈ L ->
     exists inner, om_find c ns = Some inner /\ ids = om_keys inner) ->
  exists S', for_each dedup_class L (map (dedup_in S) ns)
             = Ok (map (dedup_in S') ns) /\
             forall c, c ∈ S' <-> c ∈ om_keys L \/ c ∈ S.
Proof.
  intros [Hndk Hwf]. revert S. unfold om_keys at 1 2.
  induction L as [|[c ids] L IH]; intros S HndL HS Hall; simpl.
  - exists S. split; [done|]. intros c. split; [by right|].
    intros [H|H]; [by apply elem_of_nil in H|done].
  - apply NoDup_cons in HndL as [HcL HndL].
    destruct (Hall c ids) as (inner & Hf & ->); [left|].
    assert (HcS : c ∉ S) by (apply HS; left).
    destruct (Hwf c inner (om_find_Some_elem _ _ _ Hf)) as [Hndi Hfst].
    rewrite (dedup_class_spec _ c inner); [|by rewrite om_find_dedup_in, Hf;
      simpl; rewrite decide_False|done|done].
    simpl. rewrite om_set_dedup_in by done.
    destruct (IH (c :: S)) as (S' & HS' & Hmem); [done| | |].
    + intros c' Hc'. rewrite not_elem_of_cons. split.
      * intros ->. done.
      * apply HS. by right.
    + intros c' ids' Hin. apply Hall. by right.
    + exists S'. split; [done|]. intros c'. rewrite Hmem, !elem_of_cons.
      tauto.
Qed.

(** C8.  On a well-formed description [remove_redundant_nodes] returns what
    the spec describes: class by class, a node is kept iff no earlier node of
    its class references the same multiset of child classes (so the first
    member of every group stays, the others go, singleton groups are
    untouched), the surviving nodes keep their order and contents, and roots
    and operator table are unchanged.  The grouping key, the sorted list of
    (child, multiplicity) pairs, identifies exactly the child multiset. *)
Theorem remove_redundant_nodes_spec (data : Data) :
  wf_data data ->
  remove_redundant_nodes data = Ok (spec_remove_redundant data) /\
  (forall l1 l2 : list ClassId, freq_vec l1 = freq_vec l2 <-> l1 ≡ₚ l2).
Proof.
  intros Hwf. split; [|apply freq_vec_eq_iff].
  unfold remove_redundant_nodes, spec_remove_redundant.
  pose proof Hwf as [Hndk Hinner].
  set (ns := d_nodes data) in *.
  destruct (dedup_classes_spec ns (map_to_list (collect_eclasses ns)) [])
    as (S' & HS' & Hmem).
  - exact Hwf.
  - apply NoDup_fst_map_to_list.
  - intros c _. apply not_elem_of_nil.
  - intros c ids Hin. apply elem_of_map_to_list in Hin.
    rewrite collect_eclasses_lookup in Hin by done.
    destruct (om_find c ns) as [[|e inner]|]; try done.
    injection Hin as <-. by exists (e :: inner).
  - assert (Hid : map (dedup_in []) ns = ns).
    { rewrite <- (map_id ns) at 2. apply map_ext. intros [k i].
      unfold dedup_in. destruct (decide _) as [H|]; [by apply elem_of_nil in H|done]. }
    rewrite Hid in HS'. rewrite HS'. simpl. f_equal. f_equal.
    apply map_ext_in. intros [k inner] Hin. apply list_elem_of_In in Hin.
    unfold dedup_in. simpl. destruct (decide (k ∈ S')) as [|Hk]; [done|].
    destruct inner as [|e inner]; [done|]. exfalso. apply Hk. apply Hmem. left.
    unfold om_keys. apply list_elem_of_fmap. exists (k, om_keys (e :: inner)).
    split; [done|]. apply elem_of_map_to_list.
    rewrite collect_eclasses_lookup by done.
    by rewrite (om_find_elem_NoDup k (e :: inner) ns).
Qed.

Lemma wf_redundant_example : wf_data redundant_example.
Proof.
  split.
  - vm_compute. repeat constructor; set_solver.
  - intros c inner Hin. vm_compute in Hin.
    repeat (apply elem_of_cons in Hin as [Hin|Hin];
            [injection Hin as -> ->; split;
             [vm_compute; repeat constructor; set_solver
             |intros nid Hn; vm_compute in Hn;
              repeat (apply elem_of_cons in Hn as [->|Hn]; [reflexivity|]);
              by apply elem_of_nil in Hn]|]).
    by apply elem_of_nil in Hin.
Qed.

Lemma remove_redundant_nodes_spec_witness :
  remove_redundant_nodes redundant_example
  = Ok (mkData
          [(0%N, [((0%N, 0%N), mkNode 0 [1%N; 2%N; 1%N] 0 1);
                  ((0%N, 1%N), mkNode 1 [] 0 2)]);
           (1%N, [((1%N, 0%N), leaf 1 1)]);
           (2%N, [((2%N, 0%N), leaf 2 1)])] [0%N] []).
Proof.
  destruct (remove_redundant_nodes_spec redundant_example wf_redundant_example)
    as [H _].
  rewrite H. vm_compute. reflexivity.
Defined.

(** ** The partitioner *)

(** *** The partition-count guard *)

Lemma partition_setup_not_NOT_ENOUGH data :
  partition_setup data <> Throw NOT_ENOUGH.
Proof.
  unfold partition_setup. intros H.
  apply rbind_Throw in H as [H|(? & _ & H)]; [|done].
  unfold build_parents in H. apply for_each_Throw in H as (entry & t & _ & H).
  unfold link_node in H. apply for_each_Throw in H as (c & t' & _ & H).
  destruct (om_find c _) as [[|]|]; done.
Qed.

Lemma scan_node_Throw mn class_node st e :
  scan_node mn class_node st = Throw e -> e = OutOfRange.
Proof.
  unfold scan_node. intros H.
  apply rbind_Throw in H as [H|(inner & _ & H)].
  { by apply of_option_Throw in H. }
  apply rbind_Throw in H as [H|(node & _ & H)]; [|done].
  by apply of_option_Throw in H.
Qed.

(** The message of the traversal's error is a suffix of its literal, or
    the behaviour is undefined: never one of the other errors. *)
Lemma literal_plus_cases literal n :
  literal_plus literal n = Undefined \/
  exists k, (k <= String.length literal)%nat /\
    literal_plus literal n =
    RuntimeError (String.substring k (String.length literal - k) literal).
Proof.
  unfold literal_plus. destruct (N.leb_spec n (N.of_nat (String.length literal))).
  - right. exists (N.to_nat n). split; [lia|done].
  - by left.
Qed.

Lemma not_in_collect_other c e :
  e = NOT_ENOUGH \/ e = RuntimeError "Child node not found for eclass" ->
  literal_plus NOT_IN_COLLECT c <> e.
Proof.
  intros He Heq.
  destruct (literal_plus_cases NOT_IN_COLLECT c) as [Hu|(k & Hk & Hs)].
  - rewrite Hu in Heq. destruct He as [-> | ->]; discriminate Heq.
  - rewrite Hs in Heq. clear Hs. revert Hk Heq.
    do 39 (destruct k as [|k];
           [intros _ Heq; destruct He as [-> | ->]; vm_compute in Heq;
            discriminate Heq|]).
    cbn. lia.
Qed.

Lemma bfs_loop_not_NOT_ENOUGH fuel mn ec size k st :
  bfs_loop fuel mn ec size k st <> Throw NOT_ENOUGH.
Proof.
  revert st. induction fuel as [|fuel IH]; intros st; simpl; [done|].
  destruct (bfs_queue st) as [|c q]; [done|].
  destruct (_ && _); [done|].
  destruct (ec !! c) as [ids|];
    [|intros [= H]; revert H; apply not_in_collect_other; by left].
  intros H. apply rbind_Throw in H as [H|(st2 & _ & H)].
  - apply for_each_Throw in H as (a & t & _ & H).
    by apply scan_node_Throw in H.
  - by apply IH in H.
Qed.

Lemma build_subgraph_Throw mn ec idx sg ops e :
  build_subgraph mn ec idx sg ops = Throw e -> e = AssertFailure.
Proof.
  unfold build_subgraph. destruct (split_children _) as [tr sp].
  destruct (bucket_roots _ _) as [|? [|? ?]];
    try destruct (pseudo_root_op ops);
    destruct (decide _); congruence.
Qed.

Lemma build_subgraphs_not_NOT_ENOUGH mn ec idx sgs ops :
  build_subgraphs mn ec idx sgs ops <> Throw NOT_ENOUGH.
Proof.
  revert idx ops. induction sgs as [|sg sgs IH]; intros idx ops; simpl; [done|].
  intros H. apply rbind_Throw in H as [H|([ops' d] & _ & H)].
  - by apply build_subgraph_Throw in H.
  - apply rbind_Throw in H as [H|([ops'' fs] & _ & H)]; [|done].
    by apply IH in H.
Qed.

(** C6 (as the code has it).  The "not enough nodes" error is raised exactly
    when the set-up succeeds and the working node map -- the description's
    class map, plus the pseudo-root class when one is added -- has AT MOST
    [partition_num] entries.  When no pseudo-root is needed (at most one
    root entry) the working map is the description's own class map, so a
    description with exactly [partition_num] classes is rejected. *)
Theorem partition_guard (fuel : nat) (data : Data) (partition_num : nat) :
  (egraph_partition fuel data partition_num = Throw NOT_ENOUGH <->
   exists ops mutable_nodes root,
     partition_setup data = Ok (ops, mutable_nodes, root) /\
     (length mutable_nodes <= partition_num)%nat) /\
  (forall ops mutable_nodes root parents,
     build_parents (d_nodes data) = Ok parents ->
     (length (compute_roots (d_nodes data) parents) <= 1)%nat ->
     partition_setup data = Ok (ops, mutable_nodes, root) ->
     mutable_nodes = d_nodes data).
Proof.
  split.
  - unfold egraph_partition, partition_buckets.
    destruct (partition_setup data) as [[[ops mn] root]| |] eqn:Hs; simpl.
    + destruct (length mn <=? partition_num)%nat eqn:Hle; simpl.
      * apply Nat.leb_le in Hle. split; [|done].
        intros _. by exists ops, mn, root.
      * apply Nat.leb_gt in Hle. split.
        -- intros H. exfalso.
           apply rbind_Throw in H as [H|([[[? ?] ?] ?] & _ & H)].
           ++ apply rbind_Throw in H as [H|(root0 & _ & H)].
              { by apply of_option_Throw in H. }
              apply rbind_Throw in H as [H|(st & _ & H)].
              { by apply bfs_loop_not_NOT_ENOUGH in H. }
              by destruct (decide _).
           ++ apply rbind_Throw in H as [H|([? ?] & _ & H)]; [|done].
              by apply build_subgraphs_not_NOT_ENOUGH in H.
        -- intros (? & mn' & ? & [= <- <- <-] & Hle'). lia.
    + split.
      * intros [= ->]. by apply partition_setup_not_NOT_ENOUGH in Hs.
      * intros (? & ? & ? & ? & _). done.
    + split; [done|]. intros (? & ? & ? & ? & _). done.
  - intros ops mn root parents Hp Hlen. unfold partition_setup.
    rewrite Hp. simpl. unfold add_pseudo_root.
    destruct (compute_roots _ _) as [|? [|? ?]]; simpl in *; try lia;
      by intros [= <- <- <-].
Qed.

(** C6 (as stated) fails: with one class and [partition_num = 1] the class
    count is not below the partition count, yet the error is raised. *)
Lemma partition_guard_rejects_equal :
  ~ (egraph_partition 10 single_class 1 = Throw NOT_ENOUGH <->
     (length (d_nodes single_class) < 1)%nat).
Proof.
  intros [H _].
  assert (Hlt : (length (d_nodes single_class) < 1)%nat).
  { apply H. vm_compute. reflexivity. }
  vm_compute in Hlt. lia.
Qed.

(** *** Pseudo-root synthesis *)

(** C7 (the code at a failing input).  With two root classes of which class 0
    has two member nodes, the root list has one entry PER NODE and the
    pseudo-root gets the children [0; 0; 1] -- class 0 twice.  The traversal
    that starts from it finds the pseudo-root class missing from
    [eclass_collect] (built from the description, not from the working
    copy) and goes on to build its error message by adding the class id
    4294967294 to a string literal: undefined behaviour, no partition is
    returned. *)
Theorem pseudo_root_children_per_node :
  (exists ops mutable_nodes,
     partition_setup two_roots = Ok (ops, mutable_nodes, [PSEUDO_ROOT]) /\
     (children <$> (om_find PSEUDO_ROOT mutable_nodes
                      ≫= om_find (PSEUDO_ROOT, 0%N)))
     = Some [0%N; 0%N; 1%N]) /\
  egraph_partition 10 two_roots 2 = Throw Undefined.
Proof.
  split.
  - eexists _, _. split; vm_compute; reflexivity.
  - vm_compute. reflexivity.
Qed.

(** *** Buckets *)

Lemma dom_collect_inner (k : ClassId) (inner : node_map) (acc : eclass_collect_map) c :
  c ∈ dom (fold_left (fun acc kw => <[k := default [] (acc !! k) ++ [fst kw]]> acc)
                     inner acc)
  <-> c ∈ dom acc \/ (c = k /\ inner <> []).
Proof.
  revert acc. induction inner as [|kw inner IH]; intros acc; simpl.
  - naive_solver.
  - rewrite IH, dom_insert. set_solver.
Qed.

Lemma dom_collect_eclasses (ns : nodes_map) c :
  c ∈ dom (collect_eclasses ns) <-> exists inner, (c, inner) ∈ ns /\ inner <> [].
Proof.
  unfold collect_eclasses.
  assert (G : forall acc : eclass_collect_map,
    c ∈ dom (fold_left
               (fun acc kv =>
                  fold_left (fun acc kw =>
                               <[fst kv := default [] (acc !! fst kv) ++ [fst kw]]> acc)
                            (snd kv) acc) ns acc)
    <-> c ∈ dom acc \/ exists inner, (c, inner) ∈ ns /\ inner <> []).
  { induction ns as [|[k inner] ns IH]; intros acc; simpl.
    - split; [by left|]. intros [?|(? & Hin & _)]; [done|].
      by apply elem_of_nil in Hin.
    - rewrite IH, dom_collect_inner. split.
      + intros [[?|[-> ?]]|(i & Hin & ?)].
        * by left.
        * right. exists inner. split; [left|done].
        * right. exists i. split; [by right|done].
      + intros [?|(i & Hin & Hne)]; [by left; left|].
        apply elem_of_cons in Hin as [[= -> ->]|Hin].
        * left. by right.
        * right. by exists i. }
  rewrite G, dom_empty. set_solver.
Qed.

Lemma link_node_spec mn entry (acc parents : parent_links) :
  link_node mn entry acc = Ok parents ->
  dom acc ⊆ dom parents /\
  forall child, child ∈ children (snd entry) -> child ∈ dom parents.
Proof.
  unfold link_node. generalize (children (snd entry)) as l.
  intros l. revert acc. induction l as [|c l IH]; intros acc; simpl.
  - intros [= <-]. split; [done|]. intros ? Hin. by apply elem_of_nil in Hin.
  - destruct (om_find c mn) as [[|? ?]|]; simpl; try done.
    intros H. apply IH in H as [Hsub Hall].
    rewrite dom_insert in Hsub. split; [set_solver|].
    intros child Hin. apply elem_of_cons in Hin as [->|Hin]; [set_solver|auto].
Qed.

Lemma build_parents_spec mn parents :
  build_parents mn = Ok parents ->
  forall entry child,
    entry ∈ all_nodes mn -> child ∈ children (snd entry) -> child ∈ dom parents.
Proof.
  unfold build_parents. generalize (all_nodes mn) as l. intros l.
  assert (G : forall acc : parent_links,
    for_each (link_node mn) l acc = Ok parents ->
    dom acc ⊆ dom parents /\
    forall entry child, entry ∈ l -> child ∈ children (snd entry) ->
                        child ∈ dom parents).
  { induction l as [|e l IH]; intros acc; simpl.
    - intros [= <-]. split; [done|]. intros ? ? Hin. by apply elem_of_nil in Hin.
    - intros H. apply rbind_Ok in H as (acc' & Hl & H).
      apply link_node_spec in Hl as [Hsub1 Hc].
      apply IH in H as [Hsub2 Hall]. split; [set_solver|].
      intros entry child Hin Hch. apply elem_of_cons in Hin as [->|Hin].
      + apply Hsub2. by apply Hc.
      + by eapply Hall. }
  intros H. by apply G in H as [_ ?].
Qed.

Lemma compute_roots_no_parent mn (parents : parent_links) c :
  c ∈ compute_roots mn parents -> parents !! c = None.
Proof.
  unfold compute_roots. generalize (all_nodes mn) as l. intros l.
  assert (G : forall acc : list ClassId,
    c ∈ fold_left (fun root entry =>
                     match parents !! eclass (snd entry) with
                     | None => root ++ [eclass (snd entry)]
                     | Some _ => root
                     end) l acc ->
    c ∈ acc \/ parents !! c = None).
  { induction l as [|e l IH]; intros acc; simpl; [by left|].
    intros H. apply IH in H as [H|H]; [|by right].
    destruct (parents !! eclass (snd e)) eqn:E; [by left|].
    apply elem_of_app in H as [H|H]; [by left|].
    apply list_elem_of_singleton in H as ->. by right. }
  intros H. apply G in H as [H|H]; [|done]. by apply elem_of_nil in H.
Qed.

Lemma scan_children_inv root0 (parents : parent_links) (l : list ClassId) st :
  parents !! root0 = None ->
  (forall child, child ∈ l -> child ∈ dom parents) ->
  bfs_inv root0 st ->
  bfs_inv root0
    (fold_left
       (fun st child_eclass =>
          if decide (child_eclass ∈ bfs_visited st) then st
          else mkBfs (bfs_queue st ++ [child_eclass])
                     ({[child_eclass]} ∪ bfs_visited st)
                     (bfs_subgraphs st) (bfs_current st) (bfs_count st))
       l st).
Proof.
  intros Hroot. revert st. induction l as [|c l IH]; intros st Hl Hinv; simpl.
  - done.
  - apply IH; [intros ? ?; apply Hl; by right|].
    destruct (decide (c ∈ bfs_visited st)) as [Hv|Hv]; [done|].
    destruct Hinv as [Hnd Hel]. unfold bfs_inv, bfs_all in *. simpl.
    assert (Hc : c ∉ concat (bfs_subgraphs st) ++ bfs_current st ++ bfs_queue st).
    { intros Hin. apply Hel in Hin as [->|Hin]; [|done].
      assert (Hd : root0 ∈ dom parents) by (apply Hl; left).
      apply elem_of_dom in Hd as [? Hd]. congruence. }
    rewrite !app_assoc. rewrite !app_assoc in Hnd, Hc, Hel. split.
    + apply NoDup_app. split; [done|]. split.
      * intros x Hx Hx'. apply list_elem_of_singleton in Hx' as ->. done.
      * apply NoDup_singleton.
    + intros x Hx. apply elem_of_app in Hx as [Hx|Hx].
      * apply Hel in Hx as [->|Hx]; [by left|]. right. set_solver.
      * apply list_elem_of_singleton in Hx as ->. right. set_solver.
Qed.

Lemma om_find_all_nodes (mn : nodes_map) (nid : NodeId) inner node :
  om_find (fst nid) mn = Some inner -> om_find nid inner = Some node ->
  (nid, node) ∈ all_nodes mn.
Proof.
  intros H1 H2. apply om_find_Some_elem in H1, H2.
  unfold all_nodes. apply elem_of_concat. exists inner. split; [done|].
  apply list_elem_of_fmap. by exists (fst nid, inner).
Qed.

Lemma scan_node_inv root0 mn parents class_node st st' :
  build_parents mn = Ok parents ->
  parents !! root0 = None ->
  bfs_inv root0 st ->
  scan_node mn class_node st = Ok st' ->
  bfs_inv root0 st'.
Proof.
  intros Hp Hroot Hinv H. unfold scan_node in H.
  apply rbind_Ok in H as (inner & Hi & H). apply of_option_Ok in Hi.
  apply rbind_Ok in H as (node & Hn & H). apply of_option_Ok in Hn.
  injection H as <-.
  eapply scan_children_inv; [done| |done].
  intros child Hch.
  eapply (build_parents_spec _ _ Hp (class_node, node)); [|done].
  by eapply om_find_all_nodes.
Qed.

Lemma bfs_loop_inv root0 fuel mn parents ec size k st st' :
  build_parents mn = Ok parents ->
  parents !! root0 = None ->
  bfs_inv root0 st ->
  bfs_loop fuel mn ec size k st = Ok st' ->
  bfs_inv root0 st'.
Proof.
  intros Hp Hroot. revert st. induction fuel as [|fuel IH]; intros st Hinv;
    simpl; [done|].
  destruct (bfs_queue st) as [|c q] eqn:Hq; [by intros [= <-]|].
  set (cur := oset_insert c (bfs_current st)).
  set (sealed := reached (bfs_count st) size k).
  set (sgs := if sealed then bfs_subgraphs st ++ [cur] else bfs_subgraphs st).
  set (st1 := mkBfs q (bfs_visited st) sgs (if sealed then [] else cur)
                    (if sealed then 0%nat else bfs_count st)).
  assert (Hall : bfs_all st1 = bfs_all st).
  { destruct Hinv as [Hnd _]. unfold bfs_all in *. rewrite Hq in *.
    assert (Hc : c ∉ bfs_current st).
    { intros Hin. rewrite app_assoc in Hnd. apply NoDup_app in Hnd as (_ & Hd & _).
      apply (Hd c); [|left]. apply elem_of_app. by right. }
    subst st1 sgs cur. unfold oset_insert. rewrite decide_False by done.
    destruct sealed; simpl.
    - rewrite concat_app. simpl. by rewrite app_nil_r, <- !app_assoc.
    - by rewrite <- !app_assoc. }
  assert (Hinv1 : bfs_inv root0 st1).
  { destruct Hinv as [Hnd Hel]. unfold bfs_inv. by rewrite Hall. }
  clearbody st1. clear Hall.
  destruct (_ && _); [by intros [= <-]|].
  destruct (ec !! c) as [ids|]; [|done].
  intros H. apply rbind_Ok in H as (st2 & Hscan & H).
  eapply IH; [|exact H].
  eapply (for_each_inv (bfs_inv root0)); [|exact Hinv1|exact Hscan].
  intros a t t' _ Ht Hs. by eapply scan_node_inv.
Qed.

Lemma NoDup_concat_disjoint (l : list (list ClassId)) :
  NoDup (concat l) -> pairwise_disjoint l.
Proof.
  induction l as [|b l IH]; intros Hnd i j b1 b2 c Hij H1 H2 Hc1 Hc2.
  { by rewrite lookup_nil in H1. }
  simpl in Hnd. apply NoDup_app in Hnd as (Hb & Hd & Hrest).
  assert (Hin : forall n b', l !! n = Some b' -> c ∈ b' -> c ∈ concat l).
  { intros n b' Hl Hc. apply elem_of_concat. exists b'. split; [done|].
    by eapply list_elem_of_lookup_2. }
  destruct i as [|i], j as [|j]; simpl in *.
  - done.
  - injection H1 as <-. eapply Hd; [done|]. by eapply Hin.
  - injection H2 as <-. eapply Hd; [done|]. by eapply Hin.
  - eapply (IH Hrest i j b1 b2 c); eauto.
Qed.

Lemma reached_zero size k : (0 < size)%nat -> reached 0 size k = false.
Proof.
  intros Hs. unfold reached. destruct k; [done|].
  apply Nat.leb_gt. simpl. lia.
Qed.

(** With the pseudo-root in a class the description does not have, the
    traversal cannot get past its first step. *)
Lemma bfs_loop_pseudo_root fuel mn (ec : eclass_collect_map) k st :
  ec !! PSEUDO_ROOT = None -> (0 < length mn)%nat ->
  bfs_loop fuel mn ec (length mn) k (mkBfs [PSEUDO_ROOT] ∅ [] [] 0) <> Ok st.
Proof.
  intros Hec Hlen. destruct fuel as [|fuel]; simpl; [done|].
  rewrite reached_zero by done. simpl. by rewrite Hec.
Qed.

Lemma partition_buckets_NoDup fuel data k ops mn ec sgs :
  PSEUDO_ROOT ∉ om_keys (d_nodes data) ->
  partition_buckets fuel data k = Ok (ops, mn, ec, sgs) ->
  NoDup (concat sgs) /\
  list_to_set (concat sgs) = dom (collect_eclasses (d_nodes data)).
Proof.
  intros Hres H. unfold partition_buckets in H.
  apply rbind_Ok in H as ([[ops' mn'] root] & Hs & H).
  destruct (length mn' <=? k)%nat eqn:Hle; [done|]. apply Nat.leb_gt in Hle.
  apply rbind_Ok in H as (root0 & Hr0 & H). apply of_option_Ok in Hr0.
  apply rbind_Ok in H as (st & Hbfs & H).
  destruct (decide _) as [Heq|]; [|done]. injection H as <- <- <- <-.
  split; [|done]. clear Heq.
  unfold partition_setup in Hs. apply rbind_Ok in Hs as (parents & Hp & Hs).
  injection Hs as Hs. unfold add_pseudo_root in Hs.
  assert (Hec : collect_eclasses (d_nodes data) !! PSEUDO_ROOT = None).
  { apply not_elem_of_dom. rewrite dom_collect_eclasses.
    intros (inner & Hin & _). apply Hres. unfold om_keys.
    apply list_elem_of_fmap. by exists (PSEUDO_ROOT, inner). }
  assert (Hcase : mn' = d_nodes data /\
                  root = compute_roots (d_nodes data) parents).
  { destruct (compute_roots (d_nodes data) parents) as [|r1 [|r2 rs]];
      [by injection Hs as <- <- <-|by injection Hs as <- <- <-|].
    exfalso. destruct (pseudo_root_op (d_op data)).
    injection Hs as <- <- <-. simpl in Hr0. injection Hr0 as <-.
    eapply bfs_loop_pseudo_root; [exact Hec| |exact Hbfs]. lia. }
  destruct Hcase as [-> ->]. clear Hs.
  assert (Hroot : parents !! root0 = None).
  { eapply compute_roots_no_parent. by apply head_Some_elem_of. }
  assert (Hinv : bfs_inv root0 st).
  { eapply bfs_loop_inv; [exact Hp|exact Hroot| |exact Hbfs].
    unfold bfs_inv, bfs_all. simpl. split.
    - apply NoDup_singleton.
    - intros c Hc. apply list_elem_of_singleton in Hc. by left. }
  destruct Hinv as [Hnd _]. unfold bfs_all in Hnd.
  rewrite app_assoc in Hnd. apply NoDup_app in Hnd as (Hnd & _ & _).
  destruct (bfs_current st) eqn:Hcur.
  - by rewrite app_nil_r in Hnd.
  - rewrite concat_app. simpl. by rewrite app_nil_r.
Qed.

(** C5 (as the code has it).  For a description that does not itself use the
    reserved pseudo-root class [UINT_MAX - 1], whenever [egraph_partition]
    produces its buckets they are pairwise disjoint and their union is
    exactly the set of classes of the description. *)
Theorem partition_buckets_partition (fuel : nat) (data : Data)
    (partition_num : nat) (out : partition) :
  PSEUDO_ROOT ∉ om_keys (d_nodes data) ->
  egraph_partition fuel data partition_num = Ok out ->
  pairwise_disjoint (p_subgraphs out) /\
  forall c, (exists b, b ∈ p_subgraphs out /\ c ∈ b) <-> has_class data c.
Proof.
  intros Hres H. unfold egraph_partition in H.
  apply rbind_Ok in H as ([[[ops mn] ec] sgs] & Hb & H).
  apply rbind_Ok in H as ([ops' files] & _ & H). injection H as <-. simpl.
  apply partition_buckets_NoDup in Hb as [Hnd Hcover]; [|done].
  split; [by apply NoDup_concat_disjoint|].
  intros c. unfold has_class. rewrite <- dom_collect_eclasses, <- Hcover.
  rewrite elem_of_list_to_set, elem_of_concat. naive_solver.
Qed.

Lemma partition_buckets_partition_witness :
  exists out,
    egraph_partition 10 chain4 2 = Ok out /\
    p_subgraphs out = [[0%N; 1%N; 2%N]; [3%N]] /\
    pairwise_disjoint (p_subgraphs out) /\
    forall c, (exists b, b ∈ p_subgraphs out /\ c ∈ b) <-> has_class chain4 c.
Proof.
  destruct (egraph_partition 10 chain4 2) as [out| |] eqn:E;
    [|vm_compute in E; discriminate..].
  exists out. split; [reflexivity|]. split.
  - vm_compute in E. by injection E as <-.
  - apply (partition_buckets_partition 10 chain4 2 out); [|exact E].
    vm_compute. intros Hin.
    repeat (apply elem_of_cons in Hin as [Hin|Hin]; [discriminate Hin|]).
    by apply elem_of_nil in Hin.
Defined.

(** C5 (as stated) fails: this description has four classes, is split in
    two, and the reserved class [UINT_MAX - 1] lands in both buckets. *)
Lemma partition_buckets_overlap :
  exists out,
    egraph_partition 10 reserved_clash 2 = Ok out /\
    p_subgraphs out = [[PSEUDO_ROOT; 0%N; 1%N]; [2%N; PSEUDO_ROOT]] /\
    ~ pairwise_disjoint (p_subgraphs out).
Proof.
  destruct (egraph_partition 10 reserved_clash 2) as [out| |] eqn:E;
    [|vm_compute in E; discriminate..].
  exists out. split; [reflexivity|].
  assert (Hsg : p_subgraphs out = [[PSEUDO_ROOT; 0%N; 1%N]; [2%N; PSEUDO_ROOT]]).
  { vm_compute in E. by injection E as <-. }
  split; [exact Hsg|]. rewrite Hsg. intros Hd.
  apply (Hd 0%nat 1%nat [PSEUDO_ROOT; 0%N; 1%N] [2%N; PSEUDO_ROOT] PSEUDO_ROOT);
    [done|done|done|left|right; left].
Qed.

(** * Further properties of the code *)

(** ** The data model (egraph_serialize.hpp) *)

Lemma om_keys_set {K V} `{EqDecision K} (k : K) (v : V) (m : omap K V) :
  om_keys (om_set k v m)
  = if decide (k ∈ om_keys m) then om_keys m else om_keys m ++ [k].
Proof.
  unfold om_keys. induction m as [|[k' v'] m IH]; [done|].
  cbn [om_set]. destruct (decide (k = k')) as [->|Hne]; cbn [map fst].
  - destruct (decide (k' ∈ k' :: map fst m)) as [_|H]; [done|].
    destruct H. left.
  - rewrite IH.
    destruct (decide (k ∈ map fst m)) as [Hin|Hnin];
      destruct (decide (k ∈ k' :: map fst m)) as [Hin'|Hnin']; try done.
    + destruct Hnin'. by right.
    + apply elem_of_cons in Hin' as [?|?]; done.
Qed.

Lemma om_set_keys_NoDup {K V} `{EqDecision K} (k : K) (v : V) (m : omap K V) :
  NoDup (om_keys m) -> NoDup (om_keys (om_set k v m)).
Proof.
  intros Hnd. rewrite om_keys_set. destruct (decide _) as [|Hnin]; [done|].
  apply NoDup_app. split; [done|]. split.
  - intros x Hx Hx'. apply list_elem_of_singleton in Hx' as ->. done.
  - apply NoDup_singleton.
Qed.

Lemma classes_add_find (cls : classes_map) nid node k :
  om_find k (classes_add cls (nid, node))
  = if decide (k = eclass node)
    then Some (mkClass (from_option class_id (eclass node)
                                    (om_find (eclass node) cls))
                       (from_option class_nodes [] (om_find (eclass node) cls)
                        ++ [nid]))
    else om_find k cls.
Proof.
  unfold classes_add.
  destruct (om_find (eclass node) cls) as [c0|] eqn:E.
  - rewrite E. simpl. destruct (decide (k = eclass node)) as [->|Hne].
    + by rewrite om_find_set_eq.
    + by rewrite om_find_set_ne.
  - rewrite om_find_set_eq. simpl. destruct (decide (k = eclass node)) as [->|Hne].
    + by rewrite om_find_set_eq.
    + by rewrite !om_find_set_ne.
Qed.

Lemma classes_add_keys_NoDup (cls : classes_map) e :
  NoDup (om_keys cls) -> NoDup (om_keys (classes_add cls e)).
Proof.
  intros Hnd. destruct e as [nid node]. unfold classes_add.
  destruct (om_find (eclass node) cls) as [c0|] eqn:E.
  - rewrite E. by apply om_set_keys_NoDup.
  - rewrite om_find_set_eq. by do 2 apply om_set_keys_NoDup.
Qed.

Lemma classes_fold_spec (l : list (NodeId * Node)) (acc : classes_map) c :
  (forall k cls, om_find k acc = Some cls -> class_id cls = k) ->
  om_find c (fold_left classes_add l acc)
  = match om_find c acc,
          map fst (filter (fun e => eclass (snd e) = c) l) with
    | None, [] => None
    | o, ids => Some (mkClass c (from_option class_nodes [] o ++ ids))
    end.
Proof.
  revert acc. induction l as [|[nid node] l IH]; intros acc Hacc.
  - simpl. destruct (om_find c acc) as [cls|] eqn:E; [|done].
    rewrite app_nil_r. f_equal. rewrite <- (Hacc _ _ E). by destruct cls.
  - cbn [fold_left]. rewrite IH.
    2:{ intros k cls. rewrite classes_add_find.
        destruct (decide (k = eclass node)) as [->|Hne]; [|apply Hacc].
        intros [= <-]. simpl.
        destruct (om_find (eclass node) acc) as [c0|] eqn:E; simpl; [|done].
        by apply Hacc. }
    rewrite classes_add_find. rewrite filter_cons. cbn [snd].
    destruct (decide (c = eclass node)) as [->|Hne].
    + destruct (decide (eclass node = eclass node)) as [_|]; [|done].
      cbn [map fst from_option class_nodes].
      destruct (om_find (eclass node) acc) as [c0|]; cbn [from_option].
      * by rewrite <- app_assoc.
      * done.
    + destruct (decide (eclass node = c)) as [|_]; [done|]. done.
Qed.

Lemma classes_fold_NoDup (l : list (NodeId * Node)) (acc : classes_map) :
  NoDup (om_keys acc) -> NoDup (om_keys (fold_left classes_add l acc)).
Proof.
  revert acc. induction l as [|e l IH]; intros acc Hacc; simpl; [done|].
  apply IH. by apply classes_add_keys_NoDup.
Qed.

Lemma classes_find (g : EGraph) (c : ClassId) :
  om_find c (classes g)
  = match members g c with
    | [] => None
    | ids => Some (mkClass c ids)
    end.
Proof. unfold classes, members. by rewrite classes_fold_spec. Qed.

Lemma add_node_get (g g' : EGraph) (node_id : NodeId) (node : Node) :
  add_node node_id node g = Ok g' -> egraph_get g' node_id = Ok node.
Proof.
  unfold add_node.
  generalize (default [] (om_find (fst node_id) (nodes g))). intros inner.
  destruct (om_find node_id inner) eqn:E; [done|]. intros [= <-].
  unfold egraph_get, nodes_get. cbn [nodes]. rewrite om_find_set_eq.
  cbn [of_option rbind]. rewrite om_find_app, E. cbn [om_find].
  by rewrite decide_True.
Qed.

(** X1.  Called on a graph whose cache is empty, [EGraph::classes] groups
    the node ids by the class each node declares -- class [c] is absent when
    no node declares it, and otherwise is recorded once, with id [c] and
    exactly the ids of the nodes that declare [c], in the order the node map
    is iterated -- and stores this table in the cache.  A later [add_node]
    leaves the cache as it is: [classes] goes on returning the stored
    table, although [operator[]] finds the added node. *)
Theorem classes_spec (g : EGraph) (c : ClassId) :
  let cls := fst (Cached.classes (mkObj g None)) in
  let e1 := snd (Cached.classes (mkObj g None)) in
  om_find c cls
  = match members g c with
    | [] => None
    | ids => Some (mkClass c ids)
    end /\
  NoDup (om_keys cls) /\
  e1 = mkObj g (Some cls) /\
  forall node_id node e2,
    Cached.add_node node_id node e1 = Ok e2 ->
    Cached.classes e2 = (cls, e2) /\
    egraph_get (obj_graph e2) node_id = Ok node.
Proof.
  cbn [Cached.classes classes_cache obj_graph fst snd].
  split; [apply classes_find|].
  split; [apply classes_fold_NoDup, NoDup_nil_2|].
  split; [done|].
  intros node_id node e2 H. unfold Cached.add_node in H.
  apply rbind_Ok in H as (g' & Hadd & [= <-]). cbn [obj_graph classes_cache].
  split; [done|]. by apply (add_node_get g).
Qed.

Lemma members_elem g c nid :
  nid ∈ members g c <->
  exists node, (nid, node) ∈ all_nodes (nodes g) /\ eclass node = c.
Proof.
  unfold members. rewrite list_elem_of_fmap. split.
  - intros ([nid' node] & -> & Hin). apply list_elem_of_filter in Hin as [Hc Hin].
    by exists node.
  - intros (node & Hin & Hc). exists (nid, node). split; [done|].
    by apply list_elem_of_filter.
Qed.

(** X2.  On a graph whose cache is empty, [EGraph::nid_to_class] cannot
    fail on an id that [operator[]] finds: it returns the class the node
    declares, whose member list holds the ids of all nodes declaring that
    class, the given id among them.  The call fills the cache; for a node
    added afterwards that declares a class no earlier node declared,
    [nid_to_class] finds no class -- it throws, with what is left of the
    literal after [eclass] characters as message, or its behaviour is
    undefined -- although [operator[]] finds the node. *)
Theorem nid_to_class_spec (g : EGraph) (node_id : NodeId) (node : Node) :
  egraph_get g node_id = Ok node ->
  fst (Cached.nid_to_class (mkObj g None) node_id)
  = Ok (mkClass (eclass node) (members g (eclass node))) /\
  node_id ∈ members g (eclass node) /\
  forall new_id new_node e2,
    members g (eclass new_node) = [] ->
    Cached.add_node new_id new_node
      (snd (Cached.nid_to_class (mkObj g None) node_id)) = Ok e2 ->
    egraph_get (obj_graph e2) new_id = Ok new_node /\
    fst (Cached.nid_to_class e2 new_id)
    = Throw (literal_plus NO_CLASS (eclass new_node)).
Proof.
  intros Hget.
  assert (Hin : node_id ∈ members g (eclass node)).
  { apply members_elem. exists node. split; [by apply egraph_get_elem|done]. }
  unfold Cached.nid_to_class at 1 2. cbn [obj_graph]. rewrite Hget.
  unfold Cached.egraph_class.
  cbn [Cached.classes classes_cache obj_graph fst snd].
  split; [|split; [done|]].
  - rewrite classes_find.
    destruct (members g (eclass node)); [by apply elem_of_nil in Hin|done].
  - intros new_id new_node e2 Hnone H. unfold Cached.add_node in H.
    apply rbind_Ok in H as (g' & Hadd & [= <-]). cbn [obj_graph classes_cache].
    apply add_node_get in Hadd. split; [done|].
    unfold Cached.nid_to_class. cbn [obj_graph]. rewrite Hadd.
    unfold Cached.egraph_class.
    cbn [Cached.classes classes_cache obj_graph fst snd].
    by rewrite classes_find, Hnone.
Qed.

Lemma nid_to_class_spec_witness :
  fst (Cached.nid_to_class (mkObj scenario_B None) (0%N, 1%N))
  = Ok (mkClass 0%N (members scenario_B 0%N)) /\
  (0%N, 1%N) ∈ members scenario_B 0%N /\
  forall new_id new_node e2,
    members scenario_B (eclass new_node) = [] ->
    Cached.add_node new_id new_node
      (snd (Cached.nid_to_class (mkObj scenario_B None) (0%N, 1%N))) = Ok e2 ->
    egraph_get (obj_graph e2) new_id = Ok new_node /\
    fst (Cached.nid_to_class e2 new_id)
    = Throw (literal_plus NO_CLASS (eclass new_node)).
Proof.
  apply (nid_to_class_spec scenario_B (0%N, 1%N) (leaf 0 5)). reflexivity.
Defined.


(** ** [ExtractionResult::node_sum_cost] *)

Lemma dadd_finite (a b : double) (q : Q) :
  dadd a b = DFin q -> (exists x, a = DFin x) /\ (exists y, b = DFin y).
Proof. destruct a, b; cbn [dadd]; try done. eauto. Qed.

Lemma node_sum_fold_finite (costs : gmap ClassId double) l acc s :
  fold_left (fun sum cid =>
               dadd sum (match costs !! cid with
                         | Some c => c
                         | None => DPInf
                         end)) l acc = DFin s ->
  (exists x, acc = DFin x) /\
  forall c, c ∈ l -> exists q, costs !! c = Some (DFin q).
Proof.
  revert acc. induction l as [|c l IH]; intros acc H; cbn [fold_left] in H.
  - split; [by exists s|]. intros c Hc. by apply elem_of_nil in Hc.
  - apply IH in H as [(x & Hx) Hall].
    apply dadd_finite in Hx as [Hacc (y & Hy)]. split; [done|].
    intros c' Hc'. apply elem_of_cons in Hc' as [->|Hc']; [|by apply Hall].
    destruct (costs !! c) as [v|]; [|done]. exists y. by rewrite Hy.
Qed.

Lemma dadd_nonneg (a b : double) :
  (a = DPInf \/ exists q, a = DFin q /\ (0 <= q)%Q) ->
  (b = DPInf \/ exists q, b = DFin q /\ (0 <= q)%Q) ->
  (dadd a b = DPInf \/ exists q, dadd a b = DFin q /\ (0 <= q)%Q) /\
  (a = DPInf \/ b = DPInf -> dadd a b = DPInf).
Proof.
  intros [->|(x & -> & Hx)] [->|(y & -> & Hy)]; cbn [dadd];
    try (split; [by left|done]).
  split; [|by intros [?|?]].
  apply of_Q_nonneg. lra.
Qed.

Lemma node_sum_fold_nonneg (costs : gmap ClassId double) l acc :
  (forall c v, costs !! c = Some v ->
     v = DPInf \/ exists q, v = DFin q /\ (0 <= q)%Q) ->
  (acc = DPInf \/ exists q, acc = DFin q /\ (0 <= q)%Q) ->
  let r := fold_left (fun sum cid =>
                        dadd sum (match costs !! cid with
                                  | Some c => c
                                  | None => DPInf
                                  end)) l acc in
  (r = DPInf \/ exists q, r = DFin q /\ (0 <= q)%Q) /\
  (acc = DPInf \/
   (exists c, c ∈ l /\ (costs !! c = None \/ costs !! c = Some DPInf)) ->
   r = DPInf).
Proof.
  intros Hcosts. revert acc. induction l as [|c l IH]; intros acc Hacc;
    cbn [fold_left].
  - split; [done|]. intros [?|(c & Hc & _)]; [done|].
    by apply elem_of_nil in Hc.
  - assert (Hv : match costs !! c with Some v => v | None => DPInf end = DPInf
                 \/ exists q, match costs !! c with Some v => v | None => DPInf end
                              = DFin q /\ (0 <= q)%Q).
    { destruct (costs !! c) as [v|] eqn:E; [by apply (Hcosts c)|by left]. }
    destruct (dadd_nonneg _ _ Hacc Hv) as [Hg Hinf].
    destruct (IH _ Hg) as [Hr Hrinf]. split; [done|].
    intros [Ha|(c' & Hc' & Hm)].
    + apply Hrinf. left. apply Hinf. by left.
    + apply elem_of_cons in Hc' as [->|Hc'].
      * apply Hrinf. left. apply Hinf. right.
        destruct Hm as [-> | ->]; done.
      * apply Hrinf. right. by exists c'.
Qed.

(** X4.  [node_sum_cost] adds the recorded costs of the children to the
    node's own cost, a missing child counting as [+infinity].  A finite
    result means that every child has a finite entry.  With a non-negative
    node cost and entries that are non-negative or [+infinity], the result
    is [+infinity] as soon as a child is missing or recorded as
    [+infinity].  The converse fails: the sum of finite entries can
    overflow to [+infinity] with every child present. *)
Theorem node_sum_cost_spec :
  (forall node costs s,
     node_sum_cost node costs = DFin s ->
     forall c, c ∈ children node -> exists q, costs !! c = Some (DFin q)) /\
  (forall node costs,
     (0 <= cost node)%Q ->
     (forall c v, costs !! c = Some v ->
        v = DPInf \/ exists q, v = DFin q /\ (0 <= q)%Q) ->
     (exists c, c ∈ children node /\
                (costs !! c = None \/ costs !! c = Some DPInf)) ->
     node_sum_cost node costs = DPInf) /\
  (exists node costs,
     (forall c, c ∈ children node -> exists q, costs !! c = Some (DFin q)) /\
     node_sum_cost node costs = DPInf).
Proof.
  split; [|split].
  - intros node costs s H. unfold node_sum_cost in H.
    by apply node_sum_fold_finite in H as [_ H].
  - intros node costs Hn Hcosts Hmiss. unfold node_sum_cost.
    apply (node_sum_fold_nonneg costs (children node) (DFin (cost node)) Hcosts).
    + right. by exists (cost node).
    + by right.
  - exists huge_node, huge_costs. split.
    + intros c Hc. apply list_elem_of_singleton in Hc as ->.
      exists (2 ^ 1023)%Q. reflexivity.
    + vm_compute. reflexivity.
Qed.

(** ** The result object (extractor.hpp) *)

Section ResultFacts.
Context (g : EGraph) (choices : choice_map).

Local Abbreviation edge := (child_edge g choices).

(** *** [dag_cost] on arbitrary tables *)

Lemma dag_loop_fuel fuel todo costs :
  (length todo + pending_kids g choices (fun k => k ∈ om_keys costs) < fuel)%nat ->
  dag_cost_loop fuel g choices todo costs <> NoFuel.
Proof.
  revert todo costs. induction fuel as [|fuel IH]; intros todo costs Hlt; [lia|].
  cbn [dag_cost_loop]. destruct todo as [|c todo]; [done|].
  simpl in Hlt.
  destruct (chosen_node g choices c) as [node|e|] eqn:Hnode; cbn [rbind].
  - destruct (om_find c costs) as [v|] eqn:Hc.
    + apply IH. lia.
    + apply IH.
      apply chosen_node_inv in Hnode as Hn. destruct Hn as (n & Hn & _).
      assert (Hpk : (pending_kids g choices
                       (fun k => k ∈ om_keys (om_insert c (cost node) costs))
                     + nkids g choices c
                     <= pending_kids g choices (fun k => k ∈ om_keys costs))%nat).
      { apply (pending_kids_step g choices _ _ c n); [| |done].
        - by apply om_find_None_notin.
        - intros k. rewrite om_keys_insert_new by done.
          unfold om_keys. rewrite map_app, elem_of_app. simpl.
          rewrite list_elem_of_singleton. tauto. }
      unfold nkids in Hpk. rewrite Hnode in Hpk.
      rewrite length_app, length_rev. lia.
  - done.
  - unfold chosen_node, egraph_get, nodes_get in Hnode.
    destruct (om_find c choices) as [n|]; simpl in Hnode; [|done].
    destruct (om_find (fst n) (nodes g)) as [inner|]; simpl in Hnode; [|done].
    by destruct (om_find n inner).
Qed.

Lemma dag_gen_step_seen roots c todo costs :
  dag_inv_gen g choices roots (c :: todo) costs ->
  is_Some (om_find c costs) ->
  dag_inv_gen g choices roots todo costs.
Proof.
  intros (Ht & Htodo & Hcosts & Hroots) Hc. apply om_find_is_Some in Hc.
  split; [done|]. split; [|split].
  - intros k Hk. apply Htodo. by right.
  - intros k Hk. destruct (Hcosts k Hk) as (Hr & Hch & Hkids).
    split; [done|]. split; [done|].
    intros k' Hk'. destruct (Hkids k' Hk') as [?|Hin]; [by left|].
    apply elem_of_cons in Hin as [->|Hin]; [by left|by right].
  - intros r Hr. destruct (Hroots r Hr) as [?|Hin]; [by left|].
    apply elem_of_cons in Hin as [->|Hin]; [by left|by right].
Qed.

Lemma dag_gen_step_new roots c node todo costs :
  dag_inv_gen g choices roots (c :: todo) costs ->
  chosen_node g choices c = Ok node ->
  om_find c costs = None ->
  dag_inv_gen g choices roots (rev (children node) ++ todo)
              (om_insert c (cost node) costs).
Proof.
  intros ((Hnd & Hval) & Htodo & Hcosts & Hroots) Hnode Hc.
  rewrite om_keys_insert_new by done.
  assert (Hkeys : forall k, k ∈ om_keys (costs ++ [(c, cost node)]) <->
                            k ∈ om_keys costs \/ k = c).
  { intros k. unfold om_keys. rewrite map_app, elem_of_app. simpl.
    by rewrite list_elem_of_singleton. }
  assert (Hreach : reachable g choices roots c) by (apply Htodo; left).
  split; [split|split; [|split]].
  - unfold om_keys. rewrite map_app. apply NoDup_app. split; [done|]. split.
    + intros x Hx Hx'. apply list_elem_of_singleton in Hx'. simpl in Hx'. subst x.
      by apply om_find_None_notin in Hc.
    + apply NoDup_singleton.
  - intros k v Hin. apply elem_of_app in Hin as [Hin|Hin]; [by apply Hval|].
    apply list_elem_of_singleton in Hin as [= -> ->].
    unfold costc. by rewrite Hnode.
  - intros k Hk. apply elem_of_app in Hk as [Hk|Hk].
    + apply (proj1 (elem_of_rev _ _)) in Hk.
      assert (He : edge c k) by (by exists node).
      destruct Hreach as (r & Hr & Hrc). exists r. split; [done|].
      by eapply rtc_r.
    + apply Htodo. by right.
  - intros k Hk. apply Hkeys in Hk as [Hk| ->].
    + destruct (Hcosts k Hk) as (Hr & Hch & Hkids).
      split; [done|]. split; [done|].
      intros k' Hk'. destruct (Hkids k' Hk') as [?|Hin].
      * left. apply Hkeys. by left.
      * apply elem_of_cons in Hin as [->|Hin].
        -- left. apply Hkeys. by right.
        -- right. apply elem_of_app. by right.
    + split; [done|]. split; [by exists node|].
      intros k' (node' & Hn' & Hk').
      rewrite Hnode in Hn'. injection Hn' as <-.
      right. apply elem_of_app. left. by apply elem_of_rev.
  - intros r Hr. destruct (Hroots r Hr) as [?|Hin].
    + left. apply Hkeys. by left.
    + apply elem_of_cons in Hin as [->|Hin].
      * left. apply Hkeys. by right.
      * right. apply elem_of_app. by right.
Qed.


Lemma dag_gen_loop roots fuel todo costs :
  dag_inv_gen g choices roots todo costs ->
  match dag_cost_loop fuel g choices todo costs with
  | Ok tbl => dag_inv_gen g choices roots [] tbl
  | Throw e => exists c, reachable g choices roots c /\
                         chosen_node g choices c = Throw e
  | NoFuel => True
  end.
Proof.
  revert todo costs. induction fuel as [|fuel IH]; intros todo costs Hinv;
    [done|].
  cbn [dag_cost_loop]. destruct todo as [|c todo]; [done|].
  destruct (chosen_node g choices c) as [node|e|] eqn:Hnode; cbn [rbind].
  - destruct (om_find c costs) as [v|] eqn:Hc.
    + apply IH. eapply dag_gen_step_seen; [done|by rewrite Hc].
    + apply IH. by apply dag_gen_step_new.
  - exists c. split; [|done]. destruct Hinv as (_ & Htodo & _).
    apply Htodo. left.
  - done.
Qed.

Lemma dag_gen_init roots : dag_inv_gen g choices roots (rev roots) [].
Proof.
  split; [split; [apply NoDup_nil_2|]|split; [|split]].
  - intros c v Hin. by apply elem_of_nil in Hin.
  - intros c Hc. apply (proj1 (elem_of_rev _ _)) in Hc. by exists c.
  - intros c Hc. by apply elem_of_nil in Hc.
  - intros r Hr. right. by apply elem_of_rev.
Qed.

Lemma dag_loop_bound roots fuel :
  (length roots + pending_kids g choices (fun _ => False) < fuel)%nat ->
  dag_cost_loop fuel g choices (rev roots) [] <> NoFuel.
Proof.
  intros Hfuel. apply dag_loop_fuel. rewrite length_rev.
  match goal with |- (_ + ?p < _)%nat =>
    assert (p = pending_kids g choices (fun _ => False)) as -> by reflexivity
  end. lia.
Qed.
End ResultFacts.


(** *** [tree_cost] *)

Section TreeFacts.
Context (g : EGraph) (choices : choice_map).

Local Abbreviation edge' := (child_edge g choices).

Lemma unfolding_all_safe l ls :
  unfolding g choices l ls -> forall c, c ∈ l -> safe g choices c.
Proof.
  induction 1 as [|c node l ks ls Hn Hk IHk Hl IHl]; intros x Hx.
  - by apply elem_of_nil in Hx.
  - apply elem_of_cons in Hx as [->|Hx]; [|by apply IHl].
    by apply (safe_intro g choices c node).
Qed.

Lemma tree_cost_rec_throw fuel roots memo e :
  tree_cost_rec fuel g choices roots memo = Throw e ->
  exists r x, r ∈ roots /\ rtc edge' r x /\ chosen_node g choices x = Throw e.
Proof.
  revert roots memo. induction fuel as [|fuel IH]; intros roots memo; [done|].
  cbn [tree_cost_rec]. intros H.
  apply for_each_Throw in H as (a & [acc m] & Ha & H).
  exists a. unfold tree_step in H.
  destruct (om_find a choices) as [root_node|] eqn:Hch; cbn [of_option rbind] in H.
  - destruct (m !! root_node) as [v|]; [done|].
    destruct (egraph_get g root_node) as [node|e'|] eqn:Hget; cbn [rbind] in H.
    + destruct (tree_cost_rec fuel g choices (children node) m)
        as [[sub m']|e'|] eqn:Hrec; cbn [rbind] in H; [done| |done].
      injection H as ->. apply IH in Hrec as (k & x & Hk & Hkx & Hx).
      exists x. split; [done|]. split; [|done].
      eapply rtc_l; [|done]. exists node. split; [|done].
      unfold chosen_node. by rewrite Hch.
    + injection H as ->. exists a. split; [done|]. split; [done|].
      unfold chosen_node. by rewrite Hch.
    + done.
  - injection H as <-. exists a. split; [done|]. split; [done|].
    unfold chosen_node. by rewrite Hch.
Qed.

Lemma tree_cost_ok_safe fuel roots t :
  tree_cost fuel g choices roots = Ok t ->
  (forall r, r ∈ roots -> safe g choices r) /\
  exists ls, unfolding g choices roots ls /\ (t == sumc g choices ls)%Q.
Proof.
  intros H. unfold tree_cost in H.
  apply rbind_Ok in H as ([c memo] & Hrec & [= <-]).
  apply tree_cost_rec_ok in Hrec as [_ (ls & Hls & Hc)].
  - split; [by eapply unfolding_all_safe|]. by exists ls.
  - intros n v Hn. by rewrite lookup_empty in Hn.
Qed.
End TreeFacts.


(** X7.  On a table with a cycle among the classes reachable from the roots,
    all of which have a chosen node, [tree_cost] recurses without end (no
    amount of fuel lets it return or throw), whereas [dag_cost] returns. *)
Theorem tree_cost_diverges_on_cycle (g : EGraph) (choices : choice_map)
    (roots : list ClassId) :
  all_chosen g choices roots ->
  (exists c, reachable g choices roots c /\ tc (child_edge g choices) c c) ->
  (forall fuel, tree_cost fuel g choices roots = NoFuel) /\
  exists N, forall fuel, (N <= fuel)%nat ->
    exists d, dag_cost fuel g choices roots = Ok d.
Proof.
  intros Hall (c & (r & Hr & Hrc) & Hcyc). split.
  - intros fuel.
    destruct (tree_cost fuel g choices roots) as [t|e|] eqn:E; [| |done].
    + apply tree_cost_ok_safe in E as [Hsafe _].
      destruct (safe_acyclic g choices r (Hsafe r Hr) c Hrc Hcyc).
    + unfold tree_cost in E.
      destruct (tree_cost_rec fuel g choices roots ∅) as [[t m]|e'|] eqn:Hrec;
        cbn [rbind] in E; [done| |done].
      injection E as ->.
      apply tree_cost_rec_throw in Hrec as (r' & x & Hr' & Hx & Hthrow).
      destruct (Hall x) as [node Hnode]; [by exists r'|]. congruence.
  - exists (S (length roots + pending_kids g choices (fun _ => False))).
    intros fuel Hfuel.
    pose proof (dag_loop_bound g choices roots fuel) as Hnf.
    pose proof (dag_gen_loop g choices roots fuel _ _
                  (dag_gen_init g choices roots)) as Hloop.
    unfold dag_cost.
    destruct (dag_cost_loop fuel g choices (rev roots) []) as [tbl|e|];
      cbn [rbind].
    + by eexists.
    + destruct Hloop as (x & Hx & Hthrow).
      destruct (Hall x Hx) as [node Hnode]. congruence.
    + destruct Hnf; [lia|done].
Qed.

Lemma all_chosen_scenario_C :
  all_chosen scenario_C [(0%N, (0%N, 0%N)); (1%N, (1%N, 0%N))] [0%N].
Proof.
  assert (Hclosed : forall a b,
            rtc (child_edge scenario_C [(0%N, (0%N, 0%N)); (1%N, (1%N, 0%N))]) a b ->
            a = 0%N \/ a = 1%N -> b = 0%N \/ b = 1%N).
  { induction 1 as [|a b c' Hab Hbc IH]; [done|]. intros Ha. apply IH.
    destruct Hab as (node & Hn & Hk).
    destruct Ha as [->| ->]; vm_compute in Hn; injection Hn as <-;
      apply list_elem_of_singleton in Hk as ->; tauto. }
  intros c (r & Hr & Hrc). apply list_elem_of_singleton in Hr as ->.
  destruct (Hclosed _ _ Hrc) as [->| ->]; [by left| |]; by eexists.
Qed.

Lemma tree_cost_diverges_on_cycle_witness :
  (forall fuel,
     tree_cost fuel scenario_C [(0%N, (0%N, 0%N)); (1%N, (1%N, 0%N))] [0%N]
     = NoFuel) /\
  exists N, forall fuel, (N <= fuel)%nat ->
    exists d, dag_cost fuel scenario_C [(0%N, (0%N, 0%N)); (1%N, (1%N, 0%N))]
                       [0%N] = Ok d.
Proof.
  apply (tree_cost_diverges_on_cycle scenario_C
           [(0%N, (0%N, 0%N)); (1%N, (1%N, 0%N))] [0%N] all_chosen_scenario_C).
  exists 0%N. split.
  - exists 0%N. split; [left|apply rtc_refl].
  - apply (tc_l _ _ 1%N).
    + exists (mkNode 0 [1%N] 0 1). split; [reflexivity|left].
    + apply tc_once. exists (mkNode 0 [0%N] 1 1). split; [reflexivity|left].
Defined.

(** *** [find_cycles] *)

(** X8.  With more fuel than the table has entries [find_cycles] terminates.
    When it returns, every class it reports lies on a cycle of chosen
    children and is reachable from the roots, and the list is empty exactly
    when no reachable class lies on such a cycle.  When it throws, the
    exception is that of fetching the chosen node of some reachable class. *)
Theorem find_cycles_correct (fuel : nat) (g : EGraph) (choices : choice_map)
    (roots : list ClassId) :
  (length choices < fuel)%nat ->
  find_cycles fuel g choices roots <> NoFuel /\
  (forall cycles, find_cycles fuel g choices roots = Ok cycles ->
     (forall x, x ∈ cycles ->
        tc (child_edge g choices) x x /\ reachable g choices roots x) /\
     (cycles = [] <->
      ~ exists c, reachable g choices roots c /\ tc (child_edge g choices) c c)) /\
  (forall e, find_cycles fuel g choices roots = Throw e ->
     exists x, reachable g choices roots x /\ chosen_node g choices x = Throw e).
Proof.
  intros Hfuel.
  destruct (find_cycles_spec g choices fuel roots Hfuel)
    as [(cycles & Hfc & Hcyc & Hnil)|(e & x & Hfc & Hx & Hthrow)].
  - rewrite Hfc. split; [done|]. split; [|done].
    intros cycles' [= <-]. split; [done|]. split.
    + intros Hempty (c & (r & Hr & Hrc) & Hcc).
      destruct (safe_acyclic g choices r (Hnil Hempty r Hr) c Hrc Hcc).
    + intros Hno. destruct cycles as [|x l]; [done|].
      destruct Hno. exists x. destruct (Hcyc x) as [Hxx Hrx]; [left|]. done.
  - rewrite Hfc. split; [done|]. split; [done|].
    intros e' [= <-]. by exists x.
Qed.

Lemma find_cycles_correct_witness :
  find_cycles 3 scenario_C [(0%N, (0%N, 0%N)); (1%N, (1%N, 0%N))] [0%N]
  = Ok [0%N] /\
  tc (child_edge scenario_C [(0%N, (0%N, 0%N)); (1%N, (1%N, 0%N))]) 0%N 0%N.
Proof.
  split; [reflexivity|].
  refine (proj1 (proj1 (proj1 (proj2
            (find_cycles_correct 3 scenario_C
               [(0%N, (0%N, 0%N)); (1%N, (1%N, 0%N))] [0%N] _))
            [0%N] _) 0%N _)).
  - simpl. lia.
  - reflexivity.
  - left.
Defined.

(** ** The greedy extractor (faster_greedy_dag.hpp) *)

(** *** [UniqueQueue] *)

Lemma uq_insert_wf t q : uq_wf q -> uq_wf (uq_insert t q).
Proof.
  intros [Hnd Hset]. unfold uq_insert.
  destruct (decide (t ∈ uq_set q)) as [Hin|Hnin]; [done|].
  split; simpl.
  - apply NoDup_app. split; [done|]. split; [|apply NoDup_singleton].
    intros x Hx Hx'. apply list_elem_of_singleton in Hx' as ->.
    by apply Hnin, Hset.
  - intros x. rewrite elem_of_union, elem_of_singleton, elem_of_app,
      list_elem_of_singleton, Hset. tauto.
Qed.

Lemma uq_insert_elem t q x :
  uq_wf q -> (x ∈ uq_queue (uq_insert t q) <-> x = t \/ x ∈ uq_queue q).
Proof.
  intros [Hnd Hset]. unfold uq_insert.
  destruct (decide (t ∈ uq_set q)) as [Hin|Hnin]; simpl.
  - split; [by right|]. intros [->|?]; [by apply Hset|done].
  - rewrite elem_of_app, list_elem_of_singleton. tauto.
Qed.

Lemma uq_extend_wf ts q :
  uq_wf q ->
  uq_wf (uq_extend ts q) /\
  forall x, x ∈ uq_queue (uq_extend ts q) <-> x ∈ ts \/ x ∈ uq_queue q.
Proof.
  unfold uq_extend. revert q. induction ts as [|t ts IH]; intros q Hq; simpl.
  - split; [done|]. intros x. rewrite elem_of_nil. tauto.
  - destruct (IH (uq_insert t q) (uq_insert_wf t q Hq)) as [Hwf Hel].
    split; [done|]. intros x. rewrite Hel, uq_insert_elem, elem_of_cons by done.
    tauto.
Qed.

Lemma uq_pop_wf q x q' :
  uq_wf q -> uq_pop q = Some (x, q') ->
  uq_wf q' /\ uq_queue q = x :: uq_queue q' /\ x ∉ uq_queue q'.
Proof.
  intros [Hnd Hset]. unfold uq_pop.
  destruct (uq_queue q) as [|front rest] eqn:E; [done|].
  intros [= <- <-]. simpl. apply NoDup_cons in Hnd as [Hnin Hnd].
  split; [|done]. split; [done|]. simpl.
  intros y. rewrite elem_of_difference, elem_of_singleton, Hset, elem_of_cons.
  split; [tauto|]. intros Hy. split; [by right|]. by intros ->.
Qed.

(** X9.  [UniqueQueue] never holds an element twice and its set always
    mirrors the queue: the empty queue has the property and [insert],
    [extend] and [pop] keep it.  [insert] of a queued element changes
    nothing, a new element goes to the back; [pop] takes the front element,
    which is then no longer queued and may be inserted again. *)
Theorem unique_queue_invariant :
  uq_wf uq_empty /\
  (forall t q, uq_wf q ->
     uq_wf (uq_insert t q) /\
     (t ∈ uq_queue q -> uq_insert t q = q) /\
     (t ∉ uq_queue q -> uq_queue (uq_insert t q) = uq_queue q ++ [t])) /\
  (forall ts q, uq_wf q ->
     uq_wf (uq_extend ts q) /\
     forall x, x ∈ uq_queue (uq_extend ts q) <-> x ∈ ts \/ x ∈ uq_queue q) /\
  (forall q, uq_pop q = None <-> uq_queue q = []) /\
  (forall q x q', uq_wf q -> uq_pop q = Some (x, q') ->
     uq_wf q' /\ uq_queue q = x :: uq_queue q' /\ x ∉ uq_queue q').
Proof.
  split; [|split; [|split; [|split]]].
  - split; [apply NoDup_nil_2|]. intros x. simpl.
    rewrite elem_of_nil. set_solver.
  - intros t q Hq. split; [by apply uq_insert_wf|].
    destruct Hq as [_ Hset]. unfold uq_insert. split; intros Ht.
    + rewrite decide_True; [done|]. by apply Hset.
    + rewrite decide_False; [done|]. intros H. by apply Ht, Hset.
  - apply uq_extend_wf.
  - intros q. unfold uq_pop. by destruct (uq_queue q).
  - apply uq_pop_wf.
Qed.

(** *** [std::sort] and [std::unique] keep the elements *)

Lemma sorted_insert_elem x l y : y ∈ sorted_insert x l <-> y = x \/ y ∈ l.
Proof.
  induction l as [|z l IH]; simpl.
  - rewrite list_elem_of_singleton, elem_of_nil. tauto.
  - destruct (x <=? z)%N.
    + by rewrite elem_of_cons.
    + rewrite !elem_of_cons, IH. tauto.
Qed.

Lemma sort_ids_elem l y : y ∈ sort_ids l <-> y ∈ l.
Proof.
  unfold sort_ids. induction l as [|x l IH]; simpl; [done|].
  rewrite sorted_insert_elem, elem_of_cons, IH. tauto.
Qed.

Lemma unique_adjacent_elem l y : y ∈ unique_adjacent l <-> y ∈ l.
Proof.
  induction l as [|x l IH]; [done|].
  cbn [unique_adjacent]. destruct l as [|z l'].
  - done.
  - destruct (decide (x = z)) as [->|Hne].
    + rewrite IH, !elem_of_cons. tauto.
    + rewrite elem_of_cons, IH, !elem_of_cons. tauto.
Qed.

Lemma sort_unique_elem l y : y ∈ sort_unique l <-> y ∈ l.
Proof. unfold sort_unique. by rewrite unique_adjacent_elem, sort_ids_elem. Qed.

(** *** What a finite total says about the node *)

Lemma calculate_cost_set_finite g node_id costs best cs node t :
  calculate_cost_set g node_id costs best = Ok cs ->
  egraph_get g node_id = Ok node ->
  cs_total cs = Fin t ->
  (eclass node ∉ children node) /\ (children node = [] -> t = cost node).
Proof.
  intros H Hnode Ht. unfold calculate_cost_set, nid_to_cid in H.
  rewrite Hnode in H. cbn [rbind] in H.
  destruct (children node) as [|k0 kids] eqn:Hch.
  { injection H as <-. simpl in Ht. injection Ht as <-.
    split; [apply not_elem_of_nil|done]. }
  destruct (sort_unique (k0 :: kids)) as [|first cc] eqn:Hsu;
    [injection H as <-; done|].
  destruct (costs !! first) as [first_cost|]; [|injection H as <-; done].
  destruct (bool_decide (eclass node ∈ first :: cc)) eqn:Hcon;
    [injection H as <-; done|].
  split; [|done].
  apply bool_decide_eq_false in Hcon. intros Hin. apply Hcon.
  rewrite <- Hsu. by apply sort_unique_elem.
Qed.

(** *** Loop invariants *)

Lemma extract_loop_inv (I : UniqueQueue * cost_sets -> Prop) fuel g parents
    st costs :
  (forall q c front q1 q' c',
     I (q, c) -> uq_pop q = Some (front, q1) ->
     extract_step g parents front (q1, c) = Ok (q', c') -> I (q', c')) ->
  I st -> extract_loop fuel g parents st = Ok costs ->
  exists q, I (q, costs) /\ uq_queue q = [].
Proof.
  intros Hstep. revert st. induction fuel as [|fuel IH]; intros [q c] Hst H;
    [done|].
  rewrite extract_loop_S in H. cbn [fst snd] in H.
  destruct (uq_pop q) as [[front q1]|] eqn:Hpop.
  - apply rbind_Ok in H as ([q' c'] & Hs & H).
    apply (IH (q', c')); [|done]. by eapply Hstep.
  - injection H as <-. exists q. split; [done|].
    unfold uq_pop in Hpop. by destruct (uq_queue q).
Qed.

Lemma extract_step_choice_inv g parents node_id q costs q' costs' :
  choice_inv g costs ->
  extract_step g parents node_id (q, costs) = Ok (q', costs') ->
  choice_inv g costs'.
Proof.
  intros Hinv H. unfold extract_step in H.
  apply rbind_Ok in H as (class_id & Hcid & H).
  apply rbind_Ok in H as (node & Hnode & H).
  unfold nid_to_cid in Hcid. rewrite Hnode in Hcid. injection Hcid as <-.
  destruct (forallb _ _) eqn:Hall; [|by injection H as <- <-].
  apply rbind_Ok in H as (cost_set & Hcs & H).
  destruct (ecost_ltb _ _) eqn:Hlt; [|by injection H as <- <-].
  injection H as <- <-.
  apply ecost_ltb_Fin in Hlt as [t Ht].
  destruct (calculate_cost_set_finite _ _ _ _ _ _ _ Hcs Hnode Ht) as [Hself Hleaf].
  assert (Hkeep : forall k, is_Some (costs !! k) ->
                            is_Some (<[eclass node := cost_set]> costs !! k)).
  { intros k Hk. destruct (decide (k = eclass node)) as [->|Hne].
    - rewrite lookup_insert_eq. by eexists.
    - by rewrite lookup_insert_ne. }
  intros c cs. destruct (decide (c = eclass node)) as [->|Hne].
  - rewrite lookup_insert_eq. intros [= <-]. exists node.
    rewrite (calculate_cost_set_choice _ _ _ _ _ Hcs).
    split; [done|]. split; [done|]. split; [|split; [done|]].
    + intros k Hk. apply Hkeep.
      rewrite forallb_forall in Hall.
      pose proof (Hall k (proj1 (list_elem_of_In _ _) Hk)) as Hb.
      by apply bool_decide_eq_true in Hb.
    + intros Hnil. rewrite Ht. f_equal. by apply Hleaf.
  - rewrite lookup_insert_ne by done. intros Hc.
    destruct (Hinv c cs Hc) as (n & Hn & He & Hkids & Hrest).
    exists n. split; [done|]. split; [done|]. split; [|done].
    intros k Hk. by apply Hkeep, Hkids.
Qed.

Lemma extract_costs_choice_inv fuel g costs :
  extract_costs fuel g = Ok costs -> choice_inv g costs.
Proof.
  unfold extract_costs. intros H.
  apply rbind_Ok in H as ([parents q0] & _ & H).
  apply (extract_loop_inv (fun st => choice_inv g (snd st))) in H
    as (q & Hq & _); [done| |].
  - intros q c front q1 q' c' Hc _ Hs. simpl in *.
    by eapply extract_step_choice_inv.
  - intros c cs Hc. simpl in Hc. by rewrite lookup_empty in Hc.
Qed.

Lemma extract_table_inv fuel g roots r :
  extract fuel g roots = Ok r ->
  forall c n, (c, n) ∈ r ->
    exists node,
      egraph_get g n = Ok node /\ eclass node = c /\
      (forall k, k ∈ children node -> is_Some (om_find k r)) /\
      c ∉ children node.
Proof.
  unfold extract. intros H. apply rbind_Ok in H as (costs & Hcosts & [= <-]).
  pose proof (extract_costs_choice_inv _ _ _ Hcosts) as Hinv.
  intros c n Hin. apply choices_of_elem in Hin as (cs & Hcs & ->).
  destruct (Hinv c cs Hcs) as (node & Hnode & He & Hkids & Hself & _).
  exists node. split; [done|]. split; [done|]. split; [|done].
  intros k Hk. rewrite om_find_choices_of.
  destruct (Hkids k Hk) as [cs' ->]. by eexists.
Qed.

(** X10.  The table [extract] returns is closed under the children of the
    chosen nodes: the chosen node of every entry is in the graph and each of
    its children has an entry.  Hence, from any roots that have entries,
    every class reachable through chosen nodes has a chosen node: the
    dependency sweep of [check] and the look-ups of [dag_cost] cannot fail
    on it. *)
Theorem extract_closed_under_children (fuel : nat) (g : EGraph)
    (roots : list ClassId) (r : choice_map) :
  extract fuel g roots = Ok r ->
  (forall c n, (c, n) ∈ r ->
     exists node, egraph_get g n = Ok node /\
                  forall k, k ∈ children node -> is_Some (om_find k r)) /\
  (forall rs, (forall x, x ∈ rs -> is_Some (om_find x r)) ->
              all_chosen g r rs).
Proof.
  intros H. pose proof (extract_table_inv _ _ _ _ H) as Hinv. split.
  - intros c n Hin. destruct (Hinv c n Hin) as (node & Hn & _ & Hk & _).
    by exists node.
  - intros rs Hrs c (r0 & Hr0 & Hrc).
    assert (Hc : is_Some (om_find c r)).
    { specialize (Hrs r0 Hr0). clear Hr0.
      induction Hrc as [|a b c' Hab Hbc IH]; [done|]. apply IH.
      destruct Hab as (node & Hch & Hb).
      apply chosen_node_inv in Hch as (n & Hfind & Hget).
      apply om_find_Some_elem in Hfind.
      destruct (Hinv a n Hfind) as (node' & Hget' & _ & Hkids & _).
      rewrite Hget in Hget'. injection Hget' as <-. by apply Hkids. }
    destruct Hc as [n Hn]. pose proof (om_find_Some_elem _ _ _ Hn) as Hin.
    destruct (Hinv c n Hin) as (node & Hget & _).
    exists node. unfold chosen_node. by rewrite Hn.
Qed.

Lemma extract_closed_under_children_witness :
  all_chosen scenario_B [(1%N, (1%N, 0%N)); (0%N, (0%N, 0%N))] [0%N].
Proof.
  refine (proj2 (extract_closed_under_children 10 scenario_B [0%N]
                   [(1%N, (1%N, 0%N)); (0%N, (0%N, 0%N))] _) [0%N] _).
  - vm_compute. reflexivity.
  - intros x Hx. apply list_elem_of_singleton in Hx as ->. by eexists.
Defined.

(** X11.  [extract] never selects a node that has its own class among its
    children. *)
Theorem extract_no_self_reference (fuel : nat) (g : EGraph)
    (roots : list ClassId) (r : choice_map) :
  extract fuel g roots = Ok r ->
  forall c n node, (c, n) ∈ r -> egraph_get g n = Ok node ->
                   c ∉ children node.
Proof.
  intros H c n node Hin Hget.
  destruct (extract_table_inv _ _ _ _ H c n Hin) as (node' & Hget' & _ & _ & Hself).
  rewrite Hget in Hget'. by injection Hget' as <-.
Qed.

Lemma extract_no_self_reference_witness :
  extract 10 scenario_B [0%N] = Ok [(1%N, (1%N, 0%N)); (0%N, (0%N, 0%N))] /\
  forall c n node,
    (c, n) ∈ [(1%N, (1%N, 0%N)); (0%N, (0%N, 0%N))] ->
    egraph_get scenario_B n = Ok node -> c ∉ children node.
Proof.
  assert (H : extract 10 scenario_B [0%N]
              = Ok [(1%N, (1%N, 0%N)); (0%N, (0%N, 0%N))])
    by (vm_compute; reflexivity).
  split; [exact H|].
  exact (extract_no_self_reference 10 scenario_B [0%N] _ H).
Defined.

(** *** Leaves *)

Lemma for_each_elem {A S} (Inv P : S -> Prop) (f : A -> S -> res S) l s s' a :
  for_each f l s = Ok s' -> a ∈ l -> Inv s ->
  (forall x t t', x ∈ l -> Inv t -> f x t = Ok t' -> Inv t') ->
  (forall t t', Inv t -> f a t = Ok t' -> P t') ->
  (forall x t t', x ∈ l -> Inv t -> P t -> f x t = Ok t' -> P t') ->
  Inv s' /\ P s'.
Proof.
  revert s. induction l as [|x l IH]; intros s H Ha Hs Hinv Ha' HP.
  - by apply elem_of_nil in Ha.
  - rewrite for_each_cons in H. apply rbind_Ok in H as (t & Hx & H).
    assert (Ht : Inv t) by (eapply Hinv; [left|done|done]).
    apply elem_of_cons in Ha as [->|Ha].
    + apply (for_each_inv (fun v => Inv v /\ P v) f l t s'); [| |done].
      * intros y v v' Hy [Hv Hpv] Hf. split.
        -- eapply Hinv; [by right|done|done].
        -- eapply HP; [by right|done|done|done].
      * split; [done|]. exact (Ha' s t Hs Hx).
    + apply (IH t); try done.
      * intros y v v' Hy. apply Hinv. by right.
      * intros y v v' Hy. apply HP. by right.
Qed.

Lemma uq_insert_mono t q x : x ∈ uq_queue q -> x ∈ uq_queue (uq_insert t q).
Proof.
  intros Hx. unfold uq_insert. destruct (decide _); [done|]. simpl.
  apply elem_of_app. by left.
Qed.

Lemma uq_extend_mono ts q x : x ∈ uq_queue q -> x ∈ uq_queue (uq_extend ts q).
Proof.
  unfold uq_extend. revert q. induction ts as [|t ts IH]; intros q Hx; simpl;
    [done|].
  apply IH. by apply uq_insert_mono.
Qed.

Lemma setup_node_queue g node_id parents q parents' q' :
  uq_wf q ->
  setup_node g node_id (parents, q) = Ok (parents', q') ->
  uq_wf q' /\
  (forall x, x ∈ uq_queue q -> x ∈ uq_queue q') /\
  (forall node, egraph_get g node_id = Ok node -> children node = [] ->
                node_id ∈ uq_queue q').
Proof.
  intros Hq H. unfold setup_node in H.
  apply rbind_Ok in H as (node & Hnode & [= <- <-]).
  unfold is_leaf. destruct (children node) as [|k kids] eqn:Hch.
  - split; [by apply uq_insert_wf|]. split.
    + intros x. apply uq_insert_mono.
    + intros _ _ _. apply uq_insert_elem; [done|by left].
  - split; [done|]. split; [done|].
    intros node' Hnode'. rewrite Hnode in Hnode'. injection Hnode' as <-.
    by rewrite Hch.
Qed.

Lemma extract_setup_leaves g parents q0 :
  wf_nodes (nodes g) ->
  extract_setup g = Ok (parents, q0) ->
  forall nid node, (nid, node) ∈ all_nodes (nodes g) -> children node = [] ->
                   nid ∈ uq_queue q0.
Proof.
  intros Hwf H nid node Hin Hleaf. unfold extract_setup in H.
  assert (Hmem : nid ∈ members g (eclass node)).
  { apply members_elem. by exists node. }
  assert (Hcls : (eclass node, mkClass (eclass node) (members g (eclass node)))
                 ∈ classes g).
  { apply om_find_Some_elem. rewrite classes_find.
    destruct (members g (eclass node)); [by apply elem_of_nil in Hmem|done]. }
  pose proof (wf_nodes_get _ _ _ Hwf Hin) as Hget.
  eapply (for_each_elem (fun st => uq_wf (snd st))
            (fun st => nid ∈ uq_queue (snd st))) in H as [_ H];
    [exact H|exact Hcls| | | |].
  - split; [apply NoDup_nil_2|]. intros x. simpl. rewrite elem_of_nil.
    set_solver.
  - intros kv [p q] [p' q'] _ Hq Hf. simpl in *.
    apply (for_each_inv (fun st => uq_wf (snd st))) in Hf; [done| |done].
    intros y [p1 q1] [p2 q2] _ Hq1 Hy. simpl in *.
    by apply setup_node_queue in Hy as (? & _).
  - intros [p q] [p' q'] Hq Hf. simpl in *.
    eapply (for_each_elem (fun st => uq_wf (snd st))
              (fun st => nid ∈ uq_queue (snd st))) in Hf as [_ Hf];
      [exact Hf|exact Hmem|done| | |].
    + intros y [p1 q1] [p2 q2] _ Hq1 Hy. simpl in *.
      by apply setup_node_queue in Hy as (? & _).
    + intros [p1 q1] [p2 q2] Hq1 Hy. simpl in *.
      apply setup_node_queue in Hy as (_ & _ & Hl); [|done]. by eapply Hl.
    + intros y [p1 q1] [p2 q2] _ Hq1 Hx Hy. simpl in *.
      apply setup_node_queue in Hy as (_ & Hm & _); [|done]. by apply Hm.
  - intros kv [p q] [p' q'] _ Hq Hx Hf. simpl in *.
    assert (G : uq_wf q' /\ nid ∈ uq_queue q'); [|tauto].
    apply (for_each_inv (fun st => uq_wf (snd st) /\ nid ∈ uq_queue (snd st)))
      in Hf; [done| |done].
    intros y [p1 q1] [p2 q2] _ [Hq1 Hx1] Hy. simpl in *.
    apply setup_node_queue in Hy as (? & Hm & _); [|done]. split; [done|].
    by apply Hm.
Qed.

Lemma extract_step_queue_mono g parents node_id q costs q' costs' x :
  extract_step g parents node_id (q, costs) = Ok (q', costs') ->
  x ∈ uq_queue q -> x ∈ uq_queue q'.
Proof.
  intros H Hx. unfold extract_step in H.
  apply rbind_Ok in H as (class_id & Hcid & H).
  apply rbind_Ok in H as (node & Hnode & H).
  destruct (forallb _ _); [|by injection H as <- <-].
  apply rbind_Ok in H as (cost_set & Hcs & H).
  destruct (ecost_ltb _ _); [|by injection H as <- <-].
  injection H as <- <-.
  destruct (om_find class_id parents); [|done]. by apply uq_extend_mono.
Qed.

Lemma Qltb_false_le x y : Qltb x y = false -> (y <= x)%Q.
Proof.
  unfold Qltb. rewrite negb_false_iff. apply Qle_bool_iff.
Qed.

Lemma extract_step_mono g parents node_id q costs q' costs' c cs t :
  extract_step g parents node_id (q, costs) = Ok (q', costs') ->
  costs !! c = Some cs -> cs_total cs = Fin t ->
  exists cs' t', costs' !! c = Some cs' /\ cs_total cs' = Fin t' /\ (t' <= t)%Q.
Proof.
  intros H Hc Ht. unfold extract_step in H.
  assert (Hsame : exists cs' t',
            costs !! c = Some cs' /\ cs_total cs' = Fin t' /\ (t' <= t)%Q).
  { exists cs, t. split; [done|]. split; [done|]. apply Qle_refl. }
  apply rbind_Ok in H as (class_id & Hcid & H).
  apply rbind_Ok in H as (node & Hnode & H).
  destruct (forallb _ _); [|by injection H as <- <-].
  apply rbind_Ok in H as (cost_set & Hcs & H).
  destruct (ecost_ltb _ _) eqn:Hlt; [|by injection H as <- <-].
  injection H as <- <-.
  destruct (decide (c = class_id)) as [->|Hne].
  - rewrite Hc, Ht in Hlt. rewrite lookup_insert_eq.
    destruct (ecost_ltb_Fin _ _ Hlt) as [t' Ht']. rewrite Ht' in Hlt.
    simpl in Hlt. apply Qltb_lt in Hlt.
    exists cost_set, t'. split; [done|]. split; [done|]. by apply Qlt_le_weak.
  - by rewrite lookup_insert_ne.
Qed.

Lemma extract_step_leaf g parents node_id node q costs q' costs' :
  egraph_get g node_id = Ok node -> children node = [] ->
  extract_step g parents node_id (q, costs) = Ok (q', costs') ->
  exists cs t, costs' !! eclass node = Some cs /\ cs_total cs = Fin t /\
               (t <= cost node)%Q.
Proof.
  intros Hnode Hleaf H. unfold extract_step, nid_to_cid in H.
  rewrite Hnode in H. cbn [rbind] in H. rewrite Hleaf in H. cbn [forallb] in H.
  unfold calculate_cost_set, nid_to_cid in H. rewrite Hnode in H.
  cbn [rbind] in H. rewrite Hleaf in H. cbn [rbind cs_total] in H.
  destruct (ecost_ltb _ _) eqn:Hlt.
  - injection H as <- <-. rewrite lookup_insert_eq.
    eexists _, _. split; [done|]. split; [done|]. apply Qle_refl.
  - injection H as <- <-.
    destruct (costs !! eclass node) as [cs0|]; [|done].
    destruct (cs_total cs0) as [p|] eqn:Hp; [|done].
    simpl in Hlt. apply Qltb_false_le in Hlt.
    by exists cs0, p.
Qed.

Lemma extract_step_leaf_inv g parents q costs front q1 q' costs' :
  wf_nodes (nodes g) ->
  leaf_inv g (q, costs) -> uq_pop q = Some (front, q1) ->
  extract_step g parents front (q1, costs) = Ok (q', costs') ->
  leaf_inv g (q', costs').
Proof.
  intros Hwf Hinv Hpop Hstep nid node Hin Hleaf. cbn [fst snd].
  unfold uq_pop in Hpop. destruct (uq_queue q) as [|f rest] eqn:Hq; [done|].
  injection Hpop as -> <-.
  destruct (Hinv nid node Hin Hleaf) as [Hqueued|(cs & t & Hc & Ht & Hle)];
    cbn [fst snd] in *.
  - rewrite Hq in Hqueued. apply elem_of_cons in Hqueued as [->|Hrest].
    + right. eapply extract_step_leaf; [|done|done].
      by apply wf_nodes_get.
    + left. eapply extract_step_queue_mono; [done|]. done.
  - right.
    destruct (extract_step_mono _ _ _ _ _ _ _ _ _ _ Hstep Hc Ht)
      as (cs' & t' & Hc' & Ht' & Hle').
    exists cs', t'. split; [done|]. split; [done|]. by eapply Qle_trans.
Qed.

(** X12.  On a well-formed graph, when the worklist loop of [extract] ends
    every class that owns a leaf node has a cost set, with a finite total no
    larger than that leaf's cost, and so an entry in the returned table. *)
Theorem extract_covers_leaves (fuel : nat) (g : EGraph) (roots : list ClassId)
    (costs : cost_sets) :
  wf_nodes (nodes g) ->
  extract_costs fuel g = Ok costs ->
  extract fuel g roots = Ok (choices_of costs) /\
  forall nid node,
    (nid, node) ∈ all_nodes (nodes g) -> is_leaf node = true ->
    exists cs t,
      costs !! eclass node = Some cs /\ cs_total cs = Fin t /\
      (t <= cost node)%Q /\
      om_find (eclass node) (choices_of costs) = Some (cs_choice cs).
Proof.
  intros Hwf H. split; [unfold extract; by rewrite H|].
  unfold extract_costs in H.
  apply rbind_Ok in H as ([parents q0] & Hsetup & H).
  apply (extract_loop_inv (leaf_inv g)) in H as (q & Hq & Hempty).
  - intros nid node Hin Hleaf.
    assert (Hch : children node = []).
    { unfold is_leaf in Hleaf. by destruct (children node). }
    destruct (Hq nid node Hin Hch) as [Hqueued|(cs & t & Hc & Ht & Hle)];
      cbn [fst snd] in *.
    + rewrite Hempty in Hqueued. by apply elem_of_nil in Hqueued.
    + exists cs, t. split; [done|]. split; [done|]. split; [done|].
      by rewrite om_find_choices_of, Hc.
  - intros q c front q1 q' c'. by apply extract_step_leaf_inv.
  - intros nid node Hin Hleaf. left. cbn [fst].
    by eapply extract_setup_leaves.
Qed.

Lemma wf_scenario_B : wf_nodes (nodes scenario_B).
Proof.
  split.
  - vm_compute. repeat constructor; set_solver.
  - intros c inner Hin. vm_compute in Hin.
    repeat (apply elem_of_cons in Hin as [[= -> ->]|Hin];
            [split; [vm_compute; repeat constructor; set_solver|];
             intros nid Hnid; vm_compute in Hnid;
             repeat (apply elem_of_cons in Hnid as [->|Hnid]; [done|]);
             by apply elem_of_nil in Hnid|]).
    by apply elem_of_nil in Hin.
Qed.

Lemma extract_covers_leaves_witness :
  exists costs,
    extract_costs 10 scenario_B = Ok costs /\
    extract 10 scenario_B [0%N] = Ok (choices_of costs) /\
    forall nid node,
      (nid, node) ∈ all_nodes (nodes scenario_B) -> is_leaf node = true ->
      exists cs t,
        costs !! eclass node = Some cs /\ cs_total cs = Fin t /\
        (t <= cost node)%Q /\
        om_find (eclass node) (choices_of costs) = Some (cs_choice cs).
Proof.
  destruct (extract_costs 10 scenario_B) as [costs| |] eqn:E;
    [|by vm_compute in E..].
  exists costs. split; [done|].
  exact (extract_covers_leaves 10 scenario_B [0%N] costs wf_scenario_B E).
Defined.

(** *** Totals *)







(** ** The redundant-node remover (main.cpp) *)

Lemma remove_redundant_nodes_eq (data : Data) :
  wf_data data ->
  remove_redundant_nodes data = Ok (spec_remove_redundant data).
Proof.
  intros Hwf.
  unfold remove_redundant_nodes, spec_remove_redundant.
  pose proof Hwf as [Hndk Hinner].
  set (ns := d_nodes data) in *.
  destruct (dedup_classes_spec ns (map_to_list (collect_eclasses ns)) [])
    as (S' & HS' & Hmem).
  - exact Hwf.
  - apply NoDup_fst_map_to_list.
  - intros c _. apply not_elem_of_nil.
  - intros c ids Hin. apply elem_of_map_to_list in Hin.
    rewrite collect_eclasses_lookup in Hin by done.
    destruct (om_find c ns) as [[|e inner]|]; try done.
    injection Hin as <-. by exists (e :: inner).
  - assert (Hid : map (dedup_in []) ns = ns).
    { rewrite <- (map_id ns) at 2. apply map_ext. intros [k i].
      unfold dedup_in. destruct (decide _) as [H|]; [by apply elem_of_nil in H|done]. }
    rewrite Hid in HS'. rewrite HS'. simpl. f_equal. f_equal.
    apply map_ext_in. intros [k inner] Hin. apply list_elem_of_In in Hin.
    unfold dedup_in. simpl. destruct (decide (k ∈ S')) as [|Hk]; [done|].
    destruct inner as [|e inner]; [done|]. exfalso. apply Hk. apply Hmem. left.
    unfold om_keys. apply list_elem_of_fmap. exists (k, om_keys (e :: inner)).
    split; [done|]. apply elem_of_map_to_list.
    rewrite collect_eclasses_lookup by done.
    by rewrite (om_find_elem_NoDup k (e :: inner) ns).
Qed.

(** *** The survivors of one class *)

Lemma spec_dedup_from_sublist seen ns : sublist (spec_dedup_from seen ns) ns.
Proof.
  revert seen. induction ns as [|[nid n] ns IH]; intros seen; simpl.
  - constructor.
  - destruct (bool_decide _).
    + apply sublist_cons. apply IH.
    + apply sublist_skip. apply IH.
Qed.

Lemma spec_dedup_head e ns : head (spec_dedup (e :: ns)) = Some e.
Proof.
  unfold spec_dedup. destruct e as [nid n]. reflexivity.
Qed.

Lemma spec_dedup_from_fresh seen ns : fresh_from seen (spec_dedup_from seen ns).
Proof.
  revert seen. induction ns as [|[nid n] ns IH]; intros seen; simpl; [done|].
  destruct (bool_decide _) eqn:E; [apply IH|].
  apply bool_decide_eq_false in E. simpl. split; [done|]. apply IH.
Qed.

Lemma fresh_from_fixed seen l : fresh_from seen l -> spec_dedup_from seen l = l.
Proof.
  revert seen. induction l as [|[nid n] l IH]; intros seen; simpl; [done|].
  intros [Hnew Hrest]. rewrite bool_decide_eq_false_2 by done.
  f_equal. by apply IH.
Qed.

Lemma spec_dedup_from_covers seen ns e :
  e ∈ ns ->
  Exists (fun s => s ≡ₚ children (snd e)) seen \/
  exists e', e' ∈ spec_dedup_from seen ns /\
             children (snd e') ≡ₚ children (snd e).
Proof.
  revert seen. induction ns as [|[nid n] ns IH]; intros seen Hin; simpl.
  - by apply elem_of_nil in Hin.
  - apply elem_of_cons in Hin as [->|Hin].
    + simpl. destruct (bool_decide _) eqn:E.
      * left. by apply bool_decide_eq_true in E.
      * right. exists (nid, n). split; [left|done].
    + destruct (bool_decide _) eqn:E.
      * by apply IH.
      * destruct (IH (seen ++ [children n]) Hin) as [Hex|(e' & He' & Hp)].
        -- apply Exists_app in Hex as [Hex|Hex]; [by left|].
           right. exists (nid, n). split; [left|].
           apply Exists_cons in Hex as [Hex|Hex]; [done|].
           by apply Exists_nil in Hex.
        -- right. exists e'. split; [by right|done].
Qed.

Lemma fresh_from_seen seen pre e suf s :
  fresh_from seen (pre ++ e :: suf) -> s ∈ seen -> ~ s ≡ₚ children (snd e).
Proof.
  revert seen. induction pre as [|x pre IH]; intros seen; simpl.
  - intros [Hnew _] Hs Hp. apply Hnew. apply Exists_exists. by exists s.
  - intros [_ Hrest] Hs. apply (IH _ Hrest). apply elem_of_app. by left.
Qed.

Lemma fresh_from_distinct seen pre e mid e' suf :
  fresh_from seen (pre ++ e :: mid ++ e' :: suf) ->
  ~ children (snd e) ≡ₚ children (snd e').
Proof.
  revert seen. induction pre as [|x pre IH]; intros seen; simpl.
  - intros [_ Hrest]. apply (fresh_from_seen _ _ _ _ _ Hrest).
    apply elem_of_app. right. left.
  - intros [_ Hrest]. by apply (IH _ Hrest).
Qed.

Lemma spec_dedup_retag h seen ns :
  (forall n, children (h n) = children n) ->
  spec_dedup_from seen (map (fun e => (fst e, h (snd e))) ns)
  = map (fun e => (fst e, h (snd e))) (spec_dedup_from seen ns).
Proof.
  intros Hh. revert seen. induction ns as [|[nid n] ns IH]; intros seen; simpl;
    [done|].
  rewrite Hh. destruct (bool_decide _); simpl; [apply IH|]. f_equal. apply IH.
Qed.

Lemma om_find_spec_remove data c :
  om_find c (d_nodes (spec_remove_redundant data))
  = spec_dedup <$> om_find c (d_nodes data).
Proof.
  unfold spec_remove_redundant. simpl.
  induction (d_nodes data) as [|[k inner] ns IH]; simpl; [done|].
  destruct (decide (c = k)); [done|apply IH].
Qed.

Lemma sublist_map {A B} (f : A -> B) (l1 l2 : list A) :
  sublist l1 l2 -> sublist (map f l1) (map f l2).
Proof. induction 1; simpl; by constructor. Qed.

Lemma wf_spec_remove data : wf_data data -> wf_data (spec_remove_redundant data).
Proof.
  intros [Hnd Hinner]. split.
  - unfold spec_remove_redundant, om_keys. simpl. rewrite map_map. simpl.
    exact Hnd.
  - intros c inner' Hin. unfold spec_remove_redundant in Hin. simpl in Hin.
    apply list_elem_of_fmap in Hin as ([k inner] & [= -> ->] & Hin).
    destruct (Hinner k inner Hin) as [Hndi Hfst]. simpl.
    pose proof (spec_dedup_from_sublist [] inner) as Hsub.
    split.
    + assert (Hs : sublist (om_keys (spec_dedup inner)) (om_keys inner))
        by (unfold om_keys; by apply sublist_map).
      eapply sublist_NoDup; eauto.
    + intros nid Hnid. apply Hfst. unfold om_keys in *.
      apply list_elem_of_fmap in Hnid as (e & -> & He).
      apply list_elem_of_fmap. exists e. split; [done|].
      by eapply elem_of_sublist.
Qed.

Lemma spec_dedup_idem inner : spec_dedup (spec_dedup inner) = spec_dedup inner.
Proof. apply fresh_from_fixed, spec_dedup_from_fresh. Qed.

Lemma wf_retag h data : wf_data data -> wf_data (retag h data).
Proof.
  intros [Hnd Hinner]. split.
  - unfold retag, om_keys. simpl. rewrite map_map. simpl. exact Hnd.
  - intros c inner' Hin. unfold retag in Hin. simpl in Hin.
    apply list_elem_of_fmap in Hin as ([k inner] & [= -> ->] & Hin).
    destruct (Hinner k inner Hin) as [Hndi Hfst]. simpl.
    unfold om_keys in *. rewrite map_map. simpl. by split.
Qed.

(** X13.  [remove_redundant_nodes] is idempotent on well-formed
    descriptions: it returns, and a second run on its result returns that
    result unchanged. *)
Theorem remove_redundant_idempotent (data : Data) :
  wf_data data ->
  exists d1, remove_redundant_nodes data = Ok d1 /\
             remove_redundant_nodes d1 = Ok d1.
Proof.
  intros Hwf. exists (spec_remove_redundant data).
  split; [by apply remove_redundant_nodes_eq|].
  rewrite remove_redundant_nodes_eq by (by apply wf_spec_remove).
  f_equal. unfold spec_remove_redundant. simpl. f_equal.
  rewrite map_map. apply map_ext. intros [k inner]. simpl.
  by rewrite spec_dedup_idem.
Qed.

Lemma remove_redundant_idempotent_witness :
  exists d1, remove_redundant_nodes redundant_example = Ok d1 /\
             remove_redundant_nodes d1 = Ok d1.
Proof.
  exact (remove_redundant_idempotent redundant_example wf_redundant_example).
Defined.

(** X14.  On a well-formed description [remove_redundant_nodes] only
    deletes nodes: the result is well-formed, has the same classes in the
    same order, the same roots and operator table; the nodes left in a class
    are a subsequence of its nodes, unchanged, and the first node of a class
    always stays, so no class becomes empty. *)
Theorem remove_redundant_keeps_structure (data d1 : Data) :
  wf_data data ->
  remove_redundant_nodes data = Ok d1 ->
  wf_data d1 /\
  om_keys (d_nodes d1) = om_keys (d_nodes data) /\
  d_root_eclasses d1 = d_root_eclasses data /\
  d_op d1 = d_op data /\
  forall c inner, om_find c (d_nodes data) = Some inner ->
    exists inner', om_find c (d_nodes d1) = Some inner' /\
                   sublist inner' inner /\ head inner' = head inner.
Proof.
  intros Hwf H. rewrite remove_redundant_nodes_eq in H by done.
  injection H as <-.
  split; [by apply wf_spec_remove|]. split; [|split; [done|split; [done|]]].
  - unfold spec_remove_redundant, om_keys. simpl. by rewrite map_map.
  - intros c inner Hc. exists (spec_dedup inner).
    split; [by rewrite om_find_spec_remove, Hc|].
    split; [apply spec_dedup_from_sublist|].
    destruct inner as [|e inner]; [done|]. apply spec_dedup_head.
Qed.

Lemma remove_redundant_keeps_structure_witness :
  om_keys (d_nodes (spec_remove_redundant redundant_example))
  = om_keys (d_nodes redundant_example).
Proof.
  refine (proj1 (proj2 (remove_redundant_keeps_structure redundant_example
                          (spec_remove_redundant redundant_example)
                          wf_redundant_example _))).
  vm_compute. reflexivity.
Defined.

(** X15.  After [remove_redundant_nodes], within every class each original
    node still has a representative, a remaining node that references the
    same multiset of child classes, and no two remaining nodes reference the
    same multiset. *)
Theorem remove_redundant_representatives (data d1 : Data) (c : ClassId)
    (inner inner' : node_map) :
  wf_data data ->
  remove_redundant_nodes data = Ok d1 ->
  om_find c (d_nodes data) = Some inner ->
  om_find c (d_nodes d1) = Some inner' ->
  (forall e, e ∈ inner ->
     exists e', e' ∈ inner' /\ children (snd e') ≡ₚ children (snd e)) /\
  (forall pre e mid e' suf, inner' = pre ++ e :: mid ++ e' :: suf ->
     ~ children (snd e) ≡ₚ children (snd e')).
Proof.
  intros Hwf H Hc Hc'. rewrite remove_redundant_nodes_eq in H by done.
  injection H as <-. rewrite om_find_spec_remove, Hc in Hc'.
  injection Hc' as <-. split.
  - intros e He. destruct (spec_dedup_from_covers [] inner e He) as [Hex|?];
      [|done].
    by apply Exists_nil in Hex.
  - intros pre e mid e' suf Heq.
    apply (fresh_from_distinct [] pre e mid e' suf). rewrite <- Heq.
    apply spec_dedup_from_fresh.
Qed.

Lemma remove_redundant_representatives_witness :
  wf_data redundant_example /\
  forall e, e ∈ [((0%N, 0%N), mkNode 0 [1%N; 2%N; 1%N] 0 1);
                 ((0%N, 1%N), mkNode 1 [] 0 2);
                 ((0%N, 2%N), mkNode 2 [1%N; 1%N; 2%N] 0 3);
                 ((0%N, 3%N), mkNode 3 [] 0 1);
                 ((0%N, 4%N), mkNode 4 [2%N; 1%N; 1%N] 0 1)] ->
    exists e', e' ∈ [((0%N, 0%N), mkNode 0 [1%N; 2%N; 1%N] 0 1);
                     ((0%N, 1%N), mkNode 1 [] 0 2)] /\
               children (snd e') ≡ₚ children (snd e).
Proof.
  split; [exact wf_redundant_example|].
  refine (proj1 (remove_redundant_representatives redundant_example
                   (spec_remove_redundant redundant_example) 0%N _ _
                   wf_redundant_example _ _ _)).
  - vm_compute. reflexivity.
  - reflexivity.
  - reflexivity.
Defined.

(** X16.  [remove_redundant_nodes] looks at child lists only: rewriting the
    nodes of a well-formed description in any way that keeps their children
    (other costs, other operators) leaves the same node ids in place.  Among
    nodes with the same child multiset the earliest stays even when a later
    one is cheaper. *)
Theorem remove_redundant_ignores_cost (h : Node -> Node) (data : Data) :
  (forall n, children (h n) = children n) ->
  wf_data data ->
  exists d1, remove_redundant_nodes data = Ok d1 /\
             remove_redundant_nodes (retag h data) = Ok (retag h d1).
Proof.
  intros Hh Hwf. exists (spec_remove_redundant data).
  split; [by apply remove_redundant_nodes_eq|].
  rewrite remove_redundant_nodes_eq by (by apply wf_retag).
  f_equal. unfold spec_remove_redundant, retag. simpl. f_equal.
  rewrite !map_map. apply map_ext. intros [k inner]. simpl. f_equal.
  by apply spec_dedup_retag.
Qed.

Lemma remove_redundant_ignores_cost_witness :
  exists d1,
    remove_redundant_nodes redundant_example = Ok d1 /\
    remove_redundant_nodes
      (retag (fun n => mkNode (op n) (children n) (eclass n) 0) redundant_example)
    = Ok (retag (fun n => mkNode (op n) (children n) (eclass n) 0) d1).
Proof.
  apply (remove_redundant_ignores_cost
           (fun n => mkNode (op n) (children n) (eclass n) 0) redundant_example).
  - reflexivity.
  - exact wf_redundant_example.
Defined.

Lemma all_nodes_spec_remove data e :
  e ∈ all_nodes (d_nodes (spec_remove_redundant data)) ->
  e ∈ all_nodes (d_nodes data).
Proof.
  unfold spec_remove_redundant, all_nodes. simpl. rewrite map_map. simpl.
  intros H. apply elem_of_concat in H as (inner' & He & Hin).
  apply list_elem_of_fmap in Hin as ([k inner] & -> & Hin). simpl in He.
  apply elem_of_concat. exists inner. split.
  - eapply elem_of_sublist; [exact He|apply spec_dedup_from_sublist].
  - apply list_elem_of_fmap. by exists (k, inner).
Qed.

(** X25.  [remove_redundant_nodes] creates no dangling child reference: on
    a well-formed description in which every child reference names a class
    that has a node, the result has the same property, so the partitioner's
    "Child node not found" test passes after the remover if it passed
    before. *)
Theorem remove_redundant_no_new_dangling (data d1 : Data) :
  wf_data data ->
  remove_redundant_nodes data = Ok d1 ->
  ~ dangling_child (d_nodes data) ->
  ~ dangling_child (d_nodes d1).
Proof.
  intros Hwf H Hno (e & child & He & Hc & Hd).
  rewrite remove_redundant_nodes_eq in H by done. injection H as <-.
  apply Hno. exists e, child.
  split; [by apply all_nodes_spec_remove|]. split; [done|].
  intros inner Hinner. specialize (Hd (spec_dedup inner)).
  rewrite om_find_spec_remove, Hinner in Hd. specialize (Hd eq_refl).
  destruct inner as [|x inner]; [done|].
  pose proof (spec_dedup_head x inner) as Hh. by rewrite Hd in Hh.
Qed.

Lemma remove_redundant_no_new_dangling_witness :
  ~ dangling_child (d_nodes (spec_remove_redundant redundant_example)).
Proof.
  apply (remove_redundant_no_new_dangling redundant_example
           (spec_remove_redundant redundant_example) wf_redundant_example).
  - vm_compute. reflexivity.
  - intros (e & child & He & Hc & Hd). vm_compute in He.
    repeat (apply elem_of_cons in He as [->|He];
            [vm_compute in Hc;
             repeat (apply elem_of_cons in Hc as [->|Hc];
                     [by specialize (Hd _ eq_refl)|]);
             by apply elem_of_nil in Hc|]).
    by apply elem_of_nil in He.
Defined.

(** ** The partitioner (main.cpp) *)

(** *** The operator table *)

Lemma index_of_spec s l :
  match index_of s l with
  | Some i => l !! i = Some s /\ forall j, (j < i)%nat -> l !! j <> Some s
  | None => s ∉ l
  end.
Proof.
  induction l as [|x l IH]; simpl; [apply not_elem_of_nil|].
  destruct (decide (x = s)) as [->|Hne].
  - split; [done|]. intros j Hj. lia.
  - destruct (index_of s l) as [i|]; simpl.
    + destruct IH as [Hi Hlt]. split; [done|].
      intros [|j] Hj; simpl; [congruence|]. apply Hlt. lia.
    + intros Hin. apply elem_of_cons in Hin as [?|?]; [congruence|done].
Qed.

Lemma index_of_app_new s l :
  s ∉ l -> index_of s (l ++ [s]) = Some (length l).
Proof.
  induction l as [|x l IH]; simpl; intros Hs.
  - by rewrite decide_True.
  - rewrite decide_False by (intros ->; apply Hs; left).
    rewrite IH; [done|]. intros H. apply Hs. by right.
Qed.

(** X17.  Looking up the operator "pseudo_root" extends the operator table
    by at most that one entry, at the end: the old entries keep their
    indices, the index returned is the first position of "pseudo_root" in
    the new table, and a second look-up changes nothing and returns the same
    index. *)
Theorem pseudo_root_op_spec (ops : list string) :
  exists suffix,
    fst (pseudo_root_op ops) = ops ++ suffix /\
    (suffix = [] \/ suffix = ["pseudo_root"%string]) /\
    fst (pseudo_root_op ops) !! N.to_nat (snd (pseudo_root_op ops))
    = Some "pseudo_root"%string /\
    (forall j, (j < N.to_nat (snd (pseudo_root_op ops)))%nat ->
               fst (pseudo_root_op ops) !! j <> Some "pseudo_root"%string) /\
    pseudo_root_op (fst (pseudo_root_op ops)) = pseudo_root_op ops.
Proof.
  unfold pseudo_root_op.
  pose proof (index_of_spec "pseudo_root" ops) as Hspec.
  destruct (index_of "pseudo_root" ops) as [i|] eqn:E; cbn [fst snd].
  - exists []. rewrite app_nil_r, Nat2N.id. destruct Hspec as [Hi Hlt].
    split; [done|]. split; [by left|]. split; [done|]. split; [done|].
    by rewrite E.
  - exists ["pseudo_root"%string]. rewrite Nat2N.id.
    split; [done|]. split; [by right|]. split; [|split].
    + rewrite lookup_app_r by lia. by rewrite Nat.sub_diag.
    + intros j Hj Hl. rewrite lookup_app_l in Hl by done.
      apply Hspec. by eapply list_elem_of_lookup_2.
    + by rewrite index_of_app_new.
Qed.

(** *** Dangling child references *)

Lemma link_node_cases mn entry (acc : parent_links) :
  (exists parents, link_node mn entry acc = Ok parents /\
     forall child, child ∈ children (snd entry) ->
       exists x xs, om_find child mn = Some (x :: xs)) \/
  (link_node mn entry acc = Throw CHILD_NOT_FOUND /\
   exists child, child ∈ children (snd entry) /\
     forall inner, om_find child mn = Some inner -> inner = []).
Proof.
  unfold link_node. generalize (children (snd entry)) as l. intros l.
  revert acc. induction l as [|c l IH]; intros acc.
  - left. exists acc. split; [done|]. intros ? H. by apply elem_of_nil in H.
  - rewrite for_each_cons.
    destruct (om_find c mn) as [[|x xs]|] eqn:E; cbn [rbind].
    + right. split; [done|]. exists c. split; [left|].
      intros inner Hi. rewrite E in Hi. by injection Hi as <-.
    + destruct (IH (<[c := default [] (acc !! c) ++ [fst entry]]> acc))
        as [(p & Hp & Hall)|(Ht & child & Hc & Hd)].
      * left. exists p. split; [done|]. intros child Hc.
        apply elem_of_cons in Hc as [->|Hc]; [by eexists _, _|by apply Hall].
      * right. split; [done|]. exists child. split; [by right|done].
    + right. split; [done|]. exists c. split; [left|].
      intros inner Hi. by rewrite E in Hi.
Qed.

Lemma build_parents_cases mn :
  (exists parents, build_parents mn = Ok parents /\ ~ dangling_child mn) \/
  (build_parents mn = Throw CHILD_NOT_FOUND /\ dangling_child mn).
Proof.
  unfold build_parents, dangling_child.
  generalize (∅ : parent_links) as acc. generalize (all_nodes mn) as l.
  induction l as [|e l IH]; intros acc.
  - left. exists acc. split; [done|]. intros (? & ? & H & _).
    by apply elem_of_nil in H.
  - rewrite for_each_cons.
    destruct (link_node_cases mn e acc) as [(p & Hp & Hall)|(Ht & child & Hc & Hd)].
    + rewrite Hp. cbn [rbind].
      destruct (IH p) as [(p' & Hp' & Hno)|(Ht & entry & child & He & Hc & Hd)].
      * left. exists p'. split; [done|].
        intros (entry & child & He & Hc & Hd).
        apply elem_of_cons in He as [->|He].
        -- destruct (Hall child Hc) as (x & xs & Hx). by specialize (Hd _ Hx).
        -- apply Hno. by exists entry, child.
      * right. split; [done|]. exists entry, child. split; [by right|done].
    + rewrite Ht. cbn [rbind]. right. split; [done|].
      exists e, child. split; [left|done].
Qed.

Lemma bfs_loop_Throw fuel mn ec size k st e :
  bfs_loop fuel mn ec size k st = Throw e ->
  e = OutOfRange \/ exists c, e = literal_plus NOT_IN_COLLECT c.
Proof.
  revert st. induction fuel as [|fuel IH]; intros st; simpl; [done|].
  destruct (bfs_queue st) as [|c q]; [done|].
  destruct (_ && _); [done|].
  destruct (ec !! c) as [ids|]; [|intros [= <-]; right; by exists c].
  intros H. apply rbind_Throw in H as [H|(st2 & _ & H)].
  - apply for_each_Throw in H as (a & t & _ & H).
    left. by apply scan_node_Throw in H.
  - by apply IH in H.
Qed.

Lemma build_subgraphs_Throw mn ec idx sgs ops e :
  build_subgraphs mn ec idx sgs ops = Throw e -> e = AssertFailure.
Proof.
  revert idx ops. induction sgs as [|sg sgs IH]; intros idx ops; simpl; [done|].
  intros H. apply rbind_Throw in H as [H|([ops' d] & _ & H)].
  - by apply build_subgraph_Throw in H.
  - apply rbind_Throw in H as [H|([ops'' fs] & _ & H)]; [|done].
    by apply IH in H.
Qed.

(** X18.  [egraph_partition] stops with "Child node not found for eclass"
    exactly when some node of the description references a child class that
    is absent from the description or has no node; this is tested before the
    partition count is looked at. *)
Theorem partition_dangling_child (fuel : nat) (data : Data) (partition_num : nat) :
  egraph_partition fuel data partition_num = Throw CHILD_NOT_FOUND <->
  dangling_child (d_nodes data).
Proof.
  unfold egraph_partition, partition_buckets, partition_setup.
  destruct (build_parents_cases (d_nodes data))
    as [(parents & Hp & Hno)|[Ht Hd]].
  - rewrite Hp. cbn [rbind]. split; [|done]. intros H. exfalso.
    destruct (add_pseudo_root _ _ _) as [[ops mn] root].
    apply rbind_Throw in H as [H|([[[ops1 mn1] ec1] sgs] & _ & H)].
    + destruct (_ <=? _)%nat; [done|].
      apply rbind_Throw in H as [H|(root0 & _ & H)].
      { by apply of_option_Throw in H. }
      apply rbind_Throw in H as [H|(st & _ & H)].
      { apply bfs_loop_Throw in H as [?|[c Hc]]; [done|].
        symmetry in Hc. revert Hc. apply not_in_collect_other. by right. }
      by destruct (decide _).
    + apply rbind_Throw in H as [H|([ops2 files] & _ & H)]; [|done].
      by apply build_subgraphs_Throw in H.
  - rewrite Ht. cbn [rbind]. done.
Qed.

(** *** Several root entries *)

(** X19.  When the root list (one entry per node of a class that has no
    parent) has more than one entry and the description does not use the
    reserved class [UINT_MAX - 1], [egraph_partition] never returns: the
    traversal starts at the pseudo-root class, which the class-to-nodes
    index, built from the description, does not contain. *)
Theorem partition_fails_with_several_roots (fuel : nat) (data : Data)
    (partition_num : nat) (parents : parent_links) :
  PSEUDO_ROOT ∉ om_keys (d_nodes data) ->
  build_parents (d_nodes data) = Ok parents ->
  (2 <= length (compute_roots (d_nodes data) parents))%nat ->
  forall out, egraph_partition fuel data partition_num <> Ok out.
Proof.
  intros Hres Hp Hlen out H.
  unfold egraph_partition in H.
  apply rbind_Ok in H as ([[[ops mn] ec] sgs] & H & _).
  unfold partition_buckets, partition_setup in H. rewrite Hp in H.
  cbn [rbind] in H. unfold add_pseudo_root in H.
  destruct (compute_roots (d_nodes data) parents) as [|r1 [|r2 rs]];
    [simpl in Hlen; lia|simpl in Hlen; lia|].
  destruct (pseudo_root_op (d_op data)) as [ops' op_idx].
  destruct (_ <=? _)%nat eqn:Hle; [done|]. apply Nat.leb_gt in Hle.
  cbn [head of_option rbind] in H.
  apply rbind_Ok in H as (st & Hbfs & _).
  eapply bfs_loop_pseudo_root; [| |exact Hbfs]; [|lia].
  apply not_elem_of_dom. rewrite dom_collect_eclasses.
  intros (inner & Hin & _). apply Hres. unfold om_keys.
  apply list_elem_of_fmap. by exists (PSEUDO_ROOT, inner).
Qed.

Lemma partition_fails_with_several_roots_witness :
  (PSEUDO_ROOT ∉ om_keys (d_nodes two_roots)) /\
  forall out, egraph_partition 10 two_roots 2 <> Ok out.
Proof.
  assert (Hres : PSEUDO_ROOT ∉ om_keys (d_nodes two_roots)).
  { vm_compute. intros H.
    repeat (apply elem_of_cons in H as [H|H]; [done|]).
    by apply elem_of_nil in H. }
  split; [exact Hres|].
  destruct (build_parents (d_nodes two_roots)) as [parents| |] eqn:E;
    [|by vm_compute in E..].
  apply (partition_fails_with_several_roots 10 two_roots 2 parents).
  - exact Hres.
  - exact E.
  - vm_compute in E. injection E as <-. vm_compute. lia.
Defined.

(** *** The number of buckets *)

Lemma scan_node_keeps mn class_node st st' :
  scan_node mn class_node st = Ok st' ->
  bfs_subgraphs st' = bfs_subgraphs st /\ bfs_current st' = bfs_current st.
Proof.
  intros H. unfold scan_node in H.
  apply rbind_Ok in H as (inner & _ & H).
  apply rbind_Ok in H as (node & _ & H). injection H as <-.
  assert (G : forall l st0,
    bfs_subgraphs
      (fold_left
         (fun st child_eclass =>
            if decide (child_eclass ∈ bfs_visited st) then st
            else mkBfs (bfs_queue st ++ [child_eclass])
                       ({[child_eclass]} ∪ bfs_visited st)
                       (bfs_subgraphs st) (bfs_current st) (bfs_count st))
         l st0) = bfs_subgraphs st0 /\
    bfs_current
      (fold_left
         (fun st child_eclass =>
            if decide (child_eclass ∈ bfs_visited st) then st
            else mkBfs (bfs_queue st ++ [child_eclass])
                       ({[child_eclass]} ∪ bfs_visited st)
                       (bfs_subgraphs st) (bfs_current st) (bfs_count st))
         l st0) = bfs_current st0).
  { induction l as [|c l IH]; intros st0; simpl; [done|].
    destruct (IH (if decide (c ∈ bfs_visited st0) then st0
                  else mkBfs (bfs_queue st0 ++ [c]) ({[c]} ∪ bfs_visited st0)
                             (bfs_subgraphs st0) (bfs_current st0)
                             (bfs_count st0))) as [H1 H2].
    rewrite H1, H2. by destruct (decide _). }
  destruct (G (children node)
              (mkBfs (bfs_queue st) (bfs_visited st) (bfs_subgraphs st)
                     (bfs_current st) (S (bfs_count st)))) as [-> ->].
  done.
Qed.

Lemma oset_insert_nonempty c s : oset_insert c s <> [].
Proof.
  unfold oset_insert. destruct (decide (c ∈ s)) as [Hin|].
  - intros ->. by apply elem_of_nil in Hin.
  - by destruct s.
Qed.

Lemma bfs_loop_buckets fuel mn ec size k st st' :
  buckets_inv k st ->
  bfs_loop fuel mn ec size k st = Ok st' ->
  (forall b, b ∈ bfs_subgraphs st' -> b <> []) /\
  ((length (bfs_subgraphs st') < k)%nat \/
   (length (bfs_subgraphs st') = k /\ bfs_current st' = [])) /\
  (bfs_subgraphs st' <> [] \/ bfs_current st' <> []).
Proof.
  revert st. induction fuel as [|fuel IH]; intros st (Hne & Hlen & Hsome);
    simpl; [done|].
  destruct (bfs_queue st) as [|c q] eqn:Hq.
  { intros [= <-]. split; [done|]. split; [by left|].
    destruct Hsome as [?|[?|?]]; [by left|by right|done]. }
  pose proof (oset_insert_nonempty c (bfs_current st)) as Hcur.
  set (cur := oset_insert c (bfs_current st)) in *.
  set (sealed := reached (bfs_count st) size k).
  set (sgs := if sealed then bfs_subgraphs st ++ [cur] else bfs_subgraphs st).
  assert (Hsgs : forall b, b ∈ sgs -> b <> []).
  { intros b Hb. subst sgs. destruct sealed; [|by apply Hne].
    apply elem_of_app in Hb as [Hb|Hb]; [by apply Hne|].
    by apply list_elem_of_singleton in Hb as ->. }
  assert (Hsl : (length sgs <= k)%nat).
  { subst sgs. destruct sealed; [|lia]. rewrite length_app. simpl. lia. }
  destruct (sealed && bool_decide (length sgs = k)) eqn:Hbreak.
  - intros [= <-]. simpl. apply andb_true_iff in Hbreak as [Hs Hk].
    apply bool_decide_eq_true in Hk. rewrite Hs.
    split; [done|]. split; [by right|]. left. subst sgs. rewrite Hs.
    by destruct (bfs_subgraphs st).
  - destruct (ec !! c) as [ids|]; [|done].
    intros H. apply rbind_Ok in H as (st2 & Hscan & H).
    apply (IH st2); [|done].
    assert (Hkeep : bfs_subgraphs st2 = sgs /\
                    bfs_current st2 = if sealed then [] else cur).
    { apply (for_each_inv
               (fun t => bfs_subgraphs t = sgs /\
                         bfs_current t = if sealed then [] else cur))
        in Hscan; [done| |done].
      intros a t t' _ [H1 H2] Ha. apply scan_node_keeps in Ha as [-> ->].
      done. }
    destruct Hkeep as [Hs2 Hc2]. unfold buckets_inv. rewrite Hs2, Hc2.
    split; [done|]. split.
    + apply andb_false_iff in Hbreak as [Hs|Hk].
      * subst sgs. rewrite Hs. done.
      * apply bool_decide_eq_false in Hk. lia.
    + subst sgs. destruct sealed.
      * left. by destruct (bfs_subgraphs st).
      * right. by left.
Qed.

(** X20.  For a partition count of at least one, a successful
    [egraph_partition] yields at least one and at most [partition_num]
    buckets, none of them empty; the count it returns is the requested
    [partition_num], whatever the number of buckets made. *)
Theorem partition_bucket_count (fuel : nat) (data : Data)
    (partition_num : nat) (out : partition) :
  (0 < partition_num)%nat ->
  egraph_partition fuel data partition_num = Ok out ->
  (1 <= length (p_subgraphs out) <= partition_num)%nat /\
  (forall b, b ∈ p_subgraphs out -> b <> []) /\
  p_partition_num out = partition_num.
Proof.
  intros Hk H. unfold egraph_partition in H.
  apply rbind_Ok in H as ([[[ops mn] ec] sgs] & H & Hout).
  apply rbind_Ok in Hout as ([ops' files] & _ & [= <-]). cbn [p_subgraphs
    p_partition_num]. split; [|split; [|done]].
  all: unfold partition_buckets in H;
    apply rbind_Ok in H as ([[ops0 mn0] root] & _ & H);
    destruct (_ <=? _)%nat; [done|];
    apply rbind_Ok in H as (root0 & _ & H);
    apply rbind_Ok in H as (st & Hbfs & H);
    destruct (decide _); [|done]; injection H as <- <- <- <-;
    apply bfs_loop_buckets in Hbfs as (Hne & Hlen & Hsome);
    [|split; [by intros b Hb; apply elem_of_nil in Hb|];
      split; [simpl; lia|]; right; right; done].
  - destruct (bfs_current st) as [|x cur] eqn:Hcur.
    + destruct Hsome as [Hs|?]; [|done].
      destruct (bfs_subgraphs st); [done|]. simpl in *. lia.
    + rewrite length_app. simpl. destruct Hlen as [?|[_ ?]]; [lia|done].
  - intros b Hb. destruct (bfs_current st) as [|x cur] eqn:Hcur;
      [by apply Hne|].
    apply elem_of_app in Hb as [Hb|Hb]; [by apply Hne|].
    by apply list_elem_of_singleton in Hb as ->.
Qed.

Lemma partition_bucket_count_witness :
  exists out,
    egraph_partition 10 chain4 2 = Ok out /\
    (1 <= length (p_subgraphs out) <= 2)%nat /\
    (forall b, b ∈ p_subgraphs out -> b <> []) /\
    p_partition_num out = 2%nat.
Proof.
  destruct (egraph_partition 10 chain4 2) as [out| |] eqn:E;
    [|by vm_compute in E..].
  exists out. split; [done|].
  apply (partition_bucket_count 10 chain4 2 out); [lia|exact E].
Defined.

(** *** Termination of the traversal *)

Lemma scan_fold_measure mn (l : list ClassId) st0 :
  (forall c, c ∈ l -> c ∈ child_universe mn) ->
  (bfs_measure mn
     (fold_left
        (fun st child_eclass =>
           if decide (child_eclass ∈ bfs_visited st) then st
           else mkBfs (bfs_queue st ++ [child_eclass])
                      ({[child_eclass]} ∪ bfs_visited st)
                      (bfs_subgraphs st) (bfs_current st) (bfs_count st))
        l st0)
   <= bfs_measure mn st0)%nat.
Proof.
  revert st0. induction l as [|c l IH]; intros st0 Hl; simpl; [done|].
  etransitivity; [apply IH; intros ? ?; apply Hl; by right|].
  destruct (decide (c ∈ bfs_visited st0)) as [Hv|Hv]; [done|].
  unfold bfs_measure, unvisited. simpl. rewrite length_app. simpl.
  assert (Hlt : (length (filter (fun x => x ∉ {[c]} ∪ bfs_visited st0)
                                (child_universe mn))
                 < length (filter (fun x => x ∉ bfs_visited st0)
                                  (child_universe mn)))%nat).
  { apply (filter_length_lt _ _ _ c).
    - intros x _ Hx Hx'. apply Hx. set_solver.
    - apply Hl. left.
    - done.
    - intros Hc. apply Hc. set_solver. }
  lia.
Qed.

Lemma scan_node_measure mn class_node st st' :
  scan_node mn class_node st = Ok st' ->
  (bfs_measure mn st' <= bfs_measure mn st)%nat.
Proof.
  intros H. unfold scan_node in H.
  apply rbind_Ok in H as (inner & Hi & H). apply of_option_Ok in Hi.
  apply rbind_Ok in H as (node & Hn & H). apply of_option_Ok in Hn.
  injection H as <-.
  etransitivity; [apply scan_fold_measure|done].
  intros c Hc. unfold child_universe. apply elem_of_concat.
  exists (children node). split; [done|].
  apply list_elem_of_fmap. exists (class_node, node). split; [done|].
  by eapply om_find_all_nodes.
Qed.

Lemma bfs_loop_fuel fuel mn ec size k st :
  (bfs_measure mn st < fuel)%nat ->
  bfs_loop fuel mn ec size k st <> NoFuel.
Proof.
  revert st. induction fuel as [|fuel IH]; intros st Hlt; [lia|].
  simpl. destruct (bfs_queue st) as [|c q] eqn:Hq; [done|].
  destruct (_ && _); [done|].
  destruct (ec !! c) as [ids|]; [|done].
  match goal with |- context [for_each _ ids ?s] => set (st1 := s) end.
  assert (H1 : (bfs_measure mn st1 < fuel)%nat).
  { unfold bfs_measure in *. subst st1. simpl. rewrite Hq in Hlt. simpl in Hlt.
    lia. }
  destruct (for_each (scan_node mn) ids st1) as [st2| |] eqn:Hscan;
    cbn [rbind]; [|done|].
  - apply IH.
    assert (G : (bfs_measure mn st2 <= bfs_measure mn st1)%nat); [|lia].
    apply (for_each_inv (fun t => (bfs_measure mn t <= bfs_measure mn st1)%nat))
      in Hscan; [done| |done].
    intros a t t' _ Ht Ha. apply scan_node_measure in Ha. lia.
  - apply for_each_NoFuel in Hscan as (a & t & _ & Ha).
    unfold scan_node in Ha.
    destruct (om_find (fst a) mn) as [inner|]; simpl in Ha; [|done].
    by destruct (om_find a inner).
Qed.

Lemma partition_setup_fuel_free data : partition_setup data <> NoFuel.
Proof.
  unfold partition_setup.
  destruct (build_parents_cases (d_nodes data)) as [(p & -> & _)|[-> _]]; done.
Qed.

Lemma build_subgraphs_fuel_free mn ec idx sgs ops :
  build_subgraphs mn ec idx sgs ops <> NoFuel.
Proof.
  revert idx ops. induction sgs as [|sg sgs IH]; intros idx ops; simpl; [done|].
  destruct (build_subgraph mn ec idx sg ops) as [[ops' d]| |] eqn:E;
    cbn [rbind]; [|done|].
  - specialize (IH (S idx) ops').
    by destruct (build_subgraphs mn ec (S idx) sgs ops') as [[? ?]| |].
  - unfold build_subgraph in E. destruct (split_children _) as [tr sp].
    destruct (bucket_roots _ _) as [|? [|? ?]];
      try destruct (pseudo_root_op ops);
      destruct (decide _); congruence.
Qed.

(** X21.  [egraph_partition] terminates on every description and every
    partition count: a number of traversal steps that depends on the
    description alone suffices for it to return or throw. *)
Theorem partition_terminates (data : Data) :
  exists N, forall fuel partition_num, (N <= fuel)%nat ->
    egraph_partition fuel data partition_num <> NoFuel.
Proof.
  destruct (partition_setup data) as [[[ops mn] root]|e|] eqn:Hs.
  - exists (2 + length (child_universe mn))%nat. intros fuel k Hfuel.
    unfold egraph_partition, partition_buckets. rewrite Hs. cbn [rbind].
    destruct (_ <=? _)%nat; [done|].
    destruct (head root) as [root0|]; cbn [of_option rbind]; [|done].
    pose proof (bfs_loop_fuel fuel mn (collect_eclasses (d_nodes data))
                  (length mn) k (mkBfs [root0] ∅ [] [] 0)) as Hnf.
    destruct (bfs_loop fuel mn _ (length mn) k _) as [st| |]; cbn [rbind].
    + destruct (decide _); cbn [rbind]; [|done].
      match goal with |- context [build_subgraphs ?a ?b ?c ?d ?e] =>
        pose proof (build_subgraphs_fuel_free a b c d e) as Hb;
        destruct (build_subgraphs a b c d e) as [[? ?]| |]
      end; done.
    + done.
    + destruct Hnf; [|done]. unfold bfs_measure, unvisited. simpl.
      apply Nat.lt_le_trans with (S (S (length (child_universe mn)))); [|lia].
      apply -> Nat.succ_lt_mono. apply Nat.lt_succ_r. apply length_filter.
  - exists 0%nat. intros fuel k _.
    unfold egraph_partition, partition_buckets. by rewrite Hs.
  - by destruct (partition_setup_fuel_free data).
Qed.

(** *** The sub-description written for a bucket *)

Lemma prune_children_keys tr (m : nodes_map) :
  om_keys (prune_children tr m) = om_keys m.
Proof.
  unfold prune_children, om_keys. rewrite map_map. simpl. done.
Qed.

Lemma prune_children_nodes tr (m : nodes_map) e' :
  e' ∈ all_nodes (prune_children tr m) ->
  exists e, e ∈ all_nodes m /\ fst e' = fst e /\
            eclass (snd e') = eclass (snd e) /\
            children (snd e')
            = match tr !! fst e with
              | Some l => filter (fun c => c ∉ l) (children (snd e))
              | None => children (snd e)
              end.
Proof.
  unfold all_nodes, prune_children. rewrite map_map. simpl.
  intros H. apply elem_of_concat in H as (inner' & He' & Hin).
  apply list_elem_of_fmap in Hin as ([k inner] & -> & Hin).
  apply list_elem_of_fmap in He' as (e & -> & He).
  exists e. split.
  - apply elem_of_concat. exists inner. split; [done|].
    apply list_elem_of_fmap. by exists (k, inner).
  - by destruct (tr !! fst e).
Qed.

Lemma split_inner_spec (m : nodes_map) (nid : NodeId) (l : list ClassId)
    (tr : gmap NodeId (list ClassId)) (sp : parent_links) :
  let r := fold_left
             (fun '(to_remove, subgraph_parents) child_eclass =>
                match om_find child_eclass m with
                | None =>
                    (<[nid := default [] (to_remove !! nid) ++ [child_eclass]]>
                       to_remove, subgraph_parents)
                | Some _ =>
                    (to_remove,
                     <[child_eclass := default [] (subgraph_parents !! child_eclass)
                                       ++ [nid]]> subgraph_parents)
                end) l (tr, sp) in
  (forall k l0 c, tr !! k = Some l0 -> c ∈ l0 ->
                  exists l1, fst r !! k = Some l1 /\ c ∈ l1) /\
  (forall c, c ∈ l -> om_find c m = None ->
             exists l1, fst r !! nid = Some l1 /\ c ∈ l1) /\
  (forall k l1 c, fst r !! k = Some l1 -> c ∈ l1 ->
                  (exists l0, tr !! k = Some l0 /\ c ∈ l0) \/
                  om_find c m = None) /\
  (forall c, c ∈ dom (snd r) -> c ∈ dom sp \/ is_Some (om_find c m)).
Proof.
  revert tr sp. induction l as [|x l IH]; intros tr sp; cbn [fold_left].
  - cbn [fst snd]. split; [by eauto|]. split.
    + intros c Hc. by apply elem_of_nil in Hc.
    + split; [by eauto|by left].
  - destruct (om_find x m) as [v|] eqn:E.
    + destruct (IH tr (<[x := default [] (sp !! x) ++ [nid]]> sp))
        as (H1 & H2 & H3 & H4).
      split; [done|]. split; [|split; [done|]].
      * intros c Hc Hnone. apply elem_of_cons in Hc as [->|Hc]; [congruence|].
        by apply H2.
      * intros c Hc. apply H4 in Hc as [Hc|?]; [|by right].
        rewrite dom_insert in Hc. apply elem_of_union in Hc as [Hc|?]; [|by left].
        apply elem_of_singleton in Hc as ->. right. by rewrite E.
    + destruct (IH (<[nid := default [] (tr !! nid) ++ [x]]> tr) sp)
        as (H1 & H2 & H3 & H4).
      split; [|split; [|split; [|done]]].
      * intros k l0 c Hk Hc. destruct (decide (k = nid)) as [->|Hne].
        -- apply (H1 nid (default [] (tr !! nid) ++ [x])).
           ++ by rewrite lookup_insert_eq.
           ++ rewrite Hk. simpl. apply elem_of_app. by left.
        -- apply (H1 k l0); [|done]. by rewrite lookup_insert_ne.
      * intros c Hc Hnone. apply elem_of_cons in Hc as [->|Hc]; [|by apply H2].
        apply (H1 nid (default [] (tr !! nid) ++ [x])).
        -- by rewrite lookup_insert_eq.
        -- apply elem_of_app. right. left.
      * intros k l1 c Hk Hc. destruct (H3 k l1 c Hk Hc) as [(l0 & Hl0 & Hc0)|?];
          [|by right].
        destruct (decide (k = nid)) as [->|Hne].
        -- rewrite lookup_insert_eq in Hl0. injection Hl0 as <-.
           apply elem_of_app in Hc0 as [Hc0|Hc0].
           ++ left. destruct (tr !! nid) as [l0|]; [by exists l0|].
              by apply elem_of_nil in Hc0.
           ++ apply list_elem_of_singleton in Hc0 as ->. by right.
        -- rewrite lookup_insert_ne in Hl0 by done. left. by exists l0.
Qed.

Lemma split_children_spec (m : nodes_map) :
  (forall e c, e ∈ all_nodes m -> c ∈ children (snd e) -> om_find c m = None ->
     exists l, fst (split_children m) !! fst e = Some l /\ c ∈ l) /\
  (forall k l c, fst (split_children m) !! k = Some l -> c ∈ l ->
     om_find c m = None) /\
  (forall c, c ∈ dom (snd (split_children m)) -> is_Some (om_find c m)).
Proof.
  unfold split_children. generalize (all_nodes m) as L. intros L.
  assert (G : forall (tr : gmap NodeId (list ClassId)) (sp : parent_links),
    let r := fold_left
      (fun acc entry =>
         fold_left
           (fun '(to_remove, subgraph_parents) child_eclass =>
              match om_find child_eclass m with
              | None =>
                  (<[fst entry := default [] (to_remove !! fst entry)
                                  ++ [child_eclass]]> to_remove,
                   subgraph_parents)
              | Some _ =>
                  (to_remove,
                   <[child_eclass := default [] (subgraph_parents !! child_eclass)
                                     ++ [fst entry]]> subgraph_parents)
              end)
           (children (snd entry)) acc) L (tr, sp) in
    (forall k l0 c, tr !! k = Some l0 -> c ∈ l0 ->
                    exists l1, fst r !! k = Some l1 /\ c ∈ l1) /\
    (forall e c, e ∈ L -> c ∈ children (snd e) -> om_find c m = None ->
                 exists l, fst r !! fst e = Some l /\ c ∈ l) /\
    (forall k l1 c, fst r !! k = Some l1 -> c ∈ l1 ->
                    (exists l0, tr !! k = Some l0 /\ c ∈ l0) \/
                    om_find c m = None) /\
    (forall c, c ∈ dom (snd r) -> c ∈ dom sp \/ is_Some (om_find c m))).
  { induction L as [|e L IH]; intros tr sp; cbn [fold_left].
    - cbn [fst snd]. split; [by eauto|]. split.
      + intros e c He. by apply elem_of_nil in He.
      + split; [by eauto|by left].
    - pose proof (split_inner_spec m (fst e) (children (snd e)) tr sp) as Hin.
      cbn zeta in Hin.
      destruct (fold_left _ (children (snd e)) (tr, sp)) as [tr1 sp1].
      cbn [fst snd] in Hin. destruct Hin as (A1 & A2 & A3 & A4).
      destruct (IH tr1 sp1) as (B1 & B2 & B3 & B4).
      split; [|split; [|split]].
      + intros k l0 c Hk Hc. destruct (A1 k l0 c Hk Hc) as (l1 & Hl1 & Hc1).
        by apply (B1 k l1).
      + intros e0 c He0 Hc Hnone. apply elem_of_cons in He0 as [->|He0].
        * destruct (A2 c Hc Hnone) as (l1 & Hl1 & Hc1). by apply (B1 _ l1).
        * by apply B2.
      + intros k l1 c Hk Hc. destruct (B3 k l1 c Hk Hc) as [(l0 & Hl0 & Hc0)|?];
          [|by right].
        by apply (A3 k l0).
      + intros c Hc. apply B4 in Hc as [Hc|?]; [|by right]. by apply A4. }
  destruct (G ∅ ∅) as (_ & G2 & G3 & G4). split; [exact G2|]. split.
  - intros k l c Hk Hc. destruct (G3 k l c Hk Hc) as [(l0 & Hl0 & _)|?]; [|done].
    by rewrite lookup_empty in Hl0.
  - intros c Hc. apply G4 in Hc as [Hc|?]; [|done].
    rewrite dom_empty in Hc. by apply elem_of_empty in Hc.
Qed.

Lemma prune_children_closed (m : nodes_map) :
  closed_nodes (prune_children (fst (split_children m)) m).
Proof.
  intros e' child He' Hc. rewrite prune_children_keys.
  apply prune_children_nodes in He' as (e & He & _ & _ & Hch).
  destruct (split_children_spec m) as (S1 & S2 & _).
  destruct (om_find child m) as [inner|] eqn:E.
  { apply om_find_is_Some. by rewrite E. }
  exfalso. rewrite Hch in Hc.
  destruct (fst (split_children m) !! fst e) as [l|] eqn:El.
  - apply list_elem_of_filter in Hc as [Hnl Hc].
    destruct (S1 e child He Hc E) as (l' & Hl' & Hin).
    rewrite El in Hl'. injection Hl' as <-. done.
  - destruct (S1 e child He Hc E) as (l' & Hl' & _). congruence.
Qed.

Lemma bucket_roots_elem (m : nodes_map) (sp : parent_links) r :
  r ∈ bucket_roots m sp -> r ∈ om_keys m.
Proof.
  unfold bucket_roots.
  assert (G : forall (l : nodes_map) acc,
    r ∈ fold_left (fun subgraph_root pair =>
                     match sp !! fst pair with
                     | None => oset_insert (fst pair) subgraph_root
                     | Some _ => subgraph_root
                     end) l acc ->
    r ∈ acc \/ r ∈ om_keys l).
  { induction l as [|p l IH]; intros acc; simpl; [by left|].
    intros H. apply IH in H as [H|H]; [|right; by right].
    destruct (sp !! fst p); [by left|].
    unfold oset_insert in H. destruct (decide _); [by left|].
    apply elem_of_app in H as [H|H]; [by left|].
    apply list_elem_of_singleton in H as ->. right. left. }
  intros H. apply G in H as [H|H]; [by apply elem_of_nil in H|done].
Qed.

Lemma all_nodes_set (k : ClassId) (v : node_map) (m : nodes_map) e :
  e ∈ all_nodes (om_set k v m) -> e ∈ v \/ e ∈ all_nodes m.
Proof.
  unfold all_nodes. intros H. apply elem_of_concat in H as (inner & He & Hin).
  apply list_elem_of_fmap in Hin as ([c inner'] & -> & Hin).
  apply om_set_elem in Hin as [[-> ->]|Hin]; [by left|]. right.
  apply elem_of_concat. exists inner'. split; [done|].
  apply list_elem_of_fmap. by exists (c, inner').
Qed.

Lemma om_keys_set_mono {V} (k : ClassId) (v : V) (m : omap ClassId V) c :
  c ∈ om_keys m -> c ∈ om_keys (om_set k v m).
Proof.
  intros Hc. rewrite om_keys_set. destruct (decide _); [done|].
  apply elem_of_app. by left.
Qed.

Lemma om_keys_set_new {V} (k : ClassId) (v : V) (m : omap ClassId V) :
  k ∈ om_keys (om_set k v m).
Proof.
  rewrite om_keys_set. destruct (decide _); [done|].
  apply elem_of_app. right. left.
Qed.

Lemma build_subgraph_closed mn ec idx sg ops ops' file :
  build_subgraph mn ec idx sg ops = Ok (ops', file) ->
  closed_nodes (d_nodes file) /\
  exists r, d_root_eclasses file = [r] /\ r ∈ om_keys (d_nodes file).
Proof.
  unfold build_subgraph.
  pose proof (prune_children_closed (collect_bucket mn ec sg)) as Hclosed.
  destruct (split_children (collect_bucket mn ec sg)) as [tr sp] eqn:Hsplit.
  cbn [fst] in Hclosed.
  set (m2 := prune_children tr (collect_bucket mn ec sg)) in *.
  pose proof (bucket_roots_elem m2 sp) as Hroots.
  destruct (bucket_roots m2 sp) as [|r1 [|r2 rs]] eqn:Hbr.
  - destruct (decide _); [done|done].
  - destruct (decide _); [|done]. intros [= <- <-]. simpl.
    split; [done|]. exists r1. split; [done|]. apply Hroots. left.
  - destruct (pseudo_root_op ops) as [ops1 op_idx].
    destruct (decide _); [|done]. intros [= <- <-]. simpl. split.
    + intros entry child He Hc. apply all_nodes_set in He as [He|He].
      * apply list_elem_of_singleton in He as ->. simpl in Hc.
        apply om_keys_set_mono. by apply Hroots.
      * apply om_keys_set_mono. by eapply Hclosed.
    + exists (sub_pseudo_root idx). split; [done|]. apply om_keys_set_new.
Qed.

Lemma build_subgraphs_lookup mn ec idx sgs ops ops' files i file :
  build_subgraphs mn ec idx sgs ops = Ok (ops', files) ->
  files !! i = Some file ->
  exists sg ops1 ops2,
    sgs !! i = Some sg /\
    build_subgraph mn ec (idx + i) sg ops1 = Ok (ops2, file).
Proof.
  revert idx ops ops' files i.
  induction sgs as [|sg sgs IH]; intros idx ops ops' files i; simpl.
  - intros [= <- <-] Hi. by rewrite lookup_nil in Hi.
  - intros H Hi. apply rbind_Ok in H as ([ops1 d] & Hd & H).
    apply rbind_Ok in H as ([ops2 fs] & Hfs & [= <- <-]).
    destruct i as [|i]; simpl in Hi.
    + injection Hi as <-. exists sg, ops, ops1. rewrite Nat.add_0_r. done.
    + destruct (IH _ _ _ _ _ Hfs Hi) as (sg' & o1 & o2 & Hsg & Hb).
      exists sg', o1, o2. split; [done|].
      by replace (idx + S i)%nat with (S idx + i)%nat by lia.
Qed.

Lemma build_subgraphs_length mn ec idx sgs ops ops' files :
  build_subgraphs mn ec idx sgs ops = Ok (ops', files) ->
  length files = length sgs.
Proof.
  revert idx ops ops' files.
  induction sgs as [|sg sgs IH]; intros idx ops ops' files; simpl.
  - by intros [= <- <-].
  - intros H. apply rbind_Ok in H as ([ops1 d] & Hd & H).
    apply rbind_Ok in H as ([ops2 fs] & Hfs & [= <- <-]).
    simpl. f_equal. by eapply IH.
Qed.

(** X22.  A successful [egraph_partition] writes one sub-description per
    bucket, and each of them is closed: every child reference of every node
    in it names a class of the same sub-description (references leaving the
    bucket have been cut), and its root list is a single class that the
    sub-description contains. *)
Theorem partition_files_closed (fuel : nat) (data : Data)
    (partition_num : nat) (out : partition) :
  egraph_partition fuel data partition_num = Ok out ->
  length (p_files out) = length (p_subgraphs out) /\
  forall file, file ∈ p_files out ->
    closed_nodes (d_nodes file) /\
    exists r, d_root_eclasses file = [r] /\ r ∈ om_keys (d_nodes file).
Proof.
  intros H. unfold egraph_partition in H.
  apply rbind_Ok in H as ([[[ops mn] ec] sgs] & _ & H).
  apply rbind_Ok in H as ([ops' files] & Hfiles & [= <-]).
  cbn [p_files p_subgraphs]. split; [by eapply build_subgraphs_length|].
  intros file Hfile. apply list_elem_of_lookup in Hfile as [i Hi].
  destruct (build_subgraphs_lookup _ _ _ _ _ _ _ _ _ Hfiles Hi)
    as (sg & o1 & o2 & _ & Hb).
  by eapply build_subgraph_closed.
Qed.

Lemma partition_files_closed_witness :
  exists out,
    egraph_partition 20 fan 2 = Ok out /\
    length (p_files out) = length (p_subgraphs out) /\
    forall file, file ∈ p_files out ->
      closed_nodes (d_nodes file) /\
      exists r, d_root_eclasses file = [r] /\ r ∈ om_keys (d_nodes file).
Proof.
  destruct (egraph_partition 20 fan 2) as [out| |] eqn:E;
    [|by vm_compute in E..].
  exists out. split; [done|].
  exact (partition_files_closed 20 fan 2 out E).
Defined.

(** *** The pseudo-root of a bucket *)

Lemma sub_put_nodes c nid node (m : nodes_map) e :
  e ∈ all_nodes (sub_put c nid node m) -> e = (nid, node) \/ e ∈ all_nodes m.
Proof.
  unfold sub_put. intros H. apply all_nodes_set in H as [H|H]; [|by right].
  destruct e as [k v]. apply om_set_elem in H.
  destruct H as [[-> ->]|H]; [by left|]. right.
  destruct (om_find c m) as [inner0|] eqn:E; simpl in H;
    [|by apply elem_of_nil in H].
  apply om_find_Some_elem in E. unfold all_nodes. apply elem_of_concat.
  exists inner0. split; [done|]. apply list_elem_of_fmap. by exists (c, inner0).
Qed.

Lemma collect_bucket_nodes mn (ec : eclass_collect_map) sg e :
  e ∈ all_nodes (collect_bucket mn ec sg) -> e ∈ all_nodes mn.
Proof.
  unfold collect_bucket.
  assert (G : forall (l : list ClassId) (acc : nodes_map),
    (forall x, x ∈ all_nodes acc -> x ∈ all_nodes mn) ->
    forall x,
      x ∈ all_nodes
        (fold_left
           (fun subgraph_map class_id =>
              match ec !! class_id, om_find class_id mn with
              | Some ids, Some inner =>
                  fold_left (fun subgraph_map node_id =>
                               match om_find node_id inner with
                               | Some node =>
                                   sub_put class_id node_id node subgraph_map
                               | None => subgraph_map
                               end) ids subgraph_map
              | _, _ => subgraph_map
              end) l acc) ->
      x ∈ all_nodes mn).
  { induction l as [|c l IH]; intros acc Hacc; simpl; [done|].
    apply IH. destruct (ec !! c) as [ids|]; [|done].
    destruct (om_find c mn) as [inner|] eqn:Ec; [|done].
    clear IH. revert acc Hacc.
    induction ids as [|nid ids IHi]; intros acc Hacc; simpl; [done|].
    apply IHi. destruct (om_find nid inner) as [node|] eqn:En; [|done].
    intros x Hx. apply sub_put_nodes in Hx as [->|Hx]; [|by apply Hacc].
    apply om_find_Some_elem in Ec, En. unfold all_nodes. apply elem_of_concat.
    exists inner. split; [done|]. apply list_elem_of_fmap. by exists (c, inner). }
  apply G. intros x Hx. unfold all_nodes in Hx. simpl in Hx.
  by apply elem_of_nil in Hx.
Qed.

Lemma build_subgraph_eclasses mn ec idx sg ops ops' file e :
  build_subgraph mn ec idx sg ops = Ok (ops', file) ->
  e ∈ all_nodes (d_nodes file) ->
  eclass (snd e) = PSEUDO_ROOT \/
  exists e0, e0 ∈ all_nodes mn /\ eclass (snd e) = eclass (snd e0).
Proof.
  unfold build_subgraph.
  destruct (split_children (collect_bucket mn ec sg)) as [tr sp].
  set (m2 := prune_children tr (collect_bucket mn ec sg)).
  assert (Hm2 : forall x, x ∈ all_nodes m2 ->
            exists e0, e0 ∈ all_nodes mn /\ eclass (snd x) = eclass (snd e0)).
  { intros x Hx. apply prune_children_nodes in Hx as (x0 & Hx0 & _ & Hecl & _).
    exists x0. split; [by eapply collect_bucket_nodes|done]. }
  destruct (bucket_roots m2 sp) as [|r1 [|r2 rs]].
  - destruct (decide _); [done|done].
  - destruct (decide _); [|done]. intros [= <- <-]. simpl. intros He.
    right. by apply Hm2.
  - destruct (pseudo_root_op ops) as [ops1 op_idx].
    destruct (decide _); [|done]. intros [= <- <-]. simpl. intros He.
    apply all_nodes_set in He as [He|He].
    + apply list_elem_of_singleton in He as ->. by left.
    + right. by apply Hm2.
Qed.

Lemma partition_setup_nodes data ops mn root e :
  partition_setup data = Ok (ops, mn, root) ->
  e ∈ all_nodes mn ->
  eclass (snd e) = PSEUDO_ROOT \/ e ∈ all_nodes (d_nodes data).
Proof.
  unfold partition_setup. intros H.
  apply rbind_Ok in H as (parents & _ & H). injection H as H.
  unfold add_pseudo_root in H.
  destruct (compute_roots (d_nodes data) parents) as [|r1 [|r2 rs]];
    [injection H as <- <- <-; by right..|].
  destruct (pseudo_root_op (d_op data)) as [ops1 op_idx].
  injection H as <- <- <-. intros He.
  apply all_nodes_set in He as [He|He]; [|by right].
  apply list_elem_of_singleton in He as ->. by left.
Qed.

(** X23.  When bucket [i] needs a pseudo-root, the sub-description written
    for it has the root class [UINT_MAX - 2 - i], but the pseudo-root node
    stored there declares class [UINT_MAX - 1].  Unless the description
    itself has a node declaring class [UINT_MAX - 2 - i], no choice table
    passes [check] on the graph read from that sub-description. *)
Theorem partition_pseudo_root_file_fails_check (fuel : nat) (data : Data)
    (partition_num : nat) (out : partition) (i : nat) (file : Data) :
  egraph_partition fuel data partition_num = Ok out ->
  p_files out !! i = Some file ->
  d_root_eclasses file = [sub_pseudo_root i] ->
  sub_pseudo_root i <> PSEUDO_ROOT ->
  (forall e, e ∈ all_nodes (d_nodes data) ->
             eclass (snd e) <> sub_pseudo_root i) ->
  forall fuel' choices, check fuel' (egraph_of_data file) choices <> Ok tt.
Proof.
  intros H Hi Hroot Hne Hdata fuel' choices Hcheck.
  unfold egraph_partition in H.
  apply rbind_Ok in H as ([[[ops mn] ec] sgs] & Hb & H).
  apply rbind_Ok in H as ([ops' files] & Hfiles & [= <-]).
  cbn [p_files] in Hi.
  destruct (build_subgraphs_lookup _ _ _ _ _ _ _ _ _ Hfiles Hi)
    as (sg & o1 & o2 & _ & Hfile).
  unfold partition_buckets in Hb.
  apply rbind_Ok in Hb as ([[ops0 mn0] root] & Hsetup & Hb).
  destruct (_ <=? _)%nat; [done|].
  apply rbind_Ok in Hb as (root0 & _ & Hb).
  apply rbind_Ok in Hb as (st & _ & Hb).
  destruct (decide _); [|done]. injection Hb as <- <- <- <-.
  rewrite check_unfold in Hcheck by (simpl; by rewrite Hroot).
  apply rbind_Ok in Hcheck as ([] & Hroots & Hcheck).
  apply rbind_Ok in Hcheck as (cycles & _ & Hcheck).
  destruct cycles; [|done].
  apply rbind_Ok in Hcheck as ([] & Hmatch & _).
  destruct (check_roots_spec (egraph_of_data file) choices)
    as [[_ Hall]|[[e1 He1] _]]; [|congruence].
  destruct (Hall (sub_pseudo_root i)) as [n Hn].
  { simpl. rewrite Hroot. left. }
  destruct (check_eclass_match_spec (egraph_of_data file) choices)
    as [[_ Hm]|[[e2 He2] _]]; [|congruence].
  destruct (Hm _ _ (om_find_Some_elem _ _ _ Hn)) as (node & Hget & Hecl).
  apply egraph_get_elem in Hget. cbn [egraph_of_data nodes] in Hget.
  destruct (build_subgraph_eclasses _ _ _ _ _ _ _ _ Hfile Hget)
    as [Hp|(e0 & He0 & Heq)]; cbn [snd] in *.
  - congruence.
  - destruct (partition_setup_nodes _ _ _ _ _ Hsetup He0) as [Hp|Hd].
    + congruence.
    + apply (Hdata e0 Hd). congruence.
Qed.

Lemma partition_pseudo_root_file_fails_check_witness :
  exists out file,
    egraph_partition 20 fan 2 = Ok out /\
    p_files out !! 1%nat = Some file /\
    d_root_eclasses file = [sub_pseudo_root 1] /\
    forall fuel' choices, check fuel' (egraph_of_data file) choices <> Ok tt.
Proof.
  assert (Hc : match egraph_partition 20 fan 2 with
               | Ok o => match p_files o !! 1%nat with
                         | Some f => bool_decide
                                       (d_root_eclasses f = [sub_pseudo_root 1])
                         | None => false
                         end
               | _ => false
               end = true) by (vm_compute; reflexivity).
  destruct (egraph_partition 20 fan 2) as [out| |] eqn:E; [|done..].
  destruct (p_files out !! 1%nat) as [file|] eqn:Ef; [|done].
  apply bool_decide_eq_true in Hc.
  exists out, file. split; [done|]. split; [done|]. split; [done|].
  apply (partition_pseudo_root_file_fails_check 20 fan 2 out 1 file E Ef Hc).
  - vm_compute. discriminate.
  - intros e He. vm_compute in He.
    repeat (apply elem_of_cons in He as [->|He]; [vm_compute; discriminate|]).
    apply elem_of_nil in He. contradiction.
Defined.

(** ** Serialization (egraph_serialize.hpp) *)

(** *** Decimal keys *)

Lemma digit_char_code d :
  (d < 10)%N -> Ascii.N_of_ascii (digit_char d) = (48 + d)%N.
Proof.
  intros Hd. unfold digit_char. apply Ascii.N_ascii_embedding. lia.
Qed.

Lemma digit_of_char d : (d < 10)%N -> digit_of (digit_char d) = Some d.
Proof.
  intros Hd. unfold digit_of. rewrite digit_char_code by done.
  replace (48 <=? 48 + d)%N with true by (symmetry; apply N.leb_le; lia).
  replace (48 + d <=? 57)%N with true by (symmetry; apply N.leb_le; lia).
  simpl. f_equal. lia.
Qed.

Lemma digit_char_no_space d : (d < 10)%N -> is_space (digit_char d) = false.
Proof.
  intros Hd. unfold is_space. rewrite digit_char_code by done.
  replace (48 + d =? 32)%N with false by (symmetry; apply N.eqb_neq; lia).
  replace (9 <=? 48 + d)%N with true by (symmetry; apply N.leb_le; lia).
  replace (48 + d <=? 13)%N with false by (symmetry; apply N.leb_gt; lia).
  done.
Qed.

Lemma read_digits_chars ds acc :
  Forall (fun d => (d < 10)%N) ds ->
  read_digits (map digit_char ds) acc =
  (fold_left (fun a d => (a * 10 + d)%N) ds acc, length ds).
Proof.
  intros Hds. revert acc. induction Hds as [|d ds Hd _ IH]; intros acc.
  - reflexivity.
  - cbn [map read_digits fold_left length]. rewrite digit_of_char by done.
    by rewrite IH.
Qed.

Lemma to_digits_spec f n :
  (n < 2 ^ N.of_nat f)%N ->
  Forall (fun d => (d < 10)%N) (to_digits (S f) n) /\
  to_digits (S f) n <> [] /\
  fold_left (fun a d => (a * 10 + d)%N) (to_digits (S f) n) 0%N = n.
Proof.
  revert n. induction f as [|f IH]; intros n Hn.
  - assert (n = 0%N) as -> by (simpl in Hn; lia).
    cbn. split; [|done]. by repeat constructor.
  - change (to_digits (S (S f)) n)
      with (if (n <? 10)%N then [n]
            else to_digits (S f) (n / 10)%N ++ [(n mod 10)%N]).
    destruct (N.ltb_spec n 10) as [Hlt|Hge].
    + split; [by repeat constructor|]. split; [done|]. cbn. lia.
    + rewrite Nat2N.inj_succ, N.pow_succ_r' in Hn.
      assert (Hq : (n / 10 < 2 ^ N.of_nat f)%N).
      { apply N.Div0.div_lt_upper_bound. lia. }
      destruct (IH _ Hq) as (Hall & _ & Hval).
      split; [|split].
      * apply Forall_app. split; [done|]. repeat constructor.
        apply N.mod_lt. lia.
      * intros Hnil. by apply app_eq_nil in Hnil as [_ ?].
      * rewrite fold_left_app, Hval. cbn.
        pose proof (N.Div0.div_mod n 10). lia.
Qed.

Lemma size_nat_bound n : (n < 2 ^ N.of_nat (N.size_nat n))%N.
Proof.
  destruct n as [|p]; [done|]. cbn [N.size_nat].
  induction p as [p IH|p IH|]; cbn [Pos.size_nat];
    rewrite ?Nat2N.inj_succ, ?N.pow_succ_r'; lia.
Qed.

Lemma to_string_chars n :
  exists ds, Forall (fun d => (d < 10)%N) ds /\ ds <> [] /\
    fold_left (fun a d => (a * 10 + d)%N) ds 0%N = n /\
    to_string n = String.string_of_list_ascii (map digit_char ds).
Proof.
  destruct (to_digits_spec _ _ (size_nat_bound n)) as (H1 & H2 & H3).
  by exists (to_digits (S (N.size_nat n)) n).
Qed.

Lemma string_of_list_length l :
  String.length (String.string_of_list_ascii l) = length l.
Proof. induction l as [|c l IH]; simpl; [done|]. by rewrite IH. Qed.

Lemma stoul_to_string_any n :
  stoul (to_string n) =
  if (ULONG_MAX <? n)%N then JThrow StoulOutOfRange
  else JOk (n, String.length (to_string n)).
Proof.
  destruct (to_string_chars n) as (ds & Hall & Hne & Hval & ->).
  unfold stoul. rewrite String.list_ascii_of_string_of_list_ascii.
  rewrite string_of_list_length, length_map.
  destruct ds as [|d ds]; [done|]. apply Forall_cons in Hall as Hall'.
  destruct Hall' as [Hd Hds].
  cbn [map skip_spaces]. rewrite digit_char_no_space by done.
  rewrite digit_char_code by done.
  replace (48 + d =? 45)%N with false by (symmetry; apply N.eqb_neq; lia).
  replace (48 + d =? 43)%N with false by (symmetry; apply N.eqb_neq; lia).
  change (digit_char d :: map digit_char ds) with (map digit_char (d :: ds)).
  rewrite read_digits_chars by done. rewrite Hval. cbn [length].
  by destruct (ULONG_MAX <? n)%N.
Qed.

Lemma stoul_to_string n :
  (n <= ULONG_MAX)%N ->
  stoul (to_string n) = JOk (n, String.length (to_string n)).
Proof.
  intros Hn. rewrite stoul_to_string_any.
  by replace (ULONG_MAX <? n)%N with false by (symmetry; apply N.ltb_ge; lia).
Qed.

Lemma key_to_uint_to_string n :
  (n <= UINT_MAX)%N -> key_to_uint (to_string n) = JOk n.
Proof.
  intros Hn. unfold key_to_uint. rewrite stoul_to_string.
  - cbn [jbind]. f_equal. apply N.mod_small. unfold UINT_MAX in Hn. lia.
  - unfold ULONG_MAX, UINT_MAX in *. lia.
Qed.

Lemma to_string_inj n m :
  (n <= UINT_MAX)%N -> (m <= UINT_MAX)%N -> to_string n = to_string m -> n = m.
Proof.
  intros Hn Hm Heq. apply key_to_uint_to_string in Hn, Hm.
  rewrite Heq in Hn. congruence.
Qed.

(** *** The key order of an object *)

Lemma string_ltb_lt a b :
  String.ltb a b = true <-> OrderedTypeEx.String_as_OT.lt a b.
Proof.
  rewrite <- OrderedTypeEx.String_as_OT.cmp_lt.
  unfold String.ltb, OrderedTypeEx.String_as_OT.cmp.
  destruct (String.compare a b); split; congruence.
Qed.

Lemma string_ltb_irrefl k : String.ltb k k = false.
Proof.
  destruct (String.ltb k k) eqn:E; [|done]. apply string_ltb_lt in E.
  by apply OrderedTypeEx.String_as_OT.lt_not_eq in E.
Qed.

Lemma string_ltb_trans a b c :
  String.ltb a b = true -> String.ltb b c = true -> String.ltb a c = true.
Proof.
  rewrite !string_ltb_lt. apply OrderedTypeEx.String_as_OT.lt_trans.
Qed.

Lemma string_ltb_total a b :
  a <> b -> String.ltb a b = false -> String.ltb b a = true.
Proof.
  intros Hne. unfold String.ltb.
  pose proof (OrderedTypeEx.String_as_OT.cmp_antisym a b) as Ha.
  pose proof (OrderedTypeEx.String_as_OT.cmp_eq b a) as He.
  unfold OrderedTypeEx.String_as_OT.cmp in *. rewrite Ha.
  destruct (String.compare b a); simpl; try done.
  exfalso. apply Hne. symmetry. by apply He.
Qed.

Section KeyOrder.
Context {A : Type} (key : A -> string) (val : A -> json).

Lemma obj_set_map a es :
  key a ∉ map key es ->
  exists es', es' ≡ₚ a :: es /\
    obj_set (key a) (val a) (map (fun x => (key x, val x)) es) =
    map (fun x => (key x, val x)) es'.
Proof.
  unfold obj_set. induction es as [|b es IH]; intros Hnotin.
  - by exists [a].
  - apply not_elem_of_cons in Hnotin as [Hne Hnotin].
    cbn [map sm_update]. rewrite decide_False by done.
    destruct (String.ltb (key a) (key b)).
    + by exists (a :: b :: es).
    + destruct (IH Hnotin) as (es' & Hp & ->).
      exists (b :: es'). split; [|done]. rewrite Hp. apply Permutation_swap.
Qed.

Lemma members_fold l es0 :
  NoDup (map key (es0 ++ l)) ->
  exists es, es ≡ₚ es0 ++ l /\
    fold_left (fun m a => obj_set (key a) (val a) m) l
              (map (fun x => (key x, val x)) es0) =
    map (fun x => (key x, val x)) es.
Proof.
  revert es0. induction l as [|a l IH]; intros es0 Hnd.
  - exists es0. by rewrite app_nil_r.
  - cbn [fold_left]. rewrite map_app in Hnd. cbn [map] in Hnd.
    destruct (obj_set_map a es0) as (es1 & Hp1 & ->).
    { apply NoDup_app in Hnd as (_ & Hd & _). intros Hin.
      apply (Hd _ Hin). left. }
    destruct (IH es1) as (es & Hp & ->).
    { rewrite map_app, Hp1. cbn [map app]. rewrite Permutation_middle.
      exact Hnd. }
    exists es. split; [|done]. rewrite Hp, Hp1. cbn [app].
    apply Permutation_middle.
Qed.

Lemma members_sorted l m0 :
  sm_sorted String.ltb m0 ->
  sm_sorted String.ltb
    (fold_left (fun m a => obj_set (key a) (val a) m) l m0).
Proof.
  revert m0. induction l as [|a l IH]; intros m0 Hs; [done|].
  cbn [fold_left]. apply IH.
  apply sm_update_sorted;
    first [exact string_ltb_irrefl | exact string_ltb_trans
          | exact string_ltb_total | exact Hs].
Qed.

Lemma sm_sorted_map es :
  sm_sorted String.ltb (map (fun x => (key x, val x)) es) <->
  in_key_order key es.
Proof.
  unfold sm_sorted, in_key_order. induction es as [|a es IH]; cbn [map].
  - split; constructor.
  - split; intros H; apply StronglySorted_inv in H as [H1 H2];
      (apply SSorted_cons; [by apply IH|]).
    + rewrite List.Forall_map in H2. exact H2.
    + rewrite List.Forall_map. exact H2.
Qed.

Lemma key_order_unique es l :
  es ≡ₚ l -> in_key_order key es -> in_key_order key l -> es = l.
Proof.
  unfold in_key_order. revert l.
  induction es as [|a es IH]; intros l Hp Hs Hl.
  - symmetry. by apply Permutation_nil.
  - destruct l as [|b l]; [symmetry in Hp; by apply Permutation_nil in Hp|].
    apply StronglySorted_inv in Hs as [Hs Ha].
    apply StronglySorted_inv in Hl as [Hl Hb].
    rewrite List.Forall_forall in Ha, Hb.
    assert (a = b) as ->.
    { assert (Hain : a ∈ b :: l) by (rewrite <- Hp; left).
      assert (Hbin : b ∈ a :: es) by (rewrite Hp; left).
      apply elem_of_cons in Hain as [?|Hain]; [done|].
      apply elem_of_cons in Hbin as [?|Hbin]; [done|].
      apply list_elem_of_In in Hain, Hbin.
      pose proof (string_ltb_trans _ _ _ (Ha _ Hbin) (Hb _ Hain)) as Hc.
      by rewrite string_ltb_irrefl in Hc. }
    f_equal. apply IH; [|done|done]. by apply Permutation_cons_inv in Hp.
Qed.

Lemma members_spec l :
  NoDup (map key l) ->
  exists es, es ≡ₚ l /\ in_key_order key es /\
    fold_left (fun m a => obj_set (key a) (val a) m) l [] =
    map (fun x => (key x, val x)) es.
Proof.
  intros Hnd. destruct (members_fold l [] Hnd) as (es & Hp & Heq).
  exists es. split; [done|]. split; [|done].
  apply sm_sorted_map. cbn [map] in Heq. rewrite <- Heq.
  apply members_sorted. constructor.
Qed.
End KeyOrder.

(** *** One node *)

Lemma node_member_fields (nid op ch ec co : json) :
  let m := obj_set "nid" nid
             (obj_set "cost" co
                (obj_set "eclass" ec
                   (obj_set "children" ch (obj_set "op" op [])))) in
  om_find "op"%string m = Some op /\ om_find "children"%string m = Some ch /\
  om_find "eclass"%string m = Some ec /\ om_find "cost"%string m = Some co.
Proof. vm_compute. done. Qed.

Lemma get_uint32_small n :
  (n <= UINT_MAX)%N -> j_get_uint32 (JUInt n) = JOk n.
Proof.
  intros Hn. cbn [j_get_uint32]. f_equal. apply N.mod_small.
  unfold UINT_MAX in Hn. lia.
Qed.

Lemma jmap_uints (get : json -> jres N) l :
  (forall n, (n <= UINT_MAX)%N -> get (JUInt n) = JOk n) ->
  Forall (fun c => (c <= UINT_MAX)%N) l ->
  jmap get (map JUInt l) = JOk l.
Proof.
  intros Hget Hl. induction Hl as [|n l Hn _ IH]; [done|].
  cbn [map jmap]. rewrite Hget by done. cbn [jbind]. by rewrite IH.
Qed.

Lemma jmap_strings l : jmap j_get_string (map JString l) = JOk l.
Proof. induction l as [|s l IH]; [done|]. cbn. by rewrite IH. Qed.

Lemma node_of_member e :
  node_fits (snd e) -> node_of_json (node_member e) = JOk (snd e).
Proof.
  destruct e as [nid [o ch ec co]]. intros (Ho & Hch & Hec). cbn in Ho, Hch, Hec.
  unfold node_member, node_fields, node_of_json. cbn [fst snd op children eclass cost].
  destruct (node_member_fields (json_of_nid nid) (JUInt o)
              (JArray (map JUInt ch)) (JUInt ec) (JFloat co))
    as (H1 & H2 & H3 & H4).
  cbn [j_at]. rewrite H1, H2, H3, H4. cbn [jbind].
  rewrite get_uint32_small by done. cbn [jbind j_get_vector].
  rewrite (jmap_uints j_get_uint32) by (done || apply get_uint32_small).
  cbn [jbind id_of_json]. rewrite get_uint32_small by done.
  reflexivity.
Qed.

(** *** One class *)

Lemma om_set_new {K V} `{EqDecision K} (k : K) (v : V) (m : omap K V) :
  k ∉ om_keys m -> om_set k v m = m ++ [(k, v)].
Proof.
  unfold om_keys. induction m as [|[k' v'] m IH]; intros Hk; [done|].
  cbn [map fst] in Hk. apply not_elem_of_cons in Hk as [Hne Hk].
  cbn [om_set app]. rewrite decide_False by done. by rewrite IH.
Qed.

Lemma om_set_last {K V} `{EqDecision K} (k : K) (v w : V) (m : omap K V) :
  k ∉ om_keys m -> om_set k v (m ++ [(k, w)]) = m ++ [(k, v)].
Proof.
  unfold om_keys. induction m as [|[k' v'] m IH]; intros Hk.
  - cbn. by rewrite decide_True.
  - cbn [map fst] in Hk. apply not_elem_of_cons in Hk as [Hne Hk].
    cbn [om_set app]. rewrite decide_False by done. by rewrite IH.
Qed.

Lemma emplace_fold c es :
  forall ns0 pre,
    c ∉ om_keys ns0 -> NoDup (om_keys (pre ++ es)) ->
    fold_left (fun ns e => emplace_node c (fst e) (snd e) ns) es
              (ns0 ++ [(c, pre)]) =
    ns0 ++ [(c, pre ++ es)].
Proof.
  induction es as [|[nid node] es IH]; intros ns0 pre Hc Hnd.
  - by rewrite app_nil_r.
  - cbn [fold_left fst snd]. unfold emplace_node at 2.
    rewrite om_find_app.
    rewrite (proj2 (om_find_None_notin c ns0) Hc).
    cbn [om_find]. rewrite decide_True by done. cbn [default].
    unfold om_insert.
    assert (Hnew : om_find nid pre = None).
    { apply om_find_None_notin. unfold om_keys in *.
      rewrite map_app in Hnd. apply NoDup_app in Hnd as (_ & Hd & _).
      intros Hin. apply (Hd _ Hin). left. }
    unfold id. rewrite Hnew, om_set_last by done.
    rewrite IH; [|done|].
    + by rewrite <- app_assoc.
    + by rewrite <- app_assoc.
Qed.

Lemma emplace_fold_new c e es ns0 :
  c ∉ om_keys ns0 -> NoDup (om_keys (e :: es)) ->
  fold_left (fun ns e => emplace_node c (fst e) (snd e) ns) (e :: es) ns0 =
  ns0 ++ [(c, e :: es)].
Proof.
  intros Hc Hnd. destruct e as [nid node]. cbn [fold_left fst snd].
  unfold emplace_node at 2.
  rewrite (proj2 (om_find_None_notin c ns0) Hc). cbn [default].
  unfold om_insert, id. cbn [om_find app]. rewrite om_set_new by done.
  by rewrite (emplace_fold c es ns0 [(nid, node)]).
Qed.

Lemma read_nodes c es :
  (forall e, e ∈ es ->
     fst (fst e) = c /\ (snd (fst e) <= UINT_MAX)%N /\ node_fits (snd e)) ->
  forall ns,
    jfor_each (fun inner ns =>
                 let+ num2 := key_to_uint (fst inner) in
                 let+ node := node_of_json (snd inner) in
                 JOk (emplace_node c (c, num2) node ns))
              (map (fun x => (node_key x, node_member x)) es) ns =
    JOk (fold_left (fun ns e => emplace_node c (fst e) (snd e) ns) es ns).
Proof.
  induction es as [|e es IH]; intros Hes ns; [done|].
  destruct (Hes e) as (Hc & Hn & Hfit); [left|].
  cbn [map jfor_each fst snd fold_left]. unfold node_key at 1.
  rewrite key_to_uint_to_string by done. cbn [jbind].
  rewrite node_of_member by done. cbn [jbind].
  replace (c, snd (fst e)) with (fst e) by (destruct e as [[? ?] ?]; by subst).
  apply IH. intros e' He'. apply Hes. by right.
Qed.

Lemma node_keys_NoDup c (inner : node_map) :
  NoDup (om_keys inner) ->
  (forall e, e ∈ inner -> fst (fst e) = c /\ (snd (fst e) <= UINT_MAX)%N) ->
  NoDup (map node_key inner).
Proof.
  unfold om_keys. induction inner as [|e inner IH]; intros Hnd Hin.
  - constructor.
  - cbn [map] in *. apply NoDup_cons in Hnd as [Hnotin Hnd].
    apply NoDup_cons. split.
    + intros He. apply list_elem_of_fmap in He as (e' & Hk & He').
      apply Hnotin. apply list_elem_of_fmap. exists e'. split; [|done].
      destruct (Hin e) as [H1 H2]; [left|].
      destruct (Hin e') as [H1' H2']; [by right|].
      apply to_string_inj in Hk; [|done..].
      destruct e as [[? ?] ?], e' as [[? ?] ?]. cbn in *. congruence.
    + apply IH; [done|]. intros e' He'. apply Hin. by right.
Qed.

Lemma read_class_spec c (inner : node_map) ns :
  (c <= UINT_MAX)%N -> c ∉ om_keys ns -> inner <> [] ->
  NoDup (om_keys inner) ->
  (forall e, e ∈ inner ->
     fst (fst e) = c /\ (snd (fst e) <= UINT_MAX)%N /\ node_fits (snd e)) ->
  exists es, es ≡ₚ inner /\ in_key_order node_key es /\
    read_class (to_string c, JObject (class_members inner)) ns =
    JOk (ns ++ [(c, es)]).
Proof.
  intros Hc Hnew Hne Hnd Hin.
  destruct (members_spec node_key node_member inner) as (es & Hp & Hs & Heq).
  { apply (node_keys_NoDup c); [done|]. intros e He.
    destruct (Hin e He) as (? & ? & _). done. }
  exists es. split; [done|]. split; [done|].
  unfold read_class. cbn [fst snd].
  rewrite key_to_uint_to_string by done. cbn [jbind j_items].
  change (class_members inner)
    with (fold_left (fun m a => obj_set (node_key a) (node_member a) m)
                    inner []).
  rewrite Heq, read_nodes.
  - f_equal. destruct es as [|e es].
    + apply Permutation_nil in Hp. by subst.
    + apply emplace_fold_new; [done|]. unfold om_keys. rewrite Hp. exact Hnd.
  - intros e He. apply Hin. by rewrite <- Hp.
Qed.

(** *** The whole description *)

Lemma read_classes ks :
  forall acc,
    NoDup (om_keys (acc ++ ks)) ->
    (forall c inner, (c, inner) ∈ ks ->
       (c <= UINT_MAX)%N /\ inner <> [] /\ NoDup (om_keys inner) /\
       forall nid n, (nid, n) ∈ inner ->
         fst nid = c /\ (snd nid <= UINT_MAX)%N /\ node_fits n) ->
    exists out,
      Forall2 (fun kv kv' => fst kv' = fst kv /\ snd kv' ≡ₚ snd kv /\
                             in_key_order node_key (snd kv')) ks out /\
      jfor_each read_class
        (map (fun kv => (class_key kv, JObject (class_members (snd kv)))) ks)
        acc = JOk (acc ++ out).
Proof.
  induction ks as [|[c inner] ks IH]; intros acc Hnd Hok.
  - exists []. split; [constructor|]. by rewrite app_nil_r.
  - destruct (Hok c inner) as (Hc & Hne & Hndi & Hin); [left|].
    destruct (read_class_spec c inner acc) as (es & Hp & Hs & Hrd);
      [done| |done|done| |].
    { unfold om_keys in *. rewrite map_app in Hnd.
      apply NoDup_app in Hnd as (_ & Hd & _). intros Hx.
      apply (Hd _ Hx). left. }
    { intros [nid n] He. by apply Hin. }
    destruct (IH (acc ++ [(c, es)])) as (out & HF & Hloop).
    { unfold om_keys in *. rewrite <- app_assoc. rewrite !map_app in *.
      exact Hnd. }
    { intros c' inner' H'. apply Hok. by right. }
    exists ((c, es) :: out). split; [by constructor|].
    cbn [map jfor_each]. unfold class_key at 1. cbn [fst snd].
    rewrite Hrd. cbn [jbind]. rewrite Hloop. by rewrite <- app_assoc.
Qed.

Lemma class_keys_NoDup (ns : nodes_map) :
  NoDup (om_keys ns) ->
  (forall kv, kv ∈ ns -> (fst kv <= UINT_MAX)%N) ->
  NoDup (map class_key ns).
Proof.
  unfold om_keys. induction ns as [|kv ns IH]; intros Hnd Hin.
  - constructor.
  - cbn [map] in *. apply NoDup_cons in Hnd as [Hnotin Hnd].
    apply NoDup_cons. split.
    + intros He. apply list_elem_of_fmap in He as (kv' & Hk & He').
      apply Hnotin. apply list_elem_of_fmap. exists kv'. split; [|done].
      apply to_string_inj in Hk; [done| |].
      * apply Hin. left.
      * apply Hin. by right.
    + apply IH; [done|]. intros kv' He'. apply Hin. by right.
Qed.

Lemma data_fields (ops roots ns cd : json) :
  let m := obj_set "op" ops
             (obj_set "root_eclasses" roots
                (obj_set "nodes" ns (obj_set "class_data" cd []))) in
  om_find "nodes"%string m = Some ns /\
  om_find "root_eclasses"%string m = Some roots /\
  om_find "op"%string m = Some ops.
Proof. vm_compute. done. Qed.

Lemma elements_of_array l : j_elements (JArray l) = l.
Proof.
  unfold j_elements, j_items.
  assert (G : forall (g : nat -> nat),
             map snd (imap (fun i v => (to_string (N.of_nat (g i)), v)) l) = l).
  { induction l as [|x l IH]; intros g; [done|].
    cbn. f_equal. apply (IH (fun i => g (S i))). }
  apply (G (fun i => i)).
Qed.

Lemma id_of_uint f n :
  (n <= UINT_MAX)%N -> id_of_json f (JUInt n) = JOk n.
Proof. intros Hn. cbn [id_of_json]. by apply get_uint32_small. Qed.

Lemma round_trip_core d :
  serializable d ->
  exists ks out,
    ks ≡ₚ d_nodes d /\ in_key_order class_key ks /\
    Forall2 (fun kv kv' => fst kv' = fst kv /\ snd kv' ≡ₚ snd kv /\
                           in_key_order node_key (snd kv')) ks out /\
    data_of_json (json_of_data d) =
    JOk (mkData out (d_root_eclasses d) (d_op d)).
Proof.
  intros (Hnd & Hroots & Hok).
  destruct (members_spec class_key
              (fun kv => JObject (class_members (snd kv))) (d_nodes d))
    as (ks & Hp & Hs & Heq).
  { apply class_keys_NoDup; [done|]. intros [c inner] Hin.
    by destruct (Hok c inner Hin). }
  destruct (read_classes ks []) as (out & HF & Hloop).
  { cbn [app]. unfold om_keys. rewrite Hp. exact Hnd. }
  { intros c inner Hin. apply Hok. by rewrite <- Hp. }
  exists ks, out. split; [done|]. split; [done|]. split; [done|].
  unfold json_of_data, data_of_json.
  destruct (data_fields (JArray (map JString (d_op d)))
              (JArray (map JUInt (d_root_eclasses d)))
              (JObject (nodes_members (d_nodes d))) (JObject []))
    as (H1 & H2 & H3).
  cbn [j_at]. rewrite H1, H2, H3. cbn [jbind j_items].
  change (nodes_members (d_nodes d))
    with (fold_left (fun m a => obj_set (class_key a)
                                  (JObject (class_members (snd a))) m)
                    (d_nodes d) []).
  rewrite Heq, Hloop. cbn [jbind app].
  rewrite elements_of_array.
  rewrite (jmap_uints (id_of_json F_root_eclasses))
    by (done || apply id_of_uint).
  cbn [jbind j_get_vector]. by rewrite jmap_strings.
Qed.

(** Consequences of the permutation the round trip applies. *)

Lemma om_find_perm {K V} `{EqDecision K} (m m' : omap K V) k :
  NoDup (om_keys m) -> m ≡ₚ m' -> om_find k m = om_find k m'.
Proof.
  intros Hnd Hp.
  assert (Hnd' : NoDup (om_keys m')) by (unfold om_keys in *; by rewrite <- Hp).
  destruct (om_find k m) as [v|] eqn:E.
  - apply om_find_Some_elem in E. rewrite Hp in E.
    symmetry. by apply om_find_elem_NoDup.
  - symmetry. apply om_find_None_notin. apply om_find_None_notin in E.
    unfold om_keys in *. by rewrite <- Hp.
Qed.

Lemma key_order_Forall2 {A B} (ka : A -> string) (kb : B -> string) la lb :
  Forall2 (fun a b => kb b = ka a) la lb ->
  in_key_order ka la -> in_key_order kb lb.
Proof.
  unfold in_key_order. induction 1 as [|a b la lb Hab HF IH]; intros Hs.
  - constructor.
  - apply StronglySorted_inv in Hs as [Hs Ha].
    apply SSorted_cons; [by apply IH|].
    apply List.Forall_forall. intros b' Hb'. apply list_elem_of_In in Hb'.
    apply list_elem_of_lookup in Hb' as [i Hi].
    destruct (Forall2_lookup_r _ _ _ _ _ HF Hi) as (a' & Hi' & Hk).
    rewrite Hab, Hk. rewrite List.Forall_forall in Ha. apply Ha.
    apply list_elem_of_In. by eapply list_elem_of_lookup_2.
Qed.

Lemma round_trip_file_order (ks out : nodes_map) :
  in_key_order class_key ks ->
  Forall2 (fun kv kv' => fst kv' = fst kv /\ snd kv' ≡ₚ snd kv /\
                         in_key_order node_key (snd kv')) ks out ->
  in_file_order out.
Proof.
  intros Hs HF. split.
  - apply (key_order_Forall2 class_key class_key ks out); [|done].
    eapply Forall2_impl; [exact HF|]. intros kv kv' (Hk & _).
    unfold class_key. by rewrite Hk.
  - intros c inner Hin. apply list_elem_of_lookup in Hin as [i Hi].
    destruct (Forall2_lookup_r _ _ _ _ _ HF Hi) as (kv & _ & _ & _ & Ho).
    exact Ho.
Qed.

Lemma round_trip_find (ks out : nodes_map) c :
  Forall2 (fun kv kv' => fst kv' = fst kv /\ snd kv' ≡ₚ snd kv /\
                         in_key_order node_key (snd kv')) ks out ->
  match om_find c ks, om_find c out with
  | Some es, Some es' => es' ≡ₚ es
  | None, None => True
  | _, _ => False
  end.
Proof.
  induction 1 as [|[k es] [k' es'] ks out (Hk & Hp & _) HF IH]; [done|].
  cbn in Hk, Hp. subst k'. cbn [om_find].
  destruct (decide (c = k)); [done|exact IH].
Qed.

Lemma round_trip_lookup d (ks out : nodes_map) nid :
  serializable d -> ks ≡ₚ d_nodes d ->
  Forall2 (fun kv kv' => fst kv' = fst kv /\ snd kv' ≡ₚ snd kv /\
                         in_key_order node_key (snd kv')) ks out ->
  nodes_get out nid = nodes_get (d_nodes d) nid.
Proof.
  intros (Hnd & _ & Hok) Hp HF. unfold nodes_get.
  rewrite (om_find_perm (d_nodes d) ks (fst nid)) by done.
  pose proof (round_trip_find ks out (fst nid) HF) as Hf.
  destruct (om_find (fst nid) ks) as [es|] eqn:E,
           (om_find (fst nid) out) as [es'|]; try done.
  cbn [of_option rbind]. f_equal. symmetry. apply om_find_perm; [|done].
  apply om_find_Some_elem in E. rewrite Hp in E.
  by destruct (Hok _ _ E) as (_ & _ & ? & _).
Qed.

Lemma round_trip_serializable d (ks out : nodes_map) :
  serializable d -> ks ≡ₚ d_nodes d ->
  Forall2 (fun kv kv' => fst kv' = fst kv /\ snd kv' ≡ₚ snd kv /\
                         in_key_order node_key (snd kv')) ks out ->
  serializable (mkData out (d_root_eclasses d) (d_op d)).
Proof.
  intros (Hnd & Hroots & Hok) Hp HF. split; [|split; [done|]]; cbn.
  - assert (Hk : map fst out = map fst ks).
    { clear Hp. induction HF as [|? ? ? ? (Hk & _) _ IH]; [done|].
      cbn. by rewrite Hk, IH. }
    unfold om_keys in *. rewrite Hk. by rewrite Hp.
  - intros c inner' Hin. apply list_elem_of_lookup in Hin as [i Hi].
    destruct (Forall2_lookup_r _ _ _ _ _ HF Hi)
      as ([c0 inner] & Hi' & Hk & Hpi & _).
    cbn in Hk, Hpi. subst c0.
    assert (Hin : (c, inner) ∈ d_nodes d).
    { rewrite <- Hp. by eapply list_elem_of_lookup_2. }
    destruct (Hok _ _ Hin) as (Hc & Hne & Hndi & Hall).
    split; [done|]. split; [|split].
    + intros ->. by apply Permutation_nil in Hpi.
    + unfold om_keys in *. by rewrite Hpi.
    + intros nid n He. apply Hall. by rewrite <- Hpi.
Qed.

(** X26. Writing a description whose numbers fit [unsigned int] and whose
    classes are non-empty to a JSON document and reading the document back
    succeeds.  The description read has the same roots and operator table,
    answers every node lookup as the original does, is again writable, and
    lists its classes, and the nodes of each class, in the order of the
    decimal spellings of their ids. *)
Theorem json_round_trip d :
  serializable d ->
  exists d',
    data_of_json (json_of_data d) = JOk d' /\
    d_root_eclasses d' = d_root_eclasses d /\
    d_op d' = d_op d /\
    (forall nid, nodes_get (d_nodes d') nid = nodes_get (d_nodes d) nid) /\
    serializable d' /\
    in_file_order (d_nodes d').
Proof.
  intros Hd. destruct (round_trip_core d Hd) as (ks & out & Hp & Hs & HF & Heq).
  exists (mkData out (d_root_eclasses d) (d_op d)).
  split; [done|]. split; [done|]. split; [done|]. cbn [d_nodes].
  split; [|split].
  - intros nid. by apply (round_trip_lookup d ks).
  - by apply (round_trip_serializable d ks).
  - by apply (round_trip_file_order ks).
Qed.

(** X27. For such a description the round trip through a JSON document
    returns the description itself exactly when its classes, and the nodes
    of each class, are already stored in the order of the decimal spellings
    of their ids; otherwise they come back reordered. *)
Theorem json_round_trip_identity d :
  serializable d ->
  (data_of_json (json_of_data d) = JOk d <-> in_file_order (d_nodes d)).
Proof.
  intros Hd. destruct (round_trip_core d Hd) as (ks & out & Hp & Hs & HF & Heq).
  rewrite Heq. split.
  - intros [= Hout]. rewrite <- Hout. cbn [d_nodes].
    by apply (round_trip_file_order ks).
  - intros [Hc Hn].
    assert (ks = d_nodes d) as -> by (by apply (key_order_unique class_key)).
    assert (out = d_nodes d) as ->.
    { clear Heq Hp Hs Hc Hd. induction HF as [|[k es] [k' es'] ks out H _ IH].
      - done.
      - destruct H as (Hk & Hpi & Ho). cbn in Hk, Hpi, Ho. subst k'.
        f_equal.
        + f_equal. apply (key_order_unique node_key); [done|done|].
          apply (Hn k). left.
        + apply IH. intros c inner Hin. apply (Hn c). by right. }
    by destruct d.
Qed.

(** *** Examples *)

Lemma serializable_two_and_ten : serializable two_and_ten.
Proof.
  split; [vm_compute; repeat constructor; set_solver|].
  split; [by repeat constructor|].
  intros c inner Hin. vm_compute in Hin.
  repeat (apply elem_of_cons in Hin as [[= -> ->]|Hin];
          [split; [done|]; split; [done|];
           split; [vm_compute; repeat constructor; set_solver|];
           intros nid n Hn;
           repeat (apply elem_of_cons in Hn as [[= -> ->]|Hn];
                   [split; [done|]; split; [done|];
                    split; [done|]; split; [by repeat constructor|done]|]);
           by apply elem_of_nil in Hn|]).
  by apply elem_of_nil in Hin.
Qed.

Lemma json_round_trip_witness :
  serializable two_and_ten /\
  exists d',
    data_of_json (json_of_data two_and_ten) = JOk d' /\
    d_root_eclasses d' = d_root_eclasses two_and_ten /\
    d_op d' = d_op two_and_ten /\
    (forall nid,
       nodes_get (d_nodes d') nid = nodes_get (d_nodes two_and_ten) nid) /\
    serializable d' /\
    in_file_order (d_nodes d').
Proof.
  split; [exact serializable_two_and_ten|].
  exact (json_round_trip two_and_ten serializable_two_and_ten).
Defined.

Lemma json_round_trip_identity_witness :
  serializable two_and_ten /\
  (data_of_json (json_of_data two_and_ten) = JOk two_and_ten <->
   in_file_order (d_nodes two_and_ten)).
Proof.
  split; [exact serializable_two_and_ten|].
  exact (json_round_trip_identity two_and_ten serializable_two_and_ten).
Defined.

(** *** Reading any document *)

Lemma jbind_ok {A B} (m : jres A) (k : A -> jres B) b :
  jbind m k = JOk b -> exists a, m = JOk a /\ k a = JOk b.
Proof. destruct m as [a|e]; [|done]. intros H. by exists a. Qed.

Lemma jfor_each_inv {A S} (I : S -> Prop) (f : A -> S -> jres S) l :
  (forall a s s', a ∈ l -> f a s = JOk s' -> I s -> I s') ->
  forall s s', jfor_each f l s = JOk s' -> I s -> I s'.
Proof.
  induction l as [|a l IH]; intros Hf s s' Hrun Hs.
  - by injection Hrun as <-.
  - cbn [jfor_each] in Hrun. apply jbind_ok in Hrun as (s1 & H1 & Hrun).
    eapply IH; [|exact Hrun|].
    + intros a' t t' Ha'. apply Hf. by right.
    + eapply Hf; [left|exact H1|exact Hs].
Qed.

Lemma jmap_Forall {A B} (P : B -> Prop) (f : A -> jres B) l :
  (forall a b, f a = JOk b -> P b) ->
  forall bs, jmap f l = JOk bs -> Forall P bs.
Proof.
  intros Hf. induction l as [|a l IH]; intros bs Hrun.
  - injection Hrun as <-. constructor.
  - cbn [jmap] in Hrun. apply jbind_ok in Hrun as (b & Hb & Hrun).
    apply jbind_ok in Hrun as (bs' & Hbs & [= <-]).
    constructor; [by eapply Hf|by apply IH].
Qed.

Lemma get_uint32_bound j n : j_get_uint32 j = JOk n -> (n <= UINT_MAX)%N.
Proof.
  unfold UINT_MAX. destruct j as [|b|z|m|q|s|l|m]; cbn [j_get_uint32]; try done.
  - destruct b; intros [= <-]; lia.
  - intros [= <-]. pose proof (Z.mod_pos_bound z (2 ^ 32)). lia.
  - intros [= <-]. pose proof (N.mod_lt m (2 ^ 32)). lia.
  - destruct (_ && _) eqn:E; [|done]. intros [= <-].
    apply andb_true_iff in E as [E1 E2]. lia.
Qed.

Lemma id_of_json_bound f j n : id_of_json f j = JOk n -> (n <= UINT_MAX)%N.
Proof.
  destruct j as [|b|z|m|q|s|l|m]; cbn [id_of_json]; try done;
    try apply get_uint32_bound.
  destruct (stoul s) as [[ul pos]|[]]; try done.
  destruct (negb _); [done|].
  destruct (N.ltb_spec UINT_MAX ul); [done|]. by intros [= <-].
Qed.

Lemma key_to_uint_bound k n : key_to_uint k = JOk n -> (n <= UINT_MAX)%N.
Proof.
  unfold key_to_uint. intros H. apply jbind_ok in H as ([ul pos] & _ & [= <-]).
  unfold UINT_MAX. pose proof (N.mod_lt ul (2 ^ 32)). lia.
Qed.

Lemma node_of_json_fits j n : node_of_json j = JOk n -> node_fits n.
Proof.
  unfold node_of_json. intros H.
  apply jbind_ok in H as (j1 & _ & H). apply jbind_ok in H as (o & Ho & H).
  apply jbind_ok in H as (j2 & _ & H). apply jbind_ok in H as (ch & Hch & H).
  apply jbind_ok in H as (j3 & _ & H). apply jbind_ok in H as (ec & Hec & H).
  apply jbind_ok in H as (j4 & _ & H). apply jbind_ok in H as (co & _ & H).
  injection H as <-. split; [|split]; cbn.
  - by eapply get_uint32_bound.
  - destruct j2; try done. cbn [j_get_vector] in Hch.
    eapply jmap_Forall; [|exact Hch]. apply get_uint32_bound.
  - by eapply id_of_json_bound.
Qed.

Lemma emplace_node_inv c num2 node (ns : nodes_map) :
  (c <= UINT_MAX)%N -> (num2 <= UINT_MAX)%N -> node_fits node ->
  serializable (mkData ns [] []) ->
  serializable (mkData (emplace_node c (c, num2) node ns) [] []).
Proof.
  intros Hc Hn Hfit (Hnd & _ & Hok). cbn [d_nodes] in *.
  split; [|split; [constructor|]]; cbn [d_nodes].
  - by apply om_set_keys_NoDup.
  - intros c' inner Hin. unfold emplace_node in Hin.
    apply om_set_elem in Hin as [[-> ->]|Hin]; [|by apply Hok].
    split; [done|].
    assert (Hold : (forall old, om_find c ns = Some old ->
                      old <> [] /\ NoDup (om_keys old) /\
                      forall nid n, (nid, n) ∈ old ->
                        fst nid = c /\ (snd nid <= UINT_MAX)%N /\ node_fits n)).
    { intros old Ho. apply om_find_Some_elem in Ho.
      by destruct (Hok _ _ Ho) as (_ & ? & ? & ?). }
    destruct (om_find c ns) as [old|]; cbn [default]; unfold id.
    + destruct (Hold old eq_refl) as (Hne & Hndo & Hall). unfold om_insert.
      destruct (om_find (c, num2) old) eqn:E;
        [exact (conj Hne (conj Hndo Hall))|].
      split; [by destruct old|]. split.
      * unfold om_keys in *. rewrite map_app. apply NoDup_app.
        split; [done|]. split; [|apply NoDup_singleton].
        intros x Hx Hx'. apply list_elem_of_singleton in Hx' as ->.
        by apply om_find_None_notin in E.
      * intros nid n He. apply elem_of_app in He as [He|He]; [by apply Hall|].
        by apply list_elem_of_singleton in He as [= -> ->].
    + unfold om_insert. cbn [om_find app]. split; [done|]. split.
      * apply NoDup_singleton.
      * intros nid n He. by apply list_elem_of_singleton in He as [= -> ->].
Qed.

Lemma read_class_inv outer (ns ns' : nodes_map) :
  read_class outer ns = JOk ns' ->
  serializable (mkData ns [] []) -> serializable (mkData ns' [] []).
Proof.
  unfold read_class. intros H. apply jbind_ok in H as (num1 & H1 & H).
  apply key_to_uint_bound in H1. revert ns ns' H.
  apply (jfor_each_inv (fun ns => serializable (mkData ns [] []))).
  intros inner s s' _ Hb Hs.
  apply jbind_ok in Hb as (num2 & H2 & Hb).
  apply jbind_ok in Hb as (node & Hnode & [= <-]).
  apply emplace_node_inv; [done| | |done].
  - by eapply key_to_uint_bound.
  - by eapply node_of_json_fits.
Qed.

(** X28. Whatever document [from_json] accepts, the description it builds
    is well formed (class keys unique, node ids unique within a class and
    carrying the class they are stored under), has no empty class and only
    numbers that fit [unsigned int]: it can be written back without loss. *)
Theorem from_json_well_formed j d :
  data_of_json j = JOk d -> wf_data d /\ serializable d.
Proof.
  unfold data_of_json. intros H.
  apply jbind_ok in H as (nodes_json & _ & H).
  apply jbind_ok in H as (ns & Hns & H).
  apply jbind_ok in H as (rj & _ & H).
  apply jbind_ok in H as (roots & Hroots & H).
  apply jbind_ok in H as (oj & _ & H).
  apply jbind_ok in H as (ops & _ & [= <-]).
  assert (Hs : serializable (mkData ns [] [])).
  { refine (jfor_each_inv (fun ns => serializable (mkData ns [] []))
                            read_class _ _ _ _ Hns _).
    - intros outer s s' _. apply read_class_inv.
    - split; [constructor|]. split; [constructor|].
      intros c inner Hin. by apply elem_of_nil in Hin. }
  destruct Hs as (Hnd & _ & Hok). cbn [d_nodes] in *. split.
  - split; [done|]. cbn [d_nodes]. intros c inner Hin.
    destruct (Hok _ _ Hin) as (_ & _ & Hndi & Hall). split; [done|].
    intros nid Hnid. apply list_elem_of_fmap in Hnid as ([nid' n] & -> & He).
    by destruct (Hall _ _ He).
  - split; [done|]. split; [|done]. cbn [d_root_eclasses].
    eapply jmap_Forall; [|exact Hroots]. apply id_of_json_bound.
Qed.

Lemma from_json_well_formed_witness :
  exists d,
    data_of_json spelled_twice = JOk d /\ wf_data d /\ serializable d.
Proof.
  assert (E : data_of_json spelled_twice =
              JOk (mkData [(1%N, [((1%N, 0%N), leaf 1 1);
                                  ((1%N, 1%N), mkNode 0 [1%N] 1 2)])]
                          [1%N] ["f"%string]))
    by (vm_compute; reflexivity).
  eexists. split; [exact E|].
  exact (from_json_well_formed _ _ E).
Defined.

(** X29. A class id beyond the range of [unsigned int] is refused when the
    document spells it as a decimal string, and silently reduced modulo
    2^32 when the document gives it as a number; within the range both
    spellings read as the same id. *)
Theorem id_string_vs_number f n :
  id_of_json f (JString (to_string n)) =
    (if (n <=? UINT_MAX)%N then JOk n
     else JThrow (IdError f ExceedsUnsigned)) /\
  id_of_json f (JUInt n) = JOk (n mod 2 ^ 32)%N.
Proof.
  split; [|done]. cbn [id_of_json]. rewrite stoul_to_string_any.
  destruct (N.ltb_spec ULONG_MAX n) as [Hbig|Hsmall].
  - replace (n <=? UINT_MAX)%N with false; [done|].
    symmetry. apply N.leb_gt. unfold ULONG_MAX, UINT_MAX in *. lia.
  - rewrite Nat.eqb_refl. cbn [negb].
    destruct (N.ltb_spec UINT_MAX n), (N.leb_spec n UINT_MAX); done || lia.
Qed.
